(** * sumpy: kernels, PDE-reduced Taylor bases and the multi-index derivative cache

    A shallow embedding of [sumpy/kernel.py], [sumpy/expansion/__init__.py]
    and the multi-index helpers of [sumpy/tools.py].

    Conventions.
    - Python [int] is [Z]; [len(..)] and loop counters over [range(len ..)]
      are [nat].
    - A multi-index (a Python tuple of ints) is a [list Z].
    - A Python [dict] is an association list kept in insertion order, the
      order in which its keys are iterated; a store to an existing key
      keeps the key's position.
    - A Python object that is compared with [is] or the default [==]
      carries its identity.
    - A call that may raise returns a [result].
    - A numpy integer array holds signed 64-bit integers.  The modules
      [Laplace], [Helmholtz] and [Tools] compute with exact integers; the
      modules [Laplace64], [Helmholtz64] and [Tools64] follow numpy's
      arithmetic, and agree with them as long as no entry leaves the
      64-bit range. *)

From Stdlib Require Import String.
From Stdlib Require Import ZArith List Bool Lia Arith PeanoNat.
From Stdlib Require Import Permutation Sorting.Sorted.
From Stdlib Require Import Reals.
Import ListNotations.

Set Implicit Arguments.
Open Scope Z_scope.

(** ** Python results and exceptions *)

Module Py.

Inductive exn : Type :=
| ValueError
| IndexError
| KeyError
| RuntimeError
| NotImplementedError
| OverflowError.

Inductive result (A : Type) : Type :=
| Ok (a : A)
| Raise (e : exn).

Arguments Ok {A} a.
Arguments Raise {A} e.

Definition bind {A B : Type} (r : result A) (k : A -> result B) : result B :=
  match r with
  | Ok a => k a
  | Raise e => Raise e
  end.

End Py.

Import Py.

Notation "x <- c1 ;; c2" := (Py.bind c1 (fun x => c2))
  (at level 61, c1 at next level, right associativity).

(** A multi-index: one derivative order per axis. *)
Definition mi : Type := list Z.

Definition mi_eq_dec : forall a b : mi, {a = b} + {a <> b} :=
  list_eq_dec Z.eq_dec.

Definition mi_eqb (a b : mi) : bool :=
  if mi_eq_dec a b then true else false.

(** ** The numpy operations the sources rely on (1-d integer arrays) *)

Module Np.

(** [a[i] += v] on an array; numpy raises IndexError out of range. *)
Fixpoint add_at (a : list Z) (i : nat) (v : Z) : result (list Z) :=
  match a, i with
  | [], _ => Raise IndexError
  | x :: rest, O => Ok ((x + v) :: rest)
  | x :: rest, S i' => r <- add_at rest i' v ;; Ok (x :: r)
  end.

(** [a[i] = v]. *)
Fixpoint set_at {A : Type} (a : list A) (i : nat) (v : A) : result (list A) :=
  match a, i with
  | [], _ => Raise IndexError
  | _ :: rest, O => Ok (v :: rest)
  | x :: rest, S i' => r <- set_at rest i' v ;; Ok (x :: r)
  end.

(** [np.zeros(n, dtype=object)]. *)
Definition zeros (n : nat) : list Z := repeat 0 n.

(** [np.nonzero(2 <= a)[0]]: the positions, in increasing order, whose
    entry is at least 2. *)
Fixpoint nonzero_ge2_from (i : nat) (a : list Z) : list nat :=
  match a with
  | [] => []
  | x :: rest =>
      if 2 <=? x then i :: nonzero_ge2_from (S i) rest
      else nonzero_ge2_from (S i) rest
  end.

Definition nonzero_ge2 (a : list Z) : list nat := nonzero_ge2_from 0 a.

Fixpoint zip_with {A B C : Type} (f : A -> B -> C) (a : list A) (b : list B)
  : list C :=
  match a, b with
  | x :: a', y :: b' => f x y :: zip_with f a' b'
  | _, _ => []
  end.

(** An elementwise binary operation on two 1-d arrays, with numpy's
    broadcasting: equal lengths go pointwise, a length-1 array is stretched,
    any other pair of shapes raises ValueError. *)
Definition broadcast2 {C : Type} (f : Z -> Z -> C) (a b : list Z)
  : result (list C) :=
  if Nat.eqb (length a) (length b) then Ok (zip_with f a b)
  else match a, b with
       | [x], _ => Ok (map (f x) b)
       | _, [y] => Ok (map (fun x => f x y) a)
       | _, _ => Raise ValueError
       end.

(** Python's [sum] over an integer array. *)
Definition sum (a : list Z) : Z := fold_left Z.add a 0.

End Np.

(** ** numpy's 64-bit integers

    [np.array] of a tuple of Python ints, and [np.array(.., dtype=int)],
    hold signed 64-bit integers (numpy's default integer where a C long has
    64 bits).  Arithmetic on such an array and on its scalars keeps the low
    64 bits of the exact result; a Python int that does not fit cannot be
    stored. *)

Module Int64.

Definition min_int : Z := - 2 ^ 63.
Definition max_int : Z := 2 ^ 63 - 1.

(** Whether a Python int fits a signed 64-bit integer. *)
Definition fits (z : Z) : bool := (min_int <=? z) && (z <=? max_int).

(** What a 64-bit addition or subtraction keeps of the exact result [z]. *)
Definition wrap (z : Z) : Z := (z + 2 ^ 63) mod 2 ^ 64 - 2 ^ 63.

(** [np.array(t, dtype=int)] of a tuple of Python ints: OverflowError when
    an entry does not fit. *)
Definition array_int (t : list Z) : result (list Z) :=
  if forallb fits t then Ok t else Raise OverflowError.

(** [np.array(t)] of a tuple of Python ints: a 64-bit integer array when
    every entry fits.  Otherwise numpy picks another element type (unsigned,
    floating point or Python objects); that case is None and is not
    followed further. *)
Definition array (t : list Z) : option (list Z) :=
  if forallb fits t then Some t else None.

(** [a[i] += v] on a 64-bit array; IndexError out of range. *)
Fixpoint add_at (a : list Z) (i : nat) (v : Z) : result (list Z) :=
  match a, i with
  | [], _ => Raise IndexError
  | x :: rest, O => Ok (wrap (x + v) :: rest)
  | x :: rest, S i' => r <- add_at rest i' v ;; Ok (x :: r)
  end.

(** Python's [sum] over the scalars of a 64-bit array: starting from 0,
    each addition is a 64-bit one. *)
Definition sum (a : list Z) : Z :=
  fold_left (fun acc x => wrap (acc + x)) a 0.

End Int64.

(** [list.index]: the first position holding [x], or None where Python
    raises ValueError. *)
Fixpoint list_index (x : mi) (l : list mi) : option nat :=
  match l with
  | [] => None
  | y :: rest =>
      if mi_eq_dec y x then Some O
      else match list_index x rest with
           | Some i => Some (S i)
           | None => None
           end
  end.

(** ** sumpy/expansion/__init__.py: the Laplace recurrence oracle

    The arithmetic of this module is exact.  [Laplace64] below is the oracle
    on numpy's 64-bit arrays; the two agree on multi-indices whose entries
    lie between [-2^63] and [2^63-3]. *)

Module Laplace.

(** The inner loop over [other_dim in range(self.kernel.dim)] that collects
    [needed_derivs]. *)
Fixpoint needed_loop (reduced_deriv : list Z) (dim : nat) (others : list nat)
  : result (list mi) :=
  match others with
  | [] => Ok []
  | other_dim :: rest =>
      if Nat.eqb other_dim dim then needed_loop reduced_deriv dim rest
      else
        needed_deriv <- Np.add_at reduced_deriv other_dim 2 ;;
        tl <- needed_loop reduced_deriv dim rest ;;
        Ok (needed_deriv :: tl)
  end.

(** The body of the [try:] block.  [Ok None] stands for the caught
    ValueError of [in_terms_of.index]; an IndexError of the store into
    [expr] is not caught and propagates. *)
Fixpoint fill_loop (in_terms_of : list mi) (needed_derivs : list mi)
    (expr : list Z) : result (option (list Z)) :=
  match needed_derivs with
  | [] => Ok (Some expr)
  | needed_deriv :: rest =>
      match list_index needed_deriv in_terms_of with
      | None => Ok None
      | Some deriv_idx =>
          expr' <- Np.set_at expr deriv_idx (-1) ;;
          fill_loop in_terms_of rest expr'
      end
  end.

(** The outer loop [for dim in np.nonzero(2 <= deriv)[0]].  Falling off the
    end of the loop returns Python's None. *)
Fixpoint axes_loop (kernel_dim : nat) (deriv : list Z) (in_terms_of : list mi)
    (ncoeffs : nat) (axes : list nat) : result (option (list Z)) :=
  match axes with
  | [] => Ok None
  | dim :: rest =>
      reduced_deriv <- Np.add_at deriv dim (-2) ;;
      needed_derivs <- needed_loop reduced_deriv dim (seq 0 kernel_dim) ;;
      r <- fill_loop in_terms_of needed_derivs (Np.zeros ncoeffs) ;;
      match r with
      | Some expr => Ok (Some expr)
      | None => axes_loop kernel_dim deriv in_terms_of ncoeffs rest
      end
  end.

(** [LaplaceConformingVolumeTaylorExpansion.try_get_recurrence_for_derivative].
    [kernel_dim] is [self.kernel.dim]. *)
Definition try_get_recurrence_for_derivative (kernel_dim : nat)
    (deriv : mi) (in_terms_of : list mi) (ncoeffs : nat)
  : result (option (list Z)) :=
  axes_loop kernel_dim deriv in_terms_of ncoeffs (Np.nonzero_ge2 deriv).

End Laplace.

(** ** The Laplace recurrence oracle on 64-bit arrays

    [Laplace] above computes with exact integers.  The source converts
    [deriv] with [np.array], so that [-= 2] and [+= 2] are 64-bit
    operations; this module follows that. *)

Module Laplace64.

(** The inner loop over [other_dim in range(self.kernel.dim)];
    [needed_deriv[other_dim] += 2] is a 64-bit addition. *)
Fixpoint needed_loop (reduced_deriv : list Z) (dim : nat) (others : list nat)
  : result (list mi) :=
  match others with
  | [] => Ok []
  | other_dim :: rest =>
      if Nat.eqb other_dim dim then needed_loop reduced_deriv dim rest
      else
        needed_deriv <- Int64.add_at reduced_deriv other_dim 2 ;;
        tl <- needed_loop reduced_deriv dim rest ;;
        Ok (needed_deriv :: tl)
  end.

(** The outer loop [for dim in np.nonzero(2 <= deriv)[0]]; the [try:] block
    is [Laplace.fill_loop], which compares tuples and stores into an object
    array. *)
Fixpoint axes_loop (kernel_dim : nat) (deriv : list Z) (in_terms_of : list mi)
    (ncoeffs : nat) (axes : list nat) : result (option (list Z)) :=
  match axes with
  | [] => Ok None
  | dim :: rest =>
      reduced_deriv <- Int64.add_at deriv dim (-2) ;;
      needed_derivs <- needed_loop reduced_deriv dim (seq 0 kernel_dim) ;;
      r <- Laplace.fill_loop in_terms_of needed_derivs (Np.zeros ncoeffs) ;;
      match r with
      | Some expr => Ok (Some expr)
      | None => axes_loop kernel_dim deriv in_terms_of ncoeffs rest
      end
  end.

(** [LaplaceConformingVolumeTaylorExpansion.try_get_recurrence_for_derivative]
    for a tuple [deriv] of Python ints.  The outer None is the case in which
    [np.array(deriv)] is not a 64-bit integer array. *)
Definition try_get_recurrence_for_derivative (kernel_dim : nat)
    (deriv : mi) (in_terms_of : list mi) (ncoeffs : nat)
  : option (result (option (list Z))) :=
  match Int64.array deriv with
  | None => None
  | Some deriv =>
      Some (axes_loop kernel_dim deriv in_terms_of ncoeffs
              (Np.nonzero_ge2 deriv))
  end.

End Laplace64.

(** ** sumpy/expansion/__init__.py: coefficient identifiers and the
       reduction matrix *)

Module Expansion.

(** [range(n)] for a Python int [n]. *)
Definition range (n : Z) : list Z := map Z.of_nat (seq 0 (Z.to_nat n)).

(** Modelled from the spec: pytools'
    [generate_nonnegative_integer_tuples_summing_to_at_most] is imported by
    [get_full_coefficient_identifiers] and is not among the sources.  It
    yields every tuple of [length] non-negative integers with total at most
    [n], the last entry varying slowest. *)
Fixpoint gnitstam (n : Z) (length : nat) : list mi :=
  match length with
  | O => [[]]
  | S length' =>
      flat_map
        (fun i => map (fun base => base ++ [i]) (gnitstam (n - i) length'))
        (range (n + 1))
  end.

(** Python's [sorted(.., key=..)] is stable: an element goes after every
    earlier element whose key is not larger. *)
Fixpoint insert_by_key (key : mi -> Z) (x : mi) (l : list mi) : list mi :=
  match l with
  | [] => [x]
  | y :: rest =>
      if key x <? key y then x :: y :: rest
      else y :: insert_by_key key x rest
  end.

Definition sorted (l : list mi) (key : mi -> Z) : list mi :=
  fold_left (fun acc x => insert_by_key key x acc) l [].

(** [VolumeTaylorExpansionBase.get_full_coefficient_identifiers]. *)
Definition get_full_coefficient_identifiers (order : Z) (kernel_dim : nat)
  : list mi :=
  sorted (gnitstam order kernel_dim) Np.sum.

Section LinearRecurrence.

(** The entries of the reduction matrix: Python ints for the Laplace rule,
    symbolic polynomials in the wave number for the Helmholtz rule. *)
Variable K : Type.
Variables (rzero rone : K) (radd rmul : K -> K -> K).

(** [self.try_get_recurrence_for_derivative(identifier, identifiers_so_far,
    ncoeffs)], supplied by the subclass. *)
Variable oracle : mi -> list mi -> nat -> result (option (list K)).

(** What ends up in the Python list [coeff_matrix]: a 1-d array, or the 0-d
    value numpy's [dot] gives for two 1-d operands. *)
Inductive ndarray : Type :=
| Scalar (x : K)
| Vec (l : list K).

Definition width (a : ndarray) : nat :=
  match a with
  | Scalar _ => 1%nat
  | Vec l => length l
  end.

Definition to_row (a : ndarray) : list K :=
  match a with
  | Scalar x => [x]
  | Vec l => l
  end.

Fixpoint as_scalars (rows : list ndarray) : option (list K) :=
  match rows with
  | [] => Some []
  | Scalar x :: rest =>
      match as_scalars rest with
      | Some xs => Some (x :: xs)
      | None => None
      end
  | Vec _ :: _ => None
  end.

Fixpoint as_vectors (w : nat) (rows : list ndarray) : option (list (list K)) :=
  match rows with
  | [] => Some []
  | Vec l :: rest =>
      if Nat.eqb (length l) w then
        match as_vectors w rest with
        | Some ls => Some (l :: ls)
        | None => None
        end
      else None
  | Scalar _ :: _ => None
  end.

(** Sum of products of two 1-d arrays of one length. *)
Definition dot1 (a b : list K) : K :=
  fold_left radd (Np.zip_with rmul a b) rzero.

(** Entry [c] of [dot(transpose(rows), v)] is the sum over [i] of
    [rows[i][c] * v[i]]. *)
Definition dot_columns (w : nat) (rows : list (list K)) (v : list K) : list K :=
  map (fun c => dot1 (map (fun row => nth c row rzero) rows) v) (seq 0 w).

(** [np.dot(np.transpose(coeff_matrix), v)] for the Python list
    [coeff_matrix].  A list of equally long 1-d rows is a 2-d array; a list
    of 0-d values (the empty list included) is a 1-d array, which transpose
    leaves alone; numpy refuses anything else as ragged.  A length mismatch
    between the operands raises ValueError. *)
Definition dot_transpose (coeff_matrix : list ndarray) (v : list K)
  : result ndarray :=
  match as_scalars coeff_matrix with
  | Some xs =>
      if Nat.eqb (length v) (length xs) then Ok (Scalar (dot1 xs v))
      else Raise ValueError
  | None =>
      match coeff_matrix with
      | Vec l0 :: _ =>
          match as_vectors (length l0) coeff_matrix with
          | Some rows =>
              if Nat.eqb (length v) (length rows)
              then Ok (Vec (dot_columns (length l0) rows v))
              else Raise ValueError
          | None => Raise ValueError
          end
      | _ => Raise ValueError
      end
  end.

(** [np.vstack(coeff_matrix)]: every entry becomes one row, and the rows
    must agree in width; an empty list is refused. *)
Definition vstack (coeff_matrix : list ndarray) : result (list (list K)) :=
  match coeff_matrix with
  | [] => Raise ValueError
  | a0 :: _ =>
      if forallb (fun a => Nat.eqb (width a) (width a0)) coeff_matrix
      then Ok (map to_row coeff_matrix)
      else Raise ValueError
  end.

Record loop_state : Type := {
  stored_identifiers : list mi;
  identifiers_so_far : list mi;
  coeff_matrix : list ndarray
}.

(** One pass through the body of [for identifier in ...]. *)
Definition loop_body (ncoeffs : nat) (st : loop_state) (identifier : mi)
  : result loop_state :=
  expr <- oracle identifier (identifiers_so_far st) ncoeffs ;;
  match expr with
  | None =>
      row <- Np.set_at (repeat rzero ncoeffs)
               (length (stored_identifiers st)) rone ;;
      Ok {| stored_identifiers := stored_identifiers st ++ [identifier];
            identifiers_so_far := identifiers_so_far st ++ [identifier];
            coeff_matrix := coeff_matrix st ++ [Vec row] |}
  | Some expr =>
      let ncoeffs_so_far := length (coeff_matrix st) in
      row <- dot_transpose (coeff_matrix st) (firstn ncoeffs_so_far expr) ;;
      Ok {| stored_identifiers := stored_identifiers st;
            identifiers_so_far := identifiers_so_far st ++ [identifier];
            coeff_matrix := coeff_matrix st ++ [row] |}
  end.

Fixpoint loop (ncoeffs : nat) (st : loop_state) (identifiers : list mi)
  : result loop_state :=
  match identifiers with
  | [] => Ok st
  | identifier :: rest =>
      st' <- loop_body ncoeffs st identifier ;;
      loop ncoeffs st' rest
  end.

(** The part of [precompute_coeff_matrix] after the identifiers are known;
    the result is [(self.stored_identifiers, self.coeff_matrix)]. *)
Definition precompute_over (full : list mi)
  : result (list mi * list (list K)) :=
  let ncoeffs := length full in
  st <- loop ncoeffs
          {| stored_identifiers := []; identifiers_so_far := [];
             coeff_matrix := [] |} full ;;
  let ncols := length (stored_identifiers st) in
  m <- vstack (coeff_matrix st) ;;
  Ok (stored_identifiers st, map (firstn ncols) m).

(** [LinearRecurrenceBasedVolumeTaylorExpansion.precompute_coeff_matrix]. *)
Definition precompute_coeff_matrix (order : Z) (kernel_dim : nat)
  : result (list mi * list (list K)) :=
  precompute_over (get_full_coefficient_identifiers order kernel_dim).

End LinearRecurrence.

(** [LaplaceConformingVolumeTaylorExpansion]: integer entries and the
    Laplace oracle. *)
Definition laplace_precompute_coeff_matrix (order : Z) (kernel_dim : nat)
  : result (list mi * list (list Z)) :=
  precompute_coeff_matrix 0 1 Z.add Z.mul
    (Laplace.try_get_recurrence_for_derivative kernel_dim) order kernel_dim.

End Expansion.

(** ** sumpy/tools.py: the multi-index derivative takers

    The distances, sums and steps of this module are computed with exact
    integers.  [Tools64] below does them on numpy's 64-bit arrays; the two
    agree on requests without negative entries whose entries add up to at
    most [2^63-2]. *)

Module Tools.

Section Dict.

Variable V : Type.

(** A dict keyed by multi-indices, in insertion order. *)
Definition dict : Type := list (mi * V).

Fixpoint dict_get (d : dict) (k : mi) : option V :=
  match d with
  | [] => None
  | (k', v) :: rest => if mi_eq_dec k' k then Some v else dict_get rest k
  end.

(** [d[k] = v]. *)
Fixpoint dict_set (d : dict) (k : mi) (v : V) : dict :=
  match d with
  | [] => [(k, v)]
  | (k', v') :: rest =>
      if mi_eq_dec k' k then (k', v) :: rest
      else (k', v') :: dict_set rest k v
  end.

Definition dict_keys (d : dict) : list mi := map fst d.

End Dict.

(** [MiDerivativeTaker.mi_dist]: [np.array(a) - np.array(b)]. *)
Definition mi_dist (a b : mi) : result (list Z) :=
  Np.broadcast2 Z.sub a b.

(** [(np.array(mi) >= np.array(other_mi)).all()]. *)
Definition dominates (m other_mi : mi) : result bool :=
  r <- Np.broadcast2 Z.geb m other_mi ;;
  Ok (forallb (fun b => b) r).

(** The scan of [min(.., key=..)] over the filtered keys: [best] is the
    smallest candidate so far with its key, replaced only by a strictly
    smaller one. *)
Fixpoint closest_scan (m : mi) (keys : list mi) (best : option (mi * Z))
  : result (option (mi * Z)) :=
  match keys with
  | [] => Ok best
  | other_mi :: rest =>
      ok <- dominates m other_mi ;;
      if ok : bool then
        d <- mi_dist m other_mi ;;
        let key := Np.sum d in
        match best with
        | None => closest_scan m rest (Some (other_mi, key))
        | Some (_, best_key) =>
            if key <? best_key
            then closest_scan m rest (Some (other_mi, key))
            else closest_scan m rest best
        end
      else closest_scan m rest best
  end.

(** [MiDerivativeTaker.get_closest_cached_mi]; [min] of an empty sequence
    raises ValueError. *)
Definition get_closest_cached_mi {V : Type} (cache_by_mi : dict V) (m : mi)
  : result mi :=
  r <- closest_scan m (dict_keys cache_by_mi) None ;;
  match r with
  | Some (other_mi, _) => Ok other_mi
  | None => Raise ValueError
  end.

Section Takers.

(** Symbolic expressions and the variables one differentiates by. *)
Variables Expr Var : Type.
(** [expr.diff(var)]. *)
Variable ediff : Expr -> Var -> Expr.

(** What a generator hands out: the values it yields and, when its body
    raises instead of finishing, the exception that ends the iteration. *)
Definition generated (A : Type) : Type := (list A * option exn)%type.

(** The inner loop [for i in range(1, 1 + mi_i)] at axis [idx]: the yielded
    pairs and [current_mi] afterwards. *)
Fixpoint steps_on_axis (count : nat) (idx : nat) (vec_i : Var)
    (current_mi : list Z) : list (Var * mi) * result (list Z) :=
  match count with
  | O => ([], Ok current_mi)
  | S count' =>
      match Np.add_at current_mi idx 1 with
      | Raise e => ([], Raise e)
      | Ok current_mi' =>
          let '(ys, r) := steps_on_axis count' idx vec_i current_mi' in
          ((vec_i, current_mi') :: ys, r)
      end
  end.

(** The outer loop over [enumerate(zip(dist, self.var_list))]. *)
Fixpoint steps_from (idx : nat) (pairs : list (Z * Var)) (current_mi : list Z)
  : generated (Var * mi) :=
  match pairs with
  | [] => ([], None)
  | (mi_i, vec_i) :: rest =>
      match steps_on_axis (Z.to_nat mi_i) idx vec_i current_mi with
      | (ys, Raise e) => (ys, Some e)
      | (ys, Ok current_mi') =>
          let '(zs, e) := steps_from (S idx) rest current_mi' in
          (ys ++ zs, e)
      end
  end.

(** [MiDerivativeTaker.get_derivative_taking_sequence]. *)
Definition get_derivative_taking_sequence (var_list : list Var)
    (start_mi end_mi : mi) : generated (Var * mi) :=
  match mi_dist end_mi start_mi with
  | Raise e => ([], Some e)
  | Ok dist => steps_from 0 (combine dist var_list) start_mi
  end.

(** [MiDerivativeTaker.__init__]: the cache starts with the all-zeros
    multi-index mapped to the expression. *)
Definition init (expr : Expr) (var_list : list Var) : dict Expr :=
  [(repeat 0 (length var_list), expr)].

(** The [for next_deriv, next_mi in ..] loop of [MiDerivativeTaker.diff]. *)
Fixpoint diff_loop (steps : list (Var * mi)) (expr : Expr)
    (cache_by_mi : dict Expr) : Expr * dict Expr :=
  match steps with
  | [] => (expr, cache_by_mi)
  | (next_deriv, next_mi) :: rest =>
      let expr' := ediff expr next_deriv in
      diff_loop rest expr' (dict_set cache_by_mi next_mi expr')
  end.

(** [MiDerivativeTaker.diff]: the result (or the exception) and the cache
    the call leaves behind. *)
Definition diff (var_list : list Var) (cache_by_mi : dict Expr) (m : mi)
  : result Expr * dict Expr :=
  match dict_get cache_by_mi m with
  | Some expr => (Ok expr, cache_by_mi)
  | None =>
      match get_closest_cached_mi cache_by_mi m with
      | Raise e => (Raise e, cache_by_mi)
      | Ok current_mi =>
          match dict_get cache_by_mi current_mi with
          | None => (Raise KeyError, cache_by_mi)
          | Some expr =>
              let '(steps, e) :=
                get_derivative_taking_sequence var_list current_mi m in
              let '(expr', cache') := diff_loop steps expr cache_by_mi in
              match e with
              | Some e => (Raise e, cache')
              | None => (Ok expr', cache')
              end
          end
      end
  end.

(** The caches a [MiDerivativeTaker] can hold: the one [__init__] builds, and
    the one any call of [diff] leaves. *)
Inductive reachable (expr : Expr) (var_list : list Var) : dict Expr -> Prop :=
| reachable_init : reachable expr var_list (init expr var_list)
| reachable_diff (cache_by_mi : dict Expr) (m : mi) :
    reachable expr var_list cache_by_mi ->
    reachable expr var_list (snd (diff var_list cache_by_mi m)).

(** *** LinearRecurrenceBasedMiDerivativeTaker *)

(** Coefficients of a recurrence, [coeff * expr] and [Add( *terms)]. *)
Variable Coeff : Type.
Variable emul : Coeff -> Expr -> Expr.
Variable eadd : list Expr -> Expr.

(** [self.wrangler.try_get_recurrence_for_derivative(next_mi,
    self.cache_by_mi)]: None, or a dict from multi-indices to coefficients,
    given here in the order [iteritems] lists it. *)
Variable wrangler : mi -> dict Expr -> result (option (list (mi * Coeff))).

(** The generator expression [coeff * self.cache_by_mi[ident] for ident,
    coeff in iteritems(recurrence)]; a multi-index missing from the cache
    raises KeyError. *)
Fixpoint recurrence_terms (cache_by_mi : dict Expr)
    (recurrence : list (mi * Coeff)) : result (list Expr) :=
  match recurrence with
  | [] => Ok []
  | (ident, coeff) :: rest =>
      match dict_get cache_by_mi ident with
      | None => Raise KeyError
      | Some e =>
          tl <- recurrence_terms cache_by_mi rest ;;
          Ok (emul coeff e :: tl)
      end
  end.

(** The loop of [LinearRecurrenceBasedMiDerivativeTaker.diff]. *)
Fixpoint rec_diff_loop (steps : list (Var * mi)) (expr : Expr)
    (cache_by_mi : dict Expr) : result Expr * dict Expr :=
  match steps with
  | [] => (Ok expr, cache_by_mi)
  | (next_deriv, next_mi) :: rest =>
      match wrangler next_mi cache_by_mi with
      | Raise e => (Raise e, cache_by_mi)
      | Ok (Some recurrence) =>
          match recurrence_terms cache_by_mi recurrence with
          | Raise e => (Raise e, cache_by_mi)
          | Ok terms =>
              let expr' := eadd terms in
              rec_diff_loop rest expr' (dict_set cache_by_mi next_mi expr')
          end
      | Ok None =>
          let expr' := ediff expr next_deriv in
          rec_diff_loop rest expr' (dict_set cache_by_mi next_mi expr')
      end
  end.

(** The body of [LinearRecurrenceBasedMiDerivativeTaker.diff], below the
    [memoize_method] decorator. *)
Definition rec_diff_body (var_list : list Var) (cache_by_mi : dict Expr)
    (m : mi) : result Expr * dict Expr :=
  match dict_get cache_by_mi m with
  | Some expr => (Ok expr, cache_by_mi)
  | None =>
      match get_closest_cached_mi cache_by_mi m with
      | Raise e => (Raise e, cache_by_mi)
      | Ok closest_mi =>
          match dict_get cache_by_mi closest_mi with
          | None => (Raise KeyError, cache_by_mi)
          | Some expr =>
              let '(steps, e) :=
                get_derivative_taking_sequence var_list closest_mi m in
              match rec_diff_loop steps expr cache_by_mi with
              | (Raise e', cache') => (Raise e', cache')
              | (Ok expr', cache') =>
                  match e with
                  | Some e => (Raise e, cache')
                  | None => (Ok expr', cache')
                  end
              end
          end
      end
  end.

(** The state of a [LinearRecurrenceBasedMiDerivativeTaker]: the cache and
    the table [memoize_method] keeps of the results of earlier calls. *)
Record rec_taker : Type := {
  cache_by_mi : dict Expr;
  memo : dict Expr
}.

(** [LinearRecurrenceBasedMiDerivativeTaker.diff] with its decorator: a call
    whose argument was seen before returns the remembered result; a call
    that raises remembers nothing. *)
Definition rec_diff (var_list : list Var) (st : rec_taker) (m : mi)
  : result Expr * rec_taker :=
  match dict_get (memo st) m with
  | Some expr => (Ok expr, st)
  | None =>
      match rec_diff_body var_list (cache_by_mi st) m with
      | (Ok expr, cache') =>
          (Ok expr, {| cache_by_mi := cache'; memo := dict_set (memo st) m expr |})
      | (Raise e, cache') =>
          (Raise e, {| cache_by_mi := cache'; memo := memo st |})
      end
  end.

Definition rec_init (expr : Expr) (var_list : list Var) : rec_taker :=
  {| cache_by_mi := init expr var_list; memo := [] |}.

Inductive rec_reachable (expr : Expr) (var_list : list Var)
  : rec_taker -> Prop :=
| rec_reachable_init : rec_reachable expr var_list (rec_init expr var_list)
| rec_reachable_diff (st : rec_taker) (m : mi) :
    rec_reachable expr var_list st ->
    rec_reachable expr var_list (snd (rec_diff var_list st m)).

End Takers.

End Tools.

(** ** The derivative takers on 64-bit arrays

    [Tools] above computes distances and steps with exact integers.  The
    source does them on numpy arrays: [mi_dist] converts with [dtype=int],
    the key of [min] is Python's [sum] over 64-bit scalars, [1 + mi_i] and
    [current_mi[idx] += 1] are 64-bit additions.  This module follows that;
    the dicts, the loops over the yielded steps and the memo table are those
    of [Tools]. *)

Module Tools64.

(** [MiDerivativeTaker.mi_dist]:
    [np.array(a, dtype=int) - np.array(b, dtype=int)]. *)
Definition mi_dist (a b : mi) : result (list Z) :=
  a' <- Int64.array_int a ;;
  b' <- Int64.array_int b ;;
  Np.broadcast2 (fun x y => Int64.wrap (x - y)) a' b'.

Section Takers.

(** Symbolic expressions and the variables one differentiates by. *)
Variables Expr Var : Type.
(** [expr.diff(var)]. *)
Variable ediff : Expr -> Var -> Expr.

(** The outcome of [(np.array(mi) >= np.array(other_mi)).all()] when an
    entry of [mi] or of [other_mi] does not fit 64 bits and numpy compares
    arrays of another element type.  It is left open: what follows holds
    whatever it is. *)
Variable other_dtype_ge : mi -> mi -> result bool.

(** [(np.array(mi) >= np.array(other_mi)).all()]. *)
Definition dominates (m other_mi : mi) : result bool :=
  match Int64.array m, Int64.array other_mi with
  | Some a, Some b =>
      r <- Np.broadcast2 Z.geb a b ;;
      Ok (forallb (fun x => x) r)
  | _, _ => other_dtype_ge m other_mi
  end.

(** The scan of [min(.., key=..)] over the filtered keys; the key
    [sum(self.mi_dist(mi, other_mi))] is computed for every candidate. *)
Fixpoint closest_scan (m : mi) (keys : list mi) (best : option (mi * Z))
  : result (option (mi * Z)) :=
  match keys with
  | [] => Ok best
  | other_mi :: rest =>
      ok <- dominates m other_mi ;;
      if ok : bool then
        d <- mi_dist m other_mi ;;
        let key := Int64.sum d in
        match best with
        | None => closest_scan m rest (Some (other_mi, key))
        | Some (_, best_key) =>
            if key <? best_key
            then closest_scan m rest (Some (other_mi, key))
            else closest_scan m rest best
        end
      else closest_scan m rest best
  end.

(** [MiDerivativeTaker.get_closest_cached_mi]; [min] of an empty sequence
    raises ValueError. *)
Definition get_closest_cached_mi (cache_by_mi : Tools.dict Expr) (m : mi)
  : result mi :=
  r <- closest_scan m (Tools.dict_keys cache_by_mi) None ;;
  match r with
  | Some (other_mi, _) => Ok other_mi
  | None => Raise ValueError
  end.

(** The inner loop [for i in range(1, 1 + mi_i)] at axis [idx], run [count]
    times. *)
Fixpoint steps_on_axis (count : nat) (idx : nat) (vec_i : Var)
    (current_mi : list Z) : list (Var * mi) * result (list Z) :=
  match count with
  | O => ([], Ok current_mi)
  | S count' =>
      match Int64.add_at current_mi idx 1 with
      | Raise e => ([], Raise e)
      | Ok current_mi' =>
          let '(ys, r) := steps_on_axis count' idx vec_i current_mi' in
          ((vec_i, current_mi') :: ys, r)
      end
  end.

(** How many values [range(1, 1 + mi_i)] has, the sum being a 64-bit one. *)
Definition range_count (mi_i : Z) : nat :=
  Z.to_nat (Int64.wrap (1 + mi_i) - 1).

(** The outer loop over [enumerate(zip(dist, self.var_list))]. *)
Fixpoint steps_from (idx : nat) (pairs : list (Z * Var)) (current_mi : list Z)
  : Tools.generated (Var * mi) :=
  match pairs with
  | [] => ([], None)
  | (mi_i, vec_i) :: rest =>
      match steps_on_axis (range_count mi_i) idx vec_i current_mi with
      | (ys, Raise e) => (ys, Some e)
      | (ys, Ok current_mi') =>
          let '(zs, e) := steps_from (S idx) rest current_mi' in
          (ys ++ zs, e)
      end
  end.

(** [MiDerivativeTaker.get_derivative_taking_sequence]. *)
Definition get_derivative_taking_sequence (var_list : list Var)
    (start_mi end_mi : mi) : Tools.generated (Var * mi) :=
  match Int64.array_int start_mi with
  | Raise e => ([], Some e)
  | Ok current_mi =>
      match mi_dist end_mi start_mi with
      | Raise e => ([], Some e)
      | Ok dist => steps_from 0 (combine dist var_list) current_mi
      end
  end.

(** [MiDerivativeTaker.diff]: the result (or the exception) and the cache
    the call leaves behind. *)
Definition diff (var_list : list Var) (cache_by_mi : Tools.dict Expr) (m : mi)
  : result Expr * Tools.dict Expr :=
  match Tools.dict_get cache_by_mi m with
  | Some expr => (Ok expr, cache_by_mi)
  | None =>
      match get_closest_cached_mi cache_by_mi m with
      | Raise e => (Raise e, cache_by_mi)
      | Ok current_mi =>
          match Tools.dict_get cache_by_mi current_mi with
          | None => (Raise KeyError, cache_by_mi)
          | Some expr =>
              let '(steps, e) :=
                get_derivative_taking_sequence var_list current_mi m in
              let '(expr', cache') :=
                Tools.diff_loop ediff steps expr cache_by_mi in
              match e with
              | Some e => (Raise e, cache')
              | None => (Ok expr', cache')
              end
          end
      end
  end.

(** The caches a [MiDerivativeTaker] can hold: the one [__init__] builds, and
    the one any call of [diff] leaves. *)
Inductive reachable (expr : Expr) (var_list : list Var)
  : Tools.dict Expr -> Prop :=
| reachable_init : reachable expr var_list (Tools.init expr var_list)
| reachable_diff (cache_by_mi : Tools.dict Expr) (m : mi) :
    reachable expr var_list cache_by_mi ->
    reachable expr var_list (snd (diff var_list cache_by_mi m)).

(** *** LinearRecurrenceBasedMiDerivativeTaker *)

Variable Coeff : Type.
Variable emul : Coeff -> Expr -> Expr.
Variable eadd : list Expr -> Expr.
Variable wrangler :
  mi -> Tools.dict Expr -> result (option (list (mi * Coeff))).

(** The body of [LinearRecurrenceBasedMiDerivativeTaker.diff], below the
    [memoize_method] decorator. *)
Definition rec_diff_body (var_list : list Var) (cache_by_mi : Tools.dict Expr)
    (m : mi) : result Expr * Tools.dict Expr :=
  match Tools.dict_get cache_by_mi m with
  | Some expr => (Ok expr, cache_by_mi)
  | None =>
      match get_closest_cached_mi cache_by_mi m with
      | Raise e => (Raise e, cache_by_mi)
      | Ok closest_mi =>
          match Tools.dict_get cache_by_mi closest_mi with
          | None => (Raise KeyError, cache_by_mi)
          | Some expr =>
              let '(steps, e) :=
                get_derivative_taking_sequence var_list closest_mi m in
              match Tools.rec_diff_loop ediff emul eadd wrangler
                      steps expr cache_by_mi with
              | (Raise e', cache') => (Raise e', cache')
              | (Ok expr', cache') =>
                  match e with
                  | Some e => (Raise e, cache')
                  | None => (Ok expr', cache')
                  end
              end
          end
      end
  end.

(** [LinearRecurrenceBasedMiDerivativeTaker.diff] with its decorator. *)
Definition rec_diff (var_list : list Var) (st : Tools.rec_taker Expr) (m : mi)
  : result Expr * Tools.rec_taker Expr :=
  match Tools.dict_get (Tools.memo st) m with
  | Some expr => (Ok expr, st)
  | None =>
      match rec_diff_body var_list (Tools.cache_by_mi st) m with
      | (Ok expr, cache') =>
          (Ok expr, {| Tools.cache_by_mi := cache';
                       Tools.memo := Tools.dict_set (Tools.memo st) m expr |})
      | (Raise e, cache') =>
          (Raise e, {| Tools.cache_by_mi := cache';
                       Tools.memo := Tools.memo st |})
      end
  end.

Inductive rec_reachable (expr : Expr) (var_list : list Var)
  : Tools.rec_taker Expr -> Prop :=
| rec_reachable_init :
    rec_reachable expr var_list (Tools.rec_init expr var_list)
| rec_reachable_diff (st : Tools.rec_taker Expr) (m : mi) :
    rec_reachable expr var_list st ->
    rec_reachable expr var_list (snd (rec_diff var_list st m)).

End Takers.

End Tools64.

(** Free terms over the operations the derivative takers use; they stand
    for sympy expressions in the examples. *)
Module Terms.

#[local] Unset Elimination Schemes.

Inductive term : Type :=
| Base
| Diff (e : term) (v : nat)
| Add (l : list term)
| Mul (c : Z) (e : term).

#[local] Set Elimination Schemes.

End Terms.

(** ** sumpy/kernel.py *)

Module Kernel.

(** The sympy constants that [get_scaling] builds. *)
Inductive sym : Type :=
| SInt (z : Z)
| SPi
| SI
| SMul (a b : sym)
| SDiv (a b : sym).

(** The complex number a constant expression stands for, as real and
    imaginary part. *)
Fixpoint denote (e : sym) : R * R :=
  match e with
  | SInt z => (IZR z, 0%R)
  | SPi => (PI, 0%R)
  | SI => (0%R, 1%R)
  | SMul a b =>
      let '(x, y) := denote a in
      let '(u, v) := denote b in
      ((x * u - y * v)%R, (x * v + y * u)%R)
  | SDiv a b =>
      let '(x, y) := denote a in
      let '(u, v) := denote b in
      (((x * u + y * v) / (u * u + v * v))%R,
       ((y * u - x * v) / (u * u + v * v))%R)
  end.

Section Kernels.

(** pymbolic expressions ([derivative_expression]). *)
Variable PExpr : Type.

(** A kernel object: [self] is the identity of the Python object ([id]),
    the other fields are its attributes.  [dimensions] is None until
    fixed. *)
Inductive kernel : Type :=
| LaplaceKernel (self : nat) (dimensions : option Z)
| HelmholtzKernel (self : nat) (dimensions : option Z)
    (helmholtz_k_name : String.string) (allow_evanescent : bool)
| DifferenceKernel (self : nat) (dimensions : option Z)
    (kernel_plus kernel_minus : kernel)
| AxisTargetDerivative (self : nat) (dimensions : option Z) (axis : Z)
    (inner : kernel)
| DirectionalTargetDerivative (self : nat) (dimensions : option Z)
    (inner : kernel) (derivative_expression : PExpr)
| DirectionalSourceDerivative (self : nat) (dimensions : option Z)
    (inner : kernel) (derivative_expression : PExpr).

Definition id (k : kernel) : nat :=
  match k with
  | LaplaceKernel s _ => s
  | HelmholtzKernel s _ _ _ => s
  | DifferenceKernel s _ _ _ => s
  | AxisTargetDerivative s _ _ _ => s
  | DirectionalTargetDerivative s _ _ _ => s
  | DirectionalSourceDerivative s _ _ _ => s
  end.

Definition dimensions (k : kernel) : option Z :=
  match k with
  | LaplaceKernel _ d => d
  | HelmholtzKernel _ d _ _ => d
  | DifferenceKernel _ d _ _ => d
  | AxisTargetDerivative _ d _ _ => d
  | DirectionalTargetDerivative _ d _ _ => d
  | DirectionalSourceDerivative _ d _ _ => d
  end.

(** Whether the object's class derives from [KernelWrapper]. *)
Definition is_wrapper (k : kernel) : bool :=
  match k with
  | LaplaceKernel _ _ | HelmholtzKernel _ _ _ _ | DifferenceKernel _ _ _ _ =>
      false
  | _ => true
  end.

(** The kernels an object refers to through its attributes. *)
Definition children (k : kernel) : list kernel :=
  match k with
  | LaplaceKernel _ _ | HelmholtzKernel _ _ _ _ => []
  | DifferenceKernel _ _ p m => [p; m]
  | AxisTargetDerivative _ _ _ i => [i]
  | DirectionalTargetDerivative _ _ i _ => [i]
  | DirectionalSourceDerivative _ _ i _ => [i]
  end.

(** Python's [a is b]. *)
Definition py_is (a b : kernel) : bool := Nat.eqb (id a) (id b).

(** [a == b]: no class of kernel.py defines [__eq__], so this is
    [object.__eq__], the identity test. *)
Definition eq (a b : kernel) : bool := py_is a b.


(** [Kernel.get_base_kernel], overridden by [KernelWrapper]. *)
Fixpoint get_base_kernel (k : kernel) : kernel :=
  match k with
  | AxisTargetDerivative _ _ _ i => get_base_kernel i
  | DirectionalTargetDerivative _ _ i _ => get_base_kernel i
  | DirectionalSourceDerivative _ _ i _ => get_base_kernel i
  | _ => k
  end.

(** [self.dimensions == n]. *)
Definition dimensions_is (d : option Z) (n : Z) : bool :=
  match d with
  | Some z => Z.eqb z n
  | None => false
  end.

(** [get_scaling] of [LaplaceKernel] and [HelmholtzKernel]; [KernelWrapper]
    forwards to the wrapped kernel, and [DifferenceKernel] inherits the
    unimplemented method of [Kernel]. *)
Fixpoint get_scaling (k : kernel) : result sym :=
  match k with
  | LaplaceKernel _ d =>
      if dimensions_is d 2 then Ok (SDiv (SInt 1) (SMul (SInt (-2)) SPi))
      else if dimensions_is d 3 then Ok (SDiv (SInt 1) (SMul (SInt 4) SPi))
      else Raise RuntimeError
  | HelmholtzKernel _ d _ _ =>
      if dimensions_is d 2 then Ok (SDiv SI (SInt 4))
      else if dimensions_is d 3 then Ok (SDiv (SInt 1) (SMul (SInt 4) SPi))
      else Raise RuntimeError
  | DifferenceKernel _ _ _ _ => Raise NotImplementedError
  | AxisTargetDerivative _ _ _ i => get_scaling i
  | DirectionalTargetDerivative _ _ i _ => get_scaling i
  | DirectionalSourceDerivative _ _ i _ => get_scaling i
  end.

(** The objects created so far; the object at position [i] has identity
    [i], so a new object gets the identity [length heap]. *)
Definition heap : Type := list kernel.

(** [LaplaceKernel(dimensions)]. *)
Definition new_LaplaceKernel (dims : option Z) (h : heap) : kernel * heap :=
  let k := LaplaceKernel (length h) dims in (k, h ++ [k]).

(** [HelmholtzKernel(dimensions, helmholtz_k_name, allow_evanescent)]. *)
Definition new_HelmholtzKernel (dims : option Z) (name : String.string)
    (allow_evanescent : bool) (h : heap) : kernel * heap :=
  let k := HelmholtzKernel (length h) dims name allow_evanescent in
  (k, h ++ [k]).

(** [AxisTargetDerivative(axis, kernel)]. *)
Definition new_AxisTargetDerivative (axis : Z) (inner : kernel) (h : heap)
  : kernel * heap :=
  let k := AxisTargetDerivative (length h) (dimensions inner) axis inner in
  (k, h ++ [k]).

(** [DirectionalTargetDerivative(kernel, derivative_expression)]. *)
Definition new_DirectionalTargetDerivative (inner : kernel) (e : PExpr)
    (h : heap) : kernel * heap :=
  let k := DirectionalTargetDerivative (length h) (dimensions inner) inner e in
  (k, h ++ [k]).

(** [DirectionalSourceDerivative(kernel, derivative_expression)]. *)
Definition new_DirectionalSourceDerivative (inner : kernel) (e : PExpr)
    (h : heap) : kernel * heap :=
  let k := DirectionalSourceDerivative (length h) (dimensions inner) inner e in
  (k, h ++ [k]).

Definition dimensions_eq_dec : forall a b : option Z, {a = b} + {a <> b}.
Proof. decide equality. apply Z.eq_dec. Defined.

(** [DifferenceKernel(kernel_plus, kernel_minus)]: [__init__] raises
    ValueError before any attribute is set, or stores the operands and the
    dimension of [kernel_plus]. *)
Definition new_DifferenceKernel (kernel_plus kernel_minus : kernel) (h : heap)
  : result kernel * heap :=
  if negb (py_is (get_base_kernel kernel_plus) kernel_plus)
     || negb (py_is (get_base_kernel kernel_minus) kernel_minus)
  then (Raise ValueError, h)
  else if dimensions_eq_dec (dimensions kernel_plus) (dimensions kernel_minus)
  then
    let k := DifferenceKernel (length h) (dimensions kernel_plus)
               kernel_plus kernel_minus in
    (Ok k, h ++ [k])
  else (Raise ValueError, h).

(** A heap as the constructors build it: identities are positions, and the
    kernels an object refers to were created before it. *)
Definition heap_wf (h : heap) : Prop :=
  forall i k, nth_error h i = Some k ->
    id k = i /\ forall c, In c (children k) -> In c (firstn i h).


End Kernels.

End Kernel.

(** * Properties *)

Unset Implicit Arguments.

(** ** The Laplace recurrence oracle *)

Section LaplaceRule.

(** [a] with [v] added at position [i]. *)
Fixpoint bump (a : list Z) (i : nat) (v : Z) : list Z :=
  match a, i with
  | [], _ => []
  | x :: rest, O => (x + v) :: rest
  | x :: rest, S i' => x :: bump rest i' v
  end.

(** The multi-indices the rule needs for axis [k]: [d] lowered by 2 at [k]
    and raised by 2 at one other axis [j], for every [j] below [dim]. *)
Definition needed (dim : nat) (d : mi) (k : nat) : list mi :=
  map (fun j => bump (bump d k (-2)) j 2)
      (filter (fun j => negb (Nat.eqb j k)) (seq 0 dim)).

(** Whether some needed multi-index sits at position [i] of the list. *)
Definition hits (its : list mi) (ms : list mi) (i : nat) : bool :=
  existsb (fun m => match list_index m its with
                    | Some j => Nat.eqb j i
                    | None => false
                    end) ms.

Definition all_present (its : list mi) (ms : list mi) : bool :=
  forallb (fun m => match list_index m its with
                    | Some _ => true
                    | None => false
                    end) ms.

Lemma bump_length a : forall i v, length (bump a i v) = length a.
Proof.
  induction a as [|x a IH]; intros [|i] v; simpl; auto.
Qed.

Lemma add_at_bump a : forall i v,
  (i < length a)%nat -> Np.add_at a i v = Ok (bump a i v).
Proof.
  induction a as [|x a IH]; intros [|i] v H; simpl in *; try lia; auto.
  rewrite IH by lia. reflexivity.
Qed.

Lemma set_at_length {A} (a : list A) : forall i v a',
  Np.set_at a i v = Ok a' -> length a' = length a.
Proof.
  induction a as [|x a IH]; intros [|i] v a' H; simpl in *; try discriminate.
  - inversion H; reflexivity.
  - destruct (Np.set_at a i v) eqn:E; simpl in H; inversion H; subst.
    simpl. f_equal. eauto.
Qed.

Lemma set_at_ok {A} (a : list A) : forall i v,
  (i < length a)%nat -> exists a', Np.set_at a i v = Ok a'.
Proof.
  induction a as [|x a IH]; intros [|i] v H; simpl in *; try lia.
  - eexists; reflexivity.
  - destruct (IH i v) as [a' E]; [lia|]. rewrite E. simpl. eexists; reflexivity.
Qed.

Lemma set_at_nth {A} (a : list A) (dflt : A) : forall i v a' j,
  Np.set_at a i v = Ok a' ->
  nth j a' dflt = if Nat.eqb j i then v else nth j a dflt.
Proof.
  induction a as [|x a IH]; intros [|i] v a' j H; simpl in *; try discriminate.
  - inversion H; subst. destruct j; reflexivity.
  - destruct (Np.set_at a i v) eqn:E; simpl in H; inversion H; subst.
    destruct j; simpl; eauto.
Qed.

Lemma list_index_lt x : forall l i, list_index x l = Some i -> (i < length l)%nat.
Proof.
  induction l as [|y l IH]; intros i H; simpl in *; [discriminate|].
  destruct (mi_eq_dec y x).
  - inversion H; lia.
  - destruct (list_index x l) eqn:E; inversion H; subst.
    specialize (IH _ eq_refl). lia.
Qed.

Lemma list_index_In x : forall l, In x l <-> exists i, list_index x l = Some i.
Proof.
  induction l as [|y l IH]; simpl.
  - split; [tauto | intros [i H]; discriminate].
  - destruct (mi_eq_dec y x) as [->|Hne].
    + split; eauto.
    + split.
      * intros [H|H]; [congruence|]. apply IH in H as [i Hi].
        rewrite Hi. eauto.
      * intros [i H]. destruct (list_index x l) eqn:E; [|discriminate].
        right. apply IH. eauto.
Qed.

Lemma needed_loop_spec reduced k : forall others,
  (forall j, In j others -> (j < length reduced)%nat) ->
  Laplace.needed_loop reduced k others =
  Ok (map (fun j => bump reduced j 2)
          (filter (fun j => negb (Nat.eqb j k)) others)).
Proof.
  induction others as [|j others IH]; intros H; simpl; auto.
  destruct (Nat.eqb j k) eqn:E; simpl.
  - apply IH. intros; apply H; simpl; auto.
  - rewrite add_at_bump by (apply H; simpl; auto). simpl.
    rewrite IH by (intros; apply H; simpl; auto). reflexivity.
Qed.

Lemma fill_loop_spec its : forall ms expr,
  (length its <= length expr)%nat ->
  if all_present its ms
  then exists expr', Laplace.fill_loop its ms expr = Ok (Some expr') /\
         length expr' = length expr /\
         forall i, nth i expr' 0 = if hits its ms i then -1 else nth i expr 0
  else Laplace.fill_loop its ms expr = Ok None.
Proof.
  induction ms as [|m ms IH]; intros expr Hlen; simpl.
  - exists expr. auto.
  - destruct (list_index m its) as [j|] eqn:Ej; simpl; auto.
    pose proof (list_index_lt _ _ _ Ej) as Hj.
    destruct (set_at_ok expr j (-1)) as [e1 He1]; [lia|].
    rewrite He1. simpl.
    pose proof (set_at_length _ _ _ _ He1) as Hl1.
    specialize (IH e1). rewrite Hl1 in IH. specialize (IH Hlen).
    destruct (all_present its ms).
    + destruct IH as (expr' & Hr & Hl & Hn).
      exists expr'. split; auto. split; auto.
      intros i. rewrite Hn. rewrite (set_at_nth _ 0 _ _ _ i He1).
      rewrite (Nat.eqb_sym i j).
      destruct (Nat.eqb j i); simpl; destruct (hits its ms i); reflexivity.
    + exact IH.
Qed.

(** The rule as the text gives it: the first axis, in increasing order, that
    has order at least 2 and whose needed multi-indices are all listed. *)
Definition succeeds (dim : nat) (d : mi) (its : list mi) (k : nat) : bool :=
  (2 <=? nth k d 0) && all_present its (needed dim d k).

Lemma axes_loop_spec dim d its n : forall axes,
  length d = dim -> (length its <= n)%nat ->
  (forall k, In k axes -> (k < dim)%nat) ->
  match find (fun k => all_present its (needed dim d k)) axes with
  | Some k =>
      exists expr,
        Laplace.axes_loop dim d its n axes = Ok (Some expr) /\
        length expr = n /\
        forall i, nth i expr 0 = if hits its (needed dim d k) i then -1
                                 else nth i (Np.zeros n) 0
  | None => Laplace.axes_loop dim d its n axes = Ok None
  end.
Proof.
  intros axes Hd Hn. induction axes as [|k axes IH]; intros Hax; simpl; auto.
  assert (Hk : (k < dim)%nat) by (apply Hax; simpl; auto).
  rewrite add_at_bump by lia. simpl.
  rewrite needed_loop_spec.
  2:{ intros j Hj. rewrite bump_length. apply in_seq in Hj. lia. }
  simpl. fold (needed dim d k).
  pose proof (fill_loop_spec its (needed dim d k) (Np.zeros n)) as Hf.
  unfold Np.zeros in Hf at 1. rewrite repeat_length in Hf. specialize (Hf Hn).
  destruct (all_present its (needed dim d k)).
  - destruct Hf as (expr' & Hr & Hl & Hv). rewrite Hr. simpl.
    exists expr'. split; auto. split; auto.
    rewrite Hl. unfold Np.zeros. apply repeat_length.
  - rewrite Hf. simpl. apply IH. intros; apply Hax; simpl; auto.
Qed.

Lemma nonzero_ge2_from_spec : forall a i,
  Np.nonzero_ge2_from i a =
  filter (fun k => 2 <=? nth (k - i) a 0) (seq i (length a)).
Proof.
  induction a as [|x a IH]; intros i; simpl; auto.
  rewrite Nat.sub_diag. rewrite IH.
  assert (E : filter (fun k => 2 <=? nth (k - S i) a 0) (seq (S i) (length a)) =
              filter (fun k => 2 <=? match (k - i)%nat with
                                     | O => x
                                     | S m => nth m a 0
                                     end) (seq (S i) (length a))).
  { apply filter_ext_in. intros k Hk. apply in_seq in Hk.
    replace (k - i)%nat with (S (k - S i)) by lia. reflexivity. }
  rewrite E. destruct (2 <=? x); reflexivity.
Qed.

Lemma find_filter {A} (p q : A -> bool) : forall l,
  find p (filter q l) = find (fun x => q x && p x) l.
Proof.
  induction l as [|x l IH]; simpl; auto.
  destruct (q x); simpl; auto. destruct (p x); auto.
Qed.

Lemma find_seq_first (f : nat -> bool) k : forall n a,
  (a <= k < a + n)%nat -> f k = true ->
  (forall k', (a <= k' < k)%nat -> f k' = false) ->
  find f (seq a n) = Some k.
Proof.
  induction n as [|n IH]; intros a Hk Hf Hlt; simpl; [lia|].
  destruct (Nat.eq_dec a k) as [->|Hne].
  - rewrite Hf. reflexivity.
  - rewrite Hlt by lia. apply IH; auto; try lia.
    intros; apply Hlt; lia.
Qed.

Lemma find_seq_none (f : nat -> bool) : forall n a,
  (forall k, (a <= k < a + n)%nat -> f k = false) ->
  find f (seq a n) = None.
Proof.
  induction n as [|n IH]; intros a H; simpl; auto.
  rewrite H by lia. apply IH. intros; apply H; lia.
Qed.

Lemma all_present_Forall its ms :
  all_present its ms = true <-> Forall (fun m => In m its) ms.
Proof.
  unfold all_present. rewrite forallb_forall, Forall_forall.
  split; intros H m Hm; specialize (H m Hm).
  - apply list_index_In. destruct (list_index m its); [eauto|discriminate].
  - apply list_index_In in H as [i Hi]. rewrite Hi. reflexivity.
Qed.

Lemma try_get_recurrence_find dim d its n :
  length d = dim -> (length its <= n)%nat ->
  match find (succeeds dim d its) (seq 0 dim) with
  | Some k =>
      exists expr,
        Laplace.try_get_recurrence_for_derivative dim d its n = Ok (Some expr) /\
        length expr = n /\
        forall i, nth i expr 0 = if hits its (needed dim d k) i then -1 else 0
  | None => Laplace.try_get_recurrence_for_derivative dim d its n = Ok None
  end.
Proof.
  intros Hd Hn. unfold Laplace.try_get_recurrence_for_derivative, Np.nonzero_ge2.
  rewrite nonzero_ge2_from_spec.
  pose proof (axes_loop_spec dim d its n
    (filter (fun k => 2 <=? nth (k - 0) d 0) (seq 0 (length d))) Hd Hn) as H.
  rewrite find_filter in H.
  assert (E : find (fun x => (2 <=? nth (x - 0) d 0)
                             && all_present its (needed dim d x))
                   (seq 0 (length d)) =
              find (succeeds dim d its) (seq 0 dim)).
  { rewrite Hd. clear. induction (seq 0 dim) as [|x l IH]; simpl; auto.
    unfold succeeds at 1. rewrite Nat.sub_0_r. rewrite IH. reflexivity. }
  rewrite E in H.
  assert (Hax : forall k, In k (filter (fun k => 2 <=? nth (k - 0) d 0)
                                 (seq 0 (length d))) -> (k < dim)%nat).
  { intros k Hk. apply filter_In in Hk as [Hk _]. apply in_seq in Hk. lia. }
  specialize (H Hax).
  destruct (find (succeeds dim d its) (seq 0 dim)) as [k|]; auto.
  destruct H as (expr & Hr & Hl & Hv). exists expr. split; auto. split; auto.
  intros i. rewrite Hv. destruct (hits its (needed dim d k) i); auto.
  unfold Np.zeros. destruct (Nat.lt_ge_cases i n) as [Hi|Hi].
  - apply nth_repeat_lt; auto.
  - apply nth_overflow. rewrite repeat_length. lia.
Qed.

End LaplaceRule.


(** ** 64-bit arithmetic *)

(** The integers a signed 64-bit array can hold. *)
Definition in_int64 (z : Z) : Prop := Int64.min_int <= z <= Int64.max_int.

Ltac int64_lia :=
  unfold in_int64, Int64.min_int, Int64.max_int in *; cbv beta in *; lia.

Definition in_int64_dec (z : Z) : {in_int64 z} + {~ in_int64 z}.
Proof.
  unfold in_int64.
  destruct (Z_le_dec Int64.min_int z); [|right; lia].
  destruct (Z_le_dec z Int64.max_int); [left|right]; lia.
Defined.

Lemma wrap_fits (z : Z) : in_int64 z -> Int64.wrap z = z.
Proof.
  unfold in_int64, Int64.wrap, Int64.min_int, Int64.max_int. intros H.
  rewrite Z.mod_small; lia.
Qed.

Lemma wrap_range (z : Z) : in_int64 (Int64.wrap z).
Proof.
  unfold in_int64, Int64.wrap, Int64.min_int, Int64.max_int.
  pose proof (Z.mod_pos_bound (z + 2 ^ 63) (2 ^ 64)). lia.
Qed.

Lemma fits_iff (z : Z) : Int64.fits z = true <-> in_int64 z.
Proof.
  unfold Int64.fits, in_int64. rewrite andb_true_iff, !Z.leb_le. tauto.
Qed.

Lemma forallb_fits (t : list Z) :
  forallb Int64.fits t = true <-> Forall in_int64 t.
Proof.
  rewrite forallb_forall, Forall_forall.
  split; intros H z Hz; apply fits_iff; auto.
Qed.

Lemma array_fits (t : list Z) : Forall in_int64 t -> Int64.array t = Some t.
Proof.
  intros H. unfold Int64.array.
  rewrite (proj2 (forallb_fits t) H). reflexivity.
Qed.

Lemma array_int_fits (t : list Z) :
  Forall in_int64 t -> Int64.array_int t = Ok t.
Proof.
  intros H. unfold Int64.array_int.
  rewrite (proj2 (forallb_fits t) H). reflexivity.
Qed.

Lemma array_int_overflow (t : list Z) :
  ~ Forall in_int64 t -> Int64.array_int t = Raise OverflowError.
Proof.
  intros H. unfold Int64.array_int.
  destruct (forallb Int64.fits t) eqn:E; [|reflexivity].
  exfalso. apply H, forallb_fits, E.
Qed.

(** A 64-bit [a[i] += v] is the exact one when the new entry fits. *)
Lemma int64_add_at_exact (a : list Z) : forall i v,
  (forall x, nth_error a i = Some x -> in_int64 (x + v)) ->
  Int64.add_at a i v = Np.add_at a i v.
Proof.
  induction a as [|x a IH]; intros [|i] v H; simpl; auto.
  - rewrite wrap_fits by (apply H; reflexivity). reflexivity.
  - rewrite IH by (intros y Hy; apply H; exact Hy). reflexivity.
Qed.

Lemma add_at_Forall (P : Z -> Prop) (a : list Z) : forall i v a',
  Np.add_at a i v = Ok a' ->
  Forall P a ->
  (forall x, nth_error a i = Some x -> P (x + v)) ->
  Forall P a'.
Proof.
  induction a as [|x a IH]; intros [|i] v a' H Ha Hx; simpl in H;
    try discriminate.
  - inversion H; subst. inversion Ha; subst.
    constructor; [apply Hx; reflexivity | assumption].
  - destruct (Np.add_at a i v) as [r|e] eqn:E; simpl in H; inversion H; subst.
    inversion Ha; subst. constructor; [assumption|].
    eapply IH; eauto.
Qed.

Lemma nth_error_Forall (P : Z -> Prop) (a : list Z) (i : nat) (x : Z) :
  Forall P a -> nth_error a i = Some x -> P x.
Proof.
  intros Ha Hx. rewrite Forall_forall in Ha.
  apply Ha. eapply nth_error_In; eauto.
Qed.

(** ** The 64-bit Laplace oracle agrees with the exact one in range *)

Lemma needed_loop64_exact (reduced : list Z) (k : nat) : forall others,
  Forall (fun z => Int64.min_int <= z <= Int64.max_int - 2) reduced ->
  Laplace64.needed_loop reduced k others = Laplace.needed_loop reduced k others.
Proof.
  intros others Hr. induction others as [|o others IH]; simpl; auto.
  destruct (Nat.eqb o k); auto.
  rewrite int64_add_at_exact, IH; auto.
  intros x Hx.
  pose proof (nth_error_Forall _ _ _ _ Hr Hx) as Hb. int64_lia.
Qed.

Lemma axes_loop64_exact (dim : nat) (d : mi) (its : list mi) (n : nat) :
  Forall (fun z => Int64.min_int <= z <= Int64.max_int - 2) d ->
  forall axes,
    Forall (fun k => 2 <= nth k d 0) axes ->
    Laplace64.axes_loop dim d its n axes = Laplace.axes_loop dim d its n axes.
Proof.
  intros Hd axes Hax. induction Hax as [|k axes Hk Hax IH]; simpl; auto.
  assert (Hx : forall x, nth_error d k = Some x -> 2 <= x <= Int64.max_int - 2).
  { intros x Hx. pose proof (nth_error_Forall _ _ _ _ Hd Hx) as Hb.
    apply (nth_error_nth _ _ 0) in Hx. int64_lia. }
  rewrite int64_add_at_exact by (intros x E; apply Hx in E; int64_lia).
  destruct (Np.add_at d k (-2)) as [reduced|e] eqn:Ea; simpl; auto.
  rewrite needed_loop64_exact, IH; auto.
  apply (add_at_Forall _ _ _ _ _ Ea Hd).
  intros x E. apply Hx in E. int64_lia.
Qed.

Lemma nonzero_ge2_entries (d : mi) :
  Forall (fun k => 2 <= nth k d 0) (Np.nonzero_ge2 d).
Proof.
  unfold Np.nonzero_ge2. rewrite nonzero_ge2_from_spec.
  apply Forall_forall. intros k Hk.
  apply filter_In in Hk as [_ Hk]. rewrite Nat.sub_0_r in Hk.
  apply Z.leb_le. exact Hk.
Qed.

(** On a multi-index whose entries are 64-bit integers with room for the
    [+= 2], the 64-bit oracle returns what the exact one returns. *)
Lemma laplace64_exact (dim : nat) (d : mi) (its : list mi) (n : nat) :
  Forall (fun z => Int64.min_int <= z <= Int64.max_int - 2) d ->
  Laplace64.try_get_recurrence_for_derivative dim d its n
  = Some (Laplace.try_get_recurrence_for_derivative dim d its n).
Proof.
  intros Hd. unfold Laplace64.try_get_recurrence_for_derivative.
  rewrite array_fits.
  - unfold Laplace.try_get_recurrence_for_derivative.
    rewrite axes_loop64_exact; auto using nonzero_ge2_entries.
  - eapply Forall_impl; [|exact Hd]. intros z Hz. int64_lia.
Qed.

(** The rule over exact integers: the first axis [k] with [d[k] >= 2] whose
    needed multi-indices are all in [its] gives the relation with -1 at
    their positions and 0 elsewhere, and no such axis gives None. *)
Lemma laplace_rule_exact :
  forall (dim : nat) (d : mi) (its : list mi) (ncoeffs : nat),
    length d = dim ->
    (length its <= ncoeffs)%nat ->
    (forall k : nat,
        (k < dim)%nat -> 2 <= nth k d 0 ->
        Forall (fun m => In m its) (needed dim d k) ->
        (forall k' : nat, (k' < k)%nat -> 2 <= nth k' d 0 ->
           ~ Forall (fun m => In m its) (needed dim d k')) ->
        exists expr : list Z,
          Laplace.try_get_recurrence_for_derivative dim d its ncoeffs
            = Ok (Some expr) /\
          length expr = ncoeffs /\
          (forall m, In m (needed dim d k) ->
             exists i, list_index m its = Some i /\ nth i expr 0 = -1) /\
          (forall i, (forall m, In m (needed dim d k) ->
                        list_index m its <> Some i) ->
             nth i expr 0 = 0))
    /\
    ((forall k : nat,
         (k < dim)%nat -> 2 <= nth k d 0 ->
         ~ Forall (fun m => In m its) (needed dim d k)) ->
     Laplace.try_get_recurrence_for_derivative dim d its ncoeffs = Ok None).
Proof.
  intros dim d its ncoeffs Hd Hn.
  pose proof (try_get_recurrence_find dim d its ncoeffs Hd Hn) as H.
  split.
  - intros k Hk Hge Hall Hfirst.
    assert (E : find (succeeds dim d its) (seq 0 dim) = Some k).
    { apply find_seq_first.
      - lia.
      - unfold succeeds. apply andb_true_iff. split.
        + apply Z.leb_le; auto.
        + apply all_present_Forall; auto.
      - intros k' Hk'. unfold succeeds.
        destruct (2 <=? nth k' d 0) eqn:E2; simpl; auto.
        destruct (all_present its (needed dim d k')) eqn:E3; auto.
        exfalso. apply (Hfirst k'); [lia| apply Z.leb_le; auto |].
        apply all_present_Forall; auto. }
    rewrite E in H. destruct H as (expr & Hr & Hl & Hv).
    exists expr. repeat split; auto.
    + intros m Hm. rewrite Forall_forall in Hall.
      apply Hall in Hm as Hin. apply list_index_In in Hin as [i Hi].
      exists i. split; auto. rewrite Hv.
      assert (Hh : hits its (needed dim d k) i = true).
      { unfold hits. apply existsb_exists. exists m. split; auto.
        rewrite Hi. apply Nat.eqb_refl. }
      rewrite Hh. reflexivity.
    + intros i Hno. rewrite Hv.
      destruct (hits its (needed dim d k) i) eqn:Hh; auto.
      unfold hits in Hh. apply existsb_exists in Hh as (m & Hm & Hi).
      destruct (list_index m its) as [j|] eqn:Ej; [|discriminate].
      apply Nat.eqb_eq in Hi. subst j. exfalso. exact (Hno m Hm Ej).
  - intros Hnone.
    assert (E : find (succeeds dim d its) (seq 0 dim) = None).
    { apply find_seq_none. intros k Hk. unfold succeeds.
      destruct (2 <=? nth k d 0) eqn:E2; simpl; auto.
      destruct (all_present its (needed dim d k)) eqn:E3; auto.
      exfalso. apply (Hnone k); [lia| apply Z.leb_le; auto |].
      apply all_present_Forall; auto. }
    rewrite E in H. exact H.
Qed.


(** C1, as stated for every multi-index, fails at the end of the 64-bit
    range.  For [d = (2, 2^63-1)] in dimension 2, axis 0 has [d[0] >= 2] and
    its one needed multi-index [(0, 2^63+1)] is listed, yet the oracle
    returns None: [needed_deriv[1] += 2] wraps around to [-(2^63-1)].  And
    when [(0, -(2^63-1))] is listed instead, the oracle returns a relation
    although no needed multi-index is in the list. *)
Lemma laplace_recurrence_wraps_at_64_bits :
  needed 2 [2; 2 ^ 63 - 1] 0 = [[0; 2 ^ 63 + 1]] /\
  2 <= nth 0 [2; 2 ^ 63 - 1] 0 /\
  Laplace64.try_get_recurrence_for_derivative 2 [2; 2 ^ 63 - 1]
    [[0; 2 ^ 63 + 1]] 1 = Some (Ok None) /\
  ~ (exists expr : list Z,
       Laplace64.try_get_recurrence_for_derivative 2 [2; 2 ^ 63 - 1]
         [[0; 2 ^ 63 + 1]] 1 = Some (Ok (Some expr))) /\
  (forall k : nat, (k < 2)%nat -> 2 <= nth k [2; 2 ^ 63 - 1] 0 ->
     ~ Forall (fun m => In m [[0; - (2 ^ 63 - 1)]])
         (needed 2 [2; 2 ^ 63 - 1] k)) /\
  Laplace64.try_get_recurrence_for_derivative 2 [2; 2 ^ 63 - 1]
    [[0; - (2 ^ 63 - 1)]] 1 = Some (Ok (Some [-1])).
Proof.
  split; [reflexivity|]. split; [simpl; lia|].
  split; [vm_compute; reflexivity|].
  split; [intros [expr H]; vm_compute in H; discriminate|].
  split; [|vm_compute; reflexivity].
  intros k Hk Hge Hall.
  destruct k as [|[|k]]; [| |lia].
  - inversion Hall as [|m l Hin _]; subst.
    destruct Hin as [E|[]]. vm_compute in E. discriminate.
  - inversion Hall as [|m l Hin _]; subst.
    destruct Hin as [E|[]]. vm_compute in E. discriminate.
Qed.

(** C1, amended.  For a multi-index [d] of the kernel's dimension whose
    entries lie between [-2^63] and [2^63-3], and a list [its] of earlier
    multi-indices no longer than [ncoeffs], the Laplace oracle looks at the
    axes [k] with [d[k] >= 2] in increasing order.  At the first one whose
    needed multi-indices ([d] lowered by 2 at [k] and raised by 2 at another
    axis) are all in [its], it returns the relation that puts -1 at the
    position of each needed multi-index and 0 at every other position; when
    no such axis has all of them, it returns None. *)
Theorem laplace_recurrence_first_succeeding_axis :
  forall (dim : nat) (d : mi) (its : list mi) (ncoeffs : nat),
    length d = dim ->
    (length its <= ncoeffs)%nat ->
    Forall (fun z => - 2 ^ 63 <= z <= 2 ^ 63 - 3) d ->
    (forall k : nat,
        (k < dim)%nat -> 2 <= nth k d 0 ->
        Forall (fun m => In m its) (needed dim d k) ->
        (forall k' : nat, (k' < k)%nat -> 2 <= nth k' d 0 ->
           ~ Forall (fun m => In m its) (needed dim d k')) ->
        exists expr : list Z,
          Laplace64.try_get_recurrence_for_derivative dim d its ncoeffs
            = Some (Ok (Some expr)) /\
          length expr = ncoeffs /\
          (forall m, In m (needed dim d k) ->
             exists i, list_index m its = Some i /\ nth i expr 0 = -1) /\
          (forall i, (forall m, In m (needed dim d k) ->
                        list_index m its <> Some i) ->
             nth i expr 0 = 0))
    /\
    ((forall k : nat,
         (k < dim)%nat -> 2 <= nth k d 0 ->
         ~ Forall (fun m => In m its) (needed dim d k)) ->
     Laplace64.try_get_recurrence_for_derivative dim d its ncoeffs
       = Some (Ok None)).
Proof.
  intros dim d its ncoeffs Hd Hn Hr.
  assert (E : Laplace64.try_get_recurrence_for_derivative dim d its ncoeffs
              = Some (Laplace.try_get_recurrence_for_derivative dim d its
                        ncoeffs)).
  { apply laplace64_exact. eapply Forall_impl; [|exact Hr].
    intros z Hz. int64_lia. }
  rewrite E.
  destruct (laplace_rule_exact dim d its ncoeffs Hd Hn) as [Hsome Hnone].
  split.
  - intros k Hk Hge Hall Hfirst.
    destruct (Hsome k Hk Hge Hall Hfirst) as (expr & Hx & Hrest).
    exists expr. rewrite Hx. split; [reflexivity | exact Hrest].
  - intros Hno. rewrite (Hnone Hno). reflexivity.
Qed.

(** In dimension 2, with the five identifiers of order at most 2 that come
    before (0,2), the oracle reduces (0,2) along axis 1 to -1 times (2,0). *)
Lemma laplace_recurrence_first_succeeding_axis_witness :
  exists expr : list Z,
    Laplace64.try_get_recurrence_for_derivative 2 [0; 2]
      [[0; 0]; [1; 0]; [0; 1]; [2; 0]; [1; 1]] 6 = Some (Ok (Some expr)) /\
    length expr = 6%nat /\
    (forall m, In m (needed 2 [0; 2] 1) ->
       exists i, list_index m [[0; 0]; [1; 0]; [0; 1]; [2; 0]; [1; 1]] = Some i
                 /\ nth i expr 0 = -1) /\
    (forall i, (forall m, In m (needed 2 [0; 2] 1) ->
                  list_index m [[0; 0]; [1; 0]; [0; 1]; [2; 0]; [1; 1]]
                  <> Some i) ->
       nth i expr 0 = 0).
Proof.
  destruct (laplace_recurrence_first_succeeding_axis
              2 [0; 2] [[0; 0]; [1; 0]; [0; 1]; [2; 0]; [1; 1]] 6
              eq_refl) as [H _].
  - simpl. lia.
  - repeat constructor; simpl; lia.
  - apply (H 1%nat).
    + lia.
    + simpl. lia.
    + unfold needed. simpl. constructor; [simpl; auto 10 | constructor].
    + intros k' Hk' Hge. assert (k' = 0%nat) by lia. subst k'.
      simpl in Hge. lia.
Defined.

(** ** The reduction matrix *)

Section ReductionMatrix.

Variable K : Type.
Variables (rzero rone : K) (radd rmul : K -> K -> K).
Variable oracle : mi -> list mi -> nat -> result (option (list K)).

(** Row [j] of the identity matrix with [n] columns. *)
Fixpoint unit_row (n j : nat) : list K :=
  match n with
  | O => []
  | S n' =>
      match j with
      | O => rone :: repeat rzero n'
      | S j' => rzero :: unit_row n' j'
      end
  end.

Lemma unit_row_length : forall n j, length (unit_row n j) = n.
Proof.
  induction n as [|n IH]; intros [|j]; simpl; auto.
  rewrite repeat_length. reflexivity.
Qed.

Lemma set_at_repeat_unit : forall n j row,
  Np.set_at (repeat rzero n) j rone = Ok row ->
  (j < n)%nat /\ row = unit_row n j.
Proof.
  induction n as [|n IH]; intros [|j] row H; simpl in *; try discriminate.
  - inversion H. split; [lia | reflexivity].
  - destruct (Np.set_at (repeat rzero n) j rone) eqn:E; simpl in H;
      inversion H; subst.
    destruct (IH _ _ E) as [Hj ->]. split; [lia | reflexivity].
Qed.

Lemma firstn_repeat_le (x : K) : forall m n,
  (m <= n)%nat -> firstn m (repeat x n) = repeat x m.
Proof.
  induction m as [|m IH]; intros [|n] H; simpl; auto; try lia.
  rewrite IH by lia. reflexivity.
Qed.

Lemma firstn_unit_row : forall m n j,
  (m <= n)%nat -> (j < m)%nat -> firstn m (unit_row n j) = unit_row m j.
Proof.
  induction m as [|m IH]; intros [|n] [|j] Hm Hj; simpl; try lia; auto.
  - rewrite firstn_repeat_le by lia. reflexivity.
  - rewrite IH by lia. reflexivity.
Qed.

Lemma StronglySorted_lt_snoc : forall (l : list nat) (x : nat),
  StronglySorted lt l -> Forall (fun p => (p < x)%nat) l ->
  StronglySorted lt (l ++ [x]).
Proof.
  induction l as [|a l IH]; intros x Hs Hf; simpl.
  - constructor; constructor.
  - inversion Hs; subst. inversion Hf; subst. constructor.
    + apply IH; auto.
    + apply Forall_app. split; auto.
Qed.

(** What holds after the identifiers [processed] went through the loop:
    [pos] lists, in order, the positions of the stored identifiers, and the
    row at the position of stored identifier [j] is unit row [j]. *)
Definition loop_inv (ncoeffs : nat) (processed : list mi)
    (st : Expansion.loop_state K) (pos : list nat) : Prop :=
  Expansion.identifiers_so_far st = processed /\
  length (Expansion.coeff_matrix st) = length processed /\
  length pos = length (Expansion.stored_identifiers st) /\
  (length (Expansion.stored_identifiers st) <= ncoeffs)%nat /\
  StronglySorted lt pos /\
  Forall (fun p => (p < length processed)%nat) pos /\
  forall j p, nth_error pos j = Some p ->
    nth_error processed p = nth_error (Expansion.stored_identifiers st) j /\
    nth_error (Expansion.coeff_matrix st) p
      = Some (Expansion.Vec (unit_row ncoeffs j)).

Lemma loop_body_inv ncoeffs processed st pos identifier st' :
  Expansion.loop_body rzero rone radd rmul oracle ncoeffs st identifier
    = Ok st' ->
  loop_inv ncoeffs processed st pos ->
  exists pos', loop_inv ncoeffs (processed ++ [identifier]) st' pos'.
Proof.
  unfold Expansion.loop_body.
  intros H (Hsf & Hlen & Hpos & Hle & Hsorted & Hbound & Hrows).
  destruct (oracle identifier (Expansion.identifiers_so_far st) ncoeffs)
    as [[expr|]|e] eqn:Eo; simpl in H; try discriminate.
  - (* a relation: the identifier is not stored *)
    destruct (Expansion.dot_transpose rzero radd rmul
                (Expansion.coeff_matrix st)
                (firstn (length (Expansion.coeff_matrix st)) expr))
      as [row|e] eqn:Ed; simpl in H; inversion H; subst st'; clear H.
    exists pos. unfold loop_inv; simpl.
    rewrite !length_app, Hsf, Hlen. simpl.
    repeat split; auto.
    + eapply Forall_impl; [|exact Hbound]. simpl; intros; lia.
    + destruct (Hrows _ _ H) as [H1 _]. rewrite <- H1.
      apply nth_error_app1. rewrite Forall_forall in Hbound.
      apply Hbound. eapply nth_error_In; eauto.
    + destruct (Hrows _ _ H) as [_ H2]. rewrite <- H2.
      apply nth_error_app1. rewrite Hlen. rewrite Forall_forall in Hbound.
      apply Hbound. eapply nth_error_In; eauto.
  - (* no relation: the identifier is stored *)
    destruct (Np.set_at (repeat rzero ncoeffs)
                (length (Expansion.stored_identifiers st)) rone)
      as [row|e] eqn:Es; simpl in H; inversion H; subst st'; clear H.
    apply set_at_repeat_unit in Es as [Hlt ->].
    exists (pos ++ [length processed]). unfold loop_inv; simpl.
    rewrite !length_app, Hsf, Hlen, Hpos. simpl.
    repeat split; auto; try lia.
    + apply StronglySorted_lt_snoc; auto.
    + apply Forall_app. split.
      * eapply Forall_impl; [|exact Hbound]. simpl; intros; lia.
      * constructor; [lia | constructor].
    + destruct (Nat.lt_ge_cases j (length pos)) as [Hj|Hj].
      * rewrite nth_error_app1 in H by auto.
        destruct (Hrows _ _ H) as [H1 _].
        assert (Hp : (p < length processed)%nat).
        { rewrite Forall_forall in Hbound. apply Hbound.
          eapply nth_error_In; eauto. }
        rewrite nth_error_app1 by auto.
        rewrite nth_error_app1 by lia. exact H1.
      * rewrite nth_error_app2 in H by auto.
        destruct (j - length pos)%nat as [|x] eqn:Ej; simpl in H;
          [|destruct x; discriminate].
        inversion H; subst p.
        assert (j = length pos) by lia. subst j.
        rewrite nth_error_app2 by lia. rewrite Nat.sub_diag. simpl.
        rewrite nth_error_app2 by lia. rewrite Hpos, Nat.sub_diag.
        reflexivity.
    + destruct (Nat.lt_ge_cases j (length pos)) as [Hj|Hj].
      * rewrite nth_error_app1 in H by auto.
        destruct (Hrows _ _ H) as [_ H2].
        assert (Hp : (p < length processed)%nat).
        { rewrite Forall_forall in Hbound. apply Hbound.
          eapply nth_error_In; eauto. }
        rewrite nth_error_app1 by lia. exact H2.
      * rewrite nth_error_app2 in H by auto.
        destruct (j - length pos)%nat as [|x] eqn:Ej; simpl in H;
          [|destruct x; discriminate].
        inversion H; subst p.
        assert (j = length pos) by lia. subst j.
        rewrite nth_error_app2 by lia. rewrite Hlen, Nat.sub_diag. simpl.
        rewrite Hpos. reflexivity.
Qed.

Lemma loop_inv_preserved ncoeffs : forall rest processed st pos st',
  Expansion.loop rzero rone radd rmul oracle ncoeffs st rest = Ok st' ->
  loop_inv ncoeffs processed st pos ->
  exists pos', loop_inv ncoeffs (processed ++ rest) st' pos'.
Proof.
  induction rest as [|identifier rest IH]; intros processed st pos st' H Hinv;
    simpl in H.
  - inversion H; subst. rewrite app_nil_r. eauto.
  - destruct (Expansion.loop_body rzero rone radd rmul oracle ncoeffs st
                identifier) as [st1|e] eqn:Eb; simpl in H; [|discriminate].
    destruct (loop_body_inv _ _ _ _ _ _ Eb Hinv) as [pos1 Hinv1].
    destruct (IH _ _ _ _ H Hinv1) as [pos' Hinv'].
    exists pos'. rewrite <- app_assoc in Hinv'. exact Hinv'.
Qed.

Lemma vstack_ok (rows : list (Expansion.ndarray K)) m :
  Expansion.vstack rows = Ok m ->
  m = map (@Expansion.to_row K) rows /\
  forall a b, In a rows -> In b rows -> Expansion.width a = Expansion.width b.
Proof.
  unfold Expansion.vstack. destruct rows as [|a0 rows']; [discriminate|].
  destruct (forallb _ _) eqn:E; [|discriminate].
  intros H; inversion H; subst. split; auto.
  rewrite forallb_forall in E. intros a b Ha Hb.
  apply E in Ha, Hb. apply Nat.eqb_eq in Ha, Hb. congruence.
Qed.

Lemma to_row_length (a : Expansion.ndarray K) :
  length (Expansion.to_row a) = Expansion.width a.
Proof. destruct a; reflexivity. Qed.

(** What [precompute_over] establishes for any list of identifiers and any
    oracle. *)
Lemma precompute_over_shape (full stored : list mi) (M : list (list K)) :
  Expansion.precompute_over rzero rone radd rmul oracle full = Ok (stored, M) ->
  length M = length full /\
  Forall (fun row => length row = length stored) M /\
  exists pos : list nat,
    length pos = length stored /\
    StronglySorted lt pos /\
    forall j p, nth_error pos j = Some p ->
      nth_error full p = nth_error stored j /\
      nth_error M p = Some (unit_row (length stored) j).
Proof.
  unfold Expansion.precompute_over. intros H.
  destruct (Expansion.loop rzero rone radd rmul oracle (length full) _ full)
    as [st|e] eqn:El; simpl in H; [|discriminate].
  destruct (Expansion.vstack (Expansion.coeff_matrix st)) as [m|e] eqn:Ev;
    simpl in H; inversion H; subst stored M; clear H.
  assert (Hinit : loop_inv (length full) []
            {| Expansion.stored_identifiers := [];
               Expansion.identifiers_so_far := [];
               Expansion.coeff_matrix := @nil (Expansion.ndarray K) |} []).
  { unfold loop_inv; simpl. repeat split; auto; try lia; try constructor.
    - destruct j; discriminate.
    - destruct j; discriminate. }
  destruct (loop_inv_preserved _ _ _ _ _ _ El Hinit)
    as (pos & Hsf & Hlen & Hpos & Hle & Hsorted & Hbound & Hrows).
  simpl in *.
  apply vstack_ok in Ev as [-> Hwidth].
  set (ncols := length (Expansion.stored_identifiers st)) in *.
  assert (Hw : ncols <> 0%nat ->
               forall a, In a (Expansion.coeff_matrix st) ->
                         Expansion.width a = length full).
  { intros Hne a Ha.
    destruct pos as [|p0 pos']; [simpl in Hpos; lia|].
    destruct (Hrows 0%nat p0 eq_refl) as [_ H0].
    apply nth_error_In in H0.
    rewrite (Hwidth a _ Ha H0). simpl. apply unit_row_length. }
  split; [rewrite !length_map; exact Hlen|].
  split.
  - apply Forall_forall. intros row Hrow.
    apply in_map_iff in Hrow as (r & <- & Hr).
    apply in_map_iff in Hr as (a & <- & Ha).
    rewrite length_firstn, to_row_length.
    destruct (Nat.eq_dec ncols 0) as [E0|Hne]; [lia|].
    rewrite (Hw Hne a Ha). lia.
  - exists pos. split; auto. split; auto.
    intros j p Hj. destruct (Hrows _ _ Hj) as [H1 H2]. split; auto.
    rewrite !nth_error_map, H2. simpl. f_equal.
    apply firstn_unit_row; auto.
    assert (j < length pos)%nat by (apply nth_error_Some; congruence).
    lia.
Qed.

End ReductionMatrix.

(** ** Dicts *)

Section DictFacts.

Variable V : Type.

Lemma dict_get_set (d : Tools.dict V) (k k' : mi) (v : V) :
  Tools.dict_get (Tools.dict_set d k v) k' =
  if mi_eq_dec k k' then Some v else Tools.dict_get d k'.
Proof.
  induction d as [|[k0 v0] d IH]; simpl.
  - destruct (mi_eq_dec k k'); reflexivity.
  - destruct (mi_eq_dec k0 k) as [->|Hne]; simpl.
    + destruct (mi_eq_dec k k'); reflexivity.
    + destruct (mi_eq_dec k0 k') as [->|Hne'].
      * destruct (mi_eq_dec k k'); [congruence | reflexivity].
      * exact IH.
Qed.

Lemma dict_keys_set (d : Tools.dict V) (k k' : mi) (v : V) :
  In k' (Tools.dict_keys (Tools.dict_set d k v)) <->
  In k' (Tools.dict_keys d) \/ k' = k.
Proof.
  unfold Tools.dict_keys. induction d as [|[k0 v0] d IH]; simpl.
  - intuition auto.
  - destruct (mi_eq_dec k0 k) as [->|Hne]; simpl.
    + intuition auto.
    + rewrite IH. intuition auto.
Qed.

Lemma dict_get_In (d : Tools.dict V) (k : mi) :
  In k (Tools.dict_keys d) <-> exists v, Tools.dict_get d k = Some v.
Proof.
  unfold Tools.dict_keys. induction d as [|[k0 v0] d IH]; simpl.
  - split; [tauto | intros [v H]; discriminate].
  - destruct (mi_eq_dec k0 k) as [->|Hne].
    + split; eauto.
    + rewrite <- IH. intuition congruence.
Qed.


End DictFacts.

(** ** Distances between multi-indices *)

(** The sum of the entries. *)
Definition total (a : list Z) : Z := fold_right Z.add 0 a.

(** The sum of the componentwise differences [target - c]. *)
Definition remaining (target c : mi) : Z :=
  Np.sum (Np.zip_with Z.sub target c).

(** The Manhattan distance of two multi-indices of one length. *)
Definition manhattan (a b : mi) : Z :=
  total (Np.zip_with (fun x y => Z.abs (x - y)) a b).

Lemma fold_left_add_total : forall (a : list Z) (z : Z),
  fold_left Z.add a z = z + total a.
Proof.
  induction a as [|x a IH]; intros z; simpl; [lia|].
  rewrite IH. lia.
Qed.

Lemma np_sum_total (a : list Z) : Np.sum a = total a.
Proof. unfold Np.sum. rewrite fold_left_add_total. lia. Qed.

Lemma remaining_total : forall target c,
  length target = length c -> remaining target c = total target - total c.
Proof.
  unfold remaining. intros target c. rewrite np_sum_total.
  revert c. induction target as [|x t IH]; intros [|y c] H; simpl in *;
    try discriminate; auto.
  rewrite IH by lia. lia.
Qed.

Lemma manhattan_dominated : forall target c,
  Forall2 Z.le c target -> manhattan target c = remaining target c.
Proof.
  unfold manhattan, remaining. intros target c H. rewrite np_sum_total.
  induction H as [|y x c t Hle H IH]; simpl; auto.
  rewrite IH. lia.
Qed.

Lemma broadcast2_same_length {C} (f : Z -> Z -> C) (a b : list Z) :
  length a = length b -> Np.broadcast2 f a b = Ok (Np.zip_with f a b).
Proof.
  intros H. unfold Np.broadcast2. rewrite H, Nat.eqb_refl. reflexivity.
Qed.

Lemma dominated_geb : forall a b,
  length a = length b ->
  (forallb (fun x => x) (Np.zip_with Z.geb a b) = true <-> Forall2 Z.le b a).
Proof.
  induction a as [|x a IH]; intros [|y b] H; simpl in *; try discriminate.
  - split; auto.
  - rewrite andb_true_iff, IH by lia. rewrite Z.geb_le. split.
    + intros [H1 H2]. constructor; auto.
    + intros H'. inversion H'; subst. auto.
Qed.

Definition dominated_dec (c target : mi) :
  {Forall2 Z.le c target} + {~ Forall2 Z.le c target}.
Proof.
  revert target. induction c as [|x c IH]; intros [|y t].
  - left; constructor.
  - right; intros H; inversion H.
  - right; intros H; inversion H.
  - destruct (Z_le_dec x y) as [Hxy|Hxy].
    + destruct (IH t) as [Hd|Hd].
      * left; constructor; auto.
      * right; intros H; inversion H; auto.
    + right; intros H; inversion H; auto.
Defined.

(** ** The closest cached multi-index *)

Lemma closest_scan_spec (m : mi) : forall keys best,
  (forall k, In k keys -> length k = length m) ->
  exists r, Tools.closest_scan m keys best = Ok r /\
    match r with
    | None => best = None /\ forall k, In k keys -> ~ Forall2 Z.le k m
    | Some (b, kb) =>
        (best = Some (b, kb) \/
         (In b keys /\ Forall2 Z.le b m /\ kb = remaining m b)) /\
        (forall k, In k keys -> Forall2 Z.le k m -> kb <= remaining m k) /\
        (forall b0 k0, best = Some (b0, k0) -> kb <= k0)
    end.
Proof.
  induction keys as [|k keys IH]; intros best Hlen; simpl.
  - exists best. split; auto. destruct best as [[b kb]|].
    + repeat split; auto.
      * intros k [].
      * intros b0 k0 H; inversion H; lia.
    + split; auto.
  - assert (Hk : length m = length k) by (symmetry; apply Hlen; simpl; auto).
    assert (Hrest : forall k', In k' keys -> length k' = length m)
      by (intros; apply Hlen; simpl; auto).
    unfold Tools.dominates, Tools.mi_dist.
    rewrite !broadcast2_same_length by auto. simpl.
    fold (remaining m k).
    destruct (forallb (fun b => b) (Np.zip_with Z.geb m k)) eqn:Ed.
    + apply dominated_geb in Ed; auto.
      destruct best as [[b0 k0]|].
      * destruct (remaining m k <? k0) eqn:Elt.
        -- apply Z.ltb_lt in Elt.
           destruct (IH (Some (k, remaining m k)) Hrest) as (r & Hr & Hp).
           exists r. split; auto. destruct r as [[b kb]|].
           ++ destruct Hp as (Hsrc & Hmin & Hbest).
              specialize (Hbest _ _ eq_refl).
              repeat split.
              ** destruct Hsrc as [Hs|(Hin & Hd & Hkb)].
                 --- inversion Hs; subst. right. simpl; auto.
                 --- right. simpl; auto.
              ** intros k' [<-|Hin] Hd; auto.
              ** intros b1 k1 H; inversion H; subst. lia.
           ++ destruct Hp as [Hp _]. discriminate.
        -- apply Z.ltb_ge in Elt.
           destruct (IH (Some (b0, k0)) Hrest) as (r & Hr & Hp).
           exists r. split; auto. destruct r as [[b kb]|].
           ++ destruct Hp as (Hsrc & Hmin & Hbest).
              specialize (Hbest _ _ eq_refl).
              repeat split.
              ** destruct Hsrc as [Hs|(Hin & Hd & Hkb)];
                   [left; auto | right; simpl; auto].
              ** intros k' [<-|Hin] Hd; auto. lia.
              ** intros b1 k1 H; inversion H; subst. lia.
           ++ destruct Hp as [Hp _]. discriminate.
      * destruct (IH (Some (k, remaining m k)) Hrest) as (r & Hr & Hp).
        exists r. split; auto. destruct r as [[b kb]|].
        -- destruct Hp as (Hsrc & Hmin & Hbest).
           specialize (Hbest _ _ eq_refl).
           repeat split.
           ++ destruct Hsrc as [Hs|(Hin & Hd & Hkb)].
              ** inversion Hs; subst. right. simpl; auto.
              ** right. simpl; auto.
           ++ intros k' [<-|Hin] Hd; auto.
           ++ intros b1 k1 H; discriminate.
        -- destruct Hp as [Hp _]. discriminate.
    + assert (Hnd : ~ Forall2 Z.le k m).
      { intros Hd. apply dominated_geb in Hd; auto. congruence. }
      destruct (IH best Hrest) as (r & Hr & Hp).
      exists r. split; auto. destruct r as [[b kb]|].
      * destruct Hp as (Hsrc & Hmin & Hbest).
        repeat split; auto.
        -- destruct Hsrc as [Hs|(Hin & Hd & Hkb)];
             [left; auto | right; simpl; auto].
        -- intros k' [<-|Hin] Hd; auto. contradiction.
      * destruct Hp as [Hb Hnone]. split; auto.
        intros k' [<-|Hin]; auto.
Qed.

(** On a cache whose keys all have the length of the target, the search
    returns the first dominated key of least remaining distance, and
    raises only when no key is dominated. *)
Lemma get_closest_cached_mi_spec {V} (c : Tools.dict V) (m : mi) :
  (forall k, In k (Tools.dict_keys c) -> length k = length m) ->
  (exists b, Tools.get_closest_cached_mi c m = Ok b /\
             In b (Tools.dict_keys c) /\ Forall2 Z.le b m /\
             forall k, In k (Tools.dict_keys c) -> Forall2 Z.le k m ->
                       remaining m b <= remaining m k)
  \/
  (Tools.get_closest_cached_mi c m = Raise ValueError /\
   forall k, In k (Tools.dict_keys c) -> ~ Forall2 Z.le k m).
Proof.
  intros Hlen. unfold Tools.get_closest_cached_mi.
  destruct (closest_scan_spec m (Tools.dict_keys c) None Hlen) as (r & Hr & Hp).
  rewrite Hr. simpl. destruct r as [[b kb]|].
  - left. destruct Hp as ([Hs|(Hin & Hd & Hkb)] & Hmin & _); [discriminate|].
    subst kb. exists b. auto.
  - right. destruct Hp as [_ Hnone]. auto.
Qed.

(** ** The derivative-taking sequence *)

Lemma Forall2_le_refl : forall a : list Z, Forall2 Z.le a a.
Proof. induction a; constructor; auto; lia. Qed.

Lemma Forall2_le_trans : forall a b c : list Z,
  Forall2 Z.le a b -> Forall2 Z.le b c -> Forall2 Z.le a c.
Proof.
  intros a b c H. revert c. induction H as [|x y a b Hxy H IH]; intros c Hc;
    inversion Hc; subst; constructor; auto; lia.
Qed.


Lemma Forall2_le_total : forall a b : list Z,
  Forall2 Z.le a b -> total a <= total b.
Proof. intros a b H. induction H; simpl; lia. Qed.

Lemma total_app : forall a b : list Z, total (a ++ b) = total a + total b.
Proof. induction a as [|x a IH]; intros b; simpl; [|rewrite IH]; lia. Qed.

Lemma total_repeat_0 : forall n, total (repeat 0 n) = 0.
Proof. induction n; simpl; lia. Qed.

Lemma total_nonneg : forall a : list Z, Forall (Z.le 0) a -> 0 <= total a.
Proof. intros a H. induction H; simpl; lia. Qed.

Lemma Forall2_le_nonneg : forall a b : list Z,
  Forall2 Z.le a b -> Forall (Z.le 0) a -> Forall (Z.le 0) b.
Proof.
  intros a b H. induction H as [|x y a b Hxy H IH]; intros Ha; auto.
  inversion Ha; subst. constructor; auto; lia.
Qed.

Lemma zeros_dominated : forall m : mi,
  Forall (Z.le 0) m -> Forall2 Z.le (repeat 0 (length m)) m.
Proof. intros m H. induction H; simpl; constructor; auto. Qed.

Lemma add_at_inv a : forall i v a',
  Np.add_at a i v = Ok a' -> (i < length a)%nat /\ a' = bump a i v.
Proof.
  induction a as [|x a IH]; intros [|i] v a' H; simpl in *; try discriminate.
  - inversion H. split; [lia | reflexivity].
  - destruct (Np.add_at a i v) eqn:E; simpl in H; inversion H; subst.
    destruct (IH _ _ _ E) as [Hi ->]. split; [lia | reflexivity].
Qed.

Lemma bump_total a : forall i v,
  (i < length a)%nat -> total (bump a i v) = total a + v.
Proof.
  induction a as [|x a IH]; intros [|i] v H; simpl in *; try lia.
  rewrite IH by lia. lia.
Qed.

Lemma bump_le a : forall i v, 0 <= v -> Forall2 Z.le a (bump a i v).
Proof.
  induction a as [|x a IH]; intros [|i] v H; simpl; constructor;
    auto using Forall2_le_refl; lia.
Qed.

Lemma bump_app (p : list Z) x rest v :
  bump (p ++ x :: rest) (length p) v = p ++ (x + v) :: rest.
Proof. induction p as [|y p IH]; simpl; [|rewrite IH]; reflexivity. Qed.

Section SequenceFacts.

Variable Var : Type.

(** A yielded multi-index lies above the one the walk starts from. *)
Definition above (cur s : list Z) : Prop :=
  length s = length cur /\ Forall2 Z.le cur s /\ total cur < total s.

Lemma steps_on_axis_above : forall count idx (v : Var) cur ys r,
  Tools.steps_on_axis count idx v cur = (ys, r) ->
  (forall x, In x ys -> above cur (snd x)) /\
  (forall cur', r = Ok cur' ->
     length cur' = length cur /\ Forall2 Z.le cur cur' /\
     total cur <= total cur').
Proof.
  induction count as [|count IH]; intros idx v cur ys r H; simpl in H.
  - inversion H; subst. split; [intros x []|].
    intros cur' E; inversion E; subst.
    repeat split; auto using Forall2_le_refl; lia.
  - destruct (Np.add_at cur idx 1) as [cur1|e] eqn:Ea.
    + destruct (Tools.steps_on_axis count idx v cur1) as [ys1 r1] eqn:Es.
      inversion H; subst; clear H.
      apply add_at_inv in Ea as [Hi ->].
      destruct (IH _ _ _ _ _ Es) as [Hys Hr].
      assert (Hb : above cur (bump cur idx 1)).
      { unfold above. rewrite bump_length, bump_total by auto.
        repeat split; auto using bump_le; try lia. apply bump_le; lia. }
      destruct Hb as (Hb1 & Hb2 & Hb3).
      split.
      * intros x [<-|Hx]; simpl; [unfold above; auto|].
        destruct (Hys _ Hx) as (H1 & H2 & H3). unfold above.
        repeat split; [congruence | eapply Forall2_le_trans; eauto | lia].
      * intros cur' E. destruct (Hr _ E) as (H1 & H2 & H3).
        repeat split; [congruence | eapply Forall2_le_trans; eauto | lia].
    + inversion H; subst. split; [intros x []|]. intros cur' E; discriminate.
Qed.

Lemma steps_from_above : forall pairs idx cur ys e,
  Tools.steps_from idx pairs cur = (ys, e) ->
  forall x : Var * mi, In x ys -> above cur (snd x).
Proof.
  induction pairs as [|[mi_i vec_i] pairs IH]; intros idx cur ys e H x Hx;
    simpl in H.
  - inversion H; subst. destruct Hx.
  - destruct (Tools.steps_on_axis (Z.to_nat mi_i) idx vec_i cur)
      as [ys1 [cur1|e1]] eqn:Es.
    + destruct (Tools.steps_from (S idx) pairs cur1) as [zs e2] eqn:Ef.
      inversion H; subst; clear H.
      destruct (steps_on_axis_above _ _ _ _ _ _ Es) as [Hys Hr].
      destruct (Hr _ eq_refl) as (H1 & H2 & H3).
      apply in_app_or in Hx as [Hx|Hx]; [auto|].
      destruct (IH _ _ _ _ Ef _ Hx) as (G1 & G2 & G3). unfold above.
      repeat split; [congruence | eapply Forall2_le_trans; eauto | lia].
    + inversion H; subst; clear H.
      destruct (steps_on_axis_above _ _ _ _ _ _ Es) as [Hys _]. auto.
Qed.

Lemma sequence_above (var_list : list Var) (start_mi end_mi : mi) ys e :
  Tools.get_derivative_taking_sequence var_list start_mi end_mi = (ys, e) ->
  forall x, In x ys -> above start_mi (snd x).
Proof.
  unfold Tools.get_derivative_taking_sequence.
  destruct (Tools.mi_dist end_mi start_mi) as [dist|e0]; intros H.
  - eapply steps_from_above; eauto.
  - inversion H; subst. intros x [].
Qed.

(** The walk from [prefix ++ start] to [prefix ++ target], axis by axis,
    each axis raised one unit at a time. *)
Fixpoint walk (prefix start target : list Z) (var_list : list Var)
  : list (Var * mi) :=
  match start, target, var_list with
  | s0 :: start', e0 :: target', v :: var_list' =>
      map (fun i => (v, prefix ++ (s0 + Z.of_nat i) :: start'))
          (seq 1 (Z.to_nat (e0 - s0)))
      ++ walk (prefix ++ [e0]) start' target' var_list'
  | _, _, _ => []
  end.

Lemma steps_on_axis_closed (v : Var) (prefix rest : list Z) :
  forall count s0,
    Tools.steps_on_axis count (length prefix) v (prefix ++ s0 :: rest) =
    (map (fun i => (v, prefix ++ (s0 + Z.of_nat i) :: rest)) (seq 1 count),
     Ok (prefix ++ (s0 + Z.of_nat count) :: rest)).
Proof.
  induction count as [|count IH]; intros s0.
  - simpl. rewrite Z.add_0_r. reflexivity.
  - cbn [Tools.steps_on_axis].
    rewrite add_at_bump by (rewrite length_app; simpl; lia).
    rewrite bump_app, IH.
    f_equal.
    + cbn [seq map]. f_equal.
      rewrite <- (seq_shift count 1), map_map. apply map_ext. intros i.
      do 3 f_equal. lia.
    + do 3 f_equal. lia.
Qed.

Lemma steps_from_walk : forall (start target : list Z),
  Forall2 Z.le start target ->
  forall (var_list : list Var) (prefix : list Z),
    Tools.steps_from (length prefix)
      (combine (Np.zip_with Z.sub target start) var_list) (prefix ++ start)
    = (walk prefix start target var_list, None).
Proof.
  intros start target H.
  induction H as [|s0 e0 start target Hle H IH]; intros var_list prefix.
  - simpl. reflexivity.
  - destruct var_list as [|v var_list]; [reflexivity|].
    cbn [Np.zip_with combine Tools.steps_from walk].
    rewrite steps_on_axis_closed.
    replace (s0 + Z.of_nat (Z.to_nat (e0 - s0))) with e0 by lia.
    specialize (IH var_list (prefix ++ [e0])).
    rewrite length_app in IH. simpl in IH.
    rewrite Nat.add_1_r in IH. rewrite <- app_assoc in IH. simpl in IH.
    rewrite IH. reflexivity.
Qed.

Lemma sequence_walk (var_list : list Var) (start_mi end_mi : mi) :
  Forall2 Z.le start_mi end_mi ->
  Tools.get_derivative_taking_sequence var_list start_mi end_mi
  = (walk [] start_mi end_mi var_list, None).
Proof.
  intros H. unfold Tools.get_derivative_taking_sequence, Tools.mi_dist.
  rewrite broadcast2_same_length
    by (symmetry; eapply Forall2_length; eauto).
  apply (steps_from_walk _ _ H var_list []).
Qed.


Lemma walk_last : forall (start target : list Z),
  Forall2 Z.le start target ->
  forall (var_list : list Var) (prefix : list Z),
    length var_list = length start ->
    (walk prefix start target var_list = [] /\ start = target) \/
    (exists pre v, walk prefix start target var_list
                   = pre ++ [(v, prefix ++ target)]).
Proof.
  intros start target H.
  induction H as [|s0 e0 start target Hle H IH]; intros var_list prefix Hlen.
  - left. destruct var_list; auto.
  - destruct var_list as [|v var_list]; [discriminate|].
    simpl in Hlen. cbn [walk].
    destruct (IH var_list (prefix ++ [e0])) as [[Hw ->]|(pre & v' & Hw)];
      [lia| |].
    + rewrite Hw, app_nil_r.
      destruct (Z.to_nat (e0 - s0)) as [|c] eqn:Ec.
      * left. split; auto. f_equal. lia.
      * right. assert (E : s0 + Z.of_nat (1 + c) = e0) by lia.
        rewrite seq_S, map_app. cbn [map]. rewrite E.
        eexists; exists v. reflexivity.
    + right. rewrite Hw. rewrite <- app_assoc. simpl.
      exists (map (fun i => (v, prefix ++ (s0 + Z.of_nat i) :: start))
                  (seq 1 (Z.to_nat (e0 - s0))) ++ pre), v'.
      rewrite <- app_assoc. reflexivity.
Qed.

End SequenceFacts.

Arguments walk {Var} prefix start target var_list.

(** ** The plain derivative taker *)

Lemma closest_scan_source (m : mi) : forall keys best b kb,
  Tools.closest_scan m keys best = Ok (Some (b, kb)) ->
  best = Some (b, kb) \/ In b keys.
Proof.
  induction keys as [|k keys IH]; intros best b kb H; simpl in H.
  - inversion H; auto.
  - destruct (Tools.dominates m k) as [[|]|e]; simpl in H; try discriminate.
    + destruct (Tools.mi_dist m k) as [d|e]; simpl in H; try discriminate.
      destruct best as [[b0 k0]|].
      * destruct (Np.sum d <? k0).
        -- apply IH in H as [H|H]; [inversion H; subst|]; simpl; auto.
        -- apply IH in H as [H|H]; simpl; auto.
      * apply IH in H as [H|H]; [inversion H; subst|]; simpl; auto.
    + apply IH in H as [H|H]; simpl; auto.
Qed.

Lemma closest_in_keys {V} (c : Tools.dict V) (m b : mi) :
  Tools.get_closest_cached_mi c m = Ok b -> In b (Tools.dict_keys c).
Proof.
  unfold Tools.get_closest_cached_mi.
  destruct (Tools.closest_scan m (Tools.dict_keys c) None) as [[[b0 k0]|]|e]
    eqn:E; simpl; intros H; inversion H; subst.
  apply closest_scan_source in E as [E|E]; [discriminate | auto].
Qed.

Section TakerFacts.

Variables Expr Var : Type.
Variable ediff : Expr -> Var -> Expr.

Lemma diff_loop_other : forall steps e (c : Tools.dict Expr) k,
  ~ In k (map snd steps) ->
  Tools.dict_get (snd (Tools.diff_loop ediff steps e c)) k = Tools.dict_get c k.
Proof.
  induction steps as [|[v s] steps IH]; intros e c k Hk; simpl; auto.
  simpl in Hk. rewrite IH by tauto. rewrite dict_get_set.
  destruct (mi_eq_dec s k); [exfalso; tauto | reflexivity].
Qed.

Lemma diff_loop_keys : forall steps e (c : Tools.dict Expr) k,
  In k (Tools.dict_keys (snd (Tools.diff_loop ediff steps e c))) ->
  In k (Tools.dict_keys c) \/ In k (map snd steps).
Proof.
  induction steps as [|[v s] steps IH]; intros e c k Hk; simpl in *; auto.
  apply IH in Hk as [Hk|Hk]; auto.
  apply dict_keys_set in Hk as [Hk|Hk]; auto.
Qed.



(** Every key has the length of [var_list] and no negative entry, and the
    all-zeros key still holds the expression the taker was built with. *)
Definition cache_inv (expr : Expr) (var_list : list Var)
    (c : Tools.dict Expr) : Prop :=
  (forall k, In k (Tools.dict_keys c) ->
     length k = length var_list /\ Forall (Z.le 0) k) /\
  Tools.dict_get c (repeat 0 (length var_list)) = Some expr.

Lemma repeat_0_nonneg : forall n, Forall (Z.le 0) (repeat 0 n).
Proof. induction n; simpl; constructor; auto; lia. Qed.

Lemma init_inv expr (var_list : list Var) :
  cache_inv expr var_list (Tools.init expr var_list).
Proof.
  unfold cache_inv, Tools.init. simpl. split.
  - intros k [<-|[]]. rewrite repeat_length.
    split; auto using repeat_0_nonneg.
  - destruct (mi_eq_dec _ _); [reflexivity | congruence].
Qed.

(** Storing values at multi-indices that lie above a key keeps the
    invariant, whatever the values. *)
Lemma above_key_inv expr (var_list : list Var) (c c' : Tools.dict Expr) b
    (keys : list mi) :
  cache_inv expr var_list c ->
  In b (Tools.dict_keys c) ->
  (forall s, In s keys -> above b s) ->
  (forall k, In k (Tools.dict_keys c') ->
     In k (Tools.dict_keys c) \/ In k keys) ->
  (forall k, ~ In k keys -> Tools.dict_get c' k = Tools.dict_get c k) ->
  cache_inv expr var_list c'.
Proof.
  intros [Hkeys Hzero] Hb Habove Hsub Hother.
  destruct (Hkeys _ Hb) as [Hbl Hbn].
  split.
  - intros k Hk. apply Hsub in Hk as [Hk|Hk]; auto.
    destruct (Habove _ Hk) as (H1 & H2 & H3).
    split; [congruence | eapply Forall2_le_nonneg; eauto].
  - rewrite Hother; auto. intros Hin.
    destruct (Habove _ Hin) as (H1 & H2 & H3).
    rewrite total_repeat_0 in H3.
    pose proof (total_nonneg _ Hbn). lia.
Qed.

Lemma diff_inv expr (var_list : list Var) (c : Tools.dict Expr) (m : mi) :
  cache_inv expr var_list c ->
  cache_inv expr var_list (snd (Tools.diff ediff var_list c m)).
Proof.
  intros Hinv. unfold Tools.diff.
  destruct (Tools.dict_get c m); [exact Hinv|].
  destruct (Tools.get_closest_cached_mi c m) as [b|e] eqn:Ec; [|exact Hinv].
  destruct (Tools.dict_get c b) as [e0|]; [|exact Hinv].
  destruct (Tools.get_derivative_taking_sequence var_list b m) as [steps e]
    eqn:Es.
  destruct (Tools.diff_loop ediff steps e0 c) as [e' c'] eqn:El.
  assert (Hc' : c' = snd (Tools.diff_loop ediff steps e0 c))
    by (rewrite El; reflexivity).
  assert (Hgoal : cache_inv expr var_list c').
  { apply (above_key_inv expr var_list c c' b (map snd steps)); auto.
    - eapply closest_in_keys; eauto.
    - intros s Hs. apply in_map_iff in Hs as (x & <- & Hx).
      eapply sequence_above; eauto.
    - intros k Hk. subst c'. apply diff_loop_keys in Hk. exact Hk.
    - intros k Hk. subst c'. apply diff_loop_other. exact Hk. }
  destruct e; exact Hgoal.
Qed.

Lemma reachable_inv expr (var_list : list Var) (c : Tools.dict Expr) :
  Tools.reachable ediff expr var_list c -> cache_inv expr var_list c.
Proof.
  induction 1; [apply init_inv | apply diff_inv; assumption].
Qed.

(** A request of the right length and without negative entries always
    finds a closest cached multi-index. *)
Lemma closest_exists expr (var_list : list Var) (c : Tools.dict Expr) (m : mi) :
  cache_inv expr var_list c ->
  length m = length var_list ->
  Forall (Z.le 0) m ->
  exists b, Tools.get_closest_cached_mi c m = Ok b /\
            In b (Tools.dict_keys c) /\ Forall2 Z.le b m /\
            forall k, In k (Tools.dict_keys c) -> Forall2 Z.le k m ->
                      remaining m b <= remaining m k.
Proof.
  intros [Hkeys Hzero] Hlen Hnn.
  destruct (get_closest_cached_mi_spec c m) as [H|[_ Hnone]]; auto.
  - intros k Hk. destruct (Hkeys _ Hk). congruence.
  - exfalso. apply (Hnone (repeat 0 (length var_list))).
    + apply dict_get_In. eauto.
    + rewrite <- Hlen. apply zeros_dominated; auto.
Qed.

(** What a call of [diff] does when the request has the length of the
    keys. *)
Lemma diff_cases (var_list : list Var) (c : Tools.dict Expr) (m : mi) :
  (forall k, In k (Tools.dict_keys c) -> length k = length var_list) ->
  length m = length var_list ->
  (exists e, Tools.dict_get c m = Some e /\
             Tools.diff ediff var_list c m = (Ok e, c))
  \/
  (Tools.dict_get c m = None /\
   (forall k, In k (Tools.dict_keys c) -> ~ Forall2 Z.le k m) /\
   Tools.diff ediff var_list c m = (Raise ValueError, c))
  \/
  (exists b e0,
     Tools.dict_get c m = None /\
     Tools.get_closest_cached_mi c m = Ok b /\
     Tools.dict_get c b = Some e0 /\
     Forall2 Z.le b m /\
     (forall k, In k (Tools.dict_keys c) -> Forall2 Z.le k m ->
                remaining m b <= remaining m k) /\
     Tools.diff ediff var_list c m =
       (Ok (fst (Tools.diff_loop ediff (walk [] b m var_list) e0 c)),
        snd (Tools.diff_loop ediff (walk [] b m var_list) e0 c))).
Proof.
  intros Hkeys Hlen. unfold Tools.diff.
  destruct (Tools.dict_get c m) as [e|] eqn:Eg; [left; eauto|].
  right.
  destruct (get_closest_cached_mi_spec c m) as [(b & Hb & Hin & Hd & Hmin)|[Hr Hn]].
  - intros k Hk. rewrite Hkeys; auto.
  - right. rewrite Hb.
    apply dict_get_In in Hin as Hin'. destruct Hin' as [e0 He0].
    rewrite He0. rewrite sequence_walk by auto.
    exists b, e0. repeat split; auto.
    destruct (Tools.diff_loop ediff (walk [] b m var_list) e0 c); reflexivity.
  - left. rewrite Hr. auto.
Qed.


End TakerFacts.

(** ** The recurrence-based derivative taker *)

Section RecTakerFacts.

Variables Expr Var : Type.
Variable ediff : Expr -> Var -> Expr.
Variable Coeff : Type.
Variable emul : Coeff -> Expr -> Expr.
Variable eadd : list Expr -> Expr.
Variable wrangler :
  mi -> Tools.dict Expr -> result (option (list (mi * Coeff))).

Local Abbreviation rec_diff_loop := (Tools.rec_diff_loop ediff emul eadd wrangler).
Local Abbreviation rec_diff_body := (Tools.rec_diff_body ediff emul eadd wrangler).
Local Abbreviation rec_diff := (Tools.rec_diff ediff emul eadd wrangler).
Local Abbreviation rec_reachable :=
  (Tools.rec_reachable ediff emul eadd wrangler).














End RecTakerFacts.

(** ** The derivative takers on 64-bit arrays *)

(** numpy's broadcasting of two 1-d arrays: both brought to one length. *)
Definition stretched (a b : list Z) : option (list Z * list Z) :=
  if Nat.eqb (length a) (length b) then Some (a, b)
  else match a, b with
       | [x], _ => Some (repeat x (length b), b)
       | _, [y] => Some (a, repeat y (length a))
       | _, _ => None
       end.

Lemma zip_with_repeat_l {C} (f : Z -> Z -> C) (x : Z) : forall b,
  Np.zip_with f (repeat x (length b)) b = map (f x) b.
Proof. induction b as [|y b IH]; simpl; [|rewrite IH]; reflexivity. Qed.

Lemma zip_with_repeat_r {C} (f : Z -> Z -> C) (y : Z) : forall a,
  Np.zip_with f a (repeat y (length a)) = map (fun x => f x y) a.
Proof. induction a as [|x a IH]; simpl; [|rewrite IH]; reflexivity. Qed.

Lemma broadcast2_stretched {C} (f : Z -> Z -> C) (a b : list Z) :
  Np.broadcast2 f a b =
  match stretched a b with
  | Some (a', b') => Ok (Np.zip_with f a' b')
  | None => Raise ValueError
  end.
Proof.
  unfold Np.broadcast2, stretched.
  destruct (Nat.eqb (length a) (length b)); [reflexivity|].
  destruct a as [|x [|x' a]].
  - destruct b as [|y [|y' b]]; reflexivity.
  - rewrite zip_with_repeat_l. reflexivity.
  - destruct b as [|y [|y' b]]; try reflexivity.
    rewrite zip_with_repeat_r. reflexivity.
Qed.

Lemma stretched_spec (a b a' b' : list Z) :
  stretched a b = Some (a', b') ->
  length a' = length b' /\
  (forall y, In y a' -> In y a) /\
  (forall j x, nth_error b j = Some x -> (j < length b')%nat ->
               nth_error b' j = Some x).
Proof.
  unfold stretched.
  destruct (Nat.eqb_spec (length a) (length b)) as [E|E].
  - intros H; inversion H; subst. auto.
  - destruct a as [|x [|x' a]].
    + destruct b as [|y [|y' b]]; intros H; inversion H; subst.
      simpl. repeat split; auto. intros j x _ Hj. lia.
    + intros H; inversion H; subst. rewrite repeat_length.
      repeat split; auto.
      intros y Hy. apply repeat_spec in Hy. subst. simpl; auto.
    + destruct b as [|y [|y' b]]; intros H; inversion H; subst.
      split; [simpl; rewrite repeat_length; reflexivity|].
      split; [auto|].
      intros [|j] x0 Hx _; simpl in *.
      * exact Hx.
      * destruct j; discriminate.
Qed.

Lemma zip_with_nth_error {C} (f : Z -> Z -> C) : forall a b j r,
  nth_error (Np.zip_with f a b) j = Some r ->
  exists y x, nth_error a j = Some y /\ nth_error b j = Some x /\ r = f y x.
Proof.
  induction a as [|y a IH]; intros [|x b] [|j] r H; simpl in *;
    try discriminate.
  - inversion H; subst. eauto.
  - eauto.
Qed.

Lemma zip_with_length_lt {C} (f : Z -> Z -> C) : forall a b j r,
  nth_error (Np.zip_with f a b) j = Some r -> (j < length b)%nat.
Proof.
  intros a b j r H.
  destruct (zip_with_nth_error f a b j r H) as (y & x & _ & Hx & _).
  apply nth_error_Some. congruence.
Qed.

Lemma combine_nth_error_fst {A B} : forall (a : list A) (b : list B) j x y,
  nth_error (combine a b) j = Some (x, y) -> nth_error a j = Some x.
Proof.
  induction a as [|a0 a IH]; intros [|b0 b] [|j] x y H; simpl in *;
    try discriminate.
  - inversion H; reflexivity.
  - eapply IH; eauto.
Qed.

Lemma Forall2_le_nth_error : forall (a b : list Z) j x y,
  Forall2 Z.le a b -> nth_error a j = Some x -> nth_error b j = Some y ->
  x <= y.
Proof.
  intros a b j x y H. revert j.
  induction H as [|x0 y0 a b Hxy H IH]; intros [|j] Hx Hy; simpl in *;
    try discriminate.
  - inversion Hx; inversion Hy; subst. exact Hxy.
  - eauto.
Qed.

(** *** Distances and their sums *)

Lemma wrap_high (z : Z) :
  Int64.max_int < z <= Int64.max_int + 2 ^ 64 -> Int64.wrap z = z - 2 ^ 64.
Proof.
  unfold Int64.wrap, Int64.max_int. intros H.
  replace (z + 2 ^ 63) with (z + 2 ^ 63 - 2 ^ 64 + 1 * 2 ^ 64) by lia.
  rewrite Z_mod_plus_full. rewrite Z.mod_small; lia.
Qed.

(** [range(1, 1 + mi_i)] has [mi_i] values while [1 + mi_i] does not
    wrap. *)
Lemma range_count_exact (t : Z) :
  0 <= t <= Int64.max_int - 1 -> Z.of_nat (Tools64.range_count t) = t.
Proof.
  intros H. unfold Tools64.range_count.
  rewrite wrap_fits by int64_lia. lia.
Qed.

(** Walking up from [x] towards [y] never leaves the 64-bit range. *)
Lemma range_count_bound (x y : Z) :
  in_int64 x -> in_int64 y -> x <= y ->
  x + Z.of_nat (Tools64.range_count (Int64.wrap (y - x))) <= Int64.max_int.
Proof.
  intros Hx Hy Hxy. unfold Tools64.range_count.
  destruct (Z_le_gt_dec (y - x) Int64.max_int) as [Hs|Hb].
  - rewrite (wrap_fits (y - x)) by int64_lia.
    destruct (Z_le_gt_dec (y - x) (Int64.max_int - 1)) as [Hs'|Hb'].
    + rewrite wrap_fits by int64_lia. int64_lia.
    + replace (y - x) with Int64.max_int by lia.
      replace (Int64.wrap (1 + Int64.max_int)) with Int64.min_int
        by (vm_compute; reflexivity).
      change (Z.to_nat (Int64.min_int - 1)) with 0%nat. int64_lia.
  - rewrite (wrap_high (y - x)) by int64_lia.
    rewrite wrap_fits by int64_lia.
    replace (Z.to_nat (1 + (y - x - 2 ^ 64) - 1)) with 0%nat by int64_lia.
    int64_lia.
Qed.

Lemma in_le_total : forall (m : list Z) (z : Z),
  Forall (Z.le 0) m -> In z m -> z <= total m.
Proof.
  intros m z H. induction H as [|x m Hx H IH]; intros Hz; [destruct Hz|].
  pose proof (total_nonneg m H). simpl.
  destruct Hz as [<-|Hz]; [lia | specialize (IH Hz); lia].
Qed.

Lemma nonneg_bounded_fits (m : list Z) (bound : Z) :
  Forall (Z.le 0) m -> total m <= bound -> bound <= Int64.max_int ->
  Forall (fun z => 0 <= z <= bound) m.
Proof.
  intros Hm Ht Hb. apply Forall_forall. intros z Hz.
  pose proof (in_le_total m z Hm Hz).
  rewrite Forall_forall in Hm. specialize (Hm z Hz). lia.
Qed.

Lemma int64_sum_from (d : list Z) : forall acc,
  Forall (Z.le 0) d -> 0 <= acc -> acc + total d <= Int64.max_int ->
  fold_left (fun a x => Int64.wrap (a + x)) d acc = fold_left Z.add d acc.
Proof.
  induction d as [|x d IH]; intros acc Hd Ha Hs; simpl; auto.
  inversion Hd; subst. simpl in Hs.
  pose proof (total_nonneg d H2).
  rewrite wrap_fits by int64_lia.
  apply IH; auto; lia.
Qed.

(** The 64-bit sum of non-negative entries is the exact one while the
    total fits. *)
Lemma int64_sum_exact (d : list Z) :
  Forall (Z.le 0) d -> total d <= Int64.max_int -> Int64.sum d = Np.sum d.
Proof.
  intros Hd Ht. unfold Int64.sum, Np.sum. apply int64_sum_from; auto; lia.
Qed.

Lemma dist_exact : forall (k m : list Z),
  Forall2 Z.le k m -> Forall (Z.le 0) k -> total m <= Int64.max_int ->
  Np.zip_with (fun x y => Int64.wrap (x - y)) m k = Np.zip_with Z.sub m k /\
  Forall (Z.le 0) (Np.zip_with Z.sub m k) /\
  total (Np.zip_with Z.sub m k) <= total m.
Proof.
  intros k m H. induction H as [|x y k m Hxy H IH]; intros Hk Ht; simpl.
  - repeat split; auto; lia.
  - inversion Hk; subst. simpl in Ht.
    pose proof (total_nonneg m (Forall2_le_nonneg k m H H3)) as Hm.
    destruct IH as (I1 & I2 & I3); auto; [lia|].
    rewrite I1, wrap_fits by int64_lia.
    repeat split; auto.
    + constructor; auto. lia.
    + lia.
Qed.

(** *** The steps *)

Lemma int64_add_at_fits (a : list Z) : forall i v a',
  Int64.add_at a i v = Ok a' -> Forall in_int64 a -> Forall in_int64 a'.
Proof.
  induction a as [|x a IH]; intros [|i] v a' H Ha; simpl in H;
    try discriminate.
  - inversion H; subst. inversion Ha; subst.
    constructor; [apply wrap_range | assumption].
  - destruct (Int64.add_at a i v) as [r|e] eqn:E; simpl in H; inversion H; subst.
    inversion Ha; subst. constructor; [assumption|]. eapply IH; eauto.
Qed.

Lemma bump_nth_error_other (a : list Z) : forall i j v,
  i <> j -> nth_error (bump a i v) j = nth_error a j.
Proof.
  induction a as [|x a IH]; intros [|i] [|j] v H; simpl; auto;
    try congruence.
Qed.

Lemma bump_nth_error_same (a : list Z) : forall i v x,
  nth_error a i = Some x -> nth_error (bump a i v) i = Some (x + v).
Proof.
  induction a as [|x0 a IH]; intros [|i] v x H; simpl in *; try discriminate.
  - inversion H; reflexivity.
  - auto.
Qed.

Section Steps64.

Variable Var : Type.

Lemma steps_on_axis64_fits : forall count idx (v : Var) cur ys r,
  Tools64.steps_on_axis count idx v cur = (ys, r) ->
  Forall in_int64 cur ->
  (forall x, In x ys -> Forall in_int64 (snd x)) /\
  (forall cur', r = Ok cur' -> Forall in_int64 cur').
Proof.
  induction count as [|count IH]; intros idx v cur ys r H Hc; simpl in H.
  - inversion H; subst. split; [intros x []|].
    intros cur' E; inversion E; subst; assumption.
  - destruct (Int64.add_at cur idx 1) as [cur1|e] eqn:Ea.
    + destruct (Tools64.steps_on_axis count idx v cur1) as [ys1 r1] eqn:Es.
      inversion H; subst; clear H.
      pose proof (int64_add_at_fits _ _ _ _ Ea Hc) as Hc1.
      destruct (IH _ _ _ _ _ Es Hc1) as [Hys Hr].
      split; [|exact Hr].
      intros x [<-|Hx]; [exact Hc1 | auto].
    + inversion H; subst. split; [intros x []|]. intros cur' E; discriminate.
Qed.

Lemma steps_from64_fits : forall pairs idx cur ys e,
  Tools64.steps_from idx pairs cur = (ys, e) ->
  Forall in_int64 cur ->
  forall x : Var * mi, In x ys -> Forall in_int64 (snd x).
Proof.
  induction pairs as [|[mi_i vec_i] pairs IH]; intros idx cur ys e H Hc x Hx;
    simpl in H.
  - inversion H; subst. destruct Hx.
  - destruct (Tools64.steps_on_axis (Tools64.range_count mi_i) idx vec_i cur)
      as [ys1 [cur1|e1]] eqn:Es.
    + destruct (Tools64.steps_from (S idx) pairs cur1) as [zs e2] eqn:Ef.
      inversion H; subst; clear H.
      destruct (steps_on_axis64_fits _ _ _ _ _ _ Es Hc) as [Hys Hr].
      apply in_app_or in Hx as [Hx|Hx]; [auto|].
      eapply IH; eauto.
    + inversion H; subst; clear H.
      destruct (steps_on_axis64_fits _ _ _ _ _ _ Es Hc) as [Hys _]. auto.
Qed.

(** While the entry of the axis stays in range, the 64-bit steps are the
    exact ones. *)
Lemma steps_on_axis64_exact : forall count idx (v : Var) cur,
  (forall x, nth_error cur idx = Some x ->
     Int64.min_int <= x /\ x + Z.of_nat count <= Int64.max_int) ->
  Tools64.steps_on_axis count idx v cur = Tools.steps_on_axis count idx v cur.
Proof.
  induction count as [|count IH]; intros idx v cur H; [reflexivity|].
  cbn [Tools64.steps_on_axis Tools.steps_on_axis].
  rewrite int64_add_at_exact
    by (intros x Hx; apply H in Hx; int64_lia).
  destruct (Np.add_at cur idx 1) as [cur1|e] eqn:Ea; [|reflexivity].
  apply add_at_inv in Ea as [Hi ->].
  rewrite IH; [reflexivity|].
  intros x Hx.
  destruct (nth_error cur idx) as [x0|] eqn:E0.
  - rewrite (bump_nth_error_same cur idx 1 x0 E0) in Hx.
    inversion Hx; subst. specialize (H x0 eq_refl). lia.
  - apply nth_error_None in E0. lia.
Qed.

Lemma steps_on_axis_other : forall count idx (v : Var) cur ys cur',
  Tools.steps_on_axis count idx v cur = (ys, Ok cur') ->
  forall j, idx <> j -> nth_error cur' j = nth_error cur j.
Proof.
  induction count as [|count IH]; intros idx v cur ys cur' H j Hj; simpl in H.
  - inversion H; reflexivity.
  - destruct (Np.add_at cur idx 1) as [cur1|e] eqn:Ea; [|discriminate].
    destruct (Tools.steps_on_axis count idx v cur1) as [ys1 r1] eqn:Es.
    inversion H; subst; clear H.
    apply add_at_inv in Ea as [Hi ->].
    rewrite (IH _ _ _ _ _ Es j Hj). apply bump_nth_error_other. exact Hj.
Qed.

(** The pairs with the number of steps each axis takes. *)
Definition with_counts (pairs : list (Z * Var)) : list (Z * Var) :=
  map (fun p => (Z.of_nat (Tools64.range_count (fst p)), snd p)) pairs.

(** Each axis can take its steps without leaving the 64-bit range. *)
Definition steps_in_range (idx : nat) (pairs : list (Z * Var))
    (cur : list Z) : Prop :=
  forall j mi_j v x,
    nth_error pairs j = Some (mi_j, v) ->
    nth_error cur (idx + j) = Some x ->
    Int64.min_int <= x /\
    x + Z.of_nat (Tools64.range_count mi_j) <= Int64.max_int.

Lemma steps_from64_exact : forall pairs idx cur,
  steps_in_range idx pairs cur ->
  Tools64.steps_from idx pairs cur
  = Tools.steps_from idx (with_counts pairs) cur.
Proof.
  induction pairs as [|[mi_i vec_i] pairs IH]; intros idx cur H;
    [reflexivity|].
  cbn [Tools64.steps_from Tools.steps_from with_counts map fst snd].
  rewrite Nat2Z.id.
  rewrite steps_on_axis64_exact.
  2:{ intros x Hx. apply (H 0%nat mi_i vec_i x eq_refl).
      rewrite Nat.add_0_r. exact Hx. }
  destruct (Tools.steps_on_axis (Tools64.range_count mi_i) idx vec_i cur)
    as [ys1 [cur1|e1]] eqn:Es; [|reflexivity].
  fold (with_counts pairs). rewrite IH; [reflexivity|].
  intros j mi_j v x Hj Hx.
  rewrite (steps_on_axis_other _ _ _ _ _ _ Es) in Hx by lia.
  apply (H (S j) mi_j v x Hj).
  rewrite Nat.add_succ_r. exact Hx.
Qed.

(** Between a start [b] and the target it is dominated by, as numpy has
    brought them to one length, every axis stays in range. *)
Lemma dominated_steps_in_range (a' b' b : list Z) (var_list : list Var) :
  Forall2 Z.le b' a' ->
  Forall in_int64 a' ->
  Forall in_int64 b ->
  (forall j x, nth_error b j = Some x -> (j < length b')%nat ->
               nth_error b' j = Some x) ->
  steps_in_range 0
    (combine (Np.zip_with (fun x y => Int64.wrap (x - y)) a' b') var_list) b.
Proof.
  intros Hd Ha Hb Hsame j mi_j v x Hj Hx. simpl in Hx.
  apply combine_nth_error_fst in Hj.
  pose proof (zip_with_length_lt _ _ _ _ _ Hj) as Hlt.
  apply zip_with_nth_error in Hj as (y & x' & Hy & Hx' & ->).
  rewrite (Hsame j x Hx Hlt) in Hx'. inversion Hx'; subst x'.
  pose proof (Forall2_le_nth_error _ _ _ _ _ Hd (Hsame j x Hx Hlt) Hy) as Hxy.
  pose proof (nth_error_Forall _ _ _ _ Ha Hy) as Hyf.
  pose proof (nth_error_Forall _ _ _ _ Hb Hx) as Hxf.
  split; [int64_lia | apply range_count_bound; auto].
Qed.

Lemma with_counts_exact : forall (b m : list Z) (var_list : list Var),
  Forall2 (fun s e => s <= e /\ e - s <= Int64.max_int - 1) b m ->
  with_counts
    (combine (Np.zip_with (fun x y => Int64.wrap (x - y)) m b) var_list)
  = combine (Np.zip_with Z.sub m b) var_list.
Proof.
  intros b m var_list H. revert var_list.
  induction H as [|s e b m [Hse Hd] H IH]; intros [|v var_list]; simpl; auto.
  rewrite (wrap_fits (e - s)) by int64_lia.
  rewrite range_count_exact by lia.
  fold (with_counts
          (combine (Np.zip_with (fun x y => Int64.wrap (x - y)) m b) var_list)).
  rewrite IH. reflexivity.
Qed.

(** From a start to a target that is componentwise at least the start and
    at most [2^63 - 2] above it, both within the 64-bit range, the 64-bit
    sequence is the exact one. *)
Lemma sequence64_exact (var_list : list Var) (b m : list Z) :
  Forall2 (fun s e => s <= e /\ e - s <= Int64.max_int - 1) b m ->
  Forall in_int64 b ->
  Forall in_int64 m ->
  Tools64.get_derivative_taking_sequence var_list b m
  = Tools.get_derivative_taking_sequence var_list b m.
Proof.
  intros H Hb Hm.
  assert (Hle : Forall2 Z.le b m).
  { eapply Forall2_impl; [|exact H]. simpl. intros s e [Hs _]. exact Hs. }
  assert (Hlen : length m = length b)
    by (symmetry; eapply Forall2_length; eauto).
  unfold Tools64.get_derivative_taking_sequence,
    Tools.get_derivative_taking_sequence, Tools64.mi_dist, Tools.mi_dist.
  rewrite !array_int_fits by assumption. simpl.
  rewrite !broadcast2_same_length by assumption.
  rewrite steps_from64_exact.
  - rewrite with_counts_exact by assumption. reflexivity.
  - apply dominated_steps_in_range; auto.
Qed.

End Steps64.

(** *** The search *)

Section Search64.

Variable other_dtype_ge : mi -> mi -> result bool.

Local Abbreviation dominates64 := (Tools64.dominates other_dtype_ge).
Local Abbreviation closest_scan64 := (Tools64.closest_scan other_dtype_ge).

Lemma dominates64_fits (m k : mi) :
  Forall in_int64 m -> Forall in_int64 k ->
  dominates64 m k = Tools.dominates m k.
Proof.
  intros Hm Hk. unfold Tools64.dominates.
  rewrite !array_fits by assumption. reflexivity.
Qed.

Lemma mi_dist64_ok (a b d : mi) :
  Tools64.mi_dist a b = Ok d ->
  Forall in_int64 a /\ Forall in_int64 b /\
  Np.broadcast2 (fun x y => Int64.wrap (x - y)) a b = Ok d.
Proof.
  unfold Tools64.mi_dist, Int64.array_int.
  destruct (forallb Int64.fits a) eqn:Ea; simpl; [|discriminate].
  destruct (forallb Int64.fits b) eqn:Eb; simpl; [|discriminate].
  intros H. repeat split; auto; apply forallb_fits; assumption.
Qed.

Lemma closest_scan64_source (m : mi) : forall keys best b kb,
  closest_scan64 m keys best = Ok (Some (b, kb)) ->
  best = Some (b, kb) \/
  (In b keys /\ dominates64 m b = Ok true /\
   exists d, Tools64.mi_dist m b = Ok d).
Proof.
  induction keys as [|k keys IH]; intros best b kb H; simpl in H.
  - inversion H; auto.
  - destruct (dominates64 m k) as [[|]|e] eqn:Ed; simpl in H; try discriminate.
    + destruct (Tools64.mi_dist m k) as [d|e] eqn:Em; simpl in H;
        try discriminate.
      assert (Hk : In k (k :: keys) /\ dominates64 m k = Ok true /\
                   exists d, Tools64.mi_dist m k = Ok d)
        by (simpl; eauto).
      destruct best as [[b0 k0]|].
      * destruct (Int64.sum d <? k0).
        -- apply IH in H as [H|(H1 & H2)]; [inversion H; subst; auto|].
           right. simpl; auto.
        -- apply IH in H as [H|(H1 & H2)]; [auto|]. right. simpl; auto.
      * apply IH in H as [H|(H1 & H2)]; [inversion H; subst; auto|].
        right. simpl; auto.
    + apply IH in H as [H|(H1 & H2)]; [auto|]. right. simpl; auto.
Qed.

(** A key the search returns is cached, fits 64 bits together with the
    request, and is dominated by the request as numpy has brought the two
    to one length. *)
Lemma closest64_source {V} (c : Tools.dict V) (m b : mi) :
  Tools64.get_closest_cached_mi other_dtype_ge c m = Ok b ->
  In b (Tools.dict_keys c) /\
  Forall in_int64 m /\ Forall in_int64 b /\
  exists a' b', stretched m b = Some (a', b') /\ Forall2 Z.le b' a'.
Proof.
  unfold Tools64.get_closest_cached_mi.
  destruct (closest_scan64 m (Tools.dict_keys c) None) as [[[b0 k0]|]|e]
    eqn:E; simpl; intros H; inversion H; subst.
  apply closest_scan64_source in E as [E|(Hin & Hd & d & Hm)]; [discriminate|].
  apply mi_dist64_ok in Hm as (Hmf & Hbf & Hbr).
  rewrite dominates64_fits in Hd by assumption.
  unfold Tools.dominates in Hd. rewrite broadcast2_stretched in Hd.
  destruct (stretched m b) as [[a' b']|] eqn:Es; [|discriminate].
  simpl in Hd. inversion Hd as [Hall].
  destruct (stretched_spec _ _ _ _ Es) as (Hlen & _ & _).
  apply dominated_geb in Hall; [|exact Hlen].
  repeat split; auto. eauto.
Qed.

(** On keys of the request's length, key and request without negative
    entries and within 64 bits, and a total of the request that fits, the
    64-bit scan is the exact one. *)
Lemma closest_scan64_exact (m : mi) :
  Forall in_int64 m ->
  (Forall (Z.le 0) m -> total m <= Int64.max_int) ->
  forall keys best,
    (forall k, In k keys ->
       length k = length m /\ Forall in_int64 k /\ Forall (Z.le 0) k) ->
    closest_scan64 m keys best = Tools.closest_scan m keys best.
Proof.
  intros Hm Ht. induction keys as [|k keys IH]; intros best Hk; [reflexivity|].
  destruct (Hk k) as (Hlen & Hkf & Hkn); [simpl; auto|].
  assert (Hrest : forall k', In k' keys ->
            length k' = length m /\ Forall in_int64 k' /\ Forall (Z.le 0) k')
    by (intros; apply Hk; simpl; auto).
  cbn [Tools64.closest_scan Tools.closest_scan].
  rewrite dominates64_fits by assumption.
  destruct (Tools.dominates m k) as [[|]|e] eqn:Ed; simpl; auto.
  unfold Tools.dominates in Ed.
  rewrite broadcast2_same_length in Ed by auto. simpl in Ed.
  inversion Ed as [Hall]. apply dominated_geb in Hall; [|auto].
  assert (Hmn : Forall (Z.le 0) m) by (eapply Forall2_le_nonneg; eauto).
  destruct (dist_exact k m Hall Hkn (Ht Hmn)) as (E1 & E2 & E3).
  unfold Tools64.mi_dist, Tools.mi_dist.
  rewrite !array_int_fits by assumption. simpl.
  rewrite !broadcast2_same_length by auto. simpl.
  rewrite E1. rewrite int64_sum_exact by (auto; specialize (Ht Hmn); lia).
  destruct best as [[b0 k0]|]; [destruct (_ <? _)|]; apply IH; auto.
Qed.

Lemma get_closest64_exact {V} (c : Tools.dict V) (m : mi) :
  Forall in_int64 m ->
  (Forall (Z.le 0) m -> total m <= Int64.max_int) ->
  (forall k, In k (Tools.dict_keys c) ->
     length k = length m /\ Forall in_int64 k /\ Forall (Z.le 0) k) ->
  Tools64.get_closest_cached_mi other_dtype_ge c m
  = Tools.get_closest_cached_mi c m.
Proof.
  intros Hm Ht Hk.
  unfold Tools64.get_closest_cached_mi, Tools.get_closest_cached_mi.
  rewrite closest_scan64_exact by assumption. reflexivity.
Qed.



End Search64.

(** *** The caches *)

Section Takers64.

Variables Expr Var : Type.
Variable ediff : Expr -> Var -> Expr.
Variable other_dtype_ge : mi -> mi -> result bool.

Local Abbreviation diff64 := (Tools64.diff ediff other_dtype_ge).
Local Abbreviation closest64 :=
  (Tools64.get_closest_cached_mi (Expr := Expr) other_dtype_ge).

(** Every key has the length of [var_list], no negative entry and fits 64
    bits, and the all-zeros key holds the expression the taker was built
    with. *)
Definition cache_inv64 (expr : Expr) (var_list : list Var)
    (c : Tools.dict Expr) : Prop :=
  cache_inv Expr Var expr var_list c /\
  forall k, In k (Tools.dict_keys c) -> Forall in_int64 k.

Lemma init_inv64 expr (var_list : list Var) :
  cache_inv64 expr var_list (Tools.init expr var_list).
Proof.
  split; [apply init_inv|].
  intros k [<-|[]]. apply Forall_forall. intros z Hz.
  apply repeat_spec in Hz. subst. int64_lia.
Qed.

(** The multi-indices yielded on the way from a key the search returned
    lie above it and fit 64 bits. *)
Lemma sequence64_above (var_list : list Var) (c : Tools.dict Expr)
    (m b : mi) ys e :
  closest64 c m = Ok b ->
  Tools64.get_derivative_taking_sequence var_list b m = (ys, e) ->
  forall x, In x ys -> above b (snd x) /\ Forall in_int64 (snd x).
Proof.
  intros Hb Hs x Hx.
  apply closest64_source in Hb as (_ & Hmf & Hbf & a' & b' & Est & Hd).
  destruct (stretched_spec _ _ _ _ Est) as (Hlen & Ha & Hsame).
  unfold Tools64.get_derivative_taking_sequence, Tools64.mi_dist in Hs.
  rewrite !array_int_fits in Hs by assumption. simpl in Hs.
  rewrite broadcast2_stretched, Est in Hs.
  split.
  - rewrite steps_from64_exact in Hs.
    + eapply steps_from_above; eauto.
    + apply dominated_steps_in_range; auto.
      apply Forall_forall. intros y Hy.
      rewrite Forall_forall in Hmf. auto.
  - eapply steps_from64_fits; eauto.
Qed.

Lemma above_key_inv64 expr (var_list : list Var) (c c' : Tools.dict Expr) b
    (keys : list mi) :
  cache_inv64 expr var_list c ->
  In b (Tools.dict_keys c) ->
  (forall s, In s keys -> above b s /\ Forall in_int64 s) ->
  (forall k, In k (Tools.dict_keys c') ->
     In k (Tools.dict_keys c) \/ In k keys) ->
  (forall k, ~ In k keys -> Tools.dict_get c' k = Tools.dict_get c k) ->
  cache_inv64 expr var_list c'.
Proof.
  intros [Hinv Hfit] Hb Habove Hsub Hother. split.
  - apply (above_key_inv Expr Var expr var_list c c' b keys); auto.
    intros s Hs. apply Habove; auto.
  - intros k Hk. apply Hsub in Hk as [Hk|Hk]; [auto | apply Habove; auto].
Qed.

Lemma diff64_inv expr (var_list : list Var) (c : Tools.dict Expr) (m : mi) :
  cache_inv64 expr var_list c ->
  cache_inv64 expr var_list (snd (diff64 var_list c m)).
Proof.
  intros Hinv. unfold Tools64.diff.
  destruct (Tools.dict_get c m); [exact Hinv|].
  destruct (closest64 c m) as [b|e] eqn:Ec; [|exact Hinv].
  destruct (Tools.dict_get c b) as [e0|]; [|exact Hinv].
  destruct (Tools64.get_derivative_taking_sequence var_list b m) as [steps e]
    eqn:Es.
  destruct (Tools.diff_loop ediff steps e0 c) as [e' c'] eqn:El.
  assert (Hc' : c' = snd (Tools.diff_loop ediff steps e0 c))
    by (rewrite El; reflexivity).
  assert (Hgoal : cache_inv64 expr var_list c').
  { apply (above_key_inv64 expr var_list c c' b (map snd steps)); auto.
    - apply closest64_source in Ec. tauto.
    - intros s Hs. apply in_map_iff in Hs as (x & <- & Hx).
      eapply sequence64_above; eauto.
    - intros k Hk. subst c'. apply diff_loop_keys in Hk. exact Hk.
    - intros k Hk. subst c'. apply diff_loop_other. exact Hk. }
  destruct e; exact Hgoal.
Qed.

Lemma reachable64_inv expr (var_list : list Var) (c : Tools.dict Expr) :
  Tools64.reachable ediff other_dtype_ge expr var_list c ->
  cache_inv64 expr var_list c.
Proof.
  induction 1; [apply init_inv64 | apply diff64_inv; assumption].
Qed.

Lemma inv64_keys expr (var_list : list Var) (c : Tools.dict Expr) (m : mi) :
  cache_inv64 expr var_list c ->
  length m = length var_list ->
  forall k, In k (Tools.dict_keys c) ->
    length k = length m /\ Forall in_int64 k /\ Forall (Z.le 0) k.
Proof.
  intros [[Hkeys _] Hfit] Hlen k Hk.
  destruct (Hkeys k Hk) as [Hl Hn]. repeat split; auto. congruence.
Qed.




(** *** The recurrence-based taker *)

Variable Coeff : Type.
Variable emul : Coeff -> Expr -> Expr.
Variable eadd : list Expr -> Expr.
Variable wrangler :
  mi -> Tools.dict Expr -> result (option (list (mi * Coeff))).



End Takers64.



(** ** The claims about the derivative cache *)

(** For the examples, whose entries all fit 64 bits: comparisons in
    another element type are never reached there, and stand for a failure. *)
Definition unreached_dtype_ge : mi -> mi -> result bool :=
  fun _ _ => Raise NotImplementedError.



(** C6, as stated for every request, fails where the key of [min] wraps
    around.  After [diff((1,0))] on a fresh two-variable taker the keys are
    (0,0) and (1,0).  The request [(2^63-1, 1)] is not cached and dominates
    both; (1,0) is the nearer one, yet the search returns (0,0): the sum of
    the distances to (0,0) is [2^63], which a 64-bit sum turns into
    [-2^63]. *)
Lemma closest_cached_search_wraps_at_64_bits :
  Tools64.reachable Terms.Diff unreached_dtype_ge Terms.Base [0%nat; 1%nat]
    (snd (Tools64.diff Terms.Diff unreached_dtype_ge [0%nat; 1%nat]
            (Tools.init Terms.Base [0%nat; 1%nat]) [1; 0])) /\
  Tools.dict_keys
    (snd (Tools64.diff Terms.Diff unreached_dtype_ge [0%nat; 1%nat]
            (Tools.init Terms.Base [0%nat; 1%nat]) [1; 0]))
    = [[0; 0]; [1; 0]] /\
  Tools.dict_get
    (snd (Tools64.diff Terms.Diff unreached_dtype_ge [0%nat; 1%nat]
            (Tools.init Terms.Base [0%nat; 1%nat]) [1; 0]))
    [2 ^ 63 - 1; 1] = None /\
  Tools64.get_closest_cached_mi unreached_dtype_ge
    (snd (Tools64.diff Terms.Diff unreached_dtype_ge [0%nat; 1%nat]
            (Tools.init Terms.Base [0%nat; 1%nat]) [1; 0]))
    [2 ^ 63 - 1; 1] = Ok [0; 0] /\
  Forall2 Z.le [1; 0] [2 ^ 63 - 1; 1] /\
  manhattan [2 ^ 63 - 1; 1] [1; 0] < manhattan [2 ^ 63 - 1; 1] [0; 0] /\
  ~ (exists b : mi,
       Tools64.get_closest_cached_mi unreached_dtype_ge
         (snd (Tools64.diff Terms.Diff unreached_dtype_ge [0%nat; 1%nat]
                 (Tools.init Terms.Base [0%nat; 1%nat]) [1; 0]))
         [2 ^ 63 - 1; 1] = Ok b /\
       forall k,
         In k (Tools.dict_keys
                 (snd (Tools64.diff Terms.Diff unreached_dtype_ge
                         [0%nat; 1%nat]
                         (Tools.init Terms.Base [0%nat; 1%nat]) [1; 0]))) ->
         Forall2 Z.le k [2 ^ 63 - 1; 1] ->
         manhattan [2 ^ 63 - 1; 1] b <= manhattan [2 ^ 63 - 1; 1] k).
Proof.
  split; [apply Tools64.reachable_diff, Tools64.reachable_init|].
  split; [reflexivity|].
  split; [reflexivity|].
  split; [vm_compute; reflexivity|].
  split; [repeat constructor; lia|].
  split; [vm_compute; reflexivity|].
  intros (b & Hb & Hmin).
  assert (E : Tools64.get_closest_cached_mi unreached_dtype_ge
                (snd (Tools64.diff Terms.Diff unreached_dtype_ge
                        [0%nat; 1%nat]
                        (Tools.init Terms.Base [0%nat; 1%nat]) [1; 0]))
                [2 ^ 63 - 1; 1] = Ok [0; 0])
    by (vm_compute; reflexivity).
  rewrite E in Hb. inversion Hb; subst b.
  specialize (Hmin [1; 0]).
  assert (Hlt : manhattan [2 ^ 63 - 1; 1] [1; 0]
                < manhattan [2 ^ 63 - 1; 1] [0; 0])
    by (vm_compute; reflexivity).
  apply Z.lt_nge in Hlt. apply Hlt. apply Hmin.
  - simpl. auto.
  - repeat constructor; lia.
Qed.

(** C6, amended.  For a request of the taker's dimension that is not
    cached, has no negative entry and whose entries add up to at most
    [2^63 - 1], the closest-cached search of a derivative taker returns a
    cached multi-index that is componentwise at most the request and whose
    Manhattan distance to the request is least among the cached
    multi-indices that are componentwise at most the request. *)
Theorem closest_cached_is_dominated_and_nearest :
  forall (Expr Var : Type) (ediff : Expr -> Var -> Expr)
         (other_dtype_ge : mi -> mi -> result bool)
         (expr : Expr) (var_list : list Var) (c : Tools.dict Expr) (m : mi),
    Tools64.reachable ediff other_dtype_ge expr var_list c ->
    length m = length var_list ->
    Forall (Z.le 0) m ->
    total m <= 2 ^ 63 - 1 ->
    Tools.dict_get c m = None ->
    exists b : mi,
      Tools64.get_closest_cached_mi other_dtype_ge c m = Ok b /\
      In b (Tools.dict_keys c) /\
      Forall2 Z.le b m /\
      forall k, In k (Tools.dict_keys c) -> Forall2 Z.le k m ->
                manhattan m b <= manhattan m k.
Proof.
  intros Expr Var ediff other_dtype_ge expr var_list c m Hc Hlen Hnn Ht _.
  apply reachable64_inv in Hc.
  assert (Hmf : Forall in_int64 m).
  { eapply Forall_impl;
      [|apply (nonneg_bounded_fits m Int64.max_int Hnn); int64_lia].
    intros z Hz. int64_lia. }
  rewrite (get_closest64_exact other_dtype_ge c m Hmf).
  - destruct (closest_exists Expr Var expr var_list c m (proj1 Hc) Hlen Hnn)
      as (b & Hb & Hin & Hd & Hmin).
    exists b. repeat split; auto.
    intros k Hk Hkd. rewrite !manhattan_dominated by auto. auto.
  - intros _. int64_lia.
  - eapply inv64_keys; eauto.
Qed.

(** With (0,0), (1,0) and (1,1) cached, the search for (2,1) succeeds. *)
Lemma closest_cached_is_dominated_and_nearest_witness :
  exists b : mi,
    Tools64.get_closest_cached_mi unreached_dtype_ge
      (snd (Tools64.diff Terms.Diff unreached_dtype_ge [0%nat; 1%nat]
              (Tools.init Terms.Base [0%nat; 1%nat]) [1; 1]))
      [2; 1] = Ok b /\
    In b (Tools.dict_keys
            (snd (Tools64.diff Terms.Diff unreached_dtype_ge [0%nat; 1%nat]
                    (Tools.init Terms.Base [0%nat; 1%nat]) [1; 1]))) /\
    Forall2 Z.le b [2; 1] /\
    forall k,
      In k (Tools.dict_keys
              (snd (Tools64.diff Terms.Diff unreached_dtype_ge [0%nat; 1%nat]
                      (Tools.init Terms.Base [0%nat; 1%nat]) [1; 1]))) ->
      Forall2 Z.le k [2; 1] ->
      manhattan [2; 1] b <= manhattan [2; 1] k.
Proof.
  apply (closest_cached_is_dominated_and_nearest Terms.term nat Terms.Diff
           unreached_dtype_ge Terms.Base [0%nat; 1%nat]).
  - apply Tools64.reachable_diff. apply Tools64.reachable_init.
  - reflexivity.
  - repeat constructor; lia.
  - simpl. lia.
  - reflexivity.
Defined.




(** An oracle that knows the two-dimensional Laplace relation at (0,2): the
    derivative there is -1 times the one at (2,0), once that is cached. *)
Definition sample_wrangler (m : mi) (cache : Tools.dict Terms.term)
  : result (option (list (mi * Z))) :=
  if mi_eq_dec m [0; 2] then
    match Tools.dict_get cache [2; 0] with
    | Some _ => Ok (Some [([2; 0], -1)])
    | None => Ok None
    end
  else Ok None.


(** ** Kernels *)

Section KernelFacts.

Variable PExpr : Type.

Local Abbreviation kernel := (Kernel.kernel PExpr).

Lemma heap_lookup (h : Kernel.heap PExpr) (k : kernel) :
  Kernel.heap_wf h -> In k h -> nth_error h (Kernel.id k) = Some k.
Proof.
  intros Hwf Hin. apply In_nth_error in Hin as [i Hi].
  destruct (Hwf _ _ Hi) as [Hid _]. rewrite Hid. exact Hi.
Qed.


Lemma heap_child_earlier (h : Kernel.heap PExpr) (k c : kernel) :
  Kernel.heap_wf h -> In k h -> In c (Kernel.children k) ->
  In c h /\ (Kernel.id c < Kernel.id k)%nat.
Proof.
  intros Hwf Hk Hc.
  pose proof (heap_lookup h k Hwf Hk) as Hi.
  destruct (Hwf _ _ Hi) as [_ Hch].
  apply Hch in Hc. apply In_nth_error in Hc as [j Hj].
  rewrite nth_error_firstn in Hj.
  destruct (j <? Kernel.id k)%nat eqn:Elt; [|discriminate].
  apply Nat.ltb_lt in Elt.
  destruct (Hwf _ _ Hj) as [Hid _].
  split; [eapply nth_error_In; eauto | lia].
Qed.

(** The base kernel of a wrapper is an object created before it. *)
Lemma base_of_wrapper_earlier (h : Kernel.heap PExpr) :
  Kernel.heap_wf h ->
  forall k : kernel, In k h -> Kernel.is_wrapper k = true ->
    In (Kernel.get_base_kernel k) h /\
    (Kernel.id (Kernel.get_base_kernel k) < Kernel.id k)%nat.
Proof.
  intros Hwf.
  assert (Hstep : forall inner k : kernel,
            In k h -> In inner (Kernel.children k) ->
            (Kernel.is_wrapper inner = true ->
             In (Kernel.get_base_kernel inner) h /\
             (Kernel.id (Kernel.get_base_kernel inner) < Kernel.id inner)%nat) ->
            In (Kernel.get_base_kernel inner) h /\
            (Kernel.id (Kernel.get_base_kernel inner) < Kernel.id k)%nat).
  { intros inner k Hk Hc IH.
    destruct (heap_child_earlier h k inner Hwf Hk Hc) as [Hin Hlt].
    destruct (Kernel.is_wrapper inner) eqn:Ew.
    - destruct (IH eq_refl) as [H1 H2]. split; [auto | lia].
    - assert (Kernel.get_base_kernel inner = inner)
        by (destruct inner; simpl in *; congruence).
      rewrite H. auto. }
  induction k as [s d|s d n ev|s d p IHp m IHm|s d ax i IHi|s d i IHi e
                 |s d i IHi e]; intros Hk Hw; simpl in Hw; try discriminate.
  - simpl. apply (Hstep i _ Hk); [simpl; auto|].
    intros Hwi. apply IHi; auto.
    apply (heap_child_earlier h _ i Hwf Hk). simpl; auto.
  - simpl. apply (Hstep i _ Hk); [simpl; auto|].
    intros Hwi. apply IHi; auto.
    apply (heap_child_earlier h _ i Hwf Hk). simpl; auto.
  - simpl. apply (Hstep i _ Hk); [simpl; auto|].
    intros Hwi. apply IHi; auto.
    apply (heap_child_earlier h _ i Hwf Hk). simpl; auto.
Qed.

(** An object is its own base kernel exactly when it is not a wrapper. *)
Lemma own_base_iff_unwrapped (h : Kernel.heap PExpr) (k : kernel) :
  Kernel.heap_wf h -> In k h ->
  (Kernel.py_is (Kernel.get_base_kernel k) k = true <->
   Kernel.is_wrapper k = false).
Proof.
  intros Hwf Hk. unfold Kernel.py_is. split.
  - intros H. destruct (Kernel.is_wrapper k) eqn:Ew; auto.
    destruct (base_of_wrapper_earlier h Hwf k Hk Ew) as [_ Hlt].
    apply Nat.eqb_eq in H. lia.
  - intros Hw.
    assert (Kernel.get_base_kernel k = k)
      by (destruct k; simpl in *; congruence).
    rewrite H. apply Nat.eqb_refl.
Qed.

(** Appending a new object whose identity is the next position, and whose
    children are already there, keeps the heap well formed. *)
Lemma heap_wf_snoc (h : Kernel.heap PExpr) (k : kernel) :
  Kernel.heap_wf h ->
  Kernel.id k = length h ->
  (forall c, In c (Kernel.children k) -> In c h) ->
  Kernel.heap_wf (h ++ [k]).
Proof.
  intros Hwf Hid Hch i k' Hi.
  destruct (Nat.lt_ge_cases i (length h)) as [Hlt|Hge].
  - rewrite nth_error_app1 in Hi by auto.
    destruct (Hwf _ _ Hi) as [H1 H2]. split; auto.
    intros c Hc. rewrite firstn_app.
    apply in_or_app. left. auto.
  - rewrite nth_error_app2 in Hi by auto.
    destruct (i - length h)%nat as [|x] eqn:Ei; simpl in Hi;
      [|destruct x; discriminate].
    inversion Hi; subst k'. assert (i = length h) by lia. subst i.
    split; auto. intros c Hc. rewrite firstn_app, Nat.sub_diag. simpl.
    rewrite app_nil_r, firstn_all. auto.
Qed.

Lemma heap_wf_nil : Kernel.heap_wf (@nil kernel).
Proof. intros i k H. destruct i; discriminate. Qed.


End KernelFacts.




(** C8.  [get_scaling] gives -1/(2 pi) for Laplace in dimension 2, 1/(4 pi)
    for Laplace in dimension 3, i/4 for Helmholtz in dimension 2 and
    1/(4 pi) for Helmholtz in dimension 3; for any other dimension, the
    unset one included, it raises the unsupported-dimensionality error. *)
Theorem get_scaling_by_dimension :
  forall (PExpr : Type) (self : nat) (name : String.string) (ev : bool),
    (exists e, Kernel.get_scaling (Kernel.LaplaceKernel PExpr self (Some 2))
               = Ok e /\ Kernel.denote e = ((-1 / (2 * PI))%R, 0%R)) /\
    (exists e, Kernel.get_scaling (Kernel.LaplaceKernel PExpr self (Some 3))
               = Ok e /\ Kernel.denote e = ((1 / (4 * PI))%R, 0%R)) /\
    (exists e, Kernel.get_scaling
                 (Kernel.HelmholtzKernel PExpr self (Some 2) name ev)
               = Ok e /\ Kernel.denote e = (0%R, (1 / 4)%R)) /\
    (exists e, Kernel.get_scaling
                 (Kernel.HelmholtzKernel PExpr self (Some 3) name ev)
               = Ok e /\ Kernel.denote e = ((1 / (4 * PI))%R, 0%R)) /\
    (forall d : option Z,
        d <> Some 2 -> d <> Some 3 ->
        Kernel.get_scaling (Kernel.LaplaceKernel PExpr self d)
          = Raise RuntimeError /\
        Kernel.get_scaling (Kernel.HelmholtzKernel PExpr self d name ev)
          = Raise RuntimeError).
Proof.
  intros PExpr self name ev.
  pose proof PI_neq0 as Hpi.
  repeat split.
  - eexists. split; [reflexivity|]. simpl. f_equal; field; auto.
  - eexists. split; [reflexivity|]. simpl. f_equal; field; auto.
  - eexists. split; [reflexivity|]. simpl. f_equal; field.
  - eexists. split; [reflexivity|]. simpl. f_equal; field; auto.
  - destruct d as [z|]; simpl; auto.
    destruct (Z.eqb_spec z 2) as [->|H2]; [congruence|].
    destruct (Z.eqb_spec z 3) as [->|H3]; [congruence|]. reflexivity.
  - destruct d as [z|]; simpl; auto.
    destruct (Z.eqb_spec z 2) as [->|H2]; [congruence|].
    destruct (Z.eqb_spec z 3) as [->|H3]; [congruence|]. reflexivity.
Qed.

(** A Laplace kernel whose dimension is not set. *)
Lemma get_scaling_by_dimension_witness :
  Kernel.get_scaling (Kernel.LaplaceKernel unit 0 None) = Raise RuntimeError /\
  Kernel.get_scaling (Kernel.HelmholtzKernel unit 0 None "k"%string false)
    = Raise RuntimeError.
Proof.
  destruct (get_scaling_by_dimension unit 0%nat "k"%string false)
    as (_ & _ & _ & _ & H).
  apply (H None); discriminate.
Defined.

(** C9.  For two kernel objects of a program, [DifferenceKernel(plus,
    minus)] yields a kernel exactly when neither operand is a wrapper (each
    is its own base kernel) and their dimensions are equal; the new kernel
    then has that dimension and holds the two operands; otherwise the call
    raises ValueError and no object is added. *)
Theorem difference_kernel_construction :
  forall (PExpr : Type) (h : Kernel.heap PExpr)
         (kernel_plus kernel_minus : Kernel.kernel PExpr),
    Kernel.heap_wf h -> In kernel_plus h -> In kernel_minus h ->
    (Kernel.py_is (Kernel.get_base_kernel kernel_plus) kernel_plus = true <->
     Kernel.is_wrapper kernel_plus = false) /\
    (Kernel.py_is (Kernel.get_base_kernel kernel_minus) kernel_minus = true <->
     Kernel.is_wrapper kernel_minus = false) /\
    ((exists k h', Kernel.new_DifferenceKernel kernel_plus kernel_minus h
                   = (Ok k, h')) <->
     (Kernel.is_wrapper kernel_plus = false /\
      Kernel.is_wrapper kernel_minus = false /\
      Kernel.dimensions kernel_plus = Kernel.dimensions kernel_minus)) /\
    (forall k h',
        Kernel.new_DifferenceKernel kernel_plus kernel_minus h = (Ok k, h') ->
        Kernel.dimensions k = Kernel.dimensions kernel_plus /\
        Kernel.dimensions k = Kernel.dimensions kernel_minus /\
        Kernel.children k = [kernel_plus; kernel_minus] /\
        h' = h ++ [k] /\ Kernel.heap_wf h') /\
    ((forall k h',
         Kernel.new_DifferenceKernel kernel_plus kernel_minus h <> (Ok k, h')) ->
     Kernel.new_DifferenceKernel kernel_plus kernel_minus h
       = (Raise ValueError, h)).
Proof.
  intros PExpr h p m Hwf Hp Hm.
  pose proof (own_base_iff_unwrapped PExpr h p Hwf Hp) as Bp.
  pose proof (own_base_iff_unwrapped PExpr h m Hwf Hm) as Bm.
  split; [exact Bp|]. split; [exact Bm|].
  unfold Kernel.new_DifferenceKernel.
  destruct (Kernel.py_is (Kernel.get_base_kernel p) p) eqn:Ep;
    destruct (Kernel.py_is (Kernel.get_base_kernel m) m) eqn:Em; simpl.
  - destruct (Kernel.dimensions_eq_dec (Kernel.dimensions p)
                (Kernel.dimensions m)) as [Hd|Hd].
    + split; [|split].
      * split; [intros _|eauto].
        repeat split; [apply Bp | apply Bm | exact Hd]; reflexivity.
      * intros k h' H; inversion H; subst. simpl.
        split; [reflexivity|]. split; [exact Hd|].
        split; [reflexivity|]. split; [reflexivity|].
        apply heap_wf_snoc; auto. simpl. intros c [<-|[<-|[]]]; auto.
      * intros H. exfalso. eapply H. reflexivity.
    + split; [|split].
      * split; [intros (k & h' & H); discriminate|].
        intros (_ & _ & H). contradiction.
      * intros k h' H; discriminate.
      * reflexivity.
  - split; [|split].
    + split; [intros (k & h' & H); discriminate|].
      intros (_ & H & _). apply Bm in H. discriminate.
    + intros k h' H; discriminate.
    + reflexivity.
  - split; [|split].
    + split; [intros (k & h' & H); discriminate|].
      intros (H & _). apply Bp in H. discriminate.
    + intros k h' H; discriminate.
    + reflexivity.
  - split; [|split].
    + split; [intros (k & h' & H); discriminate|].
      intros (H & _). apply Bp in H. discriminate.
    + intros k h' H; discriminate.
    + reflexivity.
Qed.

(** The difference of a two-dimensional Helmholtz and Laplace kernel. *)
Lemma difference_kernel_construction_witness :
  exists k h',
    Kernel.new_DifferenceKernel
      (Kernel.HelmholtzKernel unit 0 (Some 2) "k"%string false)
      (Kernel.LaplaceKernel unit 1 (Some 2))
      [Kernel.HelmholtzKernel unit 0 (Some 2) "k"%string false;
       Kernel.LaplaceKernel unit 1 (Some 2)]
    = (Ok k, h').
Proof.
  destruct (difference_kernel_construction unit
              [Kernel.HelmholtzKernel unit 0 (Some 2) "k"%string false;
               Kernel.LaplaceKernel unit 1 (Some 2)]
              (Kernel.HelmholtzKernel unit 0 (Some 2) "k"%string false)
              (Kernel.LaplaceKernel unit 1 (Some 2)))
    as (_ & _ & H & _).
  - apply (heap_wf_snoc unit [Kernel.HelmholtzKernel unit 0 (Some 2) "k"%string false]).
    + apply (heap_wf_snoc unit []).
      * apply heap_wf_nil.
      * reflexivity.
      * intros c [].
    + reflexivity.
    + intros c [].
  - simpl; auto.
  - simpl; auto.
  - apply H. repeat split; reflexivity.
Defined.

(** ** Every order of enumeration *)

Section Permutations.

Variable A : Type.

(** All the ways of putting [x] into [l]. *)
Fixpoint insert_all (x : A) (l : list A) : list (list A) :=
  match l with
  | [] => [[x]]
  | y :: rest => (x :: y :: rest) :: map (cons y) (insert_all x rest)
  end.

(** All the orders in which [l] can be listed. *)
Fixpoint perms (l : list A) : list (list A) :=
  match l with
  | [] => [[]]
  | x :: rest => flat_map (insert_all x) (perms rest)
  end.

Lemma insert_all_In (x : A) : forall l1 l2,
  In (l1 ++ x :: l2) (insert_all x (l1 ++ l2)).
Proof.
  induction l1 as [|y l1 IH]; intros l2; simpl.
  - destruct l2; simpl; auto.
  - right. apply in_map. apply IH.
Qed.

Lemma perms_complete : forall l l' : list A,
  Permutation l' l -> In l' (perms l).
Proof.
  induction l as [|x l IH]; intros l' H.
  - apply Permutation_sym, Permutation_nil in H. subst. simpl. auto.
  - assert (Hin : In x l').
    { eapply Permutation_in; [apply Permutation_sym; exact H|]. simpl; auto. }
    apply in_split in Hin as (l1 & l2 & ->).
    apply Permutation_sym, Permutation_cons_app_inv, Permutation_sym in H.
    simpl. apply in_flat_map. exists (l1 ++ l2). split.
    + apply IH. exact H.
    + apply insert_all_In.
Qed.

End Permutations.

Arguments insert_all {A} x l.
Arguments perms {A} l.

(** The six multi-indices of order at most 2 in dimension 2. *)
Definition order_2_dim_2 : list mi :=
  [[0; 0]; [1; 0]; [0; 1]; [2; 0]; [1; 1]; [0; 2]].

(** [l] without the multi-index [x]. *)
Definition without (x : mi) (l : list mi) : list mi :=
  filter (fun m => negb (mi_eqb m x)) l.

Definition list_mi_eqb (a b : list mi) : bool :=
  if list_eq_dec mi_eq_dec a b then true else false.

(** The check behind C3 for one order of enumeration. *)
Definition stores_all_but_the_later (gen : list mi) : bool :=
  let full := Expansion.sorted gen Np.sum in
  match Expansion.precompute_over 0 1 Z.add Z.mul
          (Laplace.try_get_recurrence_for_derivative 2) full with
  | Ok (stored, _) =>
      Nat.eqb (length stored) 5 &&
      match list_index [2; 0] full, list_index [0; 2] full with
      | Some i, Some j =>
          if (i <? j)%nat then list_mi_eqb stored (without [0; 2] full)
          else list_mi_eqb stored (without [2; 0] full)
      | _, _ => false
      end
  | Raise _ => false
  end.

Lemma stores_all_but_the_later_everywhere :
  forallb stores_all_but_the_later (perms order_2_dim_2) = true.
Proof. vm_compute. reflexivity. Qed.

Lemma stores_all_but_the_later_spec (gen : list mi) :
  stores_all_but_the_later gen = true ->
  exists (stored : list mi) (M : list (list Z)) (i j : nat),
    Expansion.precompute_over 0 1 Z.add Z.mul
      (Laplace.try_get_recurrence_for_derivative 2)
      (Expansion.sorted gen Np.sum) = Ok (stored, M) /\
    length stored = 5%nat /\
    list_index [2; 0] (Expansion.sorted gen Np.sum) = Some i /\
    list_index [0; 2] (Expansion.sorted gen Np.sum) = Some j /\
    (((i < j)%nat /\ stored = without [0; 2] (Expansion.sorted gen Np.sum)) \/
     ((j < i)%nat /\ stored = without [2; 0] (Expansion.sorted gen Np.sum))).
Proof.
  unfold stores_all_but_the_later.
  destruct (Expansion.precompute_over 0 1 Z.add Z.mul
              (Laplace.try_get_recurrence_for_derivative 2)
              (Expansion.sorted gen Np.sum)) as [[stored M]|e];
    [|discriminate].
  intros H. apply andb_true_iff in H as [Hlen H].
  apply Nat.eqb_eq in Hlen.
  destruct (list_index [2; 0] (Expansion.sorted gen Np.sum)) as [i|] eqn:Ei;
    [|discriminate].
  destruct (list_index [0; 2] (Expansion.sorted gen Np.sum)) as [j|] eqn:Ej;
    [|discriminate].
  exists stored, M, i, j. repeat split; auto.
  assert (Hij : i <> j).
  { intros ->. clear H.
    assert (Hnth : forall x l n, list_index x l = Some n ->
                                 nth_error l n = Some x).
    { intros x l. induction l as [|y l IH]; intros n Hn; simpl in Hn;
        [discriminate|].
      destruct (mi_eq_dec y x) as [->|Hne].
      - inversion Hn; reflexivity.
      - destruct (list_index x l); inversion Hn; subst. simpl. auto. }
    apply Hnth in Ei, Ej. rewrite Ei in Ej. discriminate. }
  unfold list_mi_eqb in H.
  destruct (i <? j)%nat eqn:Elt.
  - apply Nat.ltb_lt in Elt. left. split; auto.
    destruct (list_eq_dec mi_eq_dec stored _); [auto | discriminate].
  - apply Nat.ltb_ge in Elt. right. split; [lia|].
    destruct (list_eq_dec mi_eq_dec stored _); [auto | discriminate].
Qed.

(** ** The construction of the Laplace basis succeeds *)

Lemma gnitstam_length : forall (len : nat) (n : Z) (m : mi),
  In m (Expansion.gnitstam n len) -> length m = len.
Proof.
  induction len as [|len IH]; intros n m H; simpl in H.
  - destruct H as [<-|[]]. reflexivity.
  - apply in_flat_map in H as (i & _ & H).
    apply in_map_iff in H as (base & <- & Hb).
    rewrite length_app. simpl. rewrite (IH _ _ Hb). lia.
Qed.

Lemma gnitstam_nonempty : forall (len : nat) (n : Z),
  0 <= n -> Expansion.gnitstam n len <> [].
Proof.
  induction len as [|len IH]; intros n Hn; simpl; [discriminate|].
  unfold Expansion.range.
  destruct (Z.to_nat (n + 1)) as [|c] eqn:Ec; [lia|].
  simpl. rewrite Z.sub_0_r.
  specialize (IH n Hn).
  destruct (Expansion.gnitstam n len); [congruence | discriminate].
Qed.

Lemma insert_by_key_In (key : mi -> Z) (x m : mi) : forall l,
  In m (Expansion.insert_by_key key x l) <-> m = x \/ In m l.
Proof.
  induction l as [|y l IH]; simpl.
  - intuition auto.
  - destruct (key x <? key y); simpl; [|rewrite IH]; intuition auto.
Qed.

Lemma insert_by_key_length (key : mi -> Z) (x : mi) : forall l,
  length (Expansion.insert_by_key key x l) = S (length l).
Proof.
  induction l as [|y l IH]; simpl; auto.
  destruct (key x <? key y); simpl; auto.
Qed.

Lemma sorted_fold_In (key : mi -> Z) (m : mi) : forall l acc,
  In m (fold_left (fun acc x => Expansion.insert_by_key key x acc) l acc)
  <-> In m l \/ In m acc.
Proof.
  induction l as [|x l IH]; intros acc; simpl.
  - intuition auto.
  - rewrite IH, insert_by_key_In. intuition auto.
Qed.

Lemma sorted_fold_length (key : mi -> Z) : forall l acc,
  length (fold_left (fun acc x => Expansion.insert_by_key key x acc) l acc)
  = (length l + length acc)%nat.
Proof.
  induction l as [|x l IH]; intros acc; simpl; auto.
  rewrite IH, insert_by_key_length. lia.
Qed.

Lemma sorted_In (key : mi -> Z) (l : list mi) (m : mi) :
  In m (Expansion.sorted l key) <-> In m l.
Proof.
  unfold Expansion.sorted. rewrite sorted_fold_In. simpl. tauto.
Qed.

Lemma sorted_length (key : mi -> Z) (l : list mi) :
  length (Expansion.sorted l key) = length l.
Proof.
  unfold Expansion.sorted. rewrite sorted_fold_length. simpl. lia.
Qed.

Section DotTranspose.

Variable K : Type.
Variables (rzero : K) (radd rmul : K -> K -> K).

Definition is_row (n : nat) (a : Expansion.ndarray K) : Prop :=
  exists l, a = Expansion.Vec l /\ length l = n.

Lemma as_vectors_rows (n : nat) : forall rows : list (Expansion.ndarray K),
  Forall (is_row n) rows ->
  exists ls, Expansion.as_vectors n rows = Some ls /\
             length ls = length rows.
Proof.
  induction rows as [|a rows IH]; intros H; simpl.
  - exists []. auto.
  - inversion H as [|a' rows' (l & -> & Hl) Hrest]; subst.
    rewrite Nat.eqb_refl.
    destruct (IH Hrest) as (ls & -> & Hlen).
    exists (l :: ls). simpl. auto.
Qed.

Lemma dot_transpose_rows (n : nat) (rows : list (Expansion.ndarray K))
    (v : list K) :
  rows <> [] -> Forall (is_row n) rows -> length v = length rows ->
  exists l, Expansion.dot_transpose rzero radd rmul rows v
            = Ok (Expansion.Vec l) /\ length l = n.
Proof.
  intros Hne Hrows Hv. unfold Expansion.dot_transpose.
  destruct rows as [|a rows]; [congruence|].
  pose proof Hrows as Hrows'.
  inversion Hrows as [|a' rows' (l0 & -> & Hl0) Hrest]; subst.
  simpl Expansion.as_scalars. cbv iota.
  destruct (as_vectors_rows (length l0) _ Hrows') as (ls & Els & Hlen).
  rewrite Els, Hv, Hlen, Nat.eqb_refl.
  eexists. split; [reflexivity|].
  unfold Expansion.dot_columns. rewrite length_map, length_seq. reflexivity.
Qed.

End DotTranspose.

Lemma needed_nonempty (dim : nat) (d : mi) (k : nat) :
  (2 <= dim)%nat -> needed dim d k <> [].
Proof.
  intros Hdim. unfold needed.
  destruct dim as [|[|dim]]; try lia.
  simpl seq. simpl filter.
  destruct k as [|[|k]]; simpl; discriminate.
Qed.

(** In dimension 2 and above, the oracle returns without raising on a
    multi-index of that dimension, and finds no relation before anything
    was processed. *)
Lemma laplace_oracle_total (dim : nat) (d : mi) (its : list mi) (n : nat) :
  (2 <= dim)%nat -> length d = dim -> (length its <= n)%nat ->
  Laplace.try_get_recurrence_for_derivative dim d its n = Ok None \/
  exists expr,
    Laplace.try_get_recurrence_for_derivative dim d its n = Ok (Some expr) /\
    length expr = n /\ its <> [].
Proof.
  intros Hdim Hd Hn.
  pose proof (try_get_recurrence_find dim d its n Hd Hn) as H.
  destruct (find (succeeds dim d its) (seq 0 dim)) as [k|] eqn:Ef; [|auto].
  right. destruct H as (expr & Hr & Hl & _).
  exists expr. repeat split; auto.
  intros ->. apply find_some in Ef as [_ Hs].
  unfold succeeds in Hs. apply andb_true_iff in Hs as [_ Hs].
  pose proof (needed_nonempty dim d k Hdim) as Hne.
  destruct (needed dim d k); [congruence|]. simpl in Hs. discriminate.
Qed.

(** The state of the loop while it runs without raising: every row is a
    1-d array of [n] entries. *)
Definition loop_ok (n : nat) (processed : list mi)
    (st : Expansion.loop_state Z) : Prop :=
  Expansion.identifiers_so_far st = processed /\
  length (Expansion.coeff_matrix st) = length processed /\
  (length (Expansion.stored_identifiers st) <= length processed)%nat /\
  Forall (is_row Z n) (Expansion.coeff_matrix st).

Lemma laplace_loop_total (dim n : nat) :
  (2 <= dim)%nat ->
  forall (rest processed : list mi) (st : Expansion.loop_state Z),
    (forall d, In d rest -> length d = dim) ->
    (length processed + length rest <= n)%nat ->
    loop_ok n processed st ->
    exists st',
      Expansion.loop 0 1 Z.add Z.mul
        (Laplace.try_get_recurrence_for_derivative dim) n st rest = Ok st' /\
      loop_ok n (processed ++ rest) st'.
Proof.
  intros Hdim. induction rest as [|d rest IH];
    intros processed st Hlen Hn (Hsf & Hrows & Hst & Hvec).
  - exists st. rewrite app_nil_r. simpl. unfold loop_ok. auto.
  - simpl in Hn. cbn [Expansion.loop]. unfold Expansion.loop_body.
    assert (Hd : length d = dim) by (apply Hlen; simpl; auto).
    assert (Hrest : forall d', In d' rest -> length d' = dim)
      by (intros; apply Hlen; simpl; auto).
    assert (Hits : (length (Expansion.identifiers_so_far st) <= n)%nat)
      by (rewrite Hsf; lia).
    destruct (laplace_oracle_total dim d (Expansion.identifiers_so_far st) n
                Hdim Hd Hits) as [Ho|(expr & Ho & Hel & Hne)].
    + rewrite Ho. cbn [Py.bind].
      destruct (set_at_ok (repeat 0 n)
                  (length (Expansion.stored_identifiers st)) 1)
        as [row Hrow]; [rewrite repeat_length; lia|].
      rewrite Hrow. cbn [Py.bind].
      pose proof (set_at_length _ _ _ _ Hrow) as Hrl.
      rewrite repeat_length in Hrl.
      destruct (IH (processed ++ [d])
                  {| Expansion.stored_identifiers :=
                       Expansion.stored_identifiers st ++ [d];
                     Expansion.identifiers_so_far :=
                       Expansion.identifiers_so_far st ++ [d];
                     Expansion.coeff_matrix :=
                       Expansion.coeff_matrix st ++ [Expansion.Vec row] |})
        as (st' & Hl & Hok); auto.
      * rewrite length_app. simpl. lia.
      * unfold loop_ok. simpl. rewrite !length_app, Hsf. simpl.
        repeat split; try lia.
        apply Forall_app. split; auto. constructor; [|constructor].
        exists row. auto.
      * exists st'. rewrite <- app_assoc in Hok. auto.
    + rewrite Ho. cbn [Py.bind].
      destruct (dot_transpose_rows Z 0 Z.add Z.mul n
                  (Expansion.coeff_matrix st)
                  (firstn (length (Expansion.coeff_matrix st)) expr))
        as (l & Hdot & Hll); auto.
      * intros E. rewrite E in Hrows. simpl in Hrows.
        rewrite Hsf in Hne. destruct processed; [congruence | discriminate].
      * rewrite length_firstn. lia.
      * rewrite Hdot. cbn [Py.bind].
        destruct (IH (processed ++ [d])
                    {| Expansion.stored_identifiers :=
                         Expansion.stored_identifiers st;
                       Expansion.identifiers_so_far :=
                         Expansion.identifiers_so_far st ++ [d];
                       Expansion.coeff_matrix :=
                         Expansion.coeff_matrix st ++ [Expansion.Vec l] |})
          as (st' & Hl & Hok); auto.
        -- rewrite length_app. simpl. lia.
        -- unfold loop_ok. simpl. rewrite !length_app, Hsf. simpl.
           repeat split; try lia.
           apply Forall_app. split; auto. constructor; [|constructor].
           exists l. auto.
        -- exists st'. rewrite <- app_assoc in Hok. auto.
Qed.

(** For every order from 0 up and every dimension from 2 up, the
    construction of the Laplace-conforming basis returns. *)
Lemma laplace_precompute_coeff_matrix_total (order : Z) (dim : nat) :
  0 <= order -> (2 <= dim)%nat ->
  exists (stored : list mi) (M : list (list Z)),
    Expansion.laplace_precompute_coeff_matrix order dim = Ok (stored, M).
Proof.
  intros Horder Hdim.
  unfold Expansion.laplace_precompute_coeff_matrix,
    Expansion.precompute_coeff_matrix, Expansion.precompute_over.
  set (full := Expansion.get_full_coefficient_identifiers order dim).
  assert (Hfull : forall d, In d full -> length d = dim).
  { intros d Hd. unfold full, Expansion.get_full_coefficient_identifiers in Hd.
    apply sorted_In in Hd. eapply gnitstam_length; eauto. }
  assert (Hne : full <> []).
  { unfold full, Expansion.get_full_coefficient_identifiers. intros E.
    apply (f_equal (@length mi)) in E. rewrite sorted_length in E.
    pose proof (gnitstam_nonempty dim order Horder).
    destruct (Expansion.gnitstam order dim); [congruence | discriminate]. }
  destruct (laplace_loop_total dim (length full) Hdim full []
              {| Expansion.stored_identifiers := [];
                 Expansion.identifiers_so_far := [];
                 Expansion.coeff_matrix := [] |})
    as (st & Hl & (Hsf & Hrows & Hst & Hvec)); auto.
  - unfold loop_ok. simpl. repeat split; auto.
  - rewrite Hl. cbn [Py.bind]. simpl in *.
    unfold Expansion.vstack.
    destruct (Expansion.coeff_matrix st) as [|a0 rows] eqn:Erows.
    + simpl in Hrows. destruct full; [congruence | discriminate].
    + assert (Hw : forallb (fun a => Nat.eqb (Expansion.width a)
                                       (Expansion.width a0)) (a0 :: rows)
                   = true).
      { apply forallb_forall. intros a Ha. apply Nat.eqb_eq.
        rewrite Forall_forall in Hvec.
        destruct (Hvec a Ha) as (l & -> & Hl1).
        destruct (Hvec a0 (or_introl eq_refl)) as (l0 & -> & Hl0).
        simpl. congruence. }
      rewrite Hw. cbn [Py.bind]. eauto.
Qed.

(** ** The claims about the reduced basis *)

(** C5.  When the construction of a PDE-reduced expansion has computed
    its matrix, whatever the recurrence oracle: the matrix has one row per
    full identifier and one column per stored identifier, and the rows at
    the positions of the stored identifiers, taken in order, are the rows of
    the identity matrix.  For the Laplace-conforming expansion of any order
    from 0 up in any dimension from 2 up the construction does compute
    it. *)
Theorem coeff_matrix_shape_and_identity_rows :
  (forall (K : Type) (rzero rone : K) (radd rmul : K -> K -> K)
          (oracle : mi -> list mi -> nat -> result (option (list K)))
          (order : Z) (kernel_dim : nat)
          (stored : list mi) (M : list (list K)),
      Expansion.precompute_coeff_matrix rzero rone radd rmul oracle
        order kernel_dim = Ok (stored, M) ->
      length M
        = length (Expansion.get_full_coefficient_identifiers order kernel_dim)
      /\
      Forall (fun row => length row = length stored) M /\
      exists pos : list nat,
        length pos = length stored /\
        StronglySorted lt pos /\
        forall j p, nth_error pos j = Some p ->
          nth_error
            (Expansion.get_full_coefficient_identifiers order kernel_dim) p
            = nth_error stored j /\
          nth_error M p = Some (unit_row K rzero rone (length stored) j))
  /\
  (forall (order : Z) (kernel_dim : nat),
      0 <= order -> (2 <= kernel_dim)%nat ->
      exists (stored : list mi) (M : list (list Z)),
        Expansion.laplace_precompute_coeff_matrix order kernel_dim
          = Ok (stored, M)).
Proof.
  split.
  - intros K rzero rone radd rmul oracle order kernel_dim stored M H.
    unfold Expansion.precompute_coeff_matrix in H.
    apply (precompute_over_shape K rzero rone radd rmul oracle) in H.
    exact H.
  - intros order kernel_dim Ho Hd.
    apply laplace_precompute_coeff_matrix_total; assumption.
Qed.

(** The Laplace expansion of order 2 in dimension 2. *)
Lemma coeff_matrix_shape_and_identity_rows_witness :
  length [[1; 0; 0; 0; 0]; [0; 1; 0; 0; 0]; [0; 0; 1; 0; 0];
          [0; 0; 0; 1; 0]; [0; 0; 0; 0; 1]; [0; 0; 0; -1; 0]]
    = length (Expansion.get_full_coefficient_identifiers 2 2) /\
  Forall (fun row : list Z =>
            length row = length [[0; 0]; [1; 0]; [0; 1]; [2; 0]; [1; 1]])
    [[1; 0; 0; 0; 0]; [0; 1; 0; 0; 0]; [0; 0; 1; 0; 0];
     [0; 0; 0; 1; 0]; [0; 0; 0; 0; 1]; [0; 0; 0; -1; 0]] /\
  exists pos : list nat,
    length pos = length [[0; 0]; [1; 0]; [0; 1]; [2; 0]; [1; 1]] /\
    StronglySorted lt pos /\
    forall j p, nth_error pos j = Some p ->
      nth_error (Expansion.get_full_coefficient_identifiers 2 2) p
        = nth_error [[0; 0]; [1; 0]; [0; 1]; [2; 0]; [1; 1]] j /\
      nth_error [[1; 0; 0; 0; 0]; [0; 1; 0; 0; 0]; [0; 0; 1; 0; 0];
                 [0; 0; 0; 1; 0]; [0; 0; 0; 0; 1]; [0; 0; 0; -1; 0]] p
        = Some (unit_row Z 0 1
                  (length [[0; 0]; [1; 0]; [0; 1]; [2; 0]; [1; 1]]) j).
Proof.
  destruct coeff_matrix_shape_and_identity_rows as [H _].
  apply (H Z 0 1 Z.add Z.mul
           (Laplace.try_get_recurrence_for_derivative 2) 2 2%nat).
  reflexivity.
Defined.

(** C3.  For the Laplace-conforming expansion of order 2 in dimension 2
    the full identifiers are the six multi-indices (0,0), (1,0), (0,1),
    (2,0), (1,1), (0,2); of (2,0) and (0,2) the one processed second, (0,2),
    is the only full identifier that is not stored; five are stored.  The
    same holds in whatever order the six are enumerated before they are
    sorted by total order: the later of (2,0) and (0,2) is the one left
    out. *)
Theorem laplace_2d_order_2_stores_five :
  (Expansion.get_full_coefficient_identifiers 2 2 = order_2_dim_2 /\
   exists M : list (list Z),
     Expansion.laplace_precompute_coeff_matrix 2 2
       = Ok (without [0; 2] order_2_dim_2, M) /\
     length (without [0; 2] order_2_dim_2) = 5%nat /\
     list_index [2; 0] order_2_dim_2 = Some 3%nat /\
     list_index [0; 2] order_2_dim_2 = Some 5%nat)
  /\
  (forall gen : list mi,
      Permutation gen order_2_dim_2 ->
      exists (stored : list mi) (M : list (list Z)) (i j : nat),
        Expansion.precompute_over 0 1 Z.add Z.mul
          (Laplace.try_get_recurrence_for_derivative 2)
          (Expansion.sorted gen Np.sum) = Ok (stored, M) /\
        length stored = 5%nat /\
        list_index [2; 0] (Expansion.sorted gen Np.sum) = Some i /\
        list_index [0; 2] (Expansion.sorted gen Np.sum) = Some j /\
        (((i < j)%nat /\
          stored = without [0; 2] (Expansion.sorted gen Np.sum)) \/
         ((j < i)%nat /\
          stored = without [2; 0] (Expansion.sorted gen Np.sum)))).
Proof.
  split.
  - split; [reflexivity|]. eexists. repeat split; reflexivity.
  - intros gen Hperm. apply stores_all_but_the_later_spec.
    pose proof stores_all_but_the_later_everywhere as Hall.
    rewrite forallb_forall in Hall. apply Hall.
    apply perms_complete. exact Hperm.
Qed.

(** The six multi-indices enumerated in the order listed. *)
Lemma laplace_2d_order_2_stores_five_witness :
  exists (stored : list mi) (M : list (list Z)) (i j : nat),
    Expansion.precompute_over 0 1 Z.add Z.mul
      (Laplace.try_get_recurrence_for_derivative 2)
      (Expansion.sorted order_2_dim_2 Np.sum) = Ok (stored, M) /\
    length stored = 5%nat /\
    list_index [2; 0] (Expansion.sorted order_2_dim_2 Np.sum) = Some i /\
    list_index [0; 2] (Expansion.sorted order_2_dim_2 Np.sum) = Some j /\
    (((i < j)%nat /\
      stored = without [0; 2] (Expansion.sorted order_2_dim_2 Np.sum)) \/
     ((j < i)%nat /\
      stored = without [2; 0] (Expansion.sorted order_2_dim_2 Np.sum))).
Proof.
  destruct laplace_2d_order_2_stores_five as [_ H].
  apply (H order_2_dim_2). apply Permutation_refl.
Defined.

(** * Further properties of the multi-index derivative takers *)

Section StepChains.

Variable Var : Type.
Variable var_list : list Var.

(** A run of steps from [cur] to [fin], each raising one axis of the
    multi-index by one and naming the variable of that axis. *)
Inductive chain : mi -> list (Var * mi) -> mi -> Prop :=
| chain_nil (cur : mi) : chain cur [] cur
| chain_cons (cur : mi) (idx : nat) (v : Var) (rest : list (Var * mi))
    (fin : mi) :
    nth_error var_list idx = Some v ->
    (idx < length cur)%nat ->
    chain (bump cur idx 1) rest fin ->
    chain cur ((v, bump cur idx 1) :: rest) fin.

Lemma chain_app (cur mid fin : mi) (a b : list (Var * mi)) :
  chain cur a mid -> chain mid b fin -> chain cur (a ++ b) fin.
Proof.
  intros Ha Hb. induction Ha; simpl; [assumption|].
  constructor; auto.
Qed.

Lemma steps_on_axis_chain (idx : nat) (v : Var) :
  nth_error var_list idx = Some v ->
  forall count cur ys r,
    Tools.steps_on_axis count idx v cur = (ys, r) ->
    exists fin, chain cur ys fin /\ forall cur', r = Ok cur' -> cur' = fin.
Proof.
  intros Hv. induction count as [|count IH]; intros cur ys r H; simpl in H.
  - inversion H; subst. exists cur. split; [constructor|].
    intros cur' E; inversion E; reflexivity.
  - destruct (Np.add_at cur idx 1) as [cur1|e] eqn:Ea.
    + destruct (Tools.steps_on_axis count idx v cur1) as [ys1 r1] eqn:Es.
      inversion H; subst; clear H.
      apply add_at_inv in Ea as [Hi ->].
      destruct (IH _ _ _ Es) as (fin & Hc & Hr).
      exists fin. split; [constructor; auto | exact Hr].
    + inversion H; subst. exists cur. split; [constructor|].
      intros cur' E; discriminate.
Qed.

Lemma steps_from_chain : forall pairs idx cur ys e,
  (forall j d v, nth_error pairs j = Some (d, v) ->
                 nth_error var_list (idx + j) = Some v) ->
  Tools.steps_from idx pairs cur = (ys, e) ->
  exists fin, chain cur ys fin.
Proof.
  induction pairs as [|[mi_i vec_i] pairs IH]; intros idx cur ys e Hv H;
    simpl in H.
  - inversion H; subst. exists cur. constructor.
  - assert (Hvi : nth_error var_list idx = Some vec_i).
    { specialize (Hv 0%nat mi_i vec_i eq_refl).
      rewrite Nat.add_0_r in Hv. exact Hv. }
    destruct (Tools.steps_on_axis (Z.to_nat mi_i) idx vec_i cur)
      as [ys1 [cur1|e1]] eqn:Es.
    + destruct (Tools.steps_from (S idx) pairs cur1) as [zs e2] eqn:Ef.
      inversion H; subst; clear H.
      destruct (steps_on_axis_chain idx vec_i Hvi _ _ _ _ Es)
        as (fin1 & Hc1 & Hr1).
      rewrite <- (Hr1 _ eq_refl) in Hc1.
      destruct (IH (S idx) cur1 zs e) as (fin & Hc); auto.
      * intros j d v Hj. specialize (Hv (S j) d v Hj).
        rewrite Nat.add_succ_r in Hv. exact Hv.
      * exists fin. eapply chain_app; eauto.
    + inversion H; subst; clear H.
      destruct (steps_on_axis_chain idx vec_i Hvi _ _ _ _ Es)
        as (fin1 & Hc1 & _).
      exists fin1. exact Hc1.
Qed.

Lemma combine_nth_error_snd {A B} : forall (a : list A) (b : list B) j x y,
  nth_error (combine a b) j = Some (x, y) -> nth_error b j = Some y.
Proof.
  induction a as [|a0 a IH]; intros [|b0 b] [|j] x y H; simpl in *;
    try discriminate.
  - inversion H; reflexivity.
  - eapply IH; eauto.
Qed.

Lemma sequence_chain (start_mi end_mi : mi) ys e :
  Tools.get_derivative_taking_sequence var_list start_mi end_mi = (ys, e) ->
  exists fin, chain start_mi ys fin.
Proof.
  unfold Tools.get_derivative_taking_sequence.
  destruct (Tools.mi_dist end_mi start_mi) as [dist|e0]; intros H.
  - eapply steps_from_chain; eauto.
    intros j d v Hj. simpl. eapply combine_nth_error_snd; eauto.
  - inversion H; subst. exists start_mi. constructor.
Qed.

Lemma chain_length : forall cur ys fin,
  chain cur ys fin ->
  length fin = length cur /\
  total fin = total cur + Z.of_nat (length ys).
Proof.
  induction 1 as [cur|cur idx v rest fin Hv Hi Hc [IH1 IH2]].
  - simpl. split; [reflexivity | lia].
  - rewrite bump_length in IH1. rewrite bump_total in IH2 by auto.
    simpl length. split; [exact IH1 | lia].
Qed.

End StepChains.

Lemma last_cons_default {A} (x : A) : forall (l : list A) (d d' : A),
  last (x :: l) d = last (x :: l) d'.
Proof.
  intros l. revert x. induction l as [|y l IH]; intros x d d'; [reflexivity|].
  change (last (y :: l) d = last (y :: l) d'). apply IH.
Qed.

Lemma chain_fin {Var} (var_list : list Var) : forall cur ys fin,
  chain Var var_list cur ys fin -> fin = last (map snd ys) cur.
Proof.
  induction 1 as [cur|cur idx v rest fin Hv Hi Hc IH]; [reflexivity|].
  rewrite IH. simpl map. destruct (map snd rest) as [|m l]; [reflexivity|].
  change (last (m :: l) (bump cur idx 1) = last (m :: l) cur).
  apply last_cons_default.
Qed.

(** With exact integers: when the target is componentwise at least the
    start and there is one variable per axis, the sequence ends without an
    exception, its steps lead from the start to the target, and their number
    is the Manhattan distance of the two. *)
Lemma exact_sequence_reaches_target :
  forall (Var : Type) (var_list : list Var) (start_mi end_mi : mi),
    Forall2 Z.le start_mi end_mi ->
    length var_list = length start_mi ->
    exists steps : list (Var * mi),
      Tools.get_derivative_taking_sequence var_list start_mi end_mi
        = (steps, None) /\
      chain Var var_list start_mi steps end_mi /\
      Z.of_nat (length steps) = manhattan end_mi start_mi.
Proof.
  intros Var var_list start_mi end_mi Hd Hlen.
  pose proof (sequence_walk Var var_list start_mi end_mi Hd) as Hs.
  exists (walk [] start_mi end_mi var_list). split; [exact Hs|].
  destruct (sequence_chain Var var_list _ _ _ _ Hs) as [fin Hc].
  assert (Hfin : fin = end_mi).
  { destruct (walk_last Var start_mi end_mi Hd var_list [] Hlen)
      as [[Hw Heq]|(pre & v & Hw)].
    - rewrite Hw in Hc. inversion Hc; subst. reflexivity.
    - apply chain_fin in Hc. rewrite Hw in Hc.
      rewrite map_app in Hc. simpl in Hc. rewrite last_last in Hc.
      exact Hc. }
  subst fin. split; [exact Hc|].
  destruct (chain_length Var var_list _ _ _ Hc) as [Hl Ht].
  rewrite manhattan_dominated by exact Hd.
  rewrite remaining_total by exact Hl. lia.
Qed.

(** X1.  For a start and a target that are tuples of 64-bit integers, the
    target componentwise at least the start and at most [2^63 - 2] above it,
    and one variable per axis, the derivative-taking sequence ends without
    an exception; each of its steps raises one axis of the multi-index by
    one and names that axis's variable, the steps lead from the start to the
    target, and their number is the Manhattan distance of the two.  When an
    entry of the start or of the target does not fit 64 bits, the sequence
    yields nothing and raises OverflowError. *)
Theorem derivative_taking_sequence_reaches_target :
  forall (Var : Type) (var_list : list Var) (start_mi end_mi : mi),
    (Forall2 (fun s e => s <= e <= s + (2 ^ 63 - 2)) start_mi end_mi ->
     Forall (fun z => - 2 ^ 63 <= z <= 2 ^ 63 - 1) start_mi ->
     Forall (fun z => - 2 ^ 63 <= z <= 2 ^ 63 - 1) end_mi ->
     length var_list = length start_mi ->
     exists steps : list (Var * mi),
       Tools64.get_derivative_taking_sequence var_list start_mi end_mi
         = (steps, None) /\
       chain Var var_list start_mi steps end_mi /\
       Z.of_nat (length steps) = manhattan end_mi start_mi)
    /\
    (~ (Forall (fun z => - 2 ^ 63 <= z <= 2 ^ 63 - 1) start_mi /\
        Forall (fun z => - 2 ^ 63 <= z <= 2 ^ 63 - 1) end_mi) ->
     Tools64.get_derivative_taking_sequence var_list start_mi end_mi
       = ([], Some OverflowError)).
Proof.
  intros Var var_list start_mi end_mi.
  assert (Hfit : forall t : list Z,
            Forall (fun z => - 2 ^ 63 <= z <= 2 ^ 63 - 1) t <->
            Forall in_int64 t).
  { intros t. split; intros H; (eapply Forall_impl; [|exact H]);
      intros z Hz; int64_lia. }
  split.
  - intros Hd Hs He Hlen.
    rewrite sequence64_exact.
    + apply exact_sequence_reaches_target; [|exact Hlen].
      eapply Forall2_impl; [|exact Hd]. simpl. intros s e H. lia.
    + eapply Forall2_impl; [|exact Hd]. intros s e H. int64_lia.
    + apply Hfit, Hs.
    + apply Hfit, He.
  - intros Hout. unfold Tools64.get_derivative_taking_sequence.
    destruct (Forall_dec in_int64 in_int64_dec start_mi) as [Hs|Hs].
    + rewrite (array_int_fits start_mi Hs).
      unfold Tools64.mi_dist. rewrite array_int_overflow; [reflexivity|].
      intros He. apply Hout. split; apply Hfit; assumption.
    + rewrite (array_int_overflow start_mi Hs). reflexivity.
Qed.

(** From (0,1) to (2,2) with the variables 0 and 1. *)
Lemma derivative_taking_sequence_reaches_target_witness :
  exists steps : list (nat * mi),
    Tools64.get_derivative_taking_sequence [0%nat; 1%nat] [0; 1] [2; 2]
      = (steps, None) /\
    chain nat [0%nat; 1%nat] [0; 1] steps [2; 2] /\
    Z.of_nat (length steps) = manhattan [2; 2] [0; 1].
Proof.
  apply (derivative_taking_sequence_reaches_target nat [0%nat; 1%nat]
           [0; 1] [2; 2]).
  - repeat constructor; lia.
  - repeat constructor; lia.
  - repeat constructor; lia.
  - reflexivity.
Defined.

Section PlainTakerValues.

Variables Expr Var : Type.
Variable ediff : Expr -> Var -> Expr.
Variable expr : Expr.
Variable var_list : list Var.

(** How often each axis occurs in a list of axes. *)
Definition axis_counts (path : list nat) (n : nat) : list Z :=
  map (fun i => Z.of_nat (count_occ Nat.eq_dec path i)) (seq 0 n).

(** [e] is the base expression differentiated along [path], and [k] counts
    how often each axis was taken. *)
Definition derived_along (path : list nat) (k : mi) (e : Expr) : Prop :=
  exists vars : list Var,
    Forall2 (fun i v => nth_error var_list i = Some v) path vars /\
    e = fold_left ediff vars expr /\
    k = axis_counts path (length var_list).

Lemma axis_counts_nil : forall n, axis_counts [] n = repeat 0 n.
Proof.
  intros n. unfold axis_counts. simpl.
  assert (H : forall a, map (fun _ : nat => 0) (seq a n) = repeat 0 n).
  { induction n as [|n IH]; intros a; simpl; [|rewrite IH]; reflexivity. }
  apply H.
Qed.

Lemma bump_map_seq (f : nat -> Z) (idx : nat) : forall n a,
  (a <= idx < a + n)%nat ->
  bump (map f (seq a n)) (idx - a) 1
  = map (fun i => if Nat.eq_dec idx i then f i + 1 else f i) (seq a n).
Proof.
  induction n as [|n IH]; intros a H; [lia|]. simpl.
  destruct (Nat.eq_dec idx a) as [->|Hne].
  - rewrite Nat.sub_diag. simpl. f_equal.
    apply map_ext_in. intros i Hi. apply in_seq in Hi.
    destruct (Nat.eq_dec a i); [lia | reflexivity].
  - replace (idx - a)%nat with (S (idx - S a)) by lia. simpl.
    rewrite IH by lia. reflexivity.
Qed.

Lemma axis_counts_snoc (path : list nat) (idx n : nat) :
  (idx < n)%nat ->
  axis_counts (path ++ [idx]) n = bump (axis_counts path n) idx 1.
Proof.
  intros H. unfold axis_counts.
  pose proof (bump_map_seq
                (fun i => Z.of_nat (count_occ Nat.eq_dec path i)) idx n 0) as E.
  rewrite Nat.sub_0_r in E. rewrite E by lia.
  apply map_ext. intros i. rewrite count_occ_app. simpl.
  destruct (Nat.eq_dec idx i); lia.
Qed.

(** Every entry of the cache is the base expression differentiated as
    often by each variable as its key says. *)
Definition values_inv (c : Tools.dict Expr) : Prop :=
  forall k e, Tools.dict_get c k = Some e -> exists path, derived_along path k e.

Lemma diff_loop_values : forall cur steps fin,
  chain Var var_list cur steps fin ->
  forall (e : Expr) (c : Tools.dict Expr) (path : list nat),
    length cur = length var_list ->
    derived_along path cur e ->
    values_inv c ->
    values_inv (snd (Tools.diff_loop ediff steps e c)).
Proof.
  induction 1 as [cur|cur idx v rest fin Hv Hi Hc IH];
    intros e c path Hlen Hd Hinv; simpl; [exact Hinv|].
  assert (Hd' : derived_along (path ++ [idx]) (bump cur idx 1) (ediff e v)).
  { destruct Hd as (vars & Hvars & He & Hk).
    exists (vars ++ [v]). split; [|split].
    - apply Forall2_app; auto.
    - rewrite fold_left_app. simpl. rewrite He. reflexivity.
    - rewrite axis_counts_snoc by lia. rewrite <- Hk. reflexivity. }
  apply (IH (ediff e v) _ (path ++ [idx])); auto.
  - rewrite bump_length. exact Hlen.
  - intros k e' Hk. rewrite dict_get_set in Hk.
    destruct (mi_eq_dec (bump cur idx 1) k) as [<-|Hne]; [|auto].
    inversion Hk; subst. eauto.
Qed.

Lemma reachable_values (c : Tools.dict Expr) :
  Tools.reachable ediff expr var_list c -> values_inv c.
Proof.
  induction 1 as [|c m Hr IH].
  - intros k e Hk. unfold Tools.init in Hk. simpl in Hk.
    destruct (mi_eq_dec (repeat 0 (length var_list)) k) as [<-|];
      [|discriminate].
    inversion Hk; subst. exists []. exists []. split; [constructor|].
    split; [reflexivity|]. symmetry. apply axis_counts_nil.
  - pose proof (reachable_inv Expr Var ediff expr var_list c Hr) as Hinv.
    unfold Tools.diff.
    destruct (Tools.dict_get c m); [exact IH|].
    destruct (Tools.get_closest_cached_mi c m) as [b|ex] eqn:Ec; [|exact IH].
    destruct (Tools.dict_get c b) as [e0|] eqn:Eb; [|exact IH].
    destruct (Tools.get_derivative_taking_sequence var_list b m) as [steps ex]
      eqn:Es.
    destruct (Tools.diff_loop ediff steps e0 c) as [e' c'] eqn:El.
    assert (Hgoal : values_inv c').
    { replace c' with (snd (Tools.diff_loop ediff steps e0 c))
        by (rewrite El; reflexivity).
      destruct (sequence_chain Var var_list _ _ _ _ Es) as [fin Hc].
      destruct (IH _ _ Eb) as [path Hpath].
      eapply diff_loop_values; eauto.
      destruct Hinv as [Hkeys _]. apply Hkeys. eapply closest_in_keys; eauto. }
    destruct ex; exact Hgoal.
Qed.

End PlainTakerValues.

(** X2.  Whatever calls of [diff] a plain derivative taker has seen, the
    entry its cache holds for a multi-index is the base expression
    differentiated, one variable at a time, exactly as often by each
    variable as the multi-index says. *)
Theorem cached_entry_is_iterated_derivative :
  forall (Expr Var : Type) (ediff : Expr -> Var -> Expr)
         (expr : Expr) (var_list : list Var)
         (c : Tools.dict Expr) (k : mi) (e : Expr),
    Tools.reachable ediff expr var_list c ->
    Tools.dict_get c k = Some e ->
    exists (path : list nat) (vars : list Var),
      Forall2 (fun i v => nth_error var_list i = Some v) path vars /\
      e = fold_left ediff vars expr /\
      k = axis_counts path (length var_list).
Proof.
  intros Expr Var ediff expr var_list c k e Hr Hk.
  destruct (reachable_values Expr Var ediff expr var_list c Hr k e Hk)
    as (path & vars & H).
  exists path, vars. exact H.
Qed.

(** The entry for (1,1) after [diff((1,1))] on a fresh taker. *)
Lemma cached_entry_is_iterated_derivative_witness :
  exists (path : list nat) (vars : list nat),
    Forall2 (fun i v => nth_error [0%nat; 1%nat] i = Some v) path vars /\
    Terms.Diff (Terms.Diff Terms.Base 0%nat) 1%nat
      = fold_left Terms.Diff vars Terms.Base /\
    [1; 1] = axis_counts path (length [0%nat; 1%nat]).
Proof.
  apply (cached_entry_is_iterated_derivative Terms.term nat Terms.Diff
           Terms.Base [0%nat; 1%nat]
           (snd (Tools.diff Terms.Diff [0%nat; 1%nat]
                   (Tools.init Terms.Base [0%nat; 1%nat]) [1; 1]))).
  - apply Tools.reachable_diff. apply Tools.reachable_init.
  - reflexivity.
Defined.

(** X3.  A request of the taker's dimension with a negative entry makes
    [diff] raise the ValueError of [min] over an empty sequence, and the
    cache is left as it was. *)
Theorem diff_negative_request_raises :
  forall (Expr Var : Type) (ediff : Expr -> Var -> Expr)
         (expr : Expr) (var_list : list Var) (c : Tools.dict Expr) (m : mi),
    Tools.reachable ediff expr var_list c ->
    length m = length var_list ->
    Exists (fun z => z < 0) m ->
    Tools.diff ediff var_list c m = (Raise ValueError, c).
Proof.
  intros Expr Var ediff expr var_list c m Hr Hlen Hneg.
  apply reachable_inv in Hr. destruct Hr as [Hkeys Hzero].
  assert (Hnodom : forall k, In k (Tools.dict_keys c) -> ~ Forall2 Z.le k m).
  { intros k Hk Hd. destruct (Hkeys k Hk) as [_ Hnn].
    pose proof (Forall2_le_nonneg k m Hd Hnn) as Hm.
    apply Exists_exists in Hneg as (z & Hz & Hlt).
    rewrite Forall_forall in Hm. specialize (Hm z Hz). lia. }
  destruct (diff_cases Expr Var ediff var_list c m)
    as [(e & Hg & Hd)|[(Hg & Hnone & Hd)|(b & e0 & Hg & Hb & He0 & Hdom & _)]];
    auto.
  - intros k Hk. apply Hkeys; auto.
  - exfalso. apply (Hnodom m); [apply dict_get_In; eauto|].
    apply Forall2_le_refl.
  - exfalso. apply (Hnodom b); [apply dict_get_In; eauto | exact Hdom].
Qed.

(** The request (1,-1) on a fresh two-variable taker. *)
Lemma diff_negative_request_raises_witness :
  Tools.diff Terms.Diff [0%nat; 1%nat]
    (Tools.init Terms.Base [0%nat; 1%nat]) [1; -1]
  = (Raise ValueError, Tools.init Terms.Base [0%nat; 1%nat]).
Proof.
  apply (diff_negative_request_raises Terms.term nat Terms.Diff Terms.Base
           [0%nat; 1%nat]).
  - apply Tools.reachable_init.
  - reflexivity.
  - apply Exists_cons_tl. apply Exists_cons_hd. lia.
Defined.

Section RecTakerMore.

Variables Expr Var : Type.
Variable ediff : Expr -> Var -> Expr.
Variable Coeff : Type.
Variable emul : Coeff -> Expr -> Expr.
Variable eadd : list Expr -> Expr.
Variable wrangler :
  mi -> Tools.dict Expr -> result (option (list (mi * Coeff))).

Lemma rec_diff_loop_without_relations :
  (forall m c, wrangler m c = Ok None) ->
  forall steps e (c : Tools.dict Expr),
    Tools.rec_diff_loop ediff emul eadd wrangler steps e c
    = (Ok (fst (Tools.diff_loop ediff steps e c)),
       snd (Tools.diff_loop ediff steps e c)).
Proof.
  intros Hnone. induction steps as [|[v s] steps IH]; intros e c; simpl.
  - reflexivity.
  - rewrite Hnone. apply IH.
Qed.

Lemma recurrence_terms_missing (c : Tools.dict Expr) :
  forall (rel : list (mi * Coeff)) ident coeff,
    In (ident, coeff) rel -> Tools.dict_get c ident = None ->
    Tools.recurrence_terms emul c rel = Raise KeyError.
Proof.
  induction rel as [|[i0 c0] rel IH]; intros ident coeff Hin Hg;
    simpl in *; [contradiction|].
  destruct (Tools.dict_get c i0) as [e|] eqn:E0; [|reflexivity].
  destruct Hin as [Heq|Hin]; [inversion Heq; subst; congruence|].
  rewrite (IH _ _ Hin Hg). reflexivity.
Qed.

(** The states a recurrence-based taker passes through after [st]. *)
Inductive rec_later (var_list : list Var) (st : Tools.rec_taker Expr)
  : Tools.rec_taker Expr -> Prop :=
| rec_later_now : rec_later var_list st st
| rec_later_diff (st' : Tools.rec_taker Expr) (m : mi) :
    rec_later var_list st st' ->
    rec_later var_list st
      (snd (Tools.rec_diff ediff emul eadd wrangler var_list st' m)).

Lemma rec_diff_memoizes (var_list : list Var) (st st1 : Tools.rec_taker Expr)
    (m : mi) (e : Expr) :
  Tools.rec_diff ediff emul eadd wrangler var_list st m = (Ok e, st1) ->
  Tools.dict_get (Tools.memo st1) m = Some e.
Proof.
  unfold Tools.rec_diff.
  destruct (Tools.dict_get (Tools.memo st) m) as [e1|] eqn:Em.
  - intros H; inversion H; subst. exact Em.
  - destruct (Tools.rec_diff_body ediff emul eadd wrangler var_list
                (Tools.cache_by_mi st) m) as [[e1|ex] c1];
      intros H; inversion H; subst. simpl.
    rewrite dict_get_set. destruct (mi_eq_dec m m); congruence.
Qed.

Lemma rec_diff_keeps_memo (var_list : list Var) (st : Tools.rec_taker Expr)
    (m m' : mi) (e : Expr) :
  Tools.dict_get (Tools.memo st) m = Some e ->
  Tools.dict_get
    (Tools.memo (snd (Tools.rec_diff ediff emul eadd wrangler var_list st m')))
    m = Some e.
Proof.
  intros Hm. unfold Tools.rec_diff.
  destruct (Tools.dict_get (Tools.memo st) m') as [e1|] eqn:Em; [exact Hm|].
  destruct (Tools.rec_diff_body ediff emul eadd wrangler var_list
              (Tools.cache_by_mi st) m') as [[e1|ex] c1]; simpl; [|exact Hm].
  rewrite dict_get_set. destruct (mi_eq_dec m' m); [congruence | exact Hm].
Qed.

End RecTakerMore.

(** X4.  With an oracle that never has a relation, the body of the
    recurrence-based [diff] does exactly what the plain [diff] does: same
    result or exception, same cache afterwards. *)
Theorem recurrence_taker_without_relations_is_plain :
  forall (Expr Var Coeff : Type) (ediff : Expr -> Var -> Expr)
         (emul : Coeff -> Expr -> Expr) (eadd : list Expr -> Expr)
         (wrangler : mi -> Tools.dict Expr -> result (option (list (mi * Coeff))))
         (var_list : list Var) (c : Tools.dict Expr) (m : mi),
    (forall m' c', wrangler m' c' = Ok None) ->
    Tools.rec_diff_body ediff emul eadd wrangler var_list c m
    = Tools.diff ediff var_list c m.
Proof.
  intros Expr Var Coeff ediff emul eadd wrangler var_list c m Hnone.
  unfold Tools.rec_diff_body, Tools.diff.
  destruct (Tools.dict_get c m); [reflexivity|].
  destruct (Tools.get_closest_cached_mi c m) as [b|ex]; [|reflexivity].
  destruct (Tools.dict_get c b) as [e0|]; [|reflexivity].
  destruct (Tools.get_derivative_taking_sequence var_list b m) as [steps ex].
  rewrite (rec_diff_loop_without_relations Expr Var ediff Coeff emul eadd
             wrangler Hnone).
  destruct (Tools.diff_loop ediff steps e0 c) as [e' c']. simpl.
  destruct ex; reflexivity.
Qed.

(** The request (1,1) on a fresh taker. *)
Lemma recurrence_taker_without_relations_is_plain_witness :
  Tools.rec_diff_body Terms.Diff Terms.Mul Terms.Add
    (fun (_ : mi) (_ : Tools.dict Terms.term) =>
       @Ok (option (list (mi * Z))) None)
    [0%nat; 1%nat] (Tools.init Terms.Base [0%nat; 1%nat]) [1; 1]
  = Tools.diff Terms.Diff [0%nat; 1%nat]
      (Tools.init Terms.Base [0%nat; 1%nat]) [1; 1].
Proof.
  apply (recurrence_taker_without_relations_is_plain Terms.term nat Z).
  intros m' c'. reflexivity.
Defined.

(** X5.  When the oracle answers the first step of a walk with a relation
    that names a multi-index the cache does not hold, the recurrence-based
    [diff] raises KeyError; nothing is stored in the cache and nothing is
    memoized. *)
Theorem recurrence_with_uncached_operand_raises :
  forall (Expr Var Coeff : Type) (ediff : Expr -> Var -> Expr)
         (emul : Coeff -> Expr -> Expr) (eadd : list Expr -> Expr)
         (wrangler : mi -> Tools.dict Expr -> result (option (list (mi * Coeff))))
         (var_list : list Var) (st : Tools.rec_taker Expr) (m b : mi)
         (e0 : Expr) (v : Var) (s : mi) (rest : list (Var * mi))
         (err : option exn) (rel : list (mi * Coeff))
         (ident : mi) (coeff : Coeff),
    Tools.dict_get (Tools.memo st) m = None ->
    Tools.dict_get (Tools.cache_by_mi st) m = None ->
    Tools.get_closest_cached_mi (Tools.cache_by_mi st) m = Ok b ->
    Tools.dict_get (Tools.cache_by_mi st) b = Some e0 ->
    Tools.get_derivative_taking_sequence var_list b m = ((v, s) :: rest, err) ->
    wrangler s (Tools.cache_by_mi st) = Ok (Some rel) ->
    In (ident, coeff) rel ->
    Tools.dict_get (Tools.cache_by_mi st) ident = None ->
    Tools.rec_diff ediff emul eadd wrangler var_list st m
    = (Raise KeyError, st).
Proof.
  intros Expr Var Coeff ediff emul eadd wrangler var_list st m b e0 v s rest
         err rel ident coeff Hmemo Hm Hb He0 Hseq Hw Hin Hmiss.
  unfold Tools.rec_diff, Tools.rec_diff_body.
  rewrite Hmemo, Hm, Hb, He0, Hseq. simpl. rewrite Hw.
  rewrite (recurrence_terms_missing Expr Coeff emul _ rel ident coeff Hin Hmiss).
  destruct st; reflexivity.
Qed.

(** An oracle that always names (2,0), asked on a fresh taker. *)
Lemma recurrence_with_uncached_operand_raises_witness :
  Tools.rec_diff Terms.Diff Terms.Mul Terms.Add
    (fun (_ : mi) (_ : Tools.dict Terms.term) => Ok (Some [([2; 0], -1)]))
    [0%nat; 1%nat] (Tools.rec_init Terms.Base [0%nat; 1%nat]) [0; 2]
  = (Raise KeyError, Tools.rec_init Terms.Base [0%nat; 1%nat]).
Proof.
  apply (recurrence_with_uncached_operand_raises Terms.term nat Z Terms.Diff
           Terms.Mul Terms.Add
           (fun (_ : mi) (_ : Tools.dict Terms.term) =>
              Ok (Some [([2; 0], -1)]))
           [0%nat; 1%nat] (Tools.rec_init Terms.Base [0%nat; 1%nat]) [0; 2]
           [0; 0] Terms.Base 1%nat [0; 1] [(1%nat, [0; 2])] None
           [([2; 0], -1)] [2; 0] (-1));
    try reflexivity.
  simpl. auto.
Defined.

(** X6.  Once the recurrence-based [diff] has returned an expression for a
    multi-index, every later call for that multi-index returns the same
    expression and changes nothing, whatever was requested in between and
    whatever the oracle answers. *)
Theorem recurrence_diff_result_is_remembered :
  forall (Expr Var Coeff : Type) (ediff : Expr -> Var -> Expr)
         (emul : Coeff -> Expr -> Expr) (eadd : list Expr -> Expr)
         (wrangler : mi -> Tools.dict Expr -> result (option (list (mi * Coeff))))
         (var_list : list Var) (st st1 st2 : Tools.rec_taker Expr)
         (m : mi) (e : Expr),
    Tools.rec_diff ediff emul eadd wrangler var_list st m = (Ok e, st1) ->
    rec_later Expr Var ediff Coeff emul eadd wrangler var_list st1 st2 ->
    Tools.rec_diff ediff emul eadd wrangler var_list st2 m = (Ok e, st2).
Proof.
  intros Expr Var Coeff ediff emul eadd wrangler var_list st st1 st2 m e
         Hfirst Hlater.
  apply rec_diff_memoizes in Hfirst.
  assert (Hm : Tools.dict_get (Tools.memo st2) m = Some e).
  { induction Hlater as [|st' m' Hl IH]; [exact Hfirst|].
    apply rec_diff_keeps_memo. exact IH. }
  unfold Tools.rec_diff. rewrite Hm. reflexivity.
Qed.

(** [diff((2,0))], then [diff((0,2))], then [diff((2,0))] again. *)
Lemma recurrence_diff_result_is_remembered_witness :
  Tools.rec_diff Terms.Diff Terms.Mul Terms.Add sample_wrangler [0%nat; 1%nat]
    (snd (Tools.rec_diff Terms.Diff Terms.Mul Terms.Add sample_wrangler
            [0%nat; 1%nat]
            (snd (Tools.rec_diff Terms.Diff Terms.Mul Terms.Add sample_wrangler
                    [0%nat; 1%nat] (Tools.rec_init Terms.Base [0%nat; 1%nat])
                    [2; 0]))
            [0; 2]))
    [2; 0]
  = (Ok (Terms.Diff (Terms.Diff Terms.Base 0%nat) 0%nat),
     snd (Tools.rec_diff Terms.Diff Terms.Mul Terms.Add sample_wrangler
            [0%nat; 1%nat]
            (snd (Tools.rec_diff Terms.Diff Terms.Mul Terms.Add sample_wrangler
                    [0%nat; 1%nat] (Tools.rec_init Terms.Base [0%nat; 1%nat])
                    [2; 0]))
            [0; 2])).
Proof.
  apply (recurrence_diff_result_is_remembered Terms.term nat Z Terms.Diff
           Terms.Mul Terms.Add sample_wrangler [0%nat; 1%nat]
           (Tools.rec_init Terms.Base [0%nat; 1%nat])
           (snd (Tools.rec_diff Terms.Diff Terms.Mul Terms.Add sample_wrangler
                   [0%nat; 1%nat] (Tools.rec_init Terms.Base [0%nat; 1%nat])
                   [2; 0]))).
  - reflexivity.
  - apply rec_later_diff. apply rec_later_now.
Defined.

(** * sumpy/expansion/__init__.py: the Helmholtz recurrence oracle

    The arithmetic of [Helmholtz] is exact; [Helmholtz64] is the oracle on
    numpy's 64-bit arrays. *)

Module Helmholtz.

(** An entry of the relation: a Python int, or the sympy product [-k*k] for
    the wave-number symbol named [k_name]. *)
Inductive coeff : Type :=
| CInt (z : Z)
| CMinusKSquared (k_name : string).

(** The inner loop over [other_dim in range(self.kernel.dim)]; each needed
    multi-index is paired with the coefficient -1. *)
Fixpoint needed_loop (reduced_deriv : list Z) (dim : nat) (others : list nat)
  : result (list (coeff * mi)) :=
  match others with
  | [] => Ok []
  | other_dim :: rest =>
      if Nat.eqb other_dim dim then needed_loop reduced_deriv dim rest
      else
        needed_deriv <- Np.add_at reduced_deriv other_dim 2 ;;
        tl <- needed_loop reduced_deriv dim rest ;;
        Ok ((CInt (-1), needed_deriv) :: tl)
  end.

(** The body of the [try:] block; [Ok None] stands for the caught
    ValueError of [in_terms_of.index]. *)
Fixpoint fill_loop (in_terms_of : list mi) (needed_derivs : list (coeff * mi))
    (expr : list coeff) : result (option (list coeff)) :=
  match needed_derivs with
  | [] => Ok (Some expr)
  | (c, needed_deriv) :: rest =>
      match list_index needed_deriv in_terms_of with
      | None => Ok None
      | Some deriv_idx =>
          expr' <- Np.set_at expr deriv_idx c ;;
          fill_loop in_terms_of rest expr'
      end
  end.

(** The loop [for dim in np.nonzero(2 <= deriv)[0]]. *)
Fixpoint axes_loop (kernel_dim : nat) (k_name : string) (deriv : list Z)
    (in_terms_of : list mi) (ncoeffs : nat) (axes : list nat)
  : result (option (list coeff)) :=
  match axes with
  | [] => Ok None
  | dim :: rest =>
      reduced_deriv <- Np.add_at deriv dim (-2) ;;
      needed_derivs <- needed_loop reduced_deriv dim (seq 0 kernel_dim) ;;
      let needed_derivs :=
        needed_derivs ++ [(CMinusKSquared k_name, reduced_deriv)] in
      r <- fill_loop in_terms_of needed_derivs (repeat (CInt 0) ncoeffs) ;;
      match r with
      | Some expr => Ok (Some expr)
      | None => axes_loop kernel_dim k_name deriv in_terms_of ncoeffs rest
      end
  end.

(** [HelmholtzConformingVolumeTaylorExpansion.
    try_get_recurrence_for_derivative]; [kernel_dim] is [self.kernel.dim]
    and [k_name] is [self.kernel.get_base_kernel().helmholtz_k_name]. *)
Definition try_get_recurrence_for_derivative (kernel_dim : nat)
    (k_name : string) (deriv : mi) (in_terms_of : list mi) (ncoeffs : nat)
  : result (option (list coeff)) :=
  axes_loop kernel_dim k_name deriv in_terms_of ncoeffs (Np.nonzero_ge2 deriv).

End Helmholtz.

(** ** The Helmholtz recurrence oracle on 64-bit arrays

    As for the Laplace oracle, the source converts [deriv] with [np.array],
    so that [-= 2] and [+= 2] are 64-bit operations. *)

Module Helmholtz64.

(** The inner loop over [other_dim in range(self.kernel.dim)];
    [needed_deriv[other_dim] += 2] is a 64-bit addition. *)
Fixpoint needed_loop (reduced_deriv : list Z) (dim : nat) (others : list nat)
  : result (list (Helmholtz.coeff * mi)) :=
  match others with
  | [] => Ok []
  | other_dim :: rest =>
      if Nat.eqb other_dim dim then needed_loop reduced_deriv dim rest
      else
        needed_deriv <- Int64.add_at reduced_deriv other_dim 2 ;;
        tl <- needed_loop reduced_deriv dim rest ;;
        Ok ((Helmholtz.CInt (-1), needed_deriv) :: tl)
  end.

(** The loop [for dim in np.nonzero(2 <= deriv)[0]]; the [try:] block is
    [Helmholtz.fill_loop]. *)
Fixpoint axes_loop (kernel_dim : nat) (k_name : string) (deriv : list Z)
    (in_terms_of : list mi) (ncoeffs : nat) (axes : list nat)
  : result (option (list Helmholtz.coeff)) :=
  match axes with
  | [] => Ok None
  | dim :: rest =>
      reduced_deriv <- Int64.add_at deriv dim (-2) ;;
      needed_derivs <- needed_loop reduced_deriv dim (seq 0 kernel_dim) ;;
      let needed_derivs :=
        needed_derivs ++ [(Helmholtz.CMinusKSquared k_name, reduced_deriv)] in
      r <- Helmholtz.fill_loop in_terms_of needed_derivs
             (repeat (Helmholtz.CInt 0) ncoeffs) ;;
      match r with
      | Some expr => Ok (Some expr)
      | None => axes_loop kernel_dim k_name deriv in_terms_of ncoeffs rest
      end
  end.

(** [HelmholtzConformingVolumeTaylorExpansion.
    try_get_recurrence_for_derivative] for a tuple [deriv] of Python ints.
    The outer None is the case in which [np.array(deriv)] is not a 64-bit
    integer array. *)
Definition try_get_recurrence_for_derivative (kernel_dim : nat)
    (k_name : string) (deriv : mi) (in_terms_of : list mi) (ncoeffs : nat)
  : option (result (option (list Helmholtz.coeff))) :=
  match Int64.array deriv with
  | None => None
  | Some deriv =>
      Some (axes_loop kernel_dim k_name deriv in_terms_of ncoeffs
              (Np.nonzero_ge2 deriv))
  end.

End Helmholtz64.

(** ** The Helmholtz rule *)

Section HelmholtzRule.

(** The coefficient the loop leaves at position [i]: that of the last pair
    whose multi-index is found there. *)
Fixpoint assigned (its : list mi) (pairs : list (Helmholtz.coeff * mi))
    (i : nat) (before : Helmholtz.coeff) : Helmholtz.coeff :=
  match pairs with
  | [] => before
  | (c, m) :: rest =>
      match list_index m its with
      | Some j => assigned its rest i (if Nat.eqb j i then c else before)
      | None => assigned its rest i before
      end
  end.

Lemma h_needed_loop_spec reduced k : forall others,
  (forall j, In j others -> (j < length reduced)%nat) ->
  Helmholtz.needed_loop reduced k others =
  Ok (map (fun j => (Helmholtz.CInt (-1), bump reduced j 2))
          (filter (fun j => negb (Nat.eqb j k)) others)).
Proof.
  induction others as [|j others IH]; intros H; simpl; auto.
  destruct (Nat.eqb j k) eqn:E; simpl.
  - apply IH. intros; apply H; simpl; auto.
  - rewrite add_at_bump by (apply H; simpl; auto). simpl.
    rewrite IH by (intros; apply H; simpl; auto). reflexivity.
Qed.

Lemma h_fill_loop_spec its : forall pairs expr,
  (length its <= length expr)%nat ->
  if all_present its (map snd pairs)
  then exists expr', Helmholtz.fill_loop its pairs expr = Ok (Some expr') /\
         length expr' = length expr /\
         forall i d, nth i expr' d = assigned its pairs i (nth i expr d)
  else Helmholtz.fill_loop its pairs expr = Ok None.
Proof.
  induction pairs as [|[c m] pairs IH]; intros expr Hlen; simpl.
  - exists expr. auto.
  - destruct (list_index m its) as [j|] eqn:Ej; simpl; auto.
    pose proof (list_index_lt _ _ _ Ej) as Hj.
    destruct (set_at_ok expr j c) as [e1 He1]; [lia|].
    rewrite He1. simpl.
    pose proof (set_at_length _ _ _ _ He1) as Hl1.
    specialize (IH e1). rewrite Hl1 in IH. specialize (IH Hlen).
    destruct (all_present its (map snd pairs)).
    + destruct IH as (expr' & Hr & Hl & Hn).
      exists expr'. split; auto. split; auto.
      intros i d. rewrite Hn. rewrite (set_at_nth _ d _ _ _ i He1).
      rewrite (Nat.eqb_sym i j). reflexivity.
    + exact IH.
Qed.

Lemma assigned_app its a b : forall i before,
  assigned its (a ++ b) i before = assigned its b i (assigned its a i before).
Proof.
  induction a as [|[c m] a IH]; intros i before; simpl; auto.
  destruct (list_index m its); apply IH.
Qed.

Lemma assigned_minus_one its (ms : list mi) : forall i before,
  assigned its (map (fun m => (Helmholtz.CInt (-1), m)) ms) i before
  = if hits its ms i then Helmholtz.CInt (-1) else before.
Proof.
  induction ms as [|m ms IH]; intros i before; simpl; auto.
  destruct (list_index m its) as [j|]; simpl.
  - rewrite IH. destruct (Nat.eqb j i); simpl;
      destruct (hits its ms i); reflexivity.
  - apply IH.
Qed.

(** The Helmholtz rule for axis [k] needs the multi-indices of the Laplace
    rule and the reduced multi-index itself. *)
Definition h_succeeds (dim : nat) (d : mi) (its : list mi) (k : nat) : bool :=
  (2 <=? nth k d 0)
  && all_present its (needed dim d k ++ [bump d k (-2)]).

Lemma h_axes_loop_spec dim name d its n : forall axes,
  length d = dim -> (length its <= n)%nat ->
  (forall k, In k axes -> (k < dim)%nat) ->
  match find (fun k => all_present its (needed dim d k ++ [bump d k (-2)]))
             axes with
  | Some k =>
      exists expr,
        Helmholtz.axes_loop dim name d its n axes = Ok (Some expr) /\
        length expr = n /\
        forall i dflt,
          nth i expr dflt =
          match list_index (bump d k (-2)) its with
          | Some j =>
              if Nat.eqb j i then Helmholtz.CMinusKSquared name
              else if hits its (needed dim d k) i then Helmholtz.CInt (-1)
                   else nth i (repeat (Helmholtz.CInt 0) n) dflt
          | None =>
              if hits its (needed dim d k) i then Helmholtz.CInt (-1)
              else nth i (repeat (Helmholtz.CInt 0) n) dflt
          end
  | None => Helmholtz.axes_loop dim name d its n axes = Ok None
  end.
Proof.
  intros axes Hd Hn. induction axes as [|k axes IH]; intros Hax; simpl; auto.
  assert (Hk : (k < dim)%nat) by (apply Hax; simpl; auto).
  rewrite add_at_bump by lia. simpl.
  rewrite h_needed_loop_spec.
  2:{ intros j Hj. rewrite bump_length. apply in_seq in Hj. lia. }
  simpl.
  match goal with
  | |- context [Helmholtz.fill_loop its ?p ?e] =>
      pose proof (h_fill_loop_spec its p e) as Hf;
      remember p as pairs eqn:Hp
  end.
  assert (Hpairs : pairs = map (fun m => (Helmholtz.CInt (-1), m)) (needed dim d k)
                           ++ [(Helmholtz.CMinusKSquared name, bump d k (-2))]).
  { rewrite Hp. unfold needed. rewrite map_map. reflexivity. }
  assert (Hsnd : map snd pairs = needed dim d k ++ [bump d k (-2)]).
  { rewrite Hpairs, map_app, map_map. simpl. rewrite map_id. reflexivity. }
  rewrite repeat_length in Hf. specialize (Hf Hn). rewrite Hsnd in Hf.
  destruct (all_present its (needed dim d k ++ [bump d k (-2)])).
  - destruct Hf as (expr' & Hr & Hl & Hv). rewrite Hr. simpl.
    exists expr'. split; auto. split; auto.
    intros i dflt. rewrite Hv, Hpairs, assigned_app, assigned_minus_one.
    simpl.
    destruct (list_index (bump d k (-2)) its) as [j|];
      [destruct (Nat.eqb j i)|]; reflexivity.
  - rewrite Hf. simpl. apply IH. intros; apply Hax; simpl; auto.
Qed.

Lemma h_try_get_recurrence_find dim name d its n :
  length d = dim -> (length its <= n)%nat ->
  match find (h_succeeds dim d its) (seq 0 dim) with
  | Some k =>
      exists expr j,
        Helmholtz.try_get_recurrence_for_derivative dim name d its n
          = Ok (Some expr) /\
        length expr = n /\
        list_index (bump d k (-2)) its = Some j /\
        forall i dflt,
          (i < n)%nat ->
          nth i expr dflt =
          if Nat.eqb j i then Helmholtz.CMinusKSquared name
          else if hits its (needed dim d k) i then Helmholtz.CInt (-1)
               else Helmholtz.CInt 0
  | None =>
      Helmholtz.try_get_recurrence_for_derivative dim name d its n = Ok None
  end.
Proof.
  intros Hd Hn.
  unfold Helmholtz.try_get_recurrence_for_derivative, Np.nonzero_ge2.
  rewrite nonzero_ge2_from_spec.
  pose proof (h_axes_loop_spec dim name d its n
    (filter (fun k => 2 <=? nth (k - 0) d 0) (seq 0 (length d))) Hd Hn) as H.
  rewrite find_filter in H.
  assert (E : find (fun x => (2 <=? nth (x - 0) d 0)
                             && all_present its
                                  (needed dim d x ++ [bump d x (-2)]))
                   (seq 0 (length d)) =
              find (h_succeeds dim d its) (seq 0 dim)).
  { rewrite Hd. clear. induction (seq 0 dim) as [|x l IH]; simpl; auto.
    unfold h_succeeds at 1. rewrite Nat.sub_0_r. rewrite IH. reflexivity. }
  rewrite E in H.
  assert (Hax : forall k, In k (filter (fun k => 2 <=? nth (k - 0) d 0)
                                 (seq 0 (length d))) -> (k < dim)%nat).
  { intros k Hk. apply filter_In in Hk as [Hk _]. apply in_seq in Hk. lia. }
  specialize (H Hax).
  destruct (find (h_succeeds dim d its) (seq 0 dim)) as [k|] eqn:Ef; auto.
  destruct H as (expr & Hr & Hl & Hv).
  apply find_some in Ef as [_ Hs]. unfold h_succeeds in Hs.
  apply andb_true_iff in Hs as [_ Hs].
  apply all_present_Forall in Hs. apply Forall_app in Hs as [_ Hs].
  inversion Hs as [|x l Hin _]; subst.
  apply list_index_In in Hin as [j Hj].
  exists expr, j. repeat split; auto.
  intros i dflt Hi. rewrite Hv, Hj.
  rewrite nth_repeat_lt by exact Hi. reflexivity.
Qed.

End HelmholtzRule.

Lemma list_index_nth_error (x : mi) : forall (l : list mi) (n : nat),
  list_index x l = Some n -> nth_error l n = Some x.
Proof.
  induction l as [|y l IH]; intros n Hn; simpl in Hn; [discriminate|].
  destruct (mi_eq_dec y x) as [->|Hne].
  - inversion Hn; reflexivity.
  - destruct (list_index x l); inversion Hn; subst. simpl. auto.
Qed.

Lemma needed_differs_from_reduced (dim : nat) (d : mi) (k : nat) (m : mi) :
  length d = dim -> In m (needed dim d k) -> m <> bump d k (-2).
Proof.
  intros Hd Hm. unfold needed in Hm.
  apply in_map_iff in Hm as (j & <- & Hj).
  apply filter_In in Hj as [Hj _]. apply in_seq in Hj.
  intros E. apply (f_equal total) in E.
  rewrite bump_total in E by (rewrite bump_length; lia). lia.
Qed.

Lemma all_present_app (its a b : list mi) :
  all_present its (a ++ b) = all_present its a && all_present its b.
Proof. unfold all_present. apply forallb_app. Qed.

(** The Helmholtz rule over exact integers: the first axis [k] with
    [d[k] >= 2] for which the multi-indices of the Laplace rule and [d]
    lowered by 2 at [k] are all in [its] gives [-k*k] at the position of the
    lowered multi-index, -1 at the positions of the others and 0 elsewhere;
    no such axis gives None. *)
Lemma helmholtz_rule_exact :
  forall (dim : nat) (k_name : string) (d : mi) (its : list mi)
         (ncoeffs : nat),
    length d = dim ->
    (length its <= ncoeffs)%nat ->
    (forall k : nat,
        (k < dim)%nat -> 2 <= nth k d 0 ->
        Forall (fun m => In m its) (needed dim d k) ->
        In (bump d k (-2)) its ->
        (forall k' : nat, (k' < k)%nat -> 2 <= nth k' d 0 ->
           ~ (Forall (fun m => In m its) (needed dim d k') /\
              In (bump d k' (-2)) its)) ->
        exists expr : list Helmholtz.coeff,
          Helmholtz.try_get_recurrence_for_derivative dim k_name d its ncoeffs
            = Ok (Some expr) /\
          length expr = ncoeffs /\
          (exists j, list_index (bump d k (-2)) its = Some j /\
                     nth j expr (Helmholtz.CInt 0)
                       = Helmholtz.CMinusKSquared k_name) /\
          (forall m, In m (needed dim d k) ->
             exists i, list_index m its = Some i /\
                       nth i expr (Helmholtz.CInt 0) = Helmholtz.CInt (-1)) /\
          (forall i, (i < ncoeffs)%nat ->
             list_index (bump d k (-2)) its <> Some i ->
             (forall m, In m (needed dim d k) -> list_index m its <> Some i) ->
             nth i expr (Helmholtz.CInt 0) = Helmholtz.CInt 0))
    /\
    ((forall k : nat,
         (k < dim)%nat -> 2 <= nth k d 0 ->
         ~ (Forall (fun m => In m its) (needed dim d k) /\
            In (bump d k (-2)) its)) ->
     Helmholtz.try_get_recurrence_for_derivative dim k_name d its ncoeffs
       = Ok None).
Proof.
  intros dim name d its ncoeffs Hd Hn.
  pose proof (h_try_get_recurrence_find dim name d its ncoeffs Hd Hn) as H.
  assert (Hs : forall k, h_succeeds dim d its k = true <->
                         2 <= nth k d 0 /\
                         Forall (fun m => In m its) (needed dim d k) /\
                         In (bump d k (-2)) its).
  { intros k. unfold h_succeeds.
    rewrite andb_true_iff, Z.leb_le, all_present_Forall, Forall_app.
    split.
    - intros (H1 & H2 & H3). inversion H3; subst. auto.
    - intros (H1 & H2 & H3). repeat split; auto. }
  split.
  - intros k Hk Hge Hall Hred Hfirst.
    assert (E : find (h_succeeds dim d its) (seq 0 dim) = Some k).
    { apply find_seq_first; [lia | apply Hs; auto |].
      intros k' Hk'. destruct (h_succeeds dim d its k') eqn:E'; auto.
      apply Hs in E' as (H1 & H2 & H3).
      exfalso. apply (Hfirst k'); auto. lia. }
    rewrite E in H. destruct H as (expr & j & Hr & Hl & Hj & Hv).
    exists expr. split; [auto|]. split; [auto|].
    assert (Hjn : (j < ncoeffs)%nat).
    { apply list_index_lt in Hj. lia. }
    split; [|split].
    + exists j. split; auto. rewrite Hv by auto.
      rewrite Nat.eqb_refl. reflexivity.
    + intros m Hm. rewrite Forall_forall in Hall.
      apply Hall in Hm as Hin. apply list_index_In in Hin as [i Hi].
      exists i. split; auto.
      assert (Hin' : (i < ncoeffs)%nat) by (apply list_index_lt in Hi; lia).
      rewrite Hv by auto.
      destruct (Nat.eqb_spec j i) as [->|Hne].
      * exfalso. apply (needed_differs_from_reduced dim d k m Hd Hm).
        apply list_index_nth_error in Hi, Hj. congruence.
      * assert (Hh : hits its (needed dim d k) i = true).
        { unfold hits. apply existsb_exists. exists m. split; auto.
          rewrite Hi. apply Nat.eqb_refl. }
        rewrite Hh. reflexivity.
    + intros i Hi Hnr Hno. rewrite Hv by auto.
      destruct (Nat.eqb_spec j i) as [->|Hne]; [congruence|].
      destruct (hits its (needed dim d k) i) eqn:Hh; auto.
      unfold hits in Hh. apply existsb_exists in Hh as (m & Hm & Hmi).
      destruct (list_index m its) as [j'|] eqn:Ej; [|discriminate].
      apply Nat.eqb_eq in Hmi. subst j'. exfalso. exact (Hno m Hm Ej).
  - intros Hnone.
    assert (E : find (h_succeeds dim d its) (seq 0 dim) = None).
    { apply find_seq_none. intros k Hk.
      destruct (h_succeeds dim d its k) eqn:E'; auto.
      apply Hs in E' as (H1 & H2 & H3).
      exfalso. apply (Hnone k); auto. lia. }
    rewrite E in H. exact H.
Qed.

(** On a multi-index whose entries are 64-bit integers with room for the
    [+= 2], the 64-bit Helmholtz oracle returns what the exact one
    returns. *)
Lemma h_needed_loop64_exact (reduced : list Z) (k : nat) : forall others,
  Forall (fun z => Int64.min_int <= z <= Int64.max_int - 2) reduced ->
  Helmholtz64.needed_loop reduced k others
  = Helmholtz.needed_loop reduced k others.
Proof.
  intros others Hr. induction others as [|o others IH]; simpl; auto.
  destruct (Nat.eqb o k); auto.
  rewrite int64_add_at_exact, IH; auto.
  intros x Hx.
  pose proof (nth_error_Forall _ _ _ _ Hr Hx) as Hb. int64_lia.
Qed.

Lemma h_axes_loop64_exact (dim : nat) (name : string) (d : mi)
    (its : list mi) (n : nat) :
  Forall (fun z => Int64.min_int <= z <= Int64.max_int - 2) d ->
  forall axes,
    Forall (fun k => 2 <= nth k d 0) axes ->
    Helmholtz64.axes_loop dim name d its n axes
    = Helmholtz.axes_loop dim name d its n axes.
Proof.
  intros Hd axes Hax. induction Hax as [|k axes Hk Hax IH]; simpl; auto.
  assert (Hx : forall x, nth_error d k = Some x -> 2 <= x <= Int64.max_int - 2).
  { intros x Hx. pose proof (nth_error_Forall _ _ _ _ Hd Hx) as Hb.
    apply (nth_error_nth _ _ 0) in Hx. int64_lia. }
  rewrite int64_add_at_exact by (intros x E; apply Hx in E; int64_lia).
  destruct (Np.add_at d k (-2)) as [reduced|e] eqn:Ea; simpl; auto.
  rewrite h_needed_loop64_exact, IH; auto.
  apply (add_at_Forall _ _ _ _ _ Ea Hd).
  intros x E. apply Hx in E. int64_lia.
Qed.

Lemma helmholtz64_exact (dim : nat) (name : string) (d : mi)
    (its : list mi) (n : nat) :
  Forall (fun z => Int64.min_int <= z <= Int64.max_int - 2) d ->
  Helmholtz64.try_get_recurrence_for_derivative dim name d its n
  = Some (Helmholtz.try_get_recurrence_for_derivative dim name d its n).
Proof.
  intros Hd. unfold Helmholtz64.try_get_recurrence_for_derivative.
  rewrite array_fits.
  - unfold Helmholtz.try_get_recurrence_for_derivative.
    rewrite h_axes_loop64_exact; auto using nonzero_ge2_entries.
  - eapply Forall_impl; [|exact Hd]. intros z Hz. int64_lia.
Qed.

(** X7.  For a multi-index [d] of the kernel's dimension whose entries lie
    between [-2^63] and [2^63-3], and a list [its] no longer than
    [ncoeffs], the Helmholtz oracle takes the first axis [k] with
    [d[k] >= 2] for which the multi-indices of the Laplace rule and [d]
    lowered by 2 at [k] are all in [its]; its relation has [-k*k] at the
    position of the lowered multi-index, -1 at the positions of the others
    and 0 elsewhere.  When no axis qualifies it returns None. *)
Theorem helmholtz_recurrence_first_succeeding_axis :
  forall (dim : nat) (k_name : string) (d : mi) (its : list mi)
         (ncoeffs : nat),
    length d = dim ->
    (length its <= ncoeffs)%nat ->
    Forall (fun z => - 2 ^ 63 <= z <= 2 ^ 63 - 3) d ->
    (forall k : nat,
        (k < dim)%nat -> 2 <= nth k d 0 ->
        Forall (fun m => In m its) (needed dim d k) ->
        In (bump d k (-2)) its ->
        (forall k' : nat, (k' < k)%nat -> 2 <= nth k' d 0 ->
           ~ (Forall (fun m => In m its) (needed dim d k') /\
              In (bump d k' (-2)) its)) ->
        exists expr : list Helmholtz.coeff,
          Helmholtz64.try_get_recurrence_for_derivative dim k_name d its
            ncoeffs = Some (Ok (Some expr)) /\
          length expr = ncoeffs /\
          (exists j, list_index (bump d k (-2)) its = Some j /\
                     nth j expr (Helmholtz.CInt 0)
                       = Helmholtz.CMinusKSquared k_name) /\
          (forall m, In m (needed dim d k) ->
             exists i, list_index m its = Some i /\
                       nth i expr (Helmholtz.CInt 0) = Helmholtz.CInt (-1)) /\
          (forall i, (i < ncoeffs)%nat ->
             list_index (bump d k (-2)) its <> Some i ->
             (forall m, In m (needed dim d k) -> list_index m its <> Some i) ->
             nth i expr (Helmholtz.CInt 0) = Helmholtz.CInt 0))
    /\
    ((forall k : nat,
         (k < dim)%nat -> 2 <= nth k d 0 ->
         ~ (Forall (fun m => In m its) (needed dim d k) /\
            In (bump d k (-2)) its)) ->
     Helmholtz64.try_get_recurrence_for_derivative dim k_name d its ncoeffs
       = Some (Ok None)).
Proof.
  intros dim name d its ncoeffs Hd Hn Hr.
  assert (E : Helmholtz64.try_get_recurrence_for_derivative dim name d its
                ncoeffs
              = Some (Helmholtz.try_get_recurrence_for_derivative dim name d
                        its ncoeffs)).
  { apply helmholtz64_exact. eapply Forall_impl; [|exact Hr].
    intros z Hz. int64_lia. }
  rewrite E.
  destruct (helmholtz_rule_exact dim name d its ncoeffs Hd Hn)
    as [Hsome Hnone].
  split.
  - intros k Hk Hge Hall Hred Hfirst.
    destruct (Hsome k Hk Hge Hall Hred Hfirst) as (expr & Hx & Hrest).
    exists expr. rewrite Hx. split; [reflexivity | exact Hrest].
  - intros Hno. rewrite (Hnone Hno). reflexivity.
Qed.

(** In dimension 2, (0,2) in terms of the five identifiers before it. *)
Lemma helmholtz_recurrence_first_succeeding_axis_witness :
  exists expr : list Helmholtz.coeff,
    Helmholtz64.try_get_recurrence_for_derivative 2 "k" [0; 2]
      [[0; 0]; [1; 0]; [0; 1]; [2; 0]; [1; 1]] 6 = Some (Ok (Some expr)) /\
    length expr = 6%nat /\
    (exists j,
        list_index (bump [0; 2] 1 (-2))
          [[0; 0]; [1; 0]; [0; 1]; [2; 0]; [1; 1]] = Some j /\
        nth j expr (Helmholtz.CInt 0) = Helmholtz.CMinusKSquared "k") /\
    (forall m, In m (needed 2 [0; 2] 1) ->
       exists i,
         list_index m [[0; 0]; [1; 0]; [0; 1]; [2; 0]; [1; 1]] = Some i /\
         nth i expr (Helmholtz.CInt 0) = Helmholtz.CInt (-1)) /\
    (forall i, (i < 6)%nat ->
       list_index (bump [0; 2] 1 (-2))
         [[0; 0]; [1; 0]; [0; 1]; [2; 0]; [1; 1]] <> Some i ->
       (forall m, In m (needed 2 [0; 2] 1) ->
          list_index m [[0; 0]; [1; 0]; [0; 1]; [2; 0]; [1; 1]] <> Some i) ->
       nth i expr (Helmholtz.CInt 0) = Helmholtz.CInt 0).
Proof.
  destruct (helmholtz_recurrence_first_succeeding_axis
              2 "k"%string [0; 2] [[0; 0]; [1; 0]; [0; 1]; [2; 0]; [1; 1]] 6
              eq_refl) as [H _].
  - simpl. lia.
  - repeat constructor; simpl; lia.
  - apply (H 1%nat).
    + lia.
    + simpl. lia.
    + unfold needed. simpl. constructor; [simpl; auto 10 | constructor].
    + simpl. auto.
    + intros k' Hk' Hge. assert (k' = 0%nat) by lia. subst k'.
      simpl in Hge. lia.
Defined.

(** X8.  On the same multi-index, the same list and the same [ncoeffs], the
    Helmholtz oracle finds a relation only where the Laplace oracle finds
    one, and finds none wherever the Laplace oracle finds none. *)
Theorem helmholtz_relation_implies_laplace_relation :
  forall (dim : nat) (k_name : string) (d : mi) (its : list mi)
         (ncoeffs : nat),
    length d = dim ->
    (length its <= ncoeffs)%nat ->
    (forall hexpr,
        Helmholtz.try_get_recurrence_for_derivative dim k_name d its ncoeffs
          = Ok (Some hexpr) ->
        exists lexpr,
          Laplace.try_get_recurrence_for_derivative dim d its ncoeffs
            = Ok (Some lexpr)) /\
    (Laplace.try_get_recurrence_for_derivative dim d its ncoeffs = Ok None ->
     Helmholtz.try_get_recurrence_for_derivative dim k_name d its ncoeffs
       = Ok None).
Proof.
  intros dim name d its n Hd Hn.
  pose proof (h_try_get_recurrence_find dim name d its n Hd Hn) as Hh.
  pose proof (try_get_recurrence_find dim d its n Hd Hn) as Hl.
  assert (Himp : forall k, h_succeeds dim d its k = true ->
                           succeeds dim d its k = true).
  { intros k. unfold h_succeeds, succeeds. rewrite all_present_app.
    rewrite !andb_true_iff. tauto. }
  assert (Hnone : find (succeeds dim d its) (seq 0 dim) = None ->
                  find (h_succeeds dim d its) (seq 0 dim) = None).
  { intros E. apply find_seq_none. intros k Hk.
    destruct (h_succeeds dim d its k) eqn:E'; auto.
    apply Himp in E'.
    pose proof (find_none _ _ E k) as Hf. simpl in Hf.
    rewrite Hf in E'; [discriminate|]. apply in_seq. lia. }
  destruct (find (succeeds dim d its) (seq 0 dim)) as [kl|] eqn:El.
  - destruct Hl as (lexpr & Hlr & _). split.
    + intros _ _. eauto.
    + rewrite Hlr. discriminate.
  - rewrite (Hnone eq_refl) in Hh. split.
    + intros hexpr E. rewrite Hh in E. discriminate.
    + intros _. exact Hh.
Qed.

(** (2,0) before (0,2) was processed: neither rule applies. *)
Lemma helmholtz_relation_implies_laplace_relation_witness :
  Helmholtz.try_get_recurrence_for_derivative 2 "k" [2; 0]
    [[0; 0]; [1; 0]; [0; 1]] 6 = Ok None.
Proof.
  destruct (helmholtz_relation_implies_laplace_relation 2 "k"%string [2; 0]
              [[0; 0]; [1; 0]; [0; 1]] 6) as [_ H].
  - reflexivity.
  - simpl. lia.
  - apply H. reflexivity.
Defined.

(** * sumpy/expansion/__init__.py: the transforms between stored and full
      coefficients, and the storage index *)

Module Transforms.

Section Transforms.

Variable K : Type.
Variables (rzero : K) (radd rmul : K -> K -> K).

(** [LinearRecurrenceBasedVolumeTaylorExpansion.stored_to_full]:
    [self.coeff_matrix.dot(stored_coeffs)] for a 1-d [stored_coeffs]; numpy
    raises ValueError unless its length is the number of columns. *)
Definition stored_to_full (coeff_matrix : list (list K))
    (stored_coeffs : list K) : result (list K) :=
  if forallb (fun row => Nat.eqb (length row) (length stored_coeffs))
       coeff_matrix
  then Ok (map (fun row => Expansion.dot1 rzero radd rmul row stored_coeffs)
             coeff_matrix)
  else Raise ValueError.

End Transforms.

(** [VolumeTaylorExpansionBase._storage_loc_dict]:
    [dict((i, idx) for idx, i in enumerate(identifiers))]. *)
Fixpoint storage_loc_from (idx : nat) (identifiers : list mi)
    (d : Tools.dict nat) : Tools.dict nat :=
  match identifiers with
  | [] => d
  | i :: rest => storage_loc_from (S idx) rest (Tools.dict_set d i idx)
  end.

Definition storage_loc_dict (identifiers : list mi) : Tools.dict nat :=
  storage_loc_from 0 identifiers [].

End Transforms.

(** ** Which identifiers are stored *)

Section StoredIdentifiers.

Variable K : Type.
Variables (rzero rone : K) (radd rmul : K -> K -> K).
Variable oracle : mi -> list mi -> nat -> result (option (list K)).

Lemma loop_body_stored ncoeffs (st st' : Expansion.loop_state K) identifier :
  Expansion.loop_body rzero rone radd rmul oracle ncoeffs st identifier
    = Ok st' ->
  Expansion.identifiers_so_far st'
    = Expansion.identifiers_so_far st ++ [identifier] /\
  ((oracle identifier (Expansion.identifiers_so_far st) ncoeffs = Ok None /\
    Expansion.stored_identifiers st'
      = Expansion.stored_identifiers st ++ [identifier]) \/
   ((exists expr, oracle identifier (Expansion.identifiers_so_far st) ncoeffs
                  = Ok (Some expr)) /\
    Expansion.stored_identifiers st' = Expansion.stored_identifiers st)).
Proof.
  unfold Expansion.loop_body. intros H.
  destruct (oracle identifier (Expansion.identifiers_so_far st) ncoeffs)
    as [[expr|]|e]; simpl in H; try discriminate.
  - destruct (Expansion.dot_transpose _ _ _ _ _) as [row|e]; simpl in H;
      inversion H; subst; simpl. split; eauto.
  - destruct (Np.set_at _ _ _) as [row|e]; simpl in H;
      inversion H; subst; simpl. split; auto.
Qed.

Lemma loop_stored ncoeffs : forall rest (st st' : Expansion.loop_state K),
  Expansion.loop rzero rone radd rmul oracle ncoeffs st rest = Ok st' ->
  forall m,
    In m (Expansion.stored_identifiers st') <->
    In m (Expansion.stored_identifiers st) \/
    exists pre post,
      rest = pre ++ m :: post /\
      oracle m (Expansion.identifiers_so_far st ++ pre) ncoeffs = Ok None.
Proof.
  induction rest as [|identifier rest IH]; intros st st' H m; simpl in H.
  - inversion H; subst. split; auto.
    intros [Hin|(pre & post & E & _)]; auto. destruct pre; discriminate.
  - destruct (Expansion.loop_body rzero rone radd rmul oracle ncoeffs st
                identifier) as [st1|e] eqn:Eb; simpl in H; [|discriminate].
    apply loop_body_stored in Eb as [Hsf Hcase].
    rewrite (IH _ _ H m), Hsf. split.
    + intros [Hin|(pre & post & E & Ho)].
      * destruct Hcase as [[Ho Hst]|[_ Hst]]; rewrite Hst in Hin; auto.
        apply in_app_or in Hin as [Hin|[<-|[]]]; auto.
        right. exists [], rest. rewrite app_nil_r. auto.
      * right. exists (identifier :: pre), post. subst rest.
        rewrite <- app_assoc in Ho. auto.
    + intros [Hin|(pre & post & E & Ho)].
      * left. destruct Hcase as [[_ Hst]|[_ Hst]]; rewrite Hst; auto.
        apply in_or_app. auto.
      * destruct pre as [|x pre]; simpl in E; inversion E; subst.
        -- rewrite app_nil_r in Ho.
           destruct Hcase as [[_ Hst]|[[expr He] _]]; [|congruence].
           left. rewrite Hst. apply in_or_app. simpl; auto.
        -- right. exists pre, post. rewrite <- app_assoc. auto.
Qed.

End StoredIdentifiers.

(** X9.  When the construction of a reduced basis returns, an identifier
    is stored exactly when it stands at some place in the full list where
    the oracle, asked about it with the identifiers before that place, had
    no relation. *)
Theorem stored_iff_oracle_has_no_relation :
  forall (K : Type) (rzero rone : K) (radd rmul : K -> K -> K)
         (oracle : mi -> list mi -> nat -> result (option (list K)))
         (full stored : list mi) (M : list (list K)) (m : mi),
    Expansion.precompute_over rzero rone radd rmul oracle full
      = Ok (stored, M) ->
    (In m stored <->
     exists pre post,
       full = pre ++ m :: post /\ oracle m pre (length full) = Ok None).
Proof.
  intros K rzero rone radd rmul oracle full stored M m H.
  unfold Expansion.precompute_over in H.
  destruct (Expansion.loop rzero rone radd rmul oracle (length full) _ full)
    as [st|e] eqn:El; simpl in H; [|discriminate].
  destruct (Expansion.vstack (Expansion.coeff_matrix st)) as [mat|e];
    simpl in H; inversion H; subst; clear H.
  rewrite (loop_stored K rzero rone radd rmul oracle _ _ _ _ El m). simpl.
  split.
  - intros [[]|H]; exact H.
  - intros H. right. exact H.
Qed.

(** (2,0) is stored by the Laplace basis of order 2 in dimension 2. *)
Lemma stored_iff_oracle_has_no_relation_witness :
  In [2; 0] [[0; 0]; [1; 0]; [0; 1]; [2; 0]; [1; 1]] <->
  exists pre post,
    order_2_dim_2 = pre ++ [2; 0] :: post /\
    Laplace.try_get_recurrence_for_derivative 2 [2; 0] pre
      (length order_2_dim_2) = Ok None.
Proof.
  apply (stored_iff_oracle_has_no_relation Z 0 1 Z.add Z.mul
           (Laplace.try_get_recurrence_for_derivative 2) order_2_dim_2
           [[0; 0]; [1; 0]; [0; 1]; [2; 0]; [1; 1]]
           [[1; 0; 0; 0; 0]; [0; 1; 0; 0; 0]; [0; 0; 1; 0; 0];
            [0; 0; 0; 1; 0]; [0; 0; 0; 0; 1]; [0; 0; 0; -1; 0]]).
  reflexivity.
Defined.

(** ** Stored coefficients survive [stored_to_full] *)

Section StoredToFull.

Variable K : Type.
Variables (rzero rone : K) (radd rmul : K -> K -> K).

Hypothesis radd_zero_l : forall a, radd rzero a = a.
Hypothesis radd_zero_r : forall a, radd a rzero = a.
Hypothesis rmul_zero_l : forall a, rmul rzero a = rzero.
Hypothesis rmul_one_l : forall a, rmul rone a = a.

Lemma fold_radd_zeros : forall (x : list K) (n : nat) (acc : K),
  fold_left radd (Np.zip_with rmul (repeat rzero n) x) acc = acc.
Proof.
  induction x as [|a x IH]; intros [|n] acc; simpl; auto.
  rewrite rmul_zero_l, radd_zero_r. apply IH.
Qed.

Lemma dot1_unit_row : forall (n j : nat) (x : list K) (acc : K),
  length x = n -> (j < n)%nat ->
  fold_left radd (Np.zip_with rmul (unit_row K rzero rone n j) x) acc
  = radd acc (nth j x rzero).
Proof.
  induction n as [|n IH]; intros j x acc Hx Hj; [lia|].
  destruct x as [|a x]; [discriminate|]. simpl in Hx.
  destruct j as [|j]; simpl.
  - rewrite rmul_one_l. apply fold_radd_zeros.
  - rewrite rmul_zero_l, radd_zero_r. apply IH; lia.
Qed.

Lemma stored_to_full_at_unit_rows (M : list (list K)) (x : list K) :
  Forall (fun row => length row = length x) M ->
  exists full_coeffs,
    Transforms.stored_to_full K rzero radd rmul M x = Ok full_coeffs /\
    length full_coeffs = length M /\
    forall j p,
      nth_error M p = Some (unit_row K rzero rone (length x) j) ->
      (j < length x)%nat ->
      nth_error full_coeffs p = nth_error x j.
Proof.
  intros HM. unfold Transforms.stored_to_full.
  assert (E : forallb (fun row => Nat.eqb (length row) (length x)) M = true).
  { apply forallb_forall. intros row Hr. rewrite Forall_forall in HM.
    apply Nat.eqb_eq. auto. }
  rewrite E. eexists. split; [reflexivity|]. split; [apply length_map|].
  intros j p Hp Hj. rewrite nth_error_map, Hp. simpl.
  unfold Expansion.dot1. rewrite dot1_unit_row by auto.
  rewrite radd_zero_l. symmetry. apply nth_error_nth'. exact Hj.
Qed.

End StoredToFull.

(** X10.  After the construction of a reduced basis, with coefficients
    whose 0 and 1 behave as such under + and *: [stored_to_full] applied to
    one coefficient per stored identifier returns one coefficient per full
    identifier, and at the position of each stored identifier it returns
    that identifier's stored coefficient unchanged.  A coefficient list of
    any other length makes it raise ValueError. *)
Theorem stored_to_full_keeps_stored_coefficients :
  forall (K : Type) (rzero rone : K) (radd rmul : K -> K -> K)
         (oracle : mi -> list mi -> nat -> result (option (list K)))
         (full stored : list mi) (M : list (list K)) (x : list K),
    (forall a, radd rzero a = a) ->
    (forall a, radd a rzero = a) ->
    (forall a, rmul rzero a = rzero) ->
    (forall a, rmul rone a = a) ->
    Expansion.precompute_over rzero rone radd rmul oracle full
      = Ok (stored, M) ->
    (length x = length stored ->
     exists (pos : list nat) (full_coeffs : list K),
       length pos = length stored /\
       StronglySorted lt pos /\
       Transforms.stored_to_full K rzero radd rmul M x = Ok full_coeffs /\
       length full_coeffs = length full /\
       forall j p, nth_error pos j = Some p ->
         nth_error full p = nth_error stored j /\
         nth_error full_coeffs p = nth_error x j)
    /\
    (length x <> length stored ->
     Transforms.stored_to_full K rzero radd rmul M x = Raise ValueError).
Proof.
  intros K rzero rone radd rmul oracle full stored M x Hzl Hzr Hmz Hmo H.
  pose proof (precompute_over_shape K rzero rone radd rmul oracle
                full stored M H) as (HlenM & Hrows & pos & Hpos & Hsorted & Hid).
  split.
  - intros Hx.
    destruct (stored_to_full_at_unit_rows K rzero rone radd rmul
                Hzl Hzr Hmz Hmo M x) as (fc & Hfc & Hl & Hat).
    { eapply Forall_impl; [|exact Hrows]. simpl. intros; congruence. }
    exists pos, fc. repeat split; auto; try congruence.
    + apply (Hid j p H0).
    + destruct (Hid j p H0) as [_ HM]. apply Hat.
      * rewrite Hx. exact HM.
      * rewrite Hx, <- Hpos. apply nth_error_Some. congruence.
  - intros Hx. unfold Transforms.stored_to_full.
    destruct M as [|row M'].
    + exfalso. simpl in HlenM. destruct full; [|discriminate].
      simpl in H. discriminate.
    + inversion Hrows; subst. simpl.
      destruct (Nat.eqb_spec (length row) (length x)) as [E|E];
        [exfalso; congruence | reflexivity].
Qed.

(** Five coefficients put through the Laplace matrix of order 2 in
    dimension 2. *)
Lemma stored_to_full_keeps_stored_coefficients_witness :
  exists (pos : list nat) (full_coeffs : list Z),
    length pos = length [[0; 0]; [1; 0]; [0; 1]; [2; 0]; [1; 1]] /\
    StronglySorted lt pos /\
    Transforms.stored_to_full Z 0 Z.add Z.mul
      [[1; 0; 0; 0; 0]; [0; 1; 0; 0; 0]; [0; 0; 1; 0; 0];
       [0; 0; 0; 1; 0]; [0; 0; 0; 0; 1]; [0; 0; 0; -1; 0]]
      [10; 20; 30; 40; 50] = Ok full_coeffs /\
    length full_coeffs = length order_2_dim_2 /\
    forall j p, nth_error pos j = Some p ->
      nth_error order_2_dim_2 p
        = nth_error [[0; 0]; [1; 0]; [0; 1]; [2; 0]; [1; 1]] j /\
      nth_error full_coeffs p = nth_error [10; 20; 30; 40; 50] j.
Proof.
  destruct (stored_to_full_keeps_stored_coefficients Z 0 1 Z.add Z.mul
              (Laplace.try_get_recurrence_for_derivative 2) order_2_dim_2
              [[0; 0]; [1; 0]; [0; 1]; [2; 0]; [1; 1]]
              [[1; 0; 0; 0; 0]; [0; 1; 0; 0; 0]; [0; 0; 1; 0; 0];
               [0; 0; 0; 1; 0]; [0; 0; 0; 0; 1]; [0; 0; 0; -1; 0]]
              [10; 20; 30; 40; 50]) as [H _].
  - intros a. lia.
  - intros a. lia.
  - intros a. lia.
  - intros a. destruct a; reflexivity.
  - reflexivity.
  - apply H. reflexivity.
Defined.

(** ** The full coefficient identifiers *)

Lemma range_In (n i : Z) : In i (Expansion.range n) <-> 0 <= i < n.
Proof.
  unfold Expansion.range. rewrite in_map_iff. split.
  - intros (k & <- & Hk). apply in_seq in Hk. lia.
  - intros H. exists (Z.to_nat i). split; [lia|]. apply in_seq. lia.
Qed.

Lemma range_NoDup (n : Z) : NoDup (Expansion.range n).
Proof.
  unfold Expansion.range. apply Finite.Injective_map_NoDup_in.
  - intros x y _ _ E. lia.
  - apply seq_NoDup.
Qed.

Lemma Forall_nonneg_snoc (base : list Z) (i : Z) :
  Forall (Z.le 0) (base ++ [i]) <-> Forall (Z.le 0) base /\ 0 <= i.
Proof.
  rewrite Forall_app. split.
  - intros [H1 H2]. inversion H2; subst. auto.
  - intros [H1 H2]. split; auto.
Qed.

Lemma gnitstam_In : forall (len : nat) (n : Z) (m : mi),
  0 <= n ->
  (In m (Expansion.gnitstam n len) <->
   length m = len /\ Forall (Z.le 0) m /\ total m <= n).
Proof.
  induction len as [|len IH]; intros n m Hn; simpl.
  - split.
    + intros [<-|[]]. simpl. repeat split; auto.
    + intros (Hl & _ & _). destruct m; [auto | discriminate].
  - rewrite in_flat_map. split.
    + intros (i & Hi & Hm). apply range_In in Hi.
      apply in_map_iff in Hm as (base & <- & Hb).
      apply IH in Hb as (Hl & Hnn & Ht); [|lia].
      rewrite length_app, total_app, Forall_nonneg_snoc. simpl.
      repeat split; auto; lia.
    + intros (Hl & Hnn & Ht).
      destruct (exists_last (l:=m)) as (base & i & ->);
        [intros ->; discriminate|].
      rewrite length_app in Hl. simpl in Hl.
      rewrite total_app in Ht. simpl in Ht.
      apply Forall_nonneg_snoc in Hnn as [Hb Hi].
      pose proof (total_nonneg base Hb).
      exists i. split; [apply range_In; lia|].
      apply in_map_iff. exists base. split; [reflexivity|].
      apply IH; [lia|]. repeat split; auto; lia.
Qed.

Lemma NoDup_app_disjoint {A} : forall l1 l2 : list A,
  NoDup l1 -> NoDup l2 -> (forall x, In x l1 -> ~ In x l2) ->
  NoDup (l1 ++ l2).
Proof.
  induction l1 as [|a l1 IH]; intros l2 H1 H2 Hd; simpl; auto.
  inversion H1; subst. constructor.
  - intros Hin. apply in_app_or in Hin as [Hin|Hin]; [contradiction|].
    apply (Hd a); simpl; auto.
  - apply IH; auto. intros x Hx. apply Hd. simpl; auto.
Qed.

Lemma NoDup_flat_map_disjoint {A B} (f : A -> list B) : forall l : list A,
  NoDup l ->
  (forall x, In x l -> NoDup (f x)) ->
  (forall x y z, In x l -> In y l -> In z (f x) -> In z (f y) -> x = y) ->
  NoDup (flat_map f l).
Proof.
  induction l as [|a l IH]; intros Hl Hf Hd; simpl; [constructor|].
  inversion Hl as [|a' l' Hna Hl']; subst.
  apply NoDup_app_disjoint.
  - apply Hf. simpl; auto.
  - apply IH; auto.
    + intros x Hx. apply Hf. simpl; auto.
    + intros x y z Hx Hy. apply Hd; simpl; auto.
  - intros z Hz Hin. apply in_flat_map in Hin as (y & Hy & Hzy).
    assert (a = y) by (apply (Hd a y z); simpl; auto).
    subst y. contradiction.
Qed.

Lemma gnitstam_NoDup : forall (len : nat) (n : Z),
  NoDup (Expansion.gnitstam n len).
Proof.
  induction len as [|len IH]; intros n; simpl.
  - constructor; [intros [] | constructor].
  - apply NoDup_flat_map_disjoint.
    + apply range_NoDup.
    + intros i _. apply Finite.Injective_map_NoDup_in; [|apply IH].
      intros x y _ _ E. apply app_inj_tail in E. tauto.
    + intros i j z _ _ Hi Hj.
      apply in_map_iff in Hi as (b1 & <- & _).
      apply in_map_iff in Hj as (b2 & E & _).
      apply app_inj_tail in E. symmetry. tauto.
Qed.

Lemma insert_by_key_Permutation (key : mi -> Z) (x : mi) : forall l,
  Permutation (Expansion.insert_by_key key x l) (x :: l).
Proof.
  induction l as [|y l IH]; simpl; auto.
  destruct (key x <? key y); auto.
  eapply perm_trans; [apply perm_skip; exact IH | apply perm_swap].
Qed.

Lemma sorted_fold_Permutation (key : mi -> Z) : forall l acc,
  Permutation
    (fold_left (fun acc x => Expansion.insert_by_key key x acc) l acc)
    (l ++ acc).
Proof.
  induction l as [|x l IH]; intros acc; simpl; auto.
  eapply perm_trans; [apply IH|].
  eapply perm_trans;
    [apply Permutation_app_head; apply insert_by_key_Permutation|].
  apply Permutation_sym. apply Permutation_middle.
Qed.

Lemma sorted_Permutation (key : mi -> Z) (l : list mi) :
  Permutation (Expansion.sorted l key) l.
Proof.
  unfold Expansion.sorted.
  eapply perm_trans; [apply sorted_fold_Permutation|].
  rewrite app_nil_r. apply Permutation_refl.
Qed.

Lemma insert_by_key_sorted (key : mi -> Z) (x : mi) : forall l,
  StronglySorted (fun a b => key a <= key b) l ->
  StronglySorted (fun a b => key a <= key b)
    (Expansion.insert_by_key key x l).
Proof.
  induction l as [|y l IH]; intros H; simpl.
  - constructor; constructor.
  - inversion H as [|y' l' Hs Hf]; subst.
    destruct (key x <? key y) eqn:E.
    + apply Z.ltb_lt in E. constructor; auto.
      constructor; [lia|].
      eapply Forall_impl; [|exact Hf]. simpl. intros; lia.
    + apply Z.ltb_ge in E. constructor; auto.
      apply Forall_forall. intros z Hz.
      apply insert_by_key_In in Hz as [->|Hz]; [lia|].
      rewrite Forall_forall in Hf. auto.
Qed.

Lemma sorted_is_sorted (key : mi -> Z) (l : list mi) :
  StronglySorted (fun a b => key a <= key b) (Expansion.sorted l key).
Proof.
  unfold Expansion.sorted.
  assert (H : forall l acc,
            StronglySorted (fun a b => key a <= key b) acc ->
            StronglySorted (fun a b => key a <= key b)
              (fold_left (fun acc x => Expansion.insert_by_key key x acc)
                 l acc)).
  { clear l. induction l as [|x l IH]; intros acc Ha; simpl; auto.
    apply IH. apply insert_by_key_sorted. exact Ha. }
  apply H. constructor.
Qed.

(** X11.  For an order from 0 up, the full coefficient identifiers are
    exactly the tuples of the kernel's dimension with non-negative entries
    and total at most the order, each listed once, in non-decreasing total
    order. *)
Theorem full_identifiers_are_the_bounded_multi_indices :
  forall (order : Z) (kernel_dim : nat),
    0 <= order ->
    (forall m : mi,
        In m (Expansion.get_full_coefficient_identifiers order kernel_dim) <->
        length m = kernel_dim /\ Forall (Z.le 0) m /\ total m <= order) /\
    NoDup (Expansion.get_full_coefficient_identifiers order kernel_dim) /\
    StronglySorted (fun a b => total a <= total b)
      (Expansion.get_full_coefficient_identifiers order kernel_dim).
Proof.
  intros order dim Ho. unfold Expansion.get_full_coefficient_identifiers.
  split; [|split].
  - intros m. rewrite sorted_In. apply gnitstam_In. exact Ho.
  - eapply Permutation_NoDup;
      [apply Permutation_sym; apply sorted_Permutation|].
    apply gnitstam_NoDup.
  - pose proof (sorted_is_sorted Np.sum (Expansion.gnitstam order dim)) as H.
    assert (E : forall l,
              StronglySorted (fun a b => Np.sum a <= Np.sum b) l ->
              StronglySorted (fun a b => total a <= total b) l).
    { induction 1 as [|a l Hs IH Hf]; constructor; auto.
      eapply Forall_impl; [|exact Hf]. simpl. intros b.
      rewrite !np_sum_total. auto. }
    apply E. exact H.
Qed.

(** Order 3 in dimension 3: twenty identifiers, each once. *)
Lemma full_identifiers_are_the_bounded_multi_indices_witness :
  NoDup (Expansion.get_full_coefficient_identifiers 3 3).
Proof.
  destruct (full_identifiers_are_the_bounded_multi_indices 3 3) as (_ & H & _).
  - lia.
  - exact H.
Defined.

(** X12.  For a negative order and a kernel of dimension at least 1 there
    is no coefficient identifier at all, and the construction of a reduced
    basis raises ValueError (from stacking an empty list of rows), whatever
    the oracle. *)
Theorem precompute_with_negative_order_raises :
  forall (K : Type) (rzero rone : K) (radd rmul : K -> K -> K)
         (oracle : mi -> list mi -> nat -> result (option (list K)))
         (order : Z) (kernel_dim : nat),
    order < 0 -> (1 <= kernel_dim)%nat ->
    Expansion.get_full_coefficient_identifiers order kernel_dim = [] /\
    Expansion.precompute_coeff_matrix rzero rone radd rmul oracle
      order kernel_dim = Raise ValueError.
Proof.
  intros K rzero rone radd rmul oracle order dim Ho Hd.
  assert (E : Expansion.get_full_coefficient_identifiers order dim = []).
  { unfold Expansion.get_full_coefficient_identifiers.
    destruct dim as [|dim]; [lia|]. simpl.
    unfold Expansion.range.
    replace (Z.to_nat (order + 1)) with 0%nat by lia. reflexivity. }
  split; [exact E|].
  unfold Expansion.precompute_coeff_matrix. rewrite E. reflexivity.
Qed.

(** Order -1 in dimension 3 with the Laplace oracle. *)
Lemma precompute_with_negative_order_raises_witness :
  Expansion.get_full_coefficient_identifiers (-1) 3 = [] /\
  Expansion.precompute_coeff_matrix 0 1 Z.add Z.mul
    (Laplace.try_get_recurrence_for_derivative 3) (-1) 3 = Raise ValueError.
Proof.
  apply (precompute_with_negative_order_raises Z 0 1 Z.add Z.mul
           (Laplace.try_get_recurrence_for_derivative 3) (-1) 3); lia.
Defined.

(** ** The storage index *)

Lemma storage_loc_from_spec : forall (identifiers : list mi) (idx : nat)
    (d : Tools.dict nat) (i : mi) (p : nat),
  Tools.dict_get (Transforms.storage_loc_from idx identifiers d) i = Some p <->
  (exists j, p = (idx + j)%nat /\ nth_error identifiers j = Some i /\
             forall j', (j < j')%nat -> nth_error identifiers j' <> Some i) \/
  (~ In i identifiers /\ Tools.dict_get d i = Some p).
Proof.
  induction identifiers as [|a ids IH]; intros idx d i p; simpl.
  - split.
    + intros H. right. auto.
    + intros [(j & _ & Hj & _)|[_ H]]; auto. destruct j; discriminate.
  - rewrite IH, dict_get_set. split.
    + intros [(j & -> & Hj & Hlast)|[Hnin Hget]].
      * left. exists (S j). split; [lia|]. split; [exact Hj|].
        intros [|j'] Hlt; [lia|]. simpl. apply Hlast. lia.
      * destruct (mi_eq_dec a i) as [->|Hne].
        -- inversion Hget; subst. left. exists 0%nat.
           split; [lia|]. split; [reflexivity|].
           intros [|j'] Hlt; [lia|]. simpl. intros Hj'.
           apply Hnin. eapply nth_error_In. exact Hj'.
        -- right. split; [|exact Hget]. intros [E|Hin]; auto.
    + intros [(j & -> & Hj & Hlast)|[Hnin Hget]].
      * destruct j as [|j]; simpl in Hj.
        -- inversion Hj; subst. right. split.
           ++ intros Hin. apply In_nth_error in Hin as (j' & Hj').
              apply (Hlast (S j')); [lia | exact Hj'].
           ++ destruct (mi_eq_dec i i); [|congruence]. f_equal. lia.
        -- left. exists j. split; [lia|]. split; [exact Hj|].
           intros j' Hlt. apply (Hlast (S j')). lia.
      * right. split; [tauto|].
        destruct (mi_eq_dec a i) as [->|Hne]; [tauto | exact Hget].
Qed.

(** X13.  The storage dictionary built from a list of coefficient
    identifiers maps an identifier to a position exactly when that is the
    last position at which the identifier stands in the list; an identifier
    that is not in the list has no entry.  For a list without repetition
    the dictionary is therefore the inverse of indexing into the list. *)
Theorem storage_loc_dict_is_last_position :
  forall (identifiers : list mi) (i : mi) (p : nat),
    (Tools.dict_get (Transforms.storage_loc_dict identifiers) i = Some p <->
     nth_error identifiers p = Some i /\
     forall p', (p < p')%nat -> nth_error identifiers p' <> Some i) /\
    (Tools.dict_get (Transforms.storage_loc_dict identifiers) i = None <->
     ~ In i identifiers) /\
    (NoDup identifiers ->
     (Tools.dict_get (Transforms.storage_loc_dict identifiers) i = Some p <->
      nth_error identifiers p = Some i)).
Proof.
  intros ids i p. unfold Transforms.storage_loc_dict.
  assert (Hspec : forall q,
    Tools.dict_get (Transforms.storage_loc_from 0 ids []) i = Some q <->
    nth_error ids q = Some i /\
    forall p', (q < p')%nat -> nth_error ids p' <> Some i).
  { intros q. rewrite storage_loc_from_spec. simpl. split.
    - intros [(j & -> & H)|[_ H]]; [exact H | discriminate].
    - intros H. left. exists q. split; [reflexivity | exact H]. }
  split; [apply Hspec|]. split.
  - split.
    + intros Hnone Hin.
      assert (Hex : exists q, nth_error ids q = Some i /\
                forall p', (q < p')%nat -> nth_error ids p' <> Some i).
      { clear Hspec Hnone. induction ids as [|a ids IH]; [destruct Hin|].
        destruct (in_dec mi_eq_dec i ids) as [Hi|Hi].
        - destruct (IH Hi) as (q & Hq & Hl). exists (S q). split; auto.
          intros [|p'] Hlt; [lia|]. simpl. apply Hl. lia.
        - destruct Hin as [->|Hin]; [|contradiction].
          exists 0%nat. split; auto.
          intros [|p'] Hlt; [lia|]. simpl. intros E.
          apply Hi. eapply nth_error_In. exact E. }
      destruct Hex as (q & Hq). apply Hspec in Hq. congruence.
    + intros Hnin.
      destruct (Tools.dict_get (Transforms.storage_loc_from 0 ids []) i)
        as [q|] eqn:E; auto.
      destruct (proj1 (Hspec q) eq_refl) as [Hq _]. exfalso. apply Hnin.
      eapply nth_error_In. exact Hq.
  - intros Hnd. rewrite Hspec. split; [tauto|].
    intros H. split; auto. intros p' Hlt E.
    rewrite NoDup_nth_error in Hnd.
    assert (p = p'); [|lia].
    apply Hnd; [|congruence]. apply nth_error_Some. congruence.
Qed.

(** Three distinct identifiers: (1,0) is found at position 1. *)
Lemma storage_loc_dict_is_last_position_witness :
  Tools.dict_get (Transforms.storage_loc_dict [[0; 0]; [1; 0]; [0; 1]]) [1; 0]
    = Some 1%nat <->
  nth_error [[0; 0]; [1; 0]; [0; 1]] 1 = Some [1; 0].
Proof.
  apply (storage_loc_dict_is_last_position
           [[0; 0]; [1; 0]; [0; 1]] [1; 0] 1%nat).
  repeat constructor; simpl; intuition discriminate.
Defined.

(** * sumpy/kernel.py: the functions over kernel objects *)

Module KernelFunctions.

(** What a call returns, or the AttributeError that Python raises when an
    attribute is looked up on an object that lacks it. *)
Inductive outcome (A : Type) : Type :=
| Returns (v : A)
| RaisesAttributeError.

Section KernelFunctions.

Variable PExpr : Type.

(** [fix_dimensions]: [LaplaceKernel], [HelmholtzKernel] and
    [DifferenceKernel] override it; the wrappers inherit the method of
    [Kernel], which raises NotImplementedError. *)
Fixpoint fix_dimensions (k : Kernel.kernel PExpr) (dims : option Z)
    (h : Kernel.heap PExpr) : result (Kernel.kernel PExpr) * Kernel.heap PExpr :=
  match k with
  | Kernel.LaplaceKernel _ _ _ =>
      let (k', h') := Kernel.new_LaplaceKernel dims h in (Ok k', h')
  | Kernel.HelmholtzKernel _ _ _ name allow_evanescent =>
      let (k', h') := Kernel.new_HelmholtzKernel dims name allow_evanescent h
      in (Ok k', h')
  | Kernel.DifferenceKernel _ _ kernel_plus kernel_minus =>
      match fix_dimensions kernel_plus dims h with
      | (Ok plus', h1) =>
          match fix_dimensions kernel_minus dims h1 with
          | (Ok minus', h2) => Kernel.new_DifferenceKernel plus' minus' h2
          | (Raise e, h2) => (Raise e, h2)
          end
      | (Raise e, h1) => (Raise e, h1)
      end
  | _ => (Raise NotImplementedError, h)
  end.

(** [is_complex_valued]: a class attribute of [LaplaceKernel] and
    [HelmholtzKernel], a forwarding property of [KernelWrapper]; [Kernel]
    and [DifferenceKernel] do not define it. *)
Fixpoint is_complex_valued (k : Kernel.kernel PExpr) : outcome bool :=
  match k with
  | Kernel.LaplaceKernel _ _ _ => Returns bool false
  | Kernel.HelmholtzKernel _ _ _ _ _ => Returns bool true
  | Kernel.DifferenceKernel _ _ _ _ => RaisesAttributeError bool
  | Kernel.AxisTargetDerivative _ _ _ i => is_complex_valued i
  | Kernel.DirectionalTargetDerivative _ _ i _ => is_complex_valued i
  | Kernel.DirectionalSourceDerivative _ _ i _ => is_complex_valued i
  end.

(** [replace_inner_kernel] of a directional derivative, called with what
    [remove_axis_target_derivatives] returned for the wrapped kernel:
    the constructor reads [new_inner_kernel.dimensions], which None lacks. *)
Definition replace_inner_kernel
    (new_wrapper : Kernel.kernel PExpr -> PExpr -> Kernel.heap PExpr ->
                   Kernel.kernel PExpr * Kernel.heap PExpr)
    (derivative_expression : PExpr)
    (new_inner_kernel : option (Kernel.kernel PExpr)) (h : Kernel.heap PExpr)
  : outcome (Kernel.kernel PExpr) * Kernel.heap PExpr :=
  match new_inner_kernel with
  | Some inner =>
      let (k', h') := new_wrapper inner derivative_expression h in
      (Returns _ k', h')
  | None => (RaisesAttributeError _, h)
  end.

(** [remove_axis_target_derivatives]: the branch for the other wrappers
    calls [replace_inner_kernel] and drops its result, so the function
    returns None there. *)
Fixpoint remove_axis_target_derivatives (k : Kernel.kernel PExpr)
    (h : Kernel.heap PExpr)
  : outcome (option (Kernel.kernel PExpr)) * Kernel.heap PExpr :=
  match k with
  | Kernel.AxisTargetDerivative _ _ _ i => remove_axis_target_derivatives i h
  | Kernel.DirectionalTargetDerivative _ _ i e =>
      match remove_axis_target_derivatives i h with
      | (Returns _ r, h1) =>
          match replace_inner_kernel
                  (@Kernel.new_DirectionalTargetDerivative PExpr) e r h1 with
          | (Returns _ _, h2) => (Returns _ None, h2)
          | (RaisesAttributeError _, h2) => (RaisesAttributeError _, h2)
          end
      | (RaisesAttributeError _, h1) => (RaisesAttributeError _, h1)
      end
  | Kernel.DirectionalSourceDerivative _ _ i e =>
      match remove_axis_target_derivatives i h with
      | (Returns _ r, h1) =>
          match replace_inner_kernel
                  (@Kernel.new_DirectionalSourceDerivative PExpr) e r h1 with
          | (Returns _ _, h2) => (Returns _ None, h2)
          | (RaisesAttributeError _, h2) => (RaisesAttributeError _, h2)
          end
      | (RaisesAttributeError _, h1) => (RaisesAttributeError _, h1)
      end
  | _ => (Returns _ (Some k), h)
  end.

End KernelFunctions.

End KernelFunctions.

(** ** Kernel objects as the constructors build them *)

Section ConstructedKernels.

Variable PExpr : Type.

(** The heaps that calls of the constructors of kernel.py produce, each
    constructor being given kernels that exist already. *)
Inductive constructed : Kernel.heap PExpr -> Prop :=
| constructed_nil : constructed []
| constructed_laplace h dims :
    constructed h ->
    constructed (snd (Kernel.new_LaplaceKernel dims h))
| constructed_helmholtz h dims name allow_evanescent :
    constructed h ->
    constructed (snd (Kernel.new_HelmholtzKernel dims name allow_evanescent h))
| constructed_axis_target h axis inner :
    constructed h -> In inner h ->
    constructed (snd (Kernel.new_AxisTargetDerivative axis inner h))
| constructed_directional_target h inner e :
    constructed h -> In inner h ->
    constructed (snd (Kernel.new_DirectionalTargetDerivative inner e h))
| constructed_directional_source h inner e :
    constructed h -> In inner h ->
    constructed (snd (Kernel.new_DirectionalSourceDerivative inner e h))
| constructed_difference h kernel_plus kernel_minus :
    constructed h -> In kernel_plus h -> In kernel_minus h ->
    constructed (snd (Kernel.new_DifferenceKernel kernel_plus kernel_minus h)).

(** What the constructors establish about the attributes of an object. *)
Fixpoint well_built (k : Kernel.kernel PExpr) : Prop :=
  match k with
  | Kernel.LaplaceKernel _ _ _ => True
  | Kernel.HelmholtzKernel _ _ _ _ _ => True
  | Kernel.DifferenceKernel _ d p m =>
      Kernel.is_wrapper p = false /\ Kernel.is_wrapper m = false /\
      Kernel.dimensions p = Kernel.dimensions m /\
      d = Kernel.dimensions p /\ well_built p /\ well_built m
  | Kernel.AxisTargetDerivative _ d _ i => d = Kernel.dimensions i /\ well_built i
  | Kernel.DirectionalTargetDerivative _ d i _ =>
      d = Kernel.dimensions i /\ well_built i
  | Kernel.DirectionalSourceDerivative _ d i _ =>
      d = Kernel.dimensions i /\ well_built i
  end.

(** Same class and same constructor arguments apart from the dimension. *)
Fixpoint same_up_to_dimensions (a b : Kernel.kernel PExpr) : bool :=
  match a, b with
  | Kernel.LaplaceKernel _ _ _, Kernel.LaplaceKernel _ _ _ => true
  | Kernel.HelmholtzKernel _ _ _ n1 e1, Kernel.HelmholtzKernel _ _ _ n2 e2 =>
      String.eqb n1 n2 && Bool.eqb e1 e2
  | Kernel.DifferenceKernel _ _ p1 m1, Kernel.DifferenceKernel _ _ p2 m2 =>
      same_up_to_dimensions p1 p2 && same_up_to_dimensions m1 m2
  | _, _ => false
  end.

(** The number of directional derivatives among the wrappers of a kernel. *)
Fixpoint directional_wrappers (k : Kernel.kernel PExpr) : nat :=
  match k with
  | Kernel.AxisTargetDerivative _ _ _ i => directional_wrappers i
  | Kernel.DirectionalTargetDerivative _ _ i _ => S (directional_wrappers i)
  | Kernel.DirectionalSourceDerivative _ _ i _ => S (directional_wrappers i)
  | _ => 0
  end.

(** [k.kernel], for a wrapper. *)
Definition wrapped (k : Kernel.kernel PExpr) : option (Kernel.kernel PExpr) :=
  match k with
  | Kernel.AxisTargetDerivative _ _ _ i => Some i
  | Kernel.DirectionalTargetDerivative _ _ i _ => Some i
  | Kernel.DirectionalSourceDerivative _ _ i _ => Some i
  | _ => None
  end.

Lemma get_base_kernel_unwrapped (k : Kernel.kernel PExpr) :
  Kernel.is_wrapper k = false -> Kernel.get_base_kernel k = k.
Proof. destruct k; simpl; congruence. Qed.

Lemma get_base_kernel_not_wrapper (k : Kernel.kernel PExpr) :
  Kernel.is_wrapper (Kernel.get_base_kernel k) = false.
Proof. induction k; simpl; auto. Qed.

Lemma constructed_wf_built (h : Kernel.heap PExpr) :
  constructed h -> Kernel.heap_wf h /\ Forall well_built h.
Proof.
  induction 1 as [|h dims Hc [Hwf Hb]|h dims name ev Hc [Hwf Hb]
                 |h axis inner Hc [Hwf Hb] Hin
                 |h inner e Hc [Hwf Hb] Hin
                 |h inner e Hc [Hwf Hb] Hin
                 |h p m Hc [Hwf Hb] Hp Hm]; simpl.
  - split; [apply heap_wf_nil | constructor].
  - split.
    + apply heap_wf_snoc; auto. intros c [].
    + apply Forall_app; split; auto. constructor; simpl; auto.
  - split.
    + apply heap_wf_snoc; auto. intros c [].
    + apply Forall_app; split; auto. constructor; simpl; auto.
  - rewrite Forall_forall in Hb. split.
    + apply heap_wf_snoc; auto. intros c [<-|[]]; auto.
    + apply Forall_app; split; [apply Forall_forall; auto|].
      constructor; simpl; auto.
  - rewrite Forall_forall in Hb. split.
    + apply heap_wf_snoc; auto. intros c [<-|[]]; auto.
    + apply Forall_app; split; [apply Forall_forall; auto|].
      constructor; simpl; auto.
  - rewrite Forall_forall in Hb. split.
    + apply heap_wf_snoc; auto. intros c [<-|[]]; auto.
    + apply Forall_app; split; [apply Forall_forall; auto|].
      constructor; simpl; auto.
  - unfold Kernel.new_DifferenceKernel.
    destruct (negb (Kernel.py_is (Kernel.get_base_kernel p) p)
              || negb (Kernel.py_is (Kernel.get_base_kernel m) m)) eqn:E;
      simpl; [split; auto|].
    destruct (Kernel.dimensions_eq_dec (Kernel.dimensions p)
                (Kernel.dimensions m)) as [Ed|Ed]; simpl; [|split; auto].
    apply orb_false_iff in E as [E1 E2].
    apply negb_false_iff in E1, E2.
    apply (own_base_iff_unwrapped PExpr h p Hwf Hp) in E1.
    apply (own_base_iff_unwrapped PExpr h m Hwf Hm) in E2.
    rewrite Forall_forall in Hb. split.
    + apply heap_wf_snoc; auto. intros c [<-|[<-|[]]]; auto.
    + apply Forall_app; split; [apply Forall_forall; auto|].
      constructor; simpl; auto. repeat split; auto.
Qed.

Lemma well_built_base (k : Kernel.kernel PExpr) :
  well_built k ->
  well_built (Kernel.get_base_kernel k) /\
  Kernel.dimensions k = Kernel.dimensions (Kernel.get_base_kernel k).
Proof.
  induction k as [s d|s d n ev|s d p IHp m IHm|s d ax i IHi|s d i IHi e
                 |s d i IHi e]; simpl; auto.
  - intros [-> Hi]. apply IHi. exact Hi.
  - intros [-> Hi]. apply IHi. exact Hi.
  - intros [-> Hi]. apply IHi. exact Hi.
Qed.

Lemma base_in_heap (h : Kernel.heap PExpr) (k : Kernel.kernel PExpr) :
  Kernel.heap_wf h -> In k h -> In (Kernel.get_base_kernel k) h.
Proof.
  intros Hwf Hk. destruct (Kernel.is_wrapper k) eqn:E.
  - apply (base_of_wrapper_earlier PExpr h Hwf k Hk E).
  - rewrite get_base_kernel_unwrapped; auto.
Qed.

Lemma get_scaling_base (k : Kernel.kernel PExpr) :
  Kernel.get_scaling k = Kernel.get_scaling (Kernel.get_base_kernel k).
Proof. induction k; simpl; auto. Qed.

Lemma is_complex_valued_base (k : Kernel.kernel PExpr) :
  KernelFunctions.is_complex_valued PExpr k
  = KernelFunctions.is_complex_valued PExpr (Kernel.get_base_kernel k).
Proof. induction k; simpl; auto. Qed.

End ConstructedKernels.

(** X14.  In a heap that the constructors built, the base kernel of an
    object is an object of the heap that is not a wrapper, it is its own
    base kernel, and the object has the dimension, the scaling and the
    complex-valuedness of its base kernel (the same exception where the
    base kernel raises one). *)
Theorem wrapper_reports_its_base_kernel :
  forall (PExpr : Type) (h : Kernel.heap PExpr) (k : Kernel.kernel PExpr),
    constructed PExpr h -> In k h ->
    In (Kernel.get_base_kernel k) h /\
    Kernel.is_wrapper (Kernel.get_base_kernel k) = false /\
    Kernel.get_base_kernel (Kernel.get_base_kernel k)
      = Kernel.get_base_kernel k /\
    Kernel.dimensions k = Kernel.dimensions (Kernel.get_base_kernel k) /\
    Kernel.get_scaling k = Kernel.get_scaling (Kernel.get_base_kernel k) /\
    KernelFunctions.is_complex_valued PExpr k
      = KernelFunctions.is_complex_valued PExpr (Kernel.get_base_kernel k).
Proof.
  intros PExpr h k Hc Hk.
  destruct (constructed_wf_built PExpr h Hc) as [Hwf Hb].
  rewrite Forall_forall in Hb.
  split; [apply base_in_heap; auto|].
  split; [apply get_base_kernel_not_wrapper|].
  split; [apply get_base_kernel_unwrapped, get_base_kernel_not_wrapper|].
  split; [apply well_built_base; auto|].
  split; [apply get_scaling_base | apply is_complex_valued_base].
Qed.

(** A directional derivative of an axis derivative of a Helmholtz kernel in
    dimension 3. *)
Lemma wrapper_reports_its_base_kernel_witness :
  let base := Kernel.HelmholtzKernel unit 0 (Some 3) "k" false in
  let axis := Kernel.AxisTargetDerivative 1 (Some 3) 0 base in
  let top := Kernel.DirectionalSourceDerivative 2 (Some 3) axis tt in
  In (Kernel.get_base_kernel top) [base; axis; top] /\
  Kernel.is_wrapper (Kernel.get_base_kernel top) = false /\
  Kernel.get_base_kernel (Kernel.get_base_kernel top)
    = Kernel.get_base_kernel top /\
  Kernel.dimensions top = Kernel.dimensions (Kernel.get_base_kernel top) /\
  Kernel.get_scaling top = Kernel.get_scaling (Kernel.get_base_kernel top) /\
  KernelFunctions.is_complex_valued unit top
    = KernelFunctions.is_complex_valued unit (Kernel.get_base_kernel top).
Proof.
  intros base axis top.
  apply (wrapper_reports_its_base_kernel unit [base; axis; top] top).
  - apply (constructed_directional_source unit [base; axis] axis tt).
    + apply (constructed_axis_target unit [base] 0 base).
      * apply (constructed_helmholtz unit [] (Some 3) "k"%string false).
        apply constructed_nil.
      * simpl. auto.
    + simpl. auto.
  - simpl. auto.
Defined.

Section KernelFunctionFacts.

Variable PExpr : Type.

Lemma new_DifferenceKernel_unwrapped (p m : Kernel.kernel PExpr)
    (h : Kernel.heap PExpr) :
  Kernel.is_wrapper p = false -> Kernel.is_wrapper m = false ->
  Kernel.dimensions p = Kernel.dimensions m ->
  Kernel.new_DifferenceKernel p m h
  = (Ok (Kernel.DifferenceKernel (length h) (Kernel.dimensions p) p m),
     h ++ [Kernel.DifferenceKernel (length h) (Kernel.dimensions p) p m]).
Proof.
  intros Hp Hm Hd. unfold Kernel.new_DifferenceKernel, Kernel.py_is.
  rewrite (get_base_kernel_unwrapped PExpr p Hp).
  rewrite (get_base_kernel_unwrapped PExpr m Hm).
  rewrite !Nat.eqb_refl. simpl.
  destruct (Kernel.dimensions_eq_dec (Kernel.dimensions p)
              (Kernel.dimensions m)); [reflexivity | contradiction].
Qed.

Lemma new_object_is_new (h new : Kernel.heap PExpr) (k : Kernel.kernel PExpr) :
  Kernel.heap_wf (h ++ new) -> In k new -> ~ In k h.
Proof.
  intros Hwf Hnew Hold.
  apply In_nth_error in Hnew as [j Hj].
  apply In_nth_error in Hold as [i Hi].
  assert (Hlt : (i < length h)%nat) by (apply nth_error_Some; congruence).
  assert (H1 : nth_error (h ++ new) i = Some k)
    by (rewrite nth_error_app1; auto).
  assert (H2 : nth_error (h ++ new) (length h + j) = Some k).
  { rewrite nth_error_app2 by lia.
    replace (length h + j - length h)%nat with j by lia. exact Hj. }
  destruct (Hwf _ _ H1) as [E1 _]. destruct (Hwf _ _ H2) as [E2 _]. lia.
Qed.

Lemma fix_dimensions_unwrapped (dims : option Z) :
  forall k : Kernel.kernel PExpr,
    well_built PExpr k -> Kernel.is_wrapper k = false ->
    forall h : Kernel.heap PExpr, constructed PExpr h ->
    exists k' new,
      KernelFunctions.fix_dimensions PExpr k dims h = (Ok k', h ++ new) /\
      constructed PExpr (h ++ new) /\
      In k' new /\
      Kernel.dimensions k' = dims /\
      Kernel.is_wrapper k' = false /\
      same_up_to_dimensions PExpr k k' = true.
Proof.
  induction k as [s d|s d n ev|s d p IHp m IHm|s d ax i IHi|s d i IHi e
                 |s d i IHi e]; intros Hb Hw h Hc; simpl in Hw;
    try discriminate.
  - exists (Kernel.LaplaceKernel PExpr (length h) dims),
           [Kernel.LaplaceKernel PExpr (length h) dims].
    split; [reflexivity|]. split.
    + apply (constructed_laplace PExpr h dims Hc).
    + simpl. auto.
  - exists (Kernel.HelmholtzKernel PExpr (length h) dims n ev),
           [Kernel.HelmholtzKernel PExpr (length h) dims n ev].
    split; [reflexivity|]. split.
    + apply (constructed_helmholtz PExpr h dims n ev Hc).
    + simpl. rewrite String.eqb_refl, Bool.eqb_reflx. auto.
  - simpl in Hb. destruct Hb as (Hwp & Hwm & Hd & _ & Hbp & Hbm).
    destruct (IHp Hbp Hwp h Hc)
      as (p' & new1 & Ep & Hc1 & Hin1 & Hd1 & Hw1 & Hs1).
    destruct (IHm Hbm Hwm (h ++ new1) Hc1)
      as (m' & new2 & Em & Hc2 & Hin2 & Hd2 & Hw2 & Hs2).
    simpl. rewrite Ep, Em.
    assert (Hdd : Kernel.dimensions p' = Kernel.dimensions m') by congruence.
    rewrite (new_DifferenceKernel_unwrapped p' m' _ Hw1 Hw2 Hdd).
    exists (Kernel.DifferenceKernel (length ((h ++ new1) ++ new2))
              (Kernel.dimensions p') p' m'),
           (new1 ++ new2 ++
            [Kernel.DifferenceKernel (length ((h ++ new1) ++ new2))
               (Kernel.dimensions p') p' m']).
    split; [rewrite <- !app_assoc; reflexivity|].
    split.
    + pose proof (constructed_difference PExpr ((h ++ new1) ++ new2) p' m' Hc2)
        as H.
      rewrite (new_DifferenceKernel_unwrapped p' m' _ Hw1 Hw2 Hdd) in H.
      simpl in H. rewrite <- !app_assoc in *. apply H.
      * apply in_or_app. right. apply in_or_app. left. exact Hin1.
      * apply in_or_app. right. apply in_or_app. right. exact Hin2.
    + split.
      * apply in_or_app. right. apply in_or_app. right. simpl. auto.
      * simpl. rewrite Hs1, Hs2. auto.
Qed.

Lemma remove_axis_target_derivatives_cases :
  forall (k : Kernel.kernel PExpr) (h : Kernel.heap PExpr),
    match directional_wrappers PExpr k with
    | 0%nat =>
        KernelFunctions.remove_axis_target_derivatives PExpr k h
        = (KernelFunctions.Returns _ (Some (Kernel.get_base_kernel k)), h)
    | 1%nat =>
        exists dropped,
          KernelFunctions.remove_axis_target_derivatives PExpr k h
          = (KernelFunctions.Returns _ None, h ++ [dropped]) /\
          wrapped PExpr dropped = Some (Kernel.get_base_kernel k) /\
          Kernel.id dropped = length h
    | _ =>
        exists dropped,
          KernelFunctions.remove_axis_target_derivatives PExpr k h
          = (KernelFunctions.RaisesAttributeError _, h ++ [dropped]) /\
          Kernel.id dropped = length h
    end.
Proof.
  induction k as [s d|s d n ev|s d p IHp m IHm|s d ax i IHi|s d i IHi e
                 |s d i IHi e]; intros h; simpl; auto.
  - apply IHi.
  - specialize (IHi h).
    destruct (directional_wrappers PExpr i) as [|[|c]].
    + rewrite IHi. simpl. eexists. split; [reflexivity|]. simpl. auto.
    + destruct IHi as (dropped & -> & _ & Hid). simpl. eauto.
    + destruct IHi as (dropped & -> & Hid). eauto.
  - specialize (IHi h).
    destruct (directional_wrappers PExpr i) as [|[|c]].
    + rewrite IHi. simpl. eexists. split; [reflexivity|]. simpl. auto.
    + destruct IHi as (dropped & -> & _ & Hid). simpl. eauto.
    + destruct IHi as (dropped & -> & Hid). eauto.
Qed.

End KernelFunctionFacts.

(** X15.  For an object of a heap that the constructors built:
    [fix_dimensions] of a derivative wrapper raises NotImplementedError and
    creates nothing; [fix_dimensions] of a Laplace, Helmholtz or difference
    kernel returns a newly created kernel of the same class and arguments
    that is not a wrapper and has the requested dimension, leaving every
    earlier object as it was. *)
Theorem fix_dimensions_copies_unwrapped_kernels :
  forall (PExpr : Type) (h : Kernel.heap PExpr) (k : Kernel.kernel PExpr)
         (dims : option Z),
    constructed PExpr h -> In k h ->
    (Kernel.is_wrapper k = true ->
     KernelFunctions.fix_dimensions PExpr k dims h
       = (Raise NotImplementedError, h)) /\
    (Kernel.is_wrapper k = false ->
     exists k' new,
       KernelFunctions.fix_dimensions PExpr k dims h = (Ok k', h ++ new) /\
       constructed PExpr (h ++ new) /\
       In k' new /\ ~ In k' h /\
       Kernel.dimensions k' = dims /\
       Kernel.is_wrapper k' = false /\
       same_up_to_dimensions PExpr k k' = true).
Proof.
  intros PExpr h k dims Hc Hk. split.
  - intros Hw. destruct k; simpl in *; congruence.
  - intros Hw.
    destruct (constructed_wf_built PExpr h Hc) as [_ Hb].
    rewrite Forall_forall in Hb.
    destruct (fix_dimensions_unwrapped PExpr dims k (Hb k Hk) Hw h Hc)
      as (k' & new & E & Hc' & Hin & Hd & Hw' & Hs).
    exists k', new. repeat split; auto.
    apply (new_object_is_new PExpr h new k'); auto.
    apply (constructed_wf_built PExpr (h ++ new) Hc').
Qed.

(** The difference of a Laplace and a Helmholtz kernel without dimension,
    fixed to dimension 3. *)
Lemma fix_dimensions_copies_unwrapped_kernels_witness :
  let l := Kernel.LaplaceKernel unit 0 None in
  let hk := Kernel.HelmholtzKernel unit 1 None "k" false in
  let d := Kernel.DifferenceKernel 2 None l hk in
  exists k' new,
    KernelFunctions.fix_dimensions unit d (Some 3) [l; hk; d]
      = (Ok k', [l; hk; d] ++ new) /\
    constructed unit ([l; hk; d] ++ new) /\
    In k' new /\ ~ In k' [l; hk; d] /\
    Kernel.dimensions k' = Some 3 /\
    Kernel.is_wrapper k' = false /\
    same_up_to_dimensions unit d k' = true.
Proof.
  intros l hk d.
  apply (fix_dimensions_copies_unwrapped_kernels unit [l; hk; d] d (Some 3)).
  - apply (constructed_difference unit [l; hk] l hk).
    + apply (constructed_helmholtz unit [l] None "k"%string false).
      apply (constructed_laplace unit [] None). apply constructed_nil.
    + simpl. auto.
    + simpl. auto.
  - simpl. auto.
  - reflexivity.
Defined.

(** X16.  [remove_axis_target_derivatives] returns the base kernel, and
    creates nothing, when every wrapper of its argument is an
    AxisTargetDerivative.  With exactly one directional derivative among
    the wrappers it returns None, after creating a directional derivative of
    the base kernel that it drops; with two or more it raises
    AttributeError. *)
Theorem remove_axis_target_derivatives_returns_base_or_nothing :
  forall (PExpr : Type) (k : Kernel.kernel PExpr) (h : Kernel.heap PExpr),
    (directional_wrappers PExpr k = 0%nat ->
     KernelFunctions.remove_axis_target_derivatives PExpr k h
       = (KernelFunctions.Returns _ (Some (Kernel.get_base_kernel k)), h)) /\
    (directional_wrappers PExpr k = 1%nat ->
     exists dropped,
       KernelFunctions.remove_axis_target_derivatives PExpr k h
         = (KernelFunctions.Returns _ None, h ++ [dropped]) /\
       wrapped PExpr dropped = Some (Kernel.get_base_kernel k) /\
       Kernel.id dropped = length h) /\
    ((2 <= directional_wrappers PExpr k)%nat ->
     exists dropped,
       KernelFunctions.remove_axis_target_derivatives PExpr k h
         = (KernelFunctions.RaisesAttributeError _, h ++ [dropped]) /\
       Kernel.id dropped = length h).
Proof.
  intros PExpr k h.
  pose proof (remove_axis_target_derivatives_cases PExpr k h) as H.
  destruct (directional_wrappers PExpr k) as [|[|c]].
  - split; [auto|]. split; intros; [discriminate | lia].
  - split; [discriminate|]. split; [auto | intros; lia].
  - split; [discriminate|]. split; [discriminate | auto].
Qed.

(** Two axis derivatives of a Laplace kernel in dimension 2. *)
Lemma remove_axis_target_derivatives_returns_base_or_nothing_witness :
  let base := Kernel.LaplaceKernel unit 0 (Some 2) in
  let a1 := Kernel.AxisTargetDerivative 1 (Some 2) 0 base in
  let a2 := Kernel.AxisTargetDerivative 2 (Some 2) 1 a1 in
  KernelFunctions.remove_axis_target_derivatives unit a2 [base; a1; a2]
    = (KernelFunctions.Returns _ (Some base), [base; a1; a2]).
Proof.
  intros base a1 a2.
  apply (remove_axis_target_derivatives_returns_base_or_nothing
           unit a2 [base; a1; a2]).
  reflexivity.
Defined.

(** ** Which identifiers the Laplace basis stores *)

(** The order of the full list: by total, and by last entry among equal
    totals. *)
Definition by_total_then_last (key : mi -> Z) (a b : mi) : Prop :=
  key a < key b \/ (key a = key b /\ last a 0 <= last b 0).

Lemma StronglySorted_app_intro {A} (R : A -> A -> Prop) : forall l1 l2,
  StronglySorted R l1 -> StronglySorted R l2 ->
  (forall x y, In x l1 -> In y l2 -> R x y) ->
  StronglySorted R (l1 ++ l2).
Proof.
  induction l1 as [|a l1 IH]; intros l2 H1 H2 H; simpl; auto.
  inversion H1 as [|a' l' Hs Hf]; subst. constructor.
  - apply IH; auto. intros x y Hx Hy. apply H; simpl; auto.
  - apply Forall_app. split; auto.
    apply Forall_forall. intros y Hy. apply H; simpl; auto.
Qed.

Lemma StronglySorted_split {A} (R : A -> A -> Prop) : forall pre m post,
  StronglySorted R (pre ++ m :: post) ->
  (forall x, In x pre -> R x m) /\ (forall x, In x post -> R m x).
Proof.
  induction pre as [|a pre IH]; intros m post H; simpl in H;
    inversion H as [|a' l' Hs Hf]; subst.
  - split; [intros x []|]. rewrite Forall_forall in Hf. exact Hf.
  - destruct (IH m post Hs) as [H1 H2]. split; auto.
    intros x [<-|Hx]; auto.
    rewrite Forall_forall in Hf. apply Hf. apply in_or_app. simpl; auto.
Qed.

Lemma all_related_sorted {A} (R : A -> A -> Prop) : forall l,
  (forall x y, In x l -> In y l -> R x y) -> StronglySorted R l.
Proof.
  induction l as [|a l IH]; intros H; constructor.
  - apply IH. intros x y Hx Hy. apply H; simpl; auto.
  - apply Forall_forall. intros y Hy. apply H; simpl; auto.
Qed.

Lemma blocks_sorted_by_last (f : Z -> list mi) : forall l : list Z,
  StronglySorted Z.lt l ->
  (forall i x, In x (f i) -> last x 0 = i) ->
  StronglySorted (fun a b => last a 0 <= last b 0) (flat_map f l).
Proof.
  induction l as [|i l IH]; intros Hl Hf; simpl; [constructor|].
  inversion Hl as [|i' l' Hs Hlt]; subst.
  apply StronglySorted_app_intro.
  - apply all_related_sorted. intros x y Hx Hy.
    rewrite (Hf i x Hx), (Hf i y Hy). lia.
  - apply IH; auto.
  - intros x y Hx Hy. apply in_flat_map in Hy as (j & Hj & Hy).
    rewrite (Hf i x Hx), (Hf j y Hy).
    rewrite Forall_forall in Hlt. specialize (Hlt j Hj). lia.
Qed.

Lemma range_sorted (n : Z) : StronglySorted Z.lt (Expansion.range n).
Proof.
  unfold Expansion.range. generalize (Z.to_nat n) as k. generalize 0%nat as a.
  intros a k. revert a. induction k as [|k IH]; intros a; simpl; constructor.
  - apply IH.
  - apply Forall_forall. intros x Hx.
    apply in_map_iff in Hx as (j & <- & Hj). apply in_seq in Hj. lia.
Qed.

Lemma gnitstam_sorted_by_last (len : nat) (n : Z) :
  StronglySorted (fun a b => last a 0 <= last b 0) (Expansion.gnitstam n len).
Proof.
  destruct len as [|len]; simpl.
  - constructor; constructor.
  - apply blocks_sorted_by_last; [apply range_sorted|].
    intros i x Hx. apply in_map_iff in Hx as (base & <- & _).
    apply last_last.
Qed.

Lemma insert_by_key_then_last (key : mi -> Z) (x : mi) : forall acc,
  StronglySorted (by_total_then_last key) acc ->
  Forall (fun a => last a 0 <= last x 0) acc ->
  StronglySorted (by_total_then_last key) (Expansion.insert_by_key key x acc).
Proof.
  unfold by_total_then_last.
  induction acc as [|y acc IH]; intros Hs Hl; simpl.
  - constructor; constructor.
  - inversion Hs as [|y' l' Hs' Hf]; subst.
    inversion Hl as [|y' l' Hy Hl']; subst.
    destruct (key x <? key y) eqn:E.
    + apply Z.ltb_lt in E. constructor; auto.
      constructor; [lia|].
      eapply Forall_impl; [|exact Hf]. simpl. intros; lia.
    + apply Z.ltb_ge in E. constructor; auto.
      apply Forall_forall. intros z Hz.
      apply insert_by_key_In in Hz as [->|Hz]; [lia|].
      rewrite Forall_forall in Hf. auto.
Qed.

Lemma sorted_fold_then_last (key : mi -> Z) : forall l acc,
  StronglySorted (by_total_then_last key) acc ->
  StronglySorted (fun a b => last a 0 <= last b 0) l ->
  (forall a b, In a acc -> In b l -> last a 0 <= last b 0) ->
  StronglySorted (by_total_then_last key)
    (fold_left (fun acc x => Expansion.insert_by_key key x acc) l acc).
Proof.
  induction l as [|x l IH]; intros acc Ha Hl Hal; simpl; auto.
  inversion Hl as [|x' l' Hs Hf]; subst.
  apply IH; auto.
  - apply insert_by_key_then_last; auto.
    apply Forall_forall. intros a Hin. apply Hal; simpl; auto.
  - intros a b Hin Hb. apply insert_by_key_In in Hin as [->|Hin].
    + rewrite Forall_forall in Hf. auto.
    + apply Hal; simpl; auto.
Qed.

Lemma full_identifiers_sorted (order : Z) (dim : nat) :
  StronglySorted (by_total_then_last total)
    (Expansion.get_full_coefficient_identifiers order dim).
Proof.
  unfold Expansion.get_full_coefficient_identifiers, Expansion.sorted.
  assert (H : StronglySorted (by_total_then_last Np.sum)
                (fold_left (fun acc x => Expansion.insert_by_key Np.sum x acc)
                   (Expansion.gnitstam order dim) [])).
  { apply sorted_fold_then_last.
    - constructor.
    - apply gnitstam_sorted_by_last.
    - intros a b []. }
  revert H. generalize (fold_left
    (fun acc x => Expansion.insert_by_key Np.sum x acc)
    (Expansion.gnitstam order dim) []).
  induction 1 as [|a l Hs IH Hf]; constructor; auto.
  eapply Forall_impl; [|exact Hf]. unfold by_total_then_last. simpl.
  intros b. rewrite !np_sum_total. auto.
Qed.

Lemma full_identifiers_In (order : Z) (dim : nat) (m : mi) :
  0 <= order ->
  (In m (Expansion.get_full_coefficient_identifiers order dim) <->
   length m = dim /\ Forall (Z.le 0) m /\ total m <= order).
Proof.
  intros Ho. unfold Expansion.get_full_coefficient_identifiers.
  rewrite sorted_In. apply gnitstam_In. exact Ho.
Qed.

Lemma bump_app_l (base : list Z) (x : Z) : forall (j : nat) (v : Z),
  (j < length base)%nat -> bump (base ++ [x]) j v = bump base j v ++ [x].
Proof.
  induction base as [|b base IH]; intros [|j] v H; simpl in *; try lia; auto.
  rewrite IH by lia. reflexivity.
Qed.

Lemma bump_nonneg (a : list Z) : forall (j : nat) (v : Z),
  Forall (Z.le 0) a -> 0 <= nth j a 0 + v -> Forall (Z.le 0) (bump a j v).
Proof.
  induction a as [|x a IH]; intros [|j] v H Hv; simpl in *; auto;
    inversion H; subst; constructor; auto.
Qed.

Lemma nth_snoc_last (base : list Z) (x : Z) :
  nth (length base) (base ++ [x]) 0 = x.
Proof. rewrite app_nth2, Nat.sub_diag by lia. reflexivity. Qed.

Lemma nth_bump_other (a : list Z) : forall (i j : nat) (v : Z),
  i <> j -> nth i (bump a j v) 0 = nth i a 0.
Proof.
  induction a as [|x a IH]; intros [|i] [|j] v H; simpl; auto; try lia.
Qed.

Section LaplaceStored.

Variables (order : Z) (dim : nat).
Hypothesis order_nonneg : 0 <= order.

Let full := Expansion.get_full_coefficient_identifiers order dim.

Variables (pre post : list mi) (base : list Z) (x : Z).
Hypothesis Efull : full = pre ++ (base ++ [x]) :: post.

Let m := base ++ [x].

Lemma here_in_full :
  dim = S (length base) /\ Forall (Z.le 0) base /\ 0 <= x /\
  total base + x <= order /\ (length pre <= length full)%nat.
Proof.
  assert (Hin : In m full) by (rewrite Efull; apply in_or_app; simpl; auto).
  apply (full_identifiers_In order dim m order_nonneg) in Hin
    as (Hlen & Hnn & Htot).
  unfold m in *. rewrite length_app in Hlen. simpl in Hlen.
  apply Forall_nonneg_snoc in Hnn as [Hnnb Hx].
  rewrite total_app in Htot. simpl in Htot.
  repeat split; auto; try lia.
  rewrite Efull, length_app. lia.
Qed.

Lemma earlier_in_full (m' : mi) :
  In m' full -> total m' <= total m -> last m' 0 < x -> In m' pre.
Proof.
  intros Hin Ht Hl.
  pose proof (full_identifiers_sorted order dim) as Hsorted.
  fold full in Hsorted. rewrite Efull in Hsorted.
  apply StronglySorted_split in Hsorted as [_ Hafter].
  rewrite Efull in Hin. apply in_app_or in Hin as [Hp|[Heq|Hp]]; auto.
  - exfalso. rewrite <- Heq in Hl. unfold m in Hl.
    rewrite last_last in Hl. lia.
  - exfalso. apply Hafter in Hp. unfold by_total_then_last in Hp.
    fold m in Hp. unfold m in Hp at 3. rewrite last_last in Hp. lia.
Qed.

Lemma later_not_before (m' : mi) :
  total m' = total m -> x < last m' 0 -> ~ In m' pre.
Proof.
  intros Ht Hl Hin.
  pose proof (full_identifiers_sorted order dim) as Hsorted.
  fold full in Hsorted. rewrite Efull in Hsorted.
  apply StronglySorted_split in Hsorted as [Hbefore _].
  apply Hbefore in Hin. unfold by_total_then_last in Hin.
  rewrite last_last in Hin. fold m in Hin. lia.
Qed.

Lemma last_axis_succeeds :
  2 <= x -> succeeds dim m pre (length base) = true.
Proof.
  intros Hge.
  destruct here_in_full as (Hlb & Hnnb & Hx & Htot & Hpre).
  unfold succeeds. apply andb_true_iff. split.
  - unfold m. rewrite nth_snoc_last. apply Z.leb_le. lia.
  - apply all_present_Forall. apply Forall_forall. intros m' Hm'.
    unfold needed in Hm'. apply in_map_iff in Hm' as (j & <- & Hj).
    apply filter_In in Hj as [Hj Hne]. apply in_seq in Hj.
    apply negb_true_iff, Nat.eqb_neq in Hne.
    assert (Hjb : (j < length base)%nat) by lia.
    unfold m. rewrite (bump_app base x [] (-2)).
    rewrite bump_app_l by exact Hjb.
    apply earlier_in_full.
    + apply (full_identifiers_In order dim _ order_nonneg).
      rewrite length_app, bump_length, total_app, bump_total by exact Hjb.
      simpl. split; [lia|]. split; [|lia].
      apply Forall_nonneg_snoc. split; [|lia].
      apply bump_nonneg; auto.
      pose proof (proj1 (Forall_forall _ _) Hnnb) as Hall.
      destruct (nth_in_or_default j base 0) as [Hn|Hn];
        [apply Hall in Hn; lia | rewrite Hn; lia].
    + unfold m. rewrite !total_app, bump_total by exact Hjb. simpl. lia.
    + rewrite last_last. lia.
Qed.

Lemma reduced_before :
  2 <= x -> In (bump m (length base) (-2)) pre.
Proof.
  intros Hge.
  destruct here_in_full as (Hlb & Hnnb & Hx & Htot & Hpre).
  unfold m. rewrite (bump_app base x [] (-2)).
  apply earlier_in_full.
  - apply (full_identifiers_In order dim _ order_nonneg).
    rewrite length_app, total_app. simpl.
    split; [lia|]. split; [|lia].
    apply Forall_nonneg_snoc. split; [auto | lia].
  - unfold m. rewrite !total_app. simpl. lia.
  - rewrite last_last. lia.
Qed.

Lemma earlier_axis_fails :
  forall k, (k < length base)%nat -> succeeds dim m pre k = false.
Proof.
  intros k Hkb.
  destruct here_in_full as (Hlb & Hnnb & Hx & Htot & Hpre).
  unfold succeeds.
  destruct (2 <=? nth k m 0) eqn:E2; [|reflexivity]. simpl.
  apply Z.leb_le in E2.
  destruct (all_present pre (needed dim m k)) eqn:Ea; [|reflexivity].
  exfalso. apply all_present_Forall in Ea.
  rewrite Forall_forall in Ea.
  assert (Hneed : In (bump (bump m k (-2)) (length base) 2) (needed dim m k)).
  { unfold needed. apply in_map_iff. exists (length base). split; auto.
    apply filter_In. split; [apply in_seq; lia|].
    apply negb_true_iff, Nat.eqb_neq. lia. }
  apply Ea in Hneed. revert Hneed.
  unfold m. rewrite bump_app_l by exact Hkb.
  replace (length base) with (length (bump base k (-2)))
    by apply bump_length.
  rewrite (bump_app (bump base k (-2)) x [] 2).
  apply later_not_before.
  - unfold m. rewrite !total_app, bump_total by exact Hkb. simpl. lia.
  - rewrite last_last. lia.
Qed.

Lemma no_axis_succeeds :
  x < 2 -> forall k, (k < dim)%nat -> succeeds dim m pre k = false.
Proof.
  intros Hlt k Hk.
  destruct here_in_full as (Hlb & _).
  destruct (Nat.eq_dec k (length base)) as [->|Hne].
  - unfold succeeds, m. rewrite nth_snoc_last.
    destruct (Z.leb_spec 2 x); [lia | reflexivity].
  - apply earlier_axis_fails. lia.
Qed.

Lemma last_axis_is_found :
  2 <= x -> find (succeeds dim m pre) (seq 0 dim) = Some (length base).
Proof.
  intros Hge. destruct here_in_full as (Hlb & _).
  apply find_seq_first.
  - lia.
  - apply last_axis_succeeds. exact Hge.
  - intros k Hk. apply earlier_axis_fails. lia.
Qed.

(** With the identifiers before it in the full list, the Laplace oracle has
    no relation for an identifier exactly when its last entry is below 2. *)
Lemma laplace_oracle_on_full :
  Laplace.try_get_recurrence_for_derivative dim m pre (length full) = Ok None
  <-> x < 2.
Proof.
  destruct here_in_full as (Hlb & Hnnb & Hx & Htot & Hpre).
  assert (Hlen : length m = dim).
  { unfold m. rewrite length_app. simpl. lia. }
  pose proof (try_get_recurrence_find dim m pre (length full) Hlen Hpre)
    as Hfind.
  split.
  - intros Hnone. destruct (Z.lt_ge_cases x 2) as [|Hge]; auto. exfalso.
    pose proof (last_axis_succeeds Hge) as Hs.
    destruct (find (succeeds dim m pre) (seq 0 dim)) as [k|] eqn:Ef.
    + destruct Hfind as (expr & Hr & _). congruence.
    + pose proof (find_none _ _ Ef (length base)) as Hf.
      rewrite Hf in Hs; [discriminate|]. apply in_seq. lia.
  - intros Hlt.
    rewrite (find_seq_none (succeeds dim m pre) dim 0) in Hfind; auto.
    intros k Hk. apply no_axis_succeeds; auto. lia.
Qed.

(** The same holds for the Helmholtz oracle. *)
Lemma helmholtz_oracle_on_full (k_name : string) :
  Helmholtz.try_get_recurrence_for_derivative dim k_name m pre (length full)
    = Ok None
  <-> x < 2.
Proof.
  destruct here_in_full as (Hlb & Hnnb & Hx & Htot & Hpre).
  assert (Hlen : length m = dim).
  { unfold m. rewrite length_app. simpl. lia. }
  pose proof (h_try_get_recurrence_find dim k_name m pre (length full)
                Hlen Hpre) as Hfind.
  split.
  - intros Hnone. destruct (Z.lt_ge_cases x 2) as [|Hge]; auto. exfalso.
    assert (Hs : h_succeeds dim m pre (length base) = true).
    { pose proof (last_axis_succeeds Hge) as Hs. unfold succeeds in Hs.
      apply andb_true_iff in Hs as [H2 Ha].
      unfold h_succeeds. rewrite H2, all_present_app, Ha.
      cbn [andb]. apply all_present_Forall. constructor; [|constructor].
      apply reduced_before. exact Hge. }
    destruct (find (h_succeeds dim m pre) (seq 0 dim)) as [k|] eqn:Ef.
    + destruct Hfind as (expr & j & Hr & _). congruence.
    + pose proof (find_none _ _ Ef (length base)) as Hf.
      rewrite Hf in Hs; [discriminate|]. apply in_seq. lia.
  - intros Hlt.
    rewrite (find_seq_none (h_succeeds dim m pre) dim 0) in Hfind; auto.
    intros k Hk. unfold h_succeeds. rewrite all_present_app.
    pose proof (no_axis_succeeds Hlt k) as Hn. unfold succeeds in Hn.
    destruct (2 <=? nth k m 0); [|reflexivity]. simpl in *.
    rewrite Hn by lia. reflexivity.
Qed.

End LaplaceStored.

Section StoredInOrder.

Variable K : Type.
Variables (rzero rone : K) (radd rmul : K -> K -> K).
Variable oracle : mi -> list mi -> nat -> result (option (list K)).

Lemma loop_stored_filter (ncoeffs : nat) (P : mi -> bool) :
  forall rest (st st' : Expansion.loop_state K),
    Expansion.loop rzero rone radd rmul oracle ncoeffs st rest = Ok st' ->
    (forall pre m post, rest = pre ++ m :: post ->
       (oracle m (Expansion.identifiers_so_far st ++ pre) ncoeffs = Ok None
        <-> P m = true)) ->
    Expansion.stored_identifiers st'
    = Expansion.stored_identifiers st ++ filter P rest.
Proof.
  induction rest as [|identifier rest IH]; intros st st' H HP; simpl in H.
  - inversion H; subst. simpl. rewrite app_nil_r. reflexivity.
  - destruct (Expansion.loop_body rzero rone radd rmul oracle ncoeffs st
                identifier) as [st1|e] eqn:Eb; simpl in H; [|discriminate].
    apply loop_body_stored in Eb as [Hsf Hcase].
    assert (Hrest : forall pre m post, rest = pre ++ m :: post ->
              (oracle m (Expansion.identifiers_so_far st1 ++ pre) ncoeffs
                 = Ok None <-> P m = true)).
    { intros pre m post E. rewrite Hsf, <- app_assoc. simpl.
      apply (HP (identifier :: pre) m post). rewrite E. reflexivity. }
    rewrite (IH st1 st' H Hrest).
    pose proof (HP [] identifier rest eq_refl) as Hhead.
    rewrite app_nil_r in Hhead. simpl.
    destruct Hcase as [[Ho Hst]|[[expr Ho] Hst]]; rewrite Hst.
    + rewrite (proj1 Hhead Ho), <- app_assoc. reflexivity.
    + destruct (P identifier) eqn:EP; [|reflexivity].
      rewrite (proj2 Hhead eq_refl) in Ho. discriminate.
Qed.

End StoredInOrder.

(** X18.  For an order from 0 up and a dimension from 2 up, the Laplace
    basis is constructed without an exception, and its stored identifiers
    are the full identifiers whose last entry is 0 or 1, in the order of
    the full list. *)
Theorem laplace_stores_last_entry_below_2 :
  forall (order : Z) (dim : nat),
    0 <= order -> (2 <= dim)%nat ->
    exists M : list (list Z),
      Expansion.laplace_precompute_coeff_matrix order dim
      = Ok (filter (fun m => last m 0 <? 2)
              (Expansion.get_full_coefficient_identifiers order dim), M).
Proof.
  intros order dim Ho Hdim.
  destruct (laplace_precompute_coeff_matrix_total order dim Ho Hdim)
    as (stored & M & E).
  exists M. rewrite E. do 2 f_equal.
  unfold Expansion.laplace_precompute_coeff_matrix,
    Expansion.precompute_coeff_matrix, Expansion.precompute_over in E.
  set (full := Expansion.get_full_coefficient_identifiers order dim) in *.
  destruct (Expansion.loop 0 1 Z.add Z.mul
              (Laplace.try_get_recurrence_for_derivative dim) (length full)
              _ full) as [st|e] eqn:El; simpl in E; [|discriminate].
  destruct (Expansion.vstack (Expansion.coeff_matrix st)) as [mat|e];
    simpl in E; inversion E; subst; clear E.
  rewrite (loop_stored_filter Z 0 1 Z.add Z.mul
             (Laplace.try_get_recurrence_for_derivative dim) (length full)
             (fun m => last m 0 <? 2) full _ st El); [reflexivity|].
  intros pre m post Efull. simpl.
  assert (Hin : In m full) by (rewrite Efull; apply in_or_app; simpl; auto).
  apply (full_identifiers_In order dim m Ho) in Hin as (Hlen & _).
  destruct (exists_last (l:=m)) as (base & x & ->).
  { intros ->. simpl in Hlen. lia. }
  rewrite last_last, Z.ltb_lt.
  apply (laplace_oracle_on_full order dim Ho pre post base x Efull).
Qed.

(** Order 2 in dimension 2: (0,2) is the one identifier left out. *)
Lemma laplace_stores_last_entry_below_2_witness :
  exists M : list (list Z),
    Expansion.laplace_precompute_coeff_matrix 2 2
    = Ok (filter (fun m => last m 0 <? 2)
            (Expansion.get_full_coefficient_identifiers 2 2), M).
Proof.
  apply (laplace_stores_last_entry_below_2 2 2); lia.
Defined.

(** X19.  For an order from 0 up and a dimension from 1 up, the Helmholtz
    oracle, asked about an identifier of the full list with the
    identifiers that stand before it, returns None exactly when the last
    entry of the identifier is 0 or 1: in the construction of the basis it
    leaves the same identifiers to be stored as the Laplace oracle. *)
Theorem helmholtz_oracle_stores_last_entry_below_2 :
  forall (order : Z) (dim : nat) (k_name : string) (pre post : list mi)
         (m : mi),
    0 <= order -> (1 <= dim)%nat ->
    Expansion.get_full_coefficient_identifiers order dim
      = pre ++ m :: post ->
    (Helmholtz.try_get_recurrence_for_derivative dim k_name m pre
       (length (Expansion.get_full_coefficient_identifiers order dim))
       = Ok None <-> last m 0 < 2) /\
    (Laplace.try_get_recurrence_for_derivative dim m pre
       (length (Expansion.get_full_coefficient_identifiers order dim))
       = Ok None <-> last m 0 < 2).
Proof.
  intros order dim k_name pre post m Ho Hdim Efull.
  assert (Hin : In m (Expansion.get_full_coefficient_identifiers order dim))
    by (rewrite Efull; apply in_or_app; simpl; auto).
  apply (full_identifiers_In order dim m Ho) in Hin as (Hlen & _).
  destruct (exists_last (l:=m)) as (base & x & ->).
  { intros ->. simpl in Hlen. lia. }
  rewrite last_last. split.
  - apply (helmholtz_oracle_on_full order dim Ho pre post base x Efull).
  - apply (laplace_oracle_on_full order dim Ho pre post base x Efull).
Qed.

(** (0,2) in the full list of order 2 in dimension 2: the oracle has a
    relation for it. *)
Lemma helmholtz_oracle_stores_last_entry_below_2_witness :
  (Helmholtz.try_get_recurrence_for_derivative 2 "k" [0; 2]
     [[0; 0]; [1; 0]; [0; 1]; [2; 0]; [1; 1]]
     (length (Expansion.get_full_coefficient_identifiers 2 2))
     = Ok None <-> last [0; 2] 0 < 2) /\
  (Laplace.try_get_recurrence_for_derivative 2 [0; 2]
     [[0; 0]; [1; 0]; [0; 1]; [2; 0]; [1; 1]]
     (length (Expansion.get_full_coefficient_identifiers 2 2))
     = Ok None <-> last [0; 2] 0 < 2).
Proof.
  apply (helmholtz_oracle_stores_last_entry_below_2 2 2 "k"%string
           [[0; 0]; [1; 0]; [0; 1]; [2; 0]; [1; 1]] [] [0; 2]).
  - lia.
  - lia.
  - reflexivity.
Defined.

(** ** The rows of the Laplace matrix *)

(** Entry [c] of the row of [M] that belongs to identifier [m'] of the list
    [full]. *)
Definition row_entry (full : list mi) (M : list (list Z)) (m' : mi) (c : nat)
  : Z :=
  match list_index m' full with
  | Some i => nth c (nth i M []) 0
  | None => 0
  end.

Lemma total_map_ext {A} (f g : A -> Z) (l : list A) :
  (forall i, In i l -> f i = g i) -> total (map f l) = total (map g l).
Proof. intros H. rewrite (map_ext_in f g l H). reflexivity. Qed.

Lemma total_map_add {A} (f g : A -> Z) (l : list A) :
  total (map (fun i => f i + g i) l) = total (map f l) + total (map g l).
Proof. induction l as [|a l IH]; simpl; lia. Qed.

Lemma total_map_zero {A} (l : list A) : total (map (fun _ => 0) l) = 0.
Proof. induction l; simpl; lia. Qed.

Lemma total_map_single (g : nat -> Z) (i0 : nat) : forall l : list nat,
  NoDup l -> In i0 l ->
  total (map (fun i => if Nat.eqb i0 i then g i else 0) l) = g i0.
Proof.
  induction l as [|a l IH]; intros Hnd Hin; [destruct Hin|].
  inversion Hnd as [|a' l' Hna Hnd']; subst. simpl.
  destruct (Nat.eqb_spec i0 a) as [->|Hne].
  - rewrite (total_map_ext _ (fun _ => 0)); [rewrite total_map_zero; lia|].
    intros i Hi. destruct (Nat.eqb_spec a i) as [->|]; [contradiction|auto].
  - destruct Hin as [->|Hin]; [congruence|]. rewrite IH; auto.
Qed.

Lemma total_zip_with_seq : forall (col v : list Z),
  length v = length col ->
  total (Np.zip_with Z.mul col v)
  = total (map (fun i => nth i col 0 * nth i v 0) (seq 0 (length col))).
Proof.
  induction col as [|x col IH]; intros [|y v] H; simpl in *;
    try discriminate; auto.
  rewrite IH by lia. rewrite <- (seq_shift (length col) 0), map_map.
  reflexivity.
Qed.

Lemma list_index_app_l (x : mi) (l2 : list mi) : forall (l1 : list mi) (i : nat),
  list_index x l1 = Some i -> list_index x (l1 ++ l2) = Some i.
Proof.
  induction l1 as [|y l1 IH]; intros i H; simpl in *; [discriminate|].
  destruct (mi_eq_dec y x); auto.
  destruct (list_index x l1) as [j|]; [|discriminate].
  rewrite (IH j eq_refl). exact H.
Qed.

Lemma list_index_middle (x : mi) (pre post : list mi) :
  ~ In x pre -> list_index x (pre ++ x :: post) = Some (length pre).
Proof.
  induction pre as [|y pre IH]; intros Hnin; simpl.
  - destruct (mi_eq_dec x x); congruence.
  - destruct (mi_eq_dec y x) as [->|Hne]; [exfalso; apply Hnin; simpl; auto|].
    rewrite IH; auto. intros H. apply Hnin. simpl; auto.
Qed.

(** The sum, over the positions that a relation marks with -1, of the
    entries of a column is the sum over the needed identifiers. *)
Lemma hits_sum (pre : list mi) (g : nat -> Z) : forall ms : list mi,
  NoDup ms -> Forall (fun m' => In m' pre) ms ->
  total (map (fun i => g i * (if hits pre ms i then -1 else 0))
           (seq 0 (length pre)))
  = - total (map (fun m' => match list_index m' pre with
                            | Some i => g i
                            | None => 0
                            end) ms).
Proof.
  induction ms as [|m' ms IH]; intros Hnd Hin.
  - simpl. rewrite (total_map_ext _ (fun _ => 0)); [apply total_map_zero|].
    intros; lia.
  - inversion Hnd as [|a l Hna Hnd']; subst.
    inversion Hin as [|a l Hm' Hin']; subst.
    apply list_index_In in Hm' as [j Hj].
    rewrite (total_map_ext _
      (fun i => (if Nat.eqb j i then (fun i => - g i) i else 0)
                + g i * (if hits pre ms i then -1 else 0))).
    + rewrite total_map_add, IH by auto.
      rewrite (total_map_single (fun i => - g i) j).
      * simpl. rewrite Hj. lia.
      * apply seq_NoDup.
      * apply in_seq. apply list_index_lt in Hj. lia.
    + intros i _. unfold hits at 1. simpl. rewrite Hj.
      fold (hits pre ms i).
      destruct (Nat.eqb_spec j i) as [->|Hne]; simpl; [|lia].
      destruct (hits pre ms i) eqn:Eh; [|lia]. exfalso.
      unfold hits in Eh. apply existsb_exists in Eh as (m'' & Hm'' & E).
      destruct (list_index m'' pre) as [i'|] eqn:Ei; [|discriminate].
      apply Nat.eqb_eq in E. subst i'.
      apply list_index_nth_error in Ei, Hj.
      assert (m'' = m') by congruence. subst. contradiction.
Qed.

Lemma snoc_split {A} (l pre post : list A) (d m : A) :
  l ++ [d] = pre ++ m :: post ->
  (post = [] /\ pre = l /\ m = d) \/
  exists post', post = post' ++ [d] /\ l = pre ++ m :: post'.
Proof.
  intros H. destruct post as [|y post].
  - apply app_inj_tail in H as [-> ->]. auto.
  - right. destruct (exists_last (l:=y :: post)) as (post' & z & E);
      [discriminate|].
    rewrite E in H. change (pre ++ m :: post' ++ [z])
      with (pre ++ (m :: post') ++ [z]) in H.
    rewrite app_assoc in H. apply app_inj_tail in H as [-> ->].
    exists post'. rewrite E. auto.
Qed.

Lemma as_vectors_to_row (n : nat) : forall rows : list (Expansion.ndarray Z),
  Forall (is_row Z n) rows ->
  Expansion.as_vectors n rows = Some (map (@Expansion.to_row Z) rows).
Proof.
  induction rows as [|a rows IH]; intros H; simpl; auto.
  inversion H as [|a' rows' (l & -> & Hl) Hrest]; subst.
  rewrite Nat.eqb_refl, (IH Hrest). reflexivity.
Qed.

Lemma dot_transpose_rows_eq (n : nat) (rows : list (Expansion.ndarray Z))
    (v : list Z) :
  rows <> [] -> Forall (is_row Z n) rows -> length v = length rows ->
  Expansion.dot_transpose 0 Z.add Z.mul rows v
  = Ok (Expansion.Vec
          (Expansion.dot_columns 0 Z.add Z.mul n
             (map (@Expansion.to_row Z) rows) v)).
Proof.
  intros Hne Hrows Hv. unfold Expansion.dot_transpose.
  destruct rows as [|a rows]; [congruence|].
  pose proof Hrows as Hrows'.
  inversion Hrows as [|a' rows' (l0 & -> & Hl0) Hrest]; subst.
  simpl Expansion.as_scalars. cbv iota.
  rewrite (as_vectors_to_row (length l0) _ Hrows'), Hv, length_map,
    Nat.eqb_refl.
  reflexivity.
Qed.

(** In the loop for the Laplace basis, the row of an identifier with a
    relation is the product of the transposed rows before it with the
    relation. *)
Definition rows_follow (dim n : nat) (processed : list mi)
    (st : Expansion.loop_state Z) : Prop :=
  forall pre m post expr,
    processed = pre ++ m :: post ->
    Laplace.try_get_recurrence_for_derivative dim m pre n = Ok (Some expr) ->
    nth_error (Expansion.coeff_matrix st) (length pre)
    = Some (Expansion.Vec
              (Expansion.dot_columns 0 Z.add Z.mul n
                 (map (@Expansion.to_row Z)
                    (firstn (length pre) (Expansion.coeff_matrix st)))
                 (firstn (length pre) expr))).

Lemma rows_follow_snoc (dim n : nat) (processed : list mi)
    (st st1 : Expansion.loop_state Z) (d : mi) (a : Expansion.ndarray Z) :
  length (Expansion.coeff_matrix st) = length processed ->
  Expansion.coeff_matrix st1 = Expansion.coeff_matrix st ++ [a] ->
  rows_follow dim n processed st ->
  (forall expr,
      Laplace.try_get_recurrence_for_derivative dim d processed n
        = Ok (Some expr) ->
      a = Expansion.Vec
            (Expansion.dot_columns 0 Z.add Z.mul n
               (map (@Expansion.to_row Z) (Expansion.coeff_matrix st))
               (firstn (length processed) expr))) ->
  rows_follow dim n (processed ++ [d]) st1.
Proof.
  intros Hlen Hcm Hold Hnew pre m post expr Esplit Ho. rewrite Hcm.
  apply snoc_split in Esplit as [(-> & -> & ->)|(post' & -> & ->)].
  - rewrite nth_error_app2 by lia. rewrite <- Hlen, Nat.sub_diag. simpl.
    rewrite firstn_app, Nat.sub_diag, firstn_all, app_nil_r. simpl.
    rewrite (Hnew expr Ho), Hlen. reflexivity.
  - rewrite length_app in Hlen. simpl in Hlen.
    rewrite nth_error_app1 by lia.
    rewrite firstn_app.
    replace (length pre - length (Expansion.coeff_matrix st))%nat
      with 0%nat by lia.
    simpl. rewrite app_nil_r. apply (Hold pre m post' expr eq_refl Ho).
Qed.

Lemma laplace_loop_rows (dim n : nat) :
  (2 <= dim)%nat ->
  forall (rest processed : list mi) (st st' : Expansion.loop_state Z),
    (forall d, In d rest -> length d = dim) ->
    (length processed + length rest <= n)%nat ->
    loop_ok n processed st -> rows_follow dim n processed st ->
    Expansion.loop 0 1 Z.add Z.mul
      (Laplace.try_get_recurrence_for_derivative dim) n st rest = Ok st' ->
    loop_ok n (processed ++ rest) st' /\
    rows_follow dim n (processed ++ rest) st'.
Proof.
  intros Hdim. induction rest as [|d rest IH];
    intros processed st st' Hlen Hn Hok Hrf Hloop.
  - simpl in Hloop. inversion Hloop; subst. rewrite app_nil_r. auto.
  - destruct Hok as (Hsf & Hrows & Hst & Hvec).
    simpl in Hn. cbn [Expansion.loop] in Hloop.
    unfold Expansion.loop_body in Hloop.
    assert (Hd : length d = dim) by (apply Hlen; simpl; auto).
    assert (Hrest : forall d', In d' rest -> length d' = dim)
      by (intros; apply Hlen; simpl; auto).
    assert (Hits : (length (Expansion.identifiers_so_far st) <= n)%nat)
      by (rewrite Hsf; lia).
    replace (processed ++ d :: rest) with ((processed ++ [d]) ++ rest)
      by (rewrite <- app_assoc; reflexivity).
    destruct (laplace_oracle_total dim d (Expansion.identifiers_so_far st) n
                Hdim Hd Hits) as [Ho|(expr & Ho & Hel & Hne)].
    + rewrite Ho in Hloop. cbn [Py.bind] in Hloop.
      destruct (set_at_ok (repeat 0 n)
                  (length (Expansion.stored_identifiers st)) 1)
        as [row Hrow]; [rewrite repeat_length; lia|].
      rewrite Hrow in Hloop. cbn [Py.bind] in Hloop.
      pose proof (set_at_length _ _ _ _ Hrow) as Hrl.
      rewrite repeat_length in Hrl.
      apply (IH (processed ++ [d]) _ st' Hrest) in Hloop; auto.
      * rewrite length_app. simpl. lia.
      * unfold loop_ok. simpl. rewrite !length_app, Hsf. simpl.
        repeat split; try lia.
        apply Forall_app. split; auto. constructor; [|constructor].
        exists row. auto.
      * apply (rows_follow_snoc dim n processed st _ d (Expansion.Vec row));
          auto.
        intros expr He. rewrite Hsf in Ho. congruence.
    + rewrite Ho in Hloop. cbn [Py.bind] in Hloop.
      assert (Hcne : Expansion.coeff_matrix st <> []).
      { intros E. rewrite E in Hrows. simpl in Hrows.
        rewrite Hsf in Hne. destruct processed; [congruence | discriminate]. }
      rewrite (dot_transpose_rows_eq n (Expansion.coeff_matrix st)
                 (firstn (length (Expansion.coeff_matrix st)) expr))
        in Hloop; auto; [|rewrite length_firstn; lia].
      cbn [Py.bind] in Hloop.
      apply (IH (processed ++ [d]) _ st' Hrest) in Hloop; auto.
      * rewrite length_app. simpl. lia.
      * unfold loop_ok. simpl. rewrite !length_app, Hsf. simpl.
        repeat split; try lia.
        apply Forall_app. split; auto. constructor; [|constructor].
        eexists. split; [reflexivity|].
        unfold Expansion.dot_columns. rewrite length_map, length_seq.
        reflexivity.
      * eapply (rows_follow_snoc dim n processed st _ d); auto.
        -- reflexivity.
        -- intros expr' He. rewrite Hsf in Ho.
           assert (expr' = expr) by congruence. subst expr'.
           rewrite Hrows. reflexivity.
Qed.

Lemma full_identifiers_NoDup (order : Z) (dim : nat) :
  NoDup (Expansion.get_full_coefficient_identifiers order dim).
Proof.
  unfold Expansion.get_full_coefficient_identifiers.
  eapply Permutation_NoDup;
    [apply Permutation_sym; apply sorted_Permutation|].
  apply gnitstam_NoDup.
Qed.

Lemma nth_bump_same (a : list Z) : forall (j : nat) (v : Z),
  (j < length a)%nat -> nth j (bump a j v) 0 = nth j a 0 + v.
Proof.
  induction a as [|x a IH]; intros [|j] v H; simpl in *; try lia; auto.
  apply IH. lia.
Qed.

Lemma needed_NoDup (dim : nat) (d : mi) (k : nat) :
  length d = dim -> NoDup (needed dim d k).
Proof.
  intros Hd. unfold needed.
  apply Finite.Injective_map_NoDup_in.
  - intros j j' Hj Hj' E.
    apply filter_In in Hj as [Hj _]. apply filter_In in Hj' as [Hj' _].
    apply in_seq in Hj, Hj'.
    destruct (Nat.eq_dec j j') as [|Hne]; auto. exfalso.
    apply (f_equal (fun l => nth j l 0)) in E.
    rewrite nth_bump_same in E by (rewrite bump_length; lia).
    rewrite (nth_bump_other (bump d k (-2)) j j' 2 Hne) in E. lia.
  - apply NoDup_filter. apply seq_NoDup.
Qed.

Lemma laplace_row_entry_recurrence :
  forall (order : Z) (dim : nat) (stored : list mi) (M : list (list Z))
         (m : mi) (c : nat),
    0 <= order -> (2 <= dim)%nat ->
    Expansion.laplace_precompute_coeff_matrix order dim = Ok (stored, M) ->
    In m (Expansion.get_full_coefficient_identifiers order dim) ->
    2 <= last m 0 ->
    (c < length stored)%nat ->
    Forall (fun m' =>
              In m' (Expansion.get_full_coefficient_identifiers order dim))
      (needed dim m (dim - 1)) /\
    row_entry (Expansion.get_full_coefficient_identifiers order dim) M m c
    = - total
          (map (fun m' =>
                  row_entry
                    (Expansion.get_full_coefficient_identifiers order dim)
                    M m' c)
             (needed dim m (dim - 1))).
Proof.
  intros order dim stored M m c Ho Hdim E Hin Hlast Hc.
  set (full := Expansion.get_full_coefficient_identifiers order dim) in *.
  pose proof (full_identifiers_NoDup order dim) as Hnd. fold full in Hnd.
  assert (Hfull : forall d, In d full -> length d = dim).
  { intros d Hd. apply (full_identifiers_In order dim d Ho) in Hd. tauto. }
  pose proof (Hfull m Hin) as Hlen.
  destruct (in_split m full Hin) as (pre & post & Efull).
  assert (Hnpre : ~ In m pre).
  { rewrite Efull in Hnd. apply NoDup_remove_2 in Hnd.
    intros H. apply Hnd. apply in_or_app. auto. }
  destruct (exists_last (l:=m)) as (base & x & Em).
  { intros ->. simpl in Hlen. lia. }
  subst m. rewrite last_last in Hlast.
  assert (Hlb : (dim - 1)%nat = length base).
  { rewrite length_app in Hlen. simpl in Hlen. lia. }
  rewrite Hlb.
  pose proof (last_axis_succeeds order dim Ho pre post base x Efull Hlast)
    as Hsucc.
  pose proof (last_axis_is_found order dim Ho pre post base x Efull Hlast)
    as Hfound.
  unfold succeeds in Hsucc. apply andb_true_iff in Hsucc as [_ Hpres].
  apply all_present_Forall in Hpres.
  split.
  { eapply Forall_impl; [|exact Hpres]. simpl. intros m' Hm'.
    fold full. rewrite Efull. apply in_or_app. auto. }
  assert (Hpre : (length pre <= length full)%nat).
  { rewrite Efull, length_app. lia. }
  pose proof (try_get_recurrence_find dim (base ++ [x]) pre (length full)
                Hlen Hpre) as Hfind.
  rewrite Hfound in Hfind. destruct Hfind as (expr & Hexpr & Hel & Hnth).
  (* the loop *)
  unfold Expansion.laplace_precompute_coeff_matrix,
    Expansion.precompute_coeff_matrix, Expansion.precompute_over in E.
  fold full in E.
  destruct (Expansion.loop 0 1 Z.add Z.mul
              (Laplace.try_get_recurrence_for_derivative dim) (length full)
              _ full) as [st|e] eqn:El; simpl in E; [|discriminate].
  destruct (Expansion.vstack (Expansion.coeff_matrix st)) as [mat|e] eqn:Ev;
    simpl in E; inversion E; subst stored M; clear E.
  apply vstack_ok in Ev as [-> _].
  destruct (laplace_loop_rows dim (length full) Hdim full []
              {| Expansion.stored_identifiers := [];
                 Expansion.identifiers_so_far := [];
                 Expansion.coeff_matrix := @nil (Expansion.ndarray Z) |}
              st Hfull)
    as [(Hsf & Hcml & Hstl & Hvec) Hrf]; auto.
  { unfold loop_ok. simpl. repeat split; auto. }
  { intros pre' m' post' expr' Es. destruct pre'; discriminate. }
  simpl in Hsf, Hcml, Hstl, Hrf. unfold rows_follow in Hrf.
  remember (Expansion.coeff_matrix st) as cm eqn:Ecm in *.
  set (ncols := length (Expansion.stored_identifiers st)) in *.
  pose proof (Hrf pre (base ++ [x]) post expr Efull Hexpr) as Hrow.
  set (p := length pre) in *.
  assert (Hp : (p < length full)%nat).
  { unfold p. rewrite Efull, length_app. simpl. lia. }
  set (R := map (@Expansion.to_row Z) (firstn p cm)) in *.
  set (col := map (fun row => nth c row 0) R).
  assert (Hcol : length col = p).
  { unfold col, R. rewrite !length_map, length_firstn. lia. }
  (* the entries of the rows before [p] *)
  assert (Hentry : forall m' i,
            list_index m' pre = Some i ->
            row_entry full (map (firstn ncols) (map (@Expansion.to_row Z) cm))
              m' c = nth i col 0).
  { intros m' i Hi. unfold row_entry.
    rewrite Efull, (list_index_app_l m' _ pre i Hi).
    assert (Hip : (i < p)%nat) by (apply list_index_lt in Hi; exact Hi).
    destruct (nth_error cm i) as [a|] eqn:Ea;
      [|apply nth_error_None in Ea; lia].
    rewrite (nth_error_nth _ i []
               (x:=firstn ncols (Expansion.to_row a))).
    2:{ rewrite !nth_error_map, Ea. reflexivity. }
    rewrite (nth_error_nth col i 0 (x:=nth c (Expansion.to_row a) 0)).
    2:{ unfold col, R. rewrite !nth_error_map, nth_error_firstn.
        destruct (Nat.ltb_spec i p); [|lia]. rewrite Ea. reflexivity. }
    rewrite nth_firstn. destruct (Nat.ltb_spec c ncols); [reflexivity | lia]. }
  (* the row at [p] *)
  unfold row_entry at 1. rewrite Efull at 1.
  rewrite (list_index_middle (base ++ [x]) pre post Hnpre). fold p.
  rewrite (nth_error_nth _ p []
             (x:=firstn ncols
                   (Expansion.dot_columns 0 Z.add Z.mul (length full) R
                      (firstn p expr)))).
  2:{ rewrite !nth_error_map, Hrow. reflexivity. }
  rewrite nth_firstn. destruct (Nat.ltb_spec c ncols) as [_|]; [|lia].
  assert (Hcn : (c < length full)%nat) by lia.
  rewrite (nth_error_nth _ c 0
             (x:=Expansion.dot1 0 Z.add Z.mul col (firstn p expr))).
  2:{ unfold Expansion.dot_columns. rewrite nth_error_map.
      rewrite (nth_error_nth' (seq 0 (length full)) 0%nat)
        by (rewrite length_seq; exact Hcn).
      rewrite seq_nth by exact Hcn. reflexivity. }
  unfold Expansion.dot1. rewrite fold_left_add_total.
  rewrite total_zip_with_seq by (rewrite length_firstn; lia).
  rewrite Hcol.
  rewrite (total_map_ext _
    (fun i => nth i col 0
              * (if hits pre (needed dim (base ++ [x]) (length base)) i
                 then -1 else 0))).
  2:{ intros i Hi. apply in_seq in Hi. rewrite nth_firstn.
      destruct (Nat.ltb_spec i p); [|lia]. rewrite Hnth. reflexivity. }
  unfold p. rewrite (hits_sum pre (fun i => nth i col 0)); auto.
  2:{ apply needed_NoDup. exact Hlen. }
  simpl. f_equal. f_equal. apply map_ext_in. intros m' Hm'.
  rewrite Forall_forall in Hpres.
  destruct (proj1 (list_index_In m' pre) (Hpres m' Hm')) as [i Hi].
  rewrite Hi. symmetry. apply Hentry. exact Hi.
Qed.

(** X20.  In the matrix of the Laplace basis (order from 0 up, dimension
    from 2 up), the row of an identifier whose last entry is at least 2 is
    minus the sum of the rows of the identifiers that have 2 less in the
    last entry and 2 more in one other entry; all of these are in the full
    list. *)
Theorem laplace_rows_obey_the_recurrence :
  forall (order : Z) (dim : nat) (stored : list mi) (M : list (list Z))
         (m : mi) (c : nat),
    0 <= order -> (2 <= dim)%nat ->
    Expansion.laplace_precompute_coeff_matrix order dim = Ok (stored, M) ->
    In m (Expansion.get_full_coefficient_identifiers order dim) ->
    2 <= last m 0 ->
    (c < length stored)%nat ->
    Forall (fun m' =>
              In m' (Expansion.get_full_coefficient_identifiers order dim))
      (needed dim m (dim - 1)) /\
    row_entry (Expansion.get_full_coefficient_identifiers order dim) M m c
    = - total
          (map (fun m' =>
                  row_entry
                    (Expansion.get_full_coefficient_identifiers order dim)
                    M m' c)
             (needed dim m (dim - 1))).
Proof.
  intros order dim stored M m c Ho Hdim E Hin Hlast Hc.
  apply (laplace_row_entry_recurrence order dim stored M m c); assumption.
Qed.

(** Order 2 in dimension 2: the row of (0,2) is minus the row of (2,0). *)
Lemma laplace_rows_obey_the_recurrence_witness :
  Forall (fun m' => In m' (Expansion.get_full_coefficient_identifiers 2 2))
    (needed 2 [0; 2] (2 - 1)) /\
  row_entry (Expansion.get_full_coefficient_identifiers 2 2)
    [[1; 0; 0; 0; 0]; [0; 1; 0; 0; 0]; [0; 0; 1; 0; 0];
     [0; 0; 0; 1; 0]; [0; 0; 0; 0; 1]; [0; 0; 0; -1; 0]] [0; 2] 3
  = - total
        (map (fun m' =>
                row_entry (Expansion.get_full_coefficient_identifiers 2 2)
                  [[1; 0; 0; 0; 0]; [0; 1; 0; 0; 0]; [0; 0; 1; 0; 0];
                   [0; 0; 0; 1; 0]; [0; 0; 0; 0; 1]; [0; 0; 0; -1; 0]] m' 3)
           (needed 2 [0; 2] (2 - 1))).
Proof.
  apply (laplace_rows_obey_the_recurrence 2 2
           [[0; 0]; [1; 0]; [0; 1]; [2; 0]; [1; 1]]
           [[1; 0; 0; 0; 0]; [0; 1; 0; 0; 0]; [0; 0; 1; 0; 0];
            [0; 0; 0; 1; 0]; [0; 0; 0; 0; 1]; [0; 0; 0; -1; 0]] [0; 2] 3%nat).
  - lia.
  - lia.
  - reflexivity.
  - simpl. auto 10.
  - simpl. lia.
  - simpl. lia.
Defined.

(** ** The expanded coefficients of the Laplace basis *)

(** The coefficient that belongs to identifier [m'] of the list [full]. *)
Definition coeff_of (full : list mi) (coeffs : list Z) (m' : mi) : Z :=
  match list_index m' full with
  | Some i => nth i coeffs 0
  | None => 0
  end.

Lemma total_map_opp {A} (f : A -> Z) (l : list A) :
  total (map (fun i => - f i) l) = - total (map f l).
Proof. induction l as [|a l IH]; simpl; lia. Qed.

Lemma total_swap {A B} (a : A -> B -> Z) (y : B -> Z) (l : list B) :
  forall ms : list A,
    total (map (fun c => (- total (map (fun m' => a m' c) ms)) * y c) l)
    = - total (map (fun m' => total (map (fun c => a m' c * y c) l)) ms).
Proof.
  induction ms as [|m' ms IH]; simpl.
  - induction l as [|b l IHl]; simpl in *; lia.
  - rewrite (total_map_ext _
      (fun c => - (a m' c * y c)
                + (- total (map (fun m' => a m' c) ms)) * y c))
      by (intros; lia).
    rewrite (total_map_add (fun c => - (a m' c * y c))
               (fun c => (- total (map (fun m' => a m' c) ms)) * y c)).
    rewrite (total_map_opp (fun c => a m' c * y c)), IH. lia.
Qed.

Lemma coeff_of_stored_to_full (full : list mi) (M : list (list Z))
    (x : list Z) (m' : mi) :
  length M = length full ->
  Forall (fun row => length row = length x) M ->
  In m' full ->
  coeff_of full (map (fun row => Expansion.dot1 0 Z.add Z.mul row x) M) m'
  = total (map (fun c => row_entry full M m' c * nth c x 0)
             (seq 0 (length x))).
Proof.
  intros HM Hrows Hin. unfold coeff_of, row_entry.
  apply list_index_In in Hin as [i Hi]. rewrite Hi.
  pose proof (list_index_lt _ _ _ Hi) as Hlt.
  destruct (nth_error M i) as [row|] eqn:Er;
    [|apply nth_error_None in Er; lia].
  rewrite (nth_error_nth _ i 0 (x:=Expansion.dot1 0 Z.add Z.mul row x))
    by (rewrite nth_error_map, Er; reflexivity).
  rewrite (nth_error_nth M i [] Er).
  rewrite Forall_forall in Hrows.
  pose proof (Hrows row (nth_error_In _ _ Er)) as Hrl.
  unfold Expansion.dot1. rewrite fold_left_add_total.
  rewrite total_zip_with_seq by congruence. rewrite Hrl. lia.
Qed.

(** X21.  For the Laplace basis (order from 0 up, dimension from 2 up) and
    one coefficient per stored identifier, [stored_to_full] returns full
    coefficients that satisfy the Laplace recurrence: the coefficient of an
    identifier whose last entry is at least 2 is minus the sum of the
    coefficients of the identifiers that have 2 less in the last entry and
    2 more in one other entry. *)
Theorem laplace_full_coefficients_obey_the_recurrence :
  forall (order : Z) (dim : nat) (stored : list mi) (M : list (list Z))
         (x : list Z),
    0 <= order -> (2 <= dim)%nat ->
    Expansion.laplace_precompute_coeff_matrix order dim = Ok (stored, M) ->
    length x = length stored ->
    exists full_coeffs : list Z,
      Transforms.stored_to_full Z 0 Z.add Z.mul M x = Ok full_coeffs /\
      forall m : mi,
        In m (Expansion.get_full_coefficient_identifiers order dim) ->
        2 <= last m 0 ->
        coeff_of (Expansion.get_full_coefficient_identifiers order dim)
          full_coeffs m
        = - total
              (map (coeff_of
                      (Expansion.get_full_coefficient_identifiers order dim)
                      full_coeffs)
                 (needed dim m (dim - 1))).
Proof.
  intros order dim stored M x Ho Hdim E Hx.
  set (full := Expansion.get_full_coefficient_identifiers order dim).
  pose proof E as E'.
  unfold Expansion.laplace_precompute_coeff_matrix,
    Expansion.precompute_coeff_matrix in E'.
  destruct (precompute_over_shape Z 0 1 Z.add Z.mul _ _ _ _ E')
    as (HlenM & Hrows & _).
  fold full in HlenM.
  assert (Hrows' : Forall (fun row => length row = length x) M).
  { eapply Forall_impl; [|exact Hrows]. simpl. intros; congruence. }
  exists (map (fun row => Expansion.dot1 0 Z.add Z.mul row x) M). split.
  - unfold Transforms.stored_to_full.
    assert (Eb : forallb (fun row => Nat.eqb (length row) (length x)) M
                 = true).
    { apply forallb_forall. intros row Hr. rewrite Forall_forall in Hrows'.
      apply Nat.eqb_eq. auto. }
    rewrite Eb. reflexivity.
  - intros m Hin Hlast.
    rewrite (coeff_of_stored_to_full full M x m HlenM Hrows' Hin).
    assert (Hneed : Forall (fun m' => In m' full) (needed dim m (dim - 1))).
    { destruct stored as [|s0 stored'].
      - (* no column: the rows are not needed *)
        destruct (in_split m full Hin) as (pre & post & Efull).
        destruct (exists_last (l:=m)) as (base & y & ->).
        { intros ->. apply (full_identifiers_In order dim [] Ho) in Hin.
          simpl in Hin. lia. }
        rewrite last_last in Hlast.
        pose proof (last_axis_succeeds order dim Ho pre post base y Efull
                      Hlast) as Hs.
        pose proof (here_in_full order dim Ho pre post base y Efull)
          as (Hlb & _).
        unfold succeeds in Hs. apply andb_true_iff in Hs as [_ Hp].
        apply all_present_Forall in Hp.
        replace (dim - 1)%nat with (length base) by lia.
        eapply Forall_impl; [|exact Hp]. simpl. intros m' Hm'.
        unfold full. fold full. rewrite Efull. apply in_or_app. auto.
      - apply (laplace_row_entry_recurrence order dim (s0 :: stored') M m
                 0%nat Ho Hdim E Hin Hlast). simpl. lia. }
    rewrite (total_map_ext _
      (fun c => (- total (map (fun m' => row_entry full M m' c)
                            (needed dim m (dim - 1))))
                * nth c x 0)).
    2:{ intros c Hc. apply in_seq in Hc.
        destruct (laplace_row_entry_recurrence order dim stored M m c
                    Ho Hdim E Hin Hlast) as [_ Hr]; [lia|].
        fold full in Hr. rewrite Hr. reflexivity. }
    rewrite total_swap. f_equal. f_equal.
    apply map_ext_in. intros m' Hm'. symmetry.
    rewrite Forall_forall in Hneed.
    apply (coeff_of_stored_to_full full M x m' HlenM Hrows' (Hneed m' Hm')).
Qed.

(** Five stored coefficients for order 2 in dimension 2: the coefficient of
    (0,2) is minus that of (2,0). *)
Lemma laplace_full_coefficients_obey_the_recurrence_witness :
  exists full_coeffs : list Z,
    Transforms.stored_to_full Z 0 Z.add Z.mul
      [[1; 0; 0; 0; 0]; [0; 1; 0; 0; 0]; [0; 0; 1; 0; 0];
       [0; 0; 0; 1; 0]; [0; 0; 0; 0; 1]; [0; 0; 0; -1; 0]]
      [10; 20; 30; 40; 50] = Ok full_coeffs /\
    forall m : mi,
      In m (Expansion.get_full_coefficient_identifiers 2 2) ->
      2 <= last m 0 ->
      coeff_of (Expansion.get_full_coefficient_identifiers 2 2) full_coeffs m
      = - total
            (map (coeff_of (Expansion.get_full_coefficient_identifiers 2 2)
                    full_coeffs)
               (needed 2 m (2 - 1))).
Proof.
  apply (laplace_full_coefficients_obey_the_recurrence 2 2
           [[0; 0]; [1; 0]; [0; 1]; [2; 0]; [1; 1]]).
  - lia.
  - lia.
  - reflexivity.
  - reflexivity.
Defined.

(** * sumpy/tools.py: the multi-index helpers and the input processing of
      KernelComputation *)

Module ToolsHelpers.

(** [add_mi]: [tuple(mi1i+mi2i for mi1i, mi2i in zip(mi1, mi2))]; [zip]
    stops at the shorter tuple. *)
Definition add_mi (mi1 mi2 : mi) : mi := Np.zip_with Z.add mi1 mi2.

(** [max] of a list of Python ints; ValueError on an empty list. *)
Definition py_max (l : list Z) : result Z :=
  match l with
  | [] => Raise ValueError
  | x :: rest => Ok (fold_left Z.max rest x)
  end.

(** The block of [KernelComputation.__init__] that processes
    [strength_usage], given [len(kernels)]: the result is
    [(self.strength_usage, self.strength_count)]. *)
Definition process_strength_usage (nkernels : nat)
    (strength_usage : option (list Z)) : result (list Z * Z) :=
  let strength_usage :=
    match strength_usage with
    | None => repeat 0 nkernels
    | Some l => l
    end in
  if negb (Nat.eqb nkernels (length strength_usage)) then Raise ValueError
  else
    m <- py_max strength_usage ;;
    Ok (strength_usage, m + 1).

End ToolsHelpers.

Lemma zip_with_length {A B C} (f : A -> B -> C) : forall (a : list A)
    (b : list B),
  length (Np.zip_with f a b) = Nat.min (length a) (length b).
Proof.
  induction a as [|x a IH]; intros [|y b]; simpl; auto.
Qed.

Lemma fold_left_max_spec : forall (l : list Z) (x : Z),
  (forall u, In u (x :: l) -> u <= fold_left Z.max l x) /\
  In (fold_left Z.max l x) (x :: l).
Proof.
  induction l as [|y l IH]; intros x; simpl.
  - split; [intros u [<-|[]]; lia | auto].
  - destruct (IH (Z.max x y)) as [Hle Hin]. split.
    + intros u [<-|[<-|Hu]].
      * specialize (Hle (Z.max x y) (or_introl eq_refl)). lia.
      * specialize (Hle (Z.max x y) (or_introl eq_refl)). lia.
      * apply Hle. simpl; auto.
    + destruct Hin as [E|Hin]; [|auto].
      rewrite <- E. destruct (Z.max_spec x y) as [[_ ->]|[_ ->]]; auto.
Qed.

Lemma zip_with_add_wrap_sub : forall a b : list Z,
  length a = length b ->
  (Forall in_int64 b ->
   Np.zip_with (fun x y => Int64.wrap (x - y)) (Np.zip_with Z.add a b) a = b)
  /\
  (Forall in_int64 a ->
   Np.zip_with (fun x y => Int64.wrap (x - y)) (Np.zip_with Z.add a b) b = a).
Proof.
  induction a as [|x a IH]; intros [|y b] H; simpl in *; try discriminate;
    auto.
  destruct (IH b) as [H1 H2]; [lia|]. split; intros Hf; inversion Hf; subst.
  - rewrite H1 by assumption.
    replace (x + y - x) with y by lia. rewrite wrap_fits by assumption.
    reflexivity.
  - rewrite H2 by assumption.
    replace (x + y - y) with x by lia. rewrite wrap_fits by assumption.
    reflexivity.
Qed.

(** X22.  [add_mi] returns a tuple as long as the shorter argument and
    raises nothing, and for two multi-indices of one length the order of
    the summands does not matter.  When the summands and the sum are tuples
    of 64-bit integers, the distance from either summand to the sum is the
    other summand; when an entry of the sum does not fit 64 bits, [mi_dist]
    of the sum raises OverflowError. *)
Theorem add_mi_and_mi_dist_round_trip :
  forall a b : mi,
    length (ToolsHelpers.add_mi a b) = Nat.min (length a) (length b) /\
    (length a = length b ->
     ToolsHelpers.add_mi a b = ToolsHelpers.add_mi b a /\
     (Forall (fun z => - 2 ^ 63 <= z <= 2 ^ 63 - 1) a ->
      Forall (fun z => - 2 ^ 63 <= z <= 2 ^ 63 - 1) b ->
      Forall (fun z => - 2 ^ 63 <= z <= 2 ^ 63 - 1) (ToolsHelpers.add_mi a b) ->
      Tools64.mi_dist (ToolsHelpers.add_mi a b) a = Ok b /\
      Tools64.mi_dist (ToolsHelpers.add_mi a b) b = Ok a) /\
     (~ Forall (fun z => - 2 ^ 63 <= z <= 2 ^ 63 - 1)
          (ToolsHelpers.add_mi a b) ->
      Tools64.mi_dist (ToolsHelpers.add_mi a b) a = Raise OverflowError /\
      Tools64.mi_dist (ToolsHelpers.add_mi a b) b = Raise OverflowError)).
Proof.
  intros a b. unfold ToolsHelpers.add_mi. split; [apply zip_with_length|].
  intros H.
  assert (Hfit : forall t : list Z,
            Forall (fun z => - 2 ^ 63 <= z <= 2 ^ 63 - 1) t <->
            Forall in_int64 t).
  { intros t. split; intros Ht; (eapply Forall_impl; [|exact Ht]);
      intros z Hz; int64_lia. }
  split; [|split].
  - clear Hfit. revert b H.
    induction a as [|x a IH]; intros [|y b] H; simpl in *;
      try discriminate; auto.
    rewrite (IH b) by lia. f_equal. lia.
  - intros Ha Hb Hs. apply Hfit in Ha, Hb, Hs.
    destruct (zip_with_add_wrap_sub a b H) as [E1 E2].
    unfold Tools64.mi_dist.
    rewrite !array_int_fits by assumption. simpl.
    rewrite !broadcast2_same_length by (rewrite zip_with_length; lia).
    rewrite E1, E2 by assumption. split; reflexivity.
  - intros Hs. unfold Tools64.mi_dist.
    rewrite array_int_overflow by (intros Hf; apply Hs, Hfit, Hf).
    split; reflexivity.
Qed.

(** (1,2,0) + (0,1,3). *)
Lemma add_mi_and_mi_dist_round_trip_witness :
  Tools64.mi_dist (ToolsHelpers.add_mi [1; 2; 0] [0; 1; 3]) [1; 2; 0]
    = Ok [0; 1; 3] /\
  Tools64.mi_dist (ToolsHelpers.add_mi [1; 2; 0] [0; 1; 3]) [0; 1; 3]
    = Ok [1; 2; 0].
Proof.
  destruct (add_mi_and_mi_dist_round_trip [1; 2; 0] [0; 1; 3]) as [_ H].
  destruct (H eq_refl) as (_ & Hok & _).
  apply Hok; repeat constructor; simpl; lia.
Defined.

(** X23.  The processing of [strength_usage] in KernelComputation raises
    ValueError exactly when there is no kernel or the given list has
    another length than the kernel list.  Otherwise every usage index is
    below [strength_count], [strength_count - 1] is one of them, and the
    default (None) gives index 0 for every kernel and [strength_count] 1. *)
Theorem strength_count_bounds_every_usage :
  forall (nkernels : nat) (strength_usage : option (list Z)),
    (ToolsHelpers.process_strength_usage nkernels strength_usage
       = Raise ValueError <->
     nkernels = 0%nat \/
     exists l, strength_usage = Some l /\ length l <> nkernels) /\
    (forall su count,
        ToolsHelpers.process_strength_usage nkernels strength_usage
          = Ok (su, count) ->
        length su = nkernels /\
        Forall (fun u => u < count) su /\
        In (count - 1) su /\
        (strength_usage = None -> su = repeat 0 nkernels /\ count = 1)).
Proof.
  intros n su0. unfold ToolsHelpers.process_strength_usage.
  set (su := match su0 with None => repeat 0 n | Some l => l end).
  assert (Hdef : su0 = None -> su = repeat 0 n) by (intros ->; reflexivity).
  assert (Hlen : length su <> n ->
                 exists l, su0 = Some l /\ length l <> n).
  { destruct su0 as [l|]; unfold su; [eauto|].
    rewrite repeat_length. congruence. }
  assert (Hlen' : forall l, su0 = Some l -> length l <> n -> length su <> n).
  { intros l -> H. exact H. }
  destruct (Nat.eqb_spec n (length su)) as [E|E]; simpl.
  - destruct su as [|x rest] eqn:Es; simpl.
    + split.
      * split; [intros _; left; simpl in E; exact E|reflexivity].
      * intros s c H. discriminate.
    + split.
      * split; [discriminate|].
        intros [H0|(l & Hl & Hne)]; [simpl in E; lia|].
        exfalso. apply (Hlen' l Hl Hne). simpl in *. lia.
      * intros s c H. inversion H; subst s c; clear H.
        destruct (fold_left_max_spec rest x) as [Hle Hin].
        split; [simpl in *; lia|]. split; [|split].
        -- apply Forall_forall. intros u Hu. specialize (Hle u Hu). lia.
        -- replace (fold_left Z.max rest x + 1 - 1)
             with (fold_left Z.max rest x) by lia. exact Hin.
        -- intros Hnone. split; [apply Hdef; exact Hnone|].
           pose proof (Hdef Hnone) as Er.
           assert (Hall : forall u, In u (x :: rest) -> u = 0).
           { intros u Hu. rewrite Er in Hu. apply repeat_spec in Hu. exact Hu. }
           rewrite (Hall _ Hin). reflexivity.
  - split.
    + split; [intros _; right; apply Hlen; congruence | reflexivity].
    + intros s c H. discriminate.
Qed.

(** Three kernels that use the densities 0, 1 and 1. *)
Lemma strength_count_bounds_every_usage_witness :
  length [0; 1; 1] = 3%nat /\
  Forall (fun u => u < 2) [0; 1; 1] /\
  In (2 - 1) [0; 1; 1] /\
  (Some [0; 1; 1] = None -> [0; 1; 1] = repeat 0 3 /\ 2 = 1).
Proof.
  apply (proj2 (strength_count_bounds_every_usage 3 (Some [0; 1; 1]))
           [0; 1; 1] 2).
  reflexivity.
Defined.

(** * sumpy/tools.py: gathering the arguments of several kernels *)

From Stdlib Require OrderedTypeEx.

Module Gather.

Section Gather.

(** The argument objects that [get_args] returns, and their [name]. *)
Variable Arg : Type.
Variable name : Arg -> string.

(** [result[k] = v] on a dict with string keys: an existing key keeps its
    place. *)
Fixpoint dict_set (result : list (string * Arg)) (k : string) (v : Arg)
  : list (string * Arg) :=
  match result with
  | [] => [(k, v)]
  | (k', v') :: rest =>
      if String.eqb k' k then (k, v) :: rest
      else (k', v') :: dict_set rest k v
  end.

(** The two nested loops; [kernel_likes] is given by what [get_args]
    returns for each of its elements. *)
Definition gather_dict (kernel_likes : list (list Arg))
  : list (string * Arg) :=
  fold_left
    (fun result args =>
       fold_left (fun result arg => dict_set result (name arg) arg)
         args result)
    kernel_likes [].

(** [a < b] on Python strings. *)
Definition str_lt (a b : string) : bool :=
  match String.compare a b with
  | Lt => true
  | _ => false
  end.

(** [sorted(.., key=lambda arg: arg.name)], stable. *)
Fixpoint insert_by_name (x : Arg) (l : list Arg) : list Arg :=
  match l with
  | [] => [x]
  | y :: rest =>
      if str_lt (name x) (name y) then x :: y :: rest
      else y :: insert_by_name x rest
  end.

Definition sorted_by_name (l : list Arg) : list Arg :=
  fold_left (fun acc x => insert_by_name x acc) l [].

(** [gather_arguments]. *)
Definition gather_arguments (kernel_likes : list (list Arg)) : list Arg :=
  sorted_by_name (map snd (gather_dict kernel_likes)).

End Gather.

End Gather.

Section GatherFacts.

Variable Arg : Type.
Variable name : Arg -> string.

(** [arg] is the last argument of its name in the list. *)
Definition last_of_its_name (all : list Arg) (arg : Arg) : Prop :=
  exists pre post,
    all = pre ++ arg :: post /\ forall a, In a post -> name a <> name arg.

Definition name_lt (a b : Arg) : Prop :=
  String.compare (name a) (name b) = Lt.

Lemma gather_dict_concat (kernel_likes : list (list Arg)) :
  Gather.gather_dict Arg name kernel_likes
  = fold_left (fun result arg => Gather.dict_set Arg result (name arg) arg)
      (concat kernel_likes) [].
Proof.
  unfold Gather.gather_dict. generalize (@nil (string * Arg)) as d.
  induction kernel_likes as [|args rest IH]; intros d; simpl; auto.
  rewrite fold_left_app. apply IH.
Qed.

(** The dict after the loops: keys are distinct, every entry is filed under
    its own name, and the entries are the last arguments of their names. *)
Definition dict_inv (processed : list Arg) (d : list (string * Arg)) : Prop :=
  NoDup (map fst d) /\
  forall k v, In (k, v) d <-> k = name v /\ last_of_its_name processed v.

Lemma dict_set_keys (d : list (string * Arg)) (k : string) (v : Arg) :
  forall k', In k' (map fst (Gather.dict_set Arg d k v)) <->
             k' = k \/ In k' (map fst d).
Proof.
  induction d as [|[k0 v0] d IH]; intros k'; simpl.
  - intuition auto.
  - destruct (String.eqb_spec k0 k) as [->|Hne]; simpl.
    + intuition auto.
    + rewrite IH. intuition auto.
Qed.

Lemma dict_set_NoDup (d : list (string * Arg)) (k : string) (v : Arg) :
  NoDup (map fst d) -> NoDup (map fst (Gather.dict_set Arg d k v)).
Proof.
  induction d as [|[k0 v0] d IH]; intros H; simpl.
  - constructor; [intros [] | constructor].
  - inversion H as [|a l Hna Hnd]; subst.
    destruct (String.eqb_spec k0 k) as [->|Hne]; simpl.
    + constructor; auto.
    + constructor; auto. intros Hin. apply dict_set_keys in Hin.
      destruct Hin as [E|Hin]; [congruence | contradiction].
Qed.

Lemma dict_set_In (d : list (string * Arg)) (k : string) (v : Arg) :
  NoDup (map fst d) ->
  forall k' v',
    In (k', v') (Gather.dict_set Arg d k v) <->
    (k' = k /\ v' = v) \/ (k' <> k /\ In (k', v') d).
Proof.
  induction d as [|[k0 v0] d IH]; intros Hnd k' v'; simpl.
  - split.
    + intros [E|[]]. inversion E. auto.
    + intros [[-> ->]|[_ []]]. auto.
  - inversion Hnd as [|a l Hna Hnd']; subst.
    destruct (String.eqb_spec k0 k) as [->|Hne]; simpl.
    + split.
      * intros [E|Hin]; [inversion E; auto|].
        right. split; auto. intros ->. apply Hna.
        apply in_map_iff. exists (k, v'). auto.
      * intros [[-> ->]|[Hne [E|Hin]]]; auto.
        inversion E. congruence.
    + rewrite (IH Hnd'). split.
      * intros [E|[H|[H1 H2]]]; auto.
        inversion E; subst. auto.
      * intros [H|[H1 [E|H2]]]; auto.
Qed.

Lemma last_of_its_name_snoc (processed : list Arg) (arg v : Arg) :
  last_of_its_name (processed ++ [arg]) v <->
  v = arg \/ (name v <> name arg /\ last_of_its_name processed v).
Proof.
  unfold last_of_its_name. split.
  - intros (pre & post & E & Hlast).
    apply snoc_split in E as [(-> & -> & ->)|(post' & -> & ->)]; auto.
    right. split.
    + intros Heq. apply (Hlast arg); [apply in_or_app; simpl; auto|].
      congruence.
    + exists pre, post'. split; auto.
      intros a Ha. apply Hlast. apply in_or_app. auto.
  - intros [->|(Hne & pre & post & -> & Hlast)].
    + exists processed, []. split; [reflexivity | intros a []].
    + exists pre, (post ++ [arg]). split.
      * rewrite <- app_assoc. reflexivity.
      * intros a Ha. apply in_app_or in Ha as [Ha|[<-|[]]]; auto.
Qed.

Lemma dict_inv_fold : forall (rest processed : list Arg)
    (d : list (string * Arg)),
  dict_inv processed d ->
  dict_inv (processed ++ rest)
    (fold_left (fun result arg => Gather.dict_set Arg result (name arg) arg)
       rest d).
Proof.
  induction rest as [|arg rest IH]; intros processed d Hinv; simpl.
  - rewrite app_nil_r. exact Hinv.
  - replace (processed ++ arg :: rest) with ((processed ++ [arg]) ++ rest)
      by (rewrite <- app_assoc; reflexivity).
    apply IH. destruct Hinv as [Hnd Hin]. split.
    + apply dict_set_NoDup. exact Hnd.
    + intros k v. rewrite (dict_set_In d (name arg) arg Hnd k v).
      rewrite last_of_its_name_snoc, Hin. split.
      * intros [[-> ->]|(Hne & -> & Hl)]; auto.
      * intros (-> & [->|(Hne & Hl)]); auto.
Qed.

Lemma insert_by_name_In (x : Arg) : forall l y,
  In y (Gather.insert_by_name Arg name x l) <-> y = x \/ In y l.
Proof.
  induction l as [|z l IH]; intros y; simpl.
  - intuition auto.
  - destruct (Gather.str_lt (name x) (name z)); simpl.
    + intuition auto.
    + rewrite IH. intuition auto.
Qed.

Lemma sorted_by_name_In (l : list Arg) (y : Arg) :
  In y (Gather.sorted_by_name Arg name l) <-> In y l.
Proof.
  unfold Gather.sorted_by_name.
  assert (H : forall l acc,
            In y (fold_left (fun acc x => Gather.insert_by_name Arg name x acc)
                    l acc) <-> In y l \/ In y acc).
  { clear l. induction l as [|x l IH]; intros acc; simpl.
    - intuition auto.
    - rewrite IH, insert_by_name_In. intuition auto. }
  rewrite H. simpl. tauto.
Qed.

Lemma compare_lt_trans (a b c : string) :
  String.compare a b = Lt -> String.compare b c = Lt ->
  String.compare a c = Lt.
Proof.
  intros H1 H2.
  apply OrderedTypeEx.String_as_OT.cmp_lt in H1, H2.
  apply OrderedTypeEx.String_as_OT.cmp_lt.
  eapply OrderedTypeEx.String_as_OT.lt_trans; eauto.
Qed.

Lemma compare_not_lt (a b : string) :
  String.compare a b <> Lt -> a <> b -> String.compare b a = Lt.
Proof.
  intros H Hne. rewrite String.compare_antisym.
  destruct (String.compare a b) eqn:E; simpl; auto.
  - apply String.compare_eq_iff in E. contradiction.
  - congruence.
Qed.

Lemma insert_by_name_sorted (x : Arg) : forall l,
  StronglySorted name_lt l ->
  (forall y, In y l -> name y <> name x) ->
  StronglySorted name_lt (Gather.insert_by_name Arg name x l).
Proof.
  unfold name_lt.
  induction l as [|y l IH]; intros Hs Hne; simpl.
  - constructor; constructor.
  - inversion Hs as [|y' l' Hs' Hf]; subst.
    unfold Gather.str_lt.
    destruct (String.compare (name x) (name y)) eqn:E.
    + apply String.compare_eq_iff in E. exfalso.
      apply (Hne y); simpl; auto.
    + constructor; auto. constructor; auto.
      eapply Forall_impl; [|exact Hf]. simpl. intros z Hz.
      eapply compare_lt_trans; eauto.
    + constructor; [apply IH; auto; intros z Hz; apply Hne; simpl; auto|].
      apply Forall_forall. intros z Hz.
      apply insert_by_name_In in Hz as [->|Hz].
      * apply compare_not_lt; [congruence|].
        apply not_eq_sym. apply Hne. simpl; auto.
      * rewrite Forall_forall in Hf. auto.
Qed.

Lemma sorted_by_name_sorted : forall l : list Arg,
  NoDup (map name l) ->
  StronglySorted name_lt (Gather.sorted_by_name Arg name l).
Proof.
  unfold Gather.sorted_by_name.
  assert (H : forall l acc,
            NoDup (map name l) ->
            (forall x y, In x l -> In y acc -> name y <> name x) ->
            StronglySorted name_lt acc ->
            StronglySorted name_lt
              (fold_left (fun acc x => Gather.insert_by_name Arg name x acc)
                 l acc)).
  { induction l as [|x l IH]; intros acc Hnd Hdis Hs; simpl; auto.
    inversion Hnd as [|a l' Hna Hnd']; subst.
    apply IH; auto.
    - intros x' y Hx' Hy. apply insert_by_name_In in Hy as [->|Hy].
      + intros E. apply Hna. rewrite E. apply in_map. exact Hx'.
      + apply Hdis; simpl; auto.
    - apply insert_by_name_sorted; auto.
      intros y Hy. apply Hdis; simpl; auto. }
  intros l Hnd. apply H; [exact Hnd | intros x y _ [] | constructor].
Qed.

End GatherFacts.

(** X24.  [gather_arguments] returns its arguments in strictly increasing
    order of name, so one per name, and an argument is returned exactly
    when it is the last of its name among the arguments of all the kernels,
    taken in order: a later argument replaces an earlier one of the same
    name. *)
Theorem gather_arguments_keeps_the_last_of_each_name :
  forall (Arg : Type) (name : Arg -> string) (kernel_likes : list (list Arg)),
    StronglySorted (name_lt Arg name)
      (Gather.gather_arguments Arg name kernel_likes) /\
    forall arg : Arg,
      In arg (Gather.gather_arguments Arg name kernel_likes) <->
      last_of_its_name Arg name (concat kernel_likes) arg.
Proof.
  intros Arg name kernel_likes. unfold Gather.gather_arguments.
  rewrite gather_dict_concat.
  pose proof (dict_inv_fold Arg name (concat kernel_likes) [] []) as Hinv.
  simpl in Hinv.
  destruct Hinv as [Hnd Hin].
  { split; [constructor|]. intros k v. simpl. split; [intros []|].
    intros (_ & pre & post & E & _). destruct pre; discriminate. }
  set (d := fold_left
              (fun result arg => Gather.dict_set Arg result (name arg) arg)
              (concat kernel_likes) []) in *.
  assert (Hnames : map name (map snd d) = map fst d).
  { rewrite map_map. apply map_ext_in. intros [k v] Hkv. simpl.
    apply Hin in Hkv. symmetry. tauto. }
  split.
  - apply sorted_by_name_sorted. rewrite Hnames. exact Hnd.
  - intros arg. rewrite sorted_by_name_In, in_map_iff. split.
    + intros ([k v] & <- & Hkv). apply Hin in Hkv. tauto.
    + intros Hl. exists (name arg, arg). split; auto.
      apply Hin. auto.
Qed.

(** Two kernels that both name their argument k: the second one's argument
    is the one returned. *)
Lemma gather_arguments_keeps_the_last_of_each_name_witness :
  In ("k"%string, true)
    (Gather.gather_arguments (string * bool) fst
       [[("k"%string, false)]; [("k"%string, true)]]) <->
  last_of_its_name (string * bool) fst
    (concat [[("k"%string, false)]; [("k"%string, true)]])
    ("k"%string, true).
Proof.
  apply (gather_arguments_keeps_the_last_of_each_name (string * bool) fst
           [[("k"%string, false)]; [("k"%string, true)]]).
Defined.

(** * sumpy/tools.py: OrderedSet *)

Module OrderedSet.

Section OrderedSet.

(** Python values; [none] is None, the key of the sentinel cell. *)
Variable Value : Type.
Variable none : Value.
Variable Value_eq_dec : forall a b : Value, {a = b} + {a <> b}.

(** A list [[key, prev, next]]; [prev] and [next] are references to such
    lists. *)
Record cell : Type := Cell { key : Value; prev : nat; next : nat }.

(** An OrderedSet object: the cells created so far, a reference being a
    position among them, and [self.map], which maps a key to the reference
    of its cell.  [self.end] is the cell at position 0. *)
Record t : Type := { cells : list cell; map : list (Value * nat) }.

Definition end_ : nat := 0.

(** The cell behind a reference. *)
Definition get (cs : list cell) (a : nat) : cell := nth a cs (Cell none 0 0).

(** Assignment to a component of the cell behind a reference. *)
Fixpoint update (cs : list cell) (a : nat) (f : cell -> cell) : list cell :=
  match cs, a with
  | [], _ => []
  | c :: rest, O => f c :: rest
  | c :: rest, S a' => c :: update rest a' f
  end.

Definition set_prev (p : nat) (c : cell) : cell := Cell (key c) p (next c).
Definition set_next (n : nat) (c : cell) : cell := Cell (key c) (prev c) n.

(** [self.map[key]], None where the key is absent. *)
Fixpoint lookup (m : list (Value * nat)) (k : Value) : option nat :=
  match m with
  | [] => None
  | (k', a) :: rest => if Value_eq_dec k' k then Some a else lookup rest k
  end.

(** What [self.map.pop(key)] leaves in the dict. *)
Fixpoint dict_remove (m : list (Value * nat)) (k : Value)
  : list (Value * nat) :=
  match m with
  | [] => []
  | (k', a) :: rest =>
      if Value_eq_dec k' k then rest else (k', a) :: dict_remove rest k
  end.

(** [__init__] without an iterable. *)
Definition init : t := {| cells := [Cell none end_ end_]; map := [] |}.

(** [__len__]. *)
Definition len (s : t) : nat := length (map s).

(** [__contains__]. *)
Definition contains (s : t) (k : Value) : bool :=
  match lookup (map s) k with
  | Some _ => true
  | None => false
  end.

(** [add]: the targets of the chained assignment are assigned from left to
    right. *)
Definition add (s : t) (k : Value) : t :=
  if contains s k then s
  else
    let curr := prev (get (cells s) end_) in
    let node := length (cells s) in
    let cells1 := cells s ++ [Cell k curr end_] in
    let cells2 := update cells1 curr (set_next node) in
    let cells3 := update cells2 end_ (set_prev node) in
    {| cells := cells3; map := map s ++ [(k, node)] |}.

(** [discard]. *)
Definition discard (s : t) (k : Value) : t :=
  match lookup (map s) k with
  | Some a =>
      let c := get (cells s) a in
      let cells1 := update (cells s) (prev c) (set_next (next c)) in
      let cells2 := update cells1 (next c) (set_prev (prev c)) in
      {| cells := cells2; map := dict_remove (map s) k |}
  | None => s
  end.

(** The loop of [__iter__] from the cell [curr] on; None when it has not
    reached [self.end] after [fuel] passes. *)
Fixpoint iter_from (fuel : nat) (cs : list cell) (curr : nat)
  : option (list Value) :=
  if Nat.eqb curr end_ then Some []
  else
    match fuel with
    | O => None
    | S fuel' =>
        match iter_from fuel' cs (next (get cs curr)) with
        | Some rest => Some (key (get cs curr) :: rest)
        | None => None
        end
    end.

(** [list(self)], with one pass allowed for every cell. *)
Definition iter (s : t) : option (list Value) :=
  iter_from (length (cells s)) (cells s) (next (get (cells s) end_)).

(** The loop of [__reversed__]. *)
Fixpoint reversed_from (fuel : nat) (cs : list cell) (curr : nat)
  : option (list Value) :=
  if Nat.eqb curr end_ then Some []
  else
    match fuel with
    | O => None
    | S fuel' =>
        match reversed_from fuel' cs (prev (get cs curr)) with
        | Some rest => Some (key (get cs curr) :: rest)
        | None => None
        end
    end.

(** [list(reversed(self))]. *)
Definition reversed (s : t) : option (list Value) :=
  reversed_from (length (cells s)) (cells s) (prev (get (cells s) end_)).

(** [pop]. *)
Definition pop (s : t) (last : bool) : result Value * t :=
  if Nat.eqb (len s) 0 then (Raise KeyError, s)
  else
    let k := if last then key (get (cells s) (prev (get (cells s) end_)))
             else key (get (cells s) (next (get (cells s) end_))) in
    (Ok k, discard s k).

(** [__init__] with an iterable, given by the values it yields:
    [self |= iterable] adds them one by one. *)
Definition init_from (iterable : list Value) : t :=
  fold_left add iterable init.

(** [a == b] on two lists of values. *)
Definition list_eqb (a b : list Value) : bool :=
  if list_eq_dec Value_eq_dec a b then true else false.

(** [set(a) == set(b)]. *)
Definition same_set (a b : list Value) : bool :=
  forallb (fun x => if in_dec Value_eq_dec x b then true else false) a
  && forallb (fun x => if in_dec Value_eq_dec x a then true else false) b.

(** [__eq__]; the other operand is an OrderedSet or some other iterable,
    given by the values it yields.  None when an iteration runs out of
    fuel. *)
Definition eq (s : t) (other : t + list Value) : option bool :=
  match other with
  | inl o =>
      if Nat.eqb (len s) (len o)
      then match iter s, iter o with
           | Some a, Some b => Some (list_eqb a b)
           | _, _ => None
           end
      else Some false
  | inr items =>
      match iter s with
      | Some a => Some (same_set a items)
      | None => None
      end
  end.

End OrderedSet.

Arguments Cell {Value}.
Arguments key {Value}.
Arguments prev {Value}.
Arguments next {Value}.
Arguments cells {Value}.
Arguments map {Value}.

End OrderedSet.

(** ** The linked cells of an OrderedSet *)

Section OrderedSetFacts.

Variable Value : Type.
Variable none : Value.
Variable Value_eq_dec : forall a b : Value, {a = b} + {a <> b}.

Local Abbreviation cell := (OrderedSet.cell Value).
Local Abbreviation get := (OrderedSet.get Value none).
Local Abbreviation update := (OrderedSet.update Value).
Local Abbreviation set_prev := (OrderedSet.set_prev Value).
Local Abbreviation set_next := (OrderedSet.set_next Value).
Local Abbreviation lookup := (OrderedSet.lookup Value Value_eq_dec).
Local Abbreviation dict_remove := (OrderedSet.dict_remove Value Value_eq_dec).

Lemma get_app_old (cs extra : list cell) (a : nat) :
  (a < length cs)%nat -> get (cs ++ extra) a = get cs a.
Proof. intros H. unfold OrderedSet.get. apply app_nth1. exact H. Qed.

Lemma get_app_new (cs : list cell) (c : cell) :
  get (cs ++ [c]) (length cs) = c.
Proof.
  unfold OrderedSet.get. rewrite app_nth2, Nat.sub_diag by lia. reflexivity.
Qed.

Lemma update_length (f : cell -> cell) : forall (cs : list cell) (a : nat),
  length (update cs a f) = length cs.
Proof. induction cs as [|c cs IH]; intros [|a]; simpl; auto. Qed.

Lemma get_update_same (f : cell -> cell) : forall (cs : list cell) (a : nat),
  (a < length cs)%nat -> get (update cs a f) a = f (get cs a).
Proof.
  unfold OrderedSet.get.
  induction cs as [|c cs IH]; intros [|a] H; simpl in *; try lia; auto.
  apply IH. lia.
Qed.

Lemma get_update_other (f : cell -> cell) : forall (cs : list cell) (a b : nat),
  a <> b -> get (update cs a f) b = get cs b.
Proof.
  unfold OrderedSet.get.
  induction cs as [|c cs IH]; intros [|a] [|b] H; simpl; auto; try lia.
Qed.

(** The cells at [addrs] carry [keys] and are linked to one another, the
    first one back to [p] and the last one on to [e]. *)
Fixpoint linked (cs : list cell) (p : nat) (addrs : list nat)
    (keys : list Value) (e : nat) : Prop :=
  match addrs, keys with
  | [], [] => True
  | a :: addrs', k :: keys' =>
      OrderedSet.key (get cs a) = k /\
      OrderedSet.prev (get cs a) = p /\
      OrderedSet.next (get cs a) = hd e addrs' /\
      linked cs a addrs' keys' e
  | _, _ => False
  end.

Lemma linked_length (cs : list cell) : forall addrs keys p e,
  linked cs p addrs keys e -> length addrs = length keys.
Proof.
  induction addrs as [|a addrs IH]; intros [|k keys] p e H; simpl in *;
    try tauto.
  destruct H as (_ & _ & _ & H). f_equal. eapply IH; eauto.
Qed.

Lemma linked_frame (cs cs' : list cell) : forall addrs keys p e,
  (forall a, In a addrs -> get cs' a = get cs a) ->
  linked cs p addrs keys e -> linked cs' p addrs keys e.
Proof.
  induction addrs as [|a addrs IH]; intros [|k keys] p e Hsame H;
    simpl in *; try tauto.
  destruct H as (Hk & Hp & Hn & H).
  rewrite (Hsame a (or_introl eq_refl)). repeat split; auto.
Qed.

Lemma last_cons_other {A} (a : A) (l : list A) (d : A) :
  last (a :: l) d = last l a.
Proof.
  revert a d. induction l as [|b l IH]; intros a d; [reflexivity|].
  change (last (a :: b :: l) d) with (last (b :: l) d).
  rewrite (IH b d), (IH b a). reflexivity.
Qed.

Lemma hd_app_hd {A} (l1 l2 : list A) (e : A) :
  hd e (l1 ++ l2) = hd (hd e l2) l1.
Proof. destruct l1; reflexivity. Qed.

Lemma last_app_last {A} (l1 l2 : list A) (d : A) :
  last (l1 ++ l2) d = last l2 (last l1 d).
Proof.
  revert d. induction l1 as [|a l1 IH]; intros d; [reflexivity|].
  change ((a :: l1) ++ l2) with (a :: (l1 ++ l2)).
  rewrite !last_cons_other. apply IH.
Qed.

Lemma linked_app (cs : list cell) : forall addrs1 keys1 addrs2 keys2 p e,
  length addrs1 = length keys1 ->
  (linked cs p (addrs1 ++ addrs2) (keys1 ++ keys2) e <->
   linked cs p addrs1 keys1 (hd e addrs2) /\
   linked cs (last addrs1 p) addrs2 keys2 e).
Proof.
  induction addrs1 as [|a addrs1 IH]; intros [|k keys1] addrs2 keys2 p e Hl;
    simpl in Hl; try discriminate.
  - simpl. tauto.
  - rewrite last_cons_other.
    change (linked cs p ((a :: addrs1) ++ addrs2) ((k :: keys1) ++ keys2) e)
      with (OrderedSet.key (get cs a) = k /\
            OrderedSet.prev (get cs a) = p /\
            OrderedSet.next (get cs a) = hd e (addrs1 ++ addrs2) /\
            linked cs a (addrs1 ++ addrs2) (keys1 ++ keys2) e).
    change (linked cs p (a :: addrs1) (k :: keys1) (hd e addrs2))
      with (OrderedSet.key (get cs a) = k /\
            OrderedSet.prev (get cs a) = p /\
            OrderedSet.next (get cs a) = hd (hd e addrs2) addrs1 /\
            linked cs a addrs1 keys1 (hd e addrs2)).
    rewrite (IH keys1 addrs2 keys2 a e) by lia.
    rewrite hd_app_hd. tauto.
Qed.

Lemma linked_set_end (e' : nat) : forall (cs : list cell) addrs keys p e,
  linked cs p addrs keys e ->
  NoDup addrs -> Forall (fun a => (a < length cs)%nat) addrs ->
  linked (update cs (last addrs p) (set_next e')) p addrs keys e'.
Proof.
  intros cs.
  induction addrs as [|a addrs IH]; intros [|k keys] p e H Hnd Hlt;
    simpl in H; try tauto; try exact I.
  destruct H as (Hk & Hp & Hn & H).
  inversion Hnd as [|a' l Hna Hnd']; subst a' l.
  inversion Hlt as [|a' l Ha Hlt']; subst a' l.
  rewrite last_cons_other.
  destruct addrs as [|b addrs].
  - destruct keys; [|destruct H]. simpl.
    rewrite get_update_same by exact Ha. simpl. auto.
  - assert (Hne : last (b :: addrs) a <> a).
    { intros E. apply Hna. rewrite <- E at 1.
      destruct (exists_last (l:=b :: addrs)) as (l' & z & El);
        [discriminate|].
      rewrite El, last_last. apply in_or_app. simpl. auto. }
    change (linked (update cs (last (b :: addrs) a) (set_next e')) p
              (a :: b :: addrs) (k :: keys) e')
      with (OrderedSet.key (get (update cs (last (b :: addrs) a)
                                   (set_next e')) a) = k /\
            OrderedSet.prev (get (update cs (last (b :: addrs) a)
                                    (set_next e')) a) = p /\
            OrderedSet.next (get (update cs (last (b :: addrs) a)
                                    (set_next e')) a) = b /\
            linked (update cs (last (b :: addrs) a) (set_next e')) a
              (b :: addrs) keys e').
    rewrite get_update_other by exact Hne.
    repeat split; auto.
    apply (IH keys a e H Hnd' Hlt').
Qed.

Lemma linked_set_start (p' : nat) (cs : list cell) (a : nat) addrs keys p e :
  linked cs p (a :: addrs) keys e ->
  NoDup (a :: addrs) -> (a < length cs)%nat ->
  linked (update cs a (set_prev p')) p' (a :: addrs) keys e.
Proof.
  intros H Hnd Ha. destruct keys as [|k keys]; [destruct H|].
  destruct H as (Hk & Hp & Hn & H).
  inversion Hnd as [|a' l Hna Hnd']; subst a' l.
  simpl. rewrite get_update_same by exact Ha. simpl.
  repeat split; auto.
  apply (linked_frame cs); auto.
  intros b Hb. apply get_update_other. intros ->. contradiction.
Qed.

Lemma iter_linked (cs : list cell) : forall addrs keys p fuel,
  linked cs p addrs keys 0 -> ~ In 0%nat addrs ->
  (length addrs <= fuel)%nat ->
  OrderedSet.iter_from Value none fuel cs (hd 0%nat addrs) = Some keys.
Proof.
  induction addrs as [|a addrs IH]; intros [|k keys] p fuel H H0 Hf;
    simpl in H; try tauto.
  - destruct fuel; reflexivity.
  - destruct H as (Hk & Hp & Hn & H).
    destruct fuel as [|fuel]; [simpl in Hf; lia|].
    simpl hd. cbn [OrderedSet.iter_from].
    destruct (Nat.eqb_spec a OrderedSet.end_) as [E|_].
    + exfalso. apply H0. left. exact E.
    + rewrite Hn, Hk.
      rewrite (IH keys a fuel H); [reflexivity| |simpl in Hf; lia].
      intros Hin. apply H0. right. exact Hin.
Qed.

Lemma reversed_linked (cs : list cell) : forall addrs keys e fuel,
  linked cs 0 addrs keys e -> ~ In 0%nat addrs ->
  (length addrs <= fuel)%nat ->
  OrderedSet.reversed_from Value none fuel cs (last addrs 0%nat)
  = Some (rev keys).
Proof.
  induction addrs as [|a addrs IH] using rev_ind;
    intros keys e fuel H H0 Hf.
  - destruct keys; [|destruct H]. destruct fuel; reflexivity.
  - pose proof (linked_length _ _ _ _ _ H) as Hl.
    rewrite length_app in Hl. simpl in Hl.
    destruct (exists_last (l:=keys)) as (keys' & k & ->).
    { intros ->. simpl in Hl. lia. }
    rewrite length_app in Hl. simpl in Hl.
    apply linked_app in H; [|lia]. destruct H as [H1 H2].
    simpl in H2. destruct H2 as (Hk & Hp & _).
    rewrite last_last, rev_app_distr. simpl.
    rewrite length_app in Hf. simpl in Hf.
    destruct fuel as [|fuel]; [lia|].
    cbn [OrderedSet.reversed_from].
    destruct (Nat.eqb_spec a OrderedSet.end_) as [E|_].
    + exfalso. apply H0. apply in_or_app. right. left. exact E.
    + rewrite Hp, Hk.
      rewrite (IH keys' (hd e [a]) fuel H1); [reflexivity| |lia].
      intros Hin. apply H0. apply in_or_app. auto.
Qed.

(** ** The dict *)

Lemma combine_app_same {A B} : forall (l1 l2 : list A) (m1 m2 : list B),
  length l1 = length m1 ->
  combine (l1 ++ l2) (m1 ++ m2) = combine l1 m1 ++ combine l2 m2.
Proof.
  induction l1 as [|x l1 IH]; intros l2 [|y m1] m2 H; simpl in *;
    try discriminate; auto.
  rewrite IH by lia. reflexivity.
Qed.

Lemma lookup_absent : forall (l : list Value) (addrs : list nat) (k : Value),
  ~ In k l -> lookup (combine l addrs) k = None.
Proof.
  induction l as [|x l IH]; intros [|a addrs] k H; simpl; auto.
  destruct (Value_eq_dec x k) as [->|_]; [exfalso; apply H; simpl; auto|].
  apply IH. intros Hin. apply H. simpl; auto.
Qed.

Lemma lookup_present : forall (l1 l2 : list Value) (a1 a2 : list nat)
    (k : Value) (a : nat),
  length l1 = length a1 -> ~ In k l1 ->
  lookup (combine (l1 ++ k :: l2) (a1 ++ a :: a2)) k = Some a /\
  dict_remove (combine (l1 ++ k :: l2) (a1 ++ a :: a2)) k
  = combine (l1 ++ l2) (a1 ++ a2).
Proof.
  induction l1 as [|x l1 IH]; intros l2 [|b a1] a2 k a Hl Hnin;
    simpl in Hl; try discriminate; simpl.
  - destruct (Value_eq_dec k k); [auto | congruence].
  - destruct (Value_eq_dec x k) as [->|_];
      [exfalso; apply Hnin; simpl; auto|].
    destruct (IH l2 a1 a2 k a) as [H1 H2]; [lia | |].
    + intros Hin. apply Hnin. simpl; auto.
    + rewrite H1, H2. auto.
Qed.

(** ** The representation *)

(** The OrderedSet [s] holds the values [l], in this order. *)
Definition rep (s : OrderedSet.t Value) (l : list Value) : Prop :=
  exists addrs : list nat,
    linked (OrderedSet.cells s) 0 addrs l 0 /\
    OrderedSet.next (get (OrderedSet.cells s) 0) = hd 0%nat addrs /\
    OrderedSet.prev (get (OrderedSet.cells s) 0) = last addrs 0%nat /\
    NoDup addrs /\
    Forall (fun a => (0 < a < length (OrderedSet.cells s))%nat) addrs /\
    (0 < length (OrderedSet.cells s))%nat /\
    NoDup l /\
    OrderedSet.map s = combine l addrs.

Lemma rep_init : rep (OrderedSet.init Value none) [].
Proof.
  exists []. simpl. repeat split; auto; try constructor.
Qed.

Lemma rep_observe (s : OrderedSet.t Value) (l : list Value) :
  rep s l ->
  OrderedSet.iter Value none s = Some l /\
  OrderedSet.reversed Value none s = Some (rev l) /\
  OrderedSet.len Value s = length l /\
  NoDup l /\
  forall k, OrderedSet.contains Value Value_eq_dec s k = true <-> In k l.
Proof.
  intros (addrs & Hl & Hn & Hp & Hnd & Hlt & Hpos & Hndl & Hmap).
  pose proof (linked_length _ _ _ _ _ Hl) as Hlen.
  assert (H0 : ~ In 0%nat addrs).
  { intros H. rewrite Forall_forall in Hlt. apply Hlt in H. lia. }
  assert (Hfuel : (length addrs <= length (OrderedSet.cells s))%nat).
  { assert (Hinc : incl addrs (seq 0 (length (OrderedSet.cells s)))).
    { intros a Ha. rewrite Forall_forall in Hlt. apply Hlt in Ha.
      apply in_seq. lia. }
    pose proof (NoDup_incl_length Hnd Hinc) as H.
    rewrite length_seq in H. exact H. }
  split; [|split; [|split; [|split]]].
  - unfold OrderedSet.iter. unfold OrderedSet.end_. rewrite Hn.
    apply (iter_linked _ _ _ 0%nat); auto.
  - unfold OrderedSet.reversed. unfold OrderedSet.end_. rewrite Hp.
    apply (reversed_linked _ _ _ 0%nat); auto.
  - unfold OrderedSet.len. rewrite Hmap, length_combine. lia.
  - exact Hndl.
  - intros k. unfold OrderedSet.contains. rewrite Hmap.
    destruct (in_dec Value_eq_dec k l) as [Hin|Hnin].
    + apply in_split in Hin as (l1 & l2 & ->).
      assert (Hk1 : ~ In k l1).
      { apply NoDup_remove_2 in Hndl. intros H. apply Hndl.
        apply in_or_app. auto. }
      rewrite length_app in Hlen. simpl in Hlen.
      assert (Ha : addrs = firstn (length l1) addrs
                           ++ nth (length l1) addrs 0%nat
                           :: skipn (S (length l1)) addrs).
      { symmetry. apply firstn_skipn_middle.
        apply nth_error_nth'. lia. }
      rewrite Ha.
      destruct (lookup_present l1 l2 (firstn (length l1) addrs)
                  (skipn (S (length l1)) addrs) k
                  (nth (length l1) addrs 0%nat)) as [-> _]; auto.
      * rewrite length_firstn. lia.
      * split; auto. intros _. apply in_or_app. simpl. auto.
    + rewrite (lookup_absent l addrs k Hnin). split; [discriminate|tauto].
Qed.

Lemma rep_unique (s : OrderedSet.t Value) (l l' : list Value) :
  rep s l -> rep s l' -> l = l'.
Proof.
  intros H H'. apply rep_observe in H as [H _], H' as [H' _]. congruence.
Qed.

End OrderedSetFacts.

Section OrderedSetOperations.

Variable Value : Type.
Variable none : Value.
Variable Value_eq_dec : forall a b : Value, {a = b} + {a <> b}.

Local Abbreviation cell := (OrderedSet.cell Value).
Local Abbreviation get := (OrderedSet.get Value none).
Local Abbreviation update := (OrderedSet.update Value).
Local Abbreviation set_prev := (OrderedSet.set_prev Value).
Local Abbreviation set_next := (OrderedSet.set_next Value).
Local Abbreviation linked := (linked Value none).
Local Abbreviation rep := (rep Value none).

Lemma next_after_set_prev (p : nat) : forall (cs : list cell) (a b : nat),
  OrderedSet.next (get (update cs a (set_prev p)) b)
  = OrderedSet.next (get cs b).
Proof.
  unfold OrderedSet.get.
  induction cs as [|c cs IH]; intros [|a] [|b]; simpl; auto.
Qed.

Lemma prev_after_set_next (n : nat) : forall (cs : list cell) (a b : nat),
  OrderedSet.prev (get (update cs a (set_next n)) b)
  = OrderedSet.prev (get cs b).
Proof.
  unfold OrderedSet.get.
  induction cs as [|c cs IH]; intros [|a] [|b]; simpl; auto.
Qed.

Lemma last_in_or_default {A} (l : list A) (d : A) :
  l <> [] -> In (last l d) l.
Proof.
  intros H. destruct (exists_last H) as (l' & z & ->).
  rewrite last_last. apply in_or_app. simpl. auto.
Qed.

Lemma last_indep {A} (l : list A) (d d' : A) :
  l <> [] -> last l d = last l d'.
Proof.
  intros H. destruct (exists_last H) as (l' & z & ->).
  rewrite !last_last. reflexivity.
Qed.

Lemma rep_add (s : OrderedSet.t Value) (l : list Value) (k : Value) :
  rep s l ->
  rep (OrderedSet.add Value none Value_eq_dec s k)
    (if in_dec Value_eq_dec k l then l else l ++ [k]).
Proof.
  intros Hrep.
  destruct (rep_observe Value none Value_eq_dec s l Hrep)
    as (_ & _ & _ & _ & Hc).
  unfold OrderedSet.add.
  destruct (in_dec Value_eq_dec k l) as [Hin|Hnin].
  - rewrite (proj2 (Hc k) Hin). exact Hrep.
  - destruct (OrderedSet.contains Value Value_eq_dec s k) eqn:E;
      [exfalso; apply Hnin, Hc, E|].
    destruct Hrep as (addrs & Hl & Hn & Hp & Hnd & Hlt & Hpos & Hndl & Hmap).
    pose proof (linked_length _ _ _ _ _ _ _ Hl) as Hlen.
    set (cs := OrderedSet.cells s) in *.
    set (n := length cs) in *.
    unfold OrderedSet.end_. rewrite Hp.
    set (curr := last addrs 0%nat).
    set (cells1 := cs ++ [OrderedSet.Cell k curr 0%nat]).
    set (cells2 := update cells1 curr (set_next n)).
    set (cells3 := update cells2 0%nat (set_prev n)).
    assert (Hlt' : forall a, In a addrs -> (0 < a < n)%nat).
    { rewrite Forall_forall in Hlt. exact Hlt. }
    assert (Hcurr : (curr < n)%nat).
    { unfold curr. destruct addrs as [|b addrs']; [simpl; lia|].
      apply Hlt'. apply last_in_or_default. discriminate. }
    assert (Hl1 : length cells1 = S n).
    { unfold cells1. rewrite length_app. simpl. lia. }
    assert (Hl2 : length cells2 = S n).
    { unfold cells2. rewrite update_length. exact Hl1. }
    assert (Hl3 : length cells3 = S n).
    { unfold cells3. rewrite update_length. exact Hl2. }
    exists (addrs ++ [n]). simpl OrderedSet.cells. simpl OrderedSet.map.
    split; [|split; [|split; [|split; [|split; [|split; [|split]]]]]].
    + apply linked_app; [exact Hlen|]. split.
      * simpl hd. apply (linked_frame Value none cells2).
        { intros a Ha. unfold cells3. apply get_update_other.
          apply Hlt' in Ha. lia. }
        unfold cells2, curr. apply (linked_set_end Value none n cells1 _ _ _ 0%nat).
        -- apply (linked_frame Value none cs); auto.
           intros a Ha. unfold cells1. apply get_app_old.
           apply Hlt' in Ha. lia.
        -- exact Hnd.
        -- apply Forall_forall. intros a Ha. apply Hlt' in Ha. lia.
      * simpl. unfold cells3.
        rewrite get_update_other by lia.
        unfold cells2. rewrite get_update_other by lia.
        unfold cells1. fold n. unfold n. rewrite get_app_new. simpl. auto.
    + unfold cells3. rewrite next_after_set_prev.
      rewrite hd_app_hd. simpl hd. unfold cells2.
      destruct addrs as [|b addrs'].
      * unfold curr. simpl last. rewrite get_update_same by lia.
        reflexivity.
      * assert (Hne : curr <> 0%nat).
        { assert (In curr (b :: addrs'))
            by (apply last_in_or_default; discriminate).
          apply Hlt' in H. lia. }
        rewrite get_update_other by exact Hne.
        unfold cells1. rewrite get_app_old by lia. exact Hn.
    + unfold cells3. rewrite get_update_same by lia.
      rewrite last_last. reflexivity.
    + apply NoDup_app_disjoint; auto.
      * constructor; [intros [] | constructor].
      * intros a Ha [<-|[]]. apply Hlt' in Ha. lia.
    + rewrite Hl3. apply Forall_app. split.
      * apply Forall_forall. intros a Ha. apply Hlt' in Ha. lia.
      * constructor; [lia | constructor].
    + lia.
    + apply NoDup_app_disjoint; auto.
      * constructor; [intros [] | constructor].
      * intros a Ha [<-|[]]. contradiction.
    + rewrite Hmap, combine_app_same by lia. reflexivity.
Qed.

Lemma rep_discard (s : OrderedSet.t Value) (l : list Value) (k : Value) :
  rep s l ->
  rep (OrderedSet.discard Value none Value_eq_dec s k)
    (remove Value_eq_dec k l).
Proof.
  intros Hrep. unfold OrderedSet.discard.
  destruct (in_dec Value_eq_dec k l) as [Hin|Hnin].
  2:{ destruct Hrep as (addrs & Hl & Hn & Hp & Hnd & Hlt & Hpos & Hndl & Hmap).
      rewrite Hmap, (lookup_absent Value Value_eq_dec l addrs k Hnin).
      rewrite (notin_remove Value_eq_dec l k Hnin).
      exists addrs. repeat split; auto. }
  destruct Hrep as (addrs & Hl & Hn & Hp & Hnd & Hlt & Hpos & Hndl & Hmap).
  pose proof (linked_length _ _ _ _ _ _ _ Hl) as Hlen.
  apply in_split in Hin as (l1 & l2 & El).
  assert (Hk1 : ~ In k l1).
  { rewrite El in Hndl. apply NoDup_remove_2 in Hndl. intros H.
    apply Hndl. apply in_or_app. auto. }
  assert (Hk2 : ~ In k l2).
  { rewrite El in Hndl. apply NoDup_remove_2 in Hndl. intros H.
    apply Hndl. apply in_or_app. auto. }
  assert (Hll : (length l1 < length addrs)%nat).
  { rewrite Hlen, El, length_app. simpl. lia. }
  assert (Ea : exists a1 a a2,
             addrs = a1 ++ a :: a2 /\ length l1 = length a1).
  { exists (firstn (length l1) addrs), (nth (length l1) addrs 0%nat),
           (skipn (S (length l1)) addrs). split.
    - symmetry. apply firstn_skipn_middle. apply nth_error_nth'. exact Hll.
    - rewrite length_firstn. lia. }
  destruct Ea as (a1 & a & a2 & Ea & Hl1). subst addrs l.
  destruct (lookup_present Value Value_eq_dec l1 l2 a1 a2 k a Hl1 Hk1)
    as [Hlook Hrem].
  rewrite Hmap, Hlook, Hrem.
  assert (Erem : remove Value_eq_dec k (l1 ++ k :: l2) = l1 ++ l2).
  { rewrite remove_app, (notin_remove Value_eq_dec l1 k Hk1). simpl.
    destruct (Value_eq_dec k k); [|congruence].
    rewrite (notin_remove Value_eq_dec l2 k Hk2). reflexivity. }
  rewrite Erem.
  apply linked_app in Hl; [|lia]. destruct Hl as [Hla Hlb].
  simpl hd in Hla.
  assert (Hlb' := Hlb). simpl in Hlb'.
  destruct Hlb' as (Hkey & Hprev & Hnext & Hl2).
  set (cs := OrderedSet.cells s) in *.
  rewrite Hprev, Hnext.
  set (p := last a1 0%nat) in *.
  set (nx := hd 0%nat a2) in *.
  set (cells1 := update cs p (set_next nx)).
  set (cells2 := update cells1 nx (set_prev p)).
  assert (Hlt' : forall b, In b (a1 ++ a :: a2) -> (0 < b < length cs)%nat).
  { rewrite Forall_forall in Hlt. exact Hlt. }
  assert (Hnd1 : NoDup a1).
  { apply NoDup_app_remove_r in Hnd. exact Hnd. }
  assert (Hnd2 : NoDup (a :: a2)).
  { apply NoDup_app_remove_l in Hnd. exact Hnd. }
  assert (Hdisj : forall b, In b a1 -> ~ In b (a :: a2)).
  { intros b Hb1 Hb2. apply in_split in Hb1 as (u & v & ->).
    rewrite <- app_assoc in Hnd. apply NoDup_remove_2 in Hnd.
    apply Hnd. apply in_or_app. right. apply in_or_app. auto. }
  assert (Hpn : forall b, In b a2 -> p <> b).
  { intros b Hb E. destruct a1 as [|x a1'].
    - unfold p in E. simpl in E.
      assert (0 < b < length cs)%nat; [|lia].
      apply Hlt'. simpl. auto.
    - apply (Hdisj p); [apply last_in_or_default; discriminate|].
      rewrite E. simpl. auto. }
  assert (Hnp : forall b, In b a1 -> nx <> b).
  { intros b Hb E. destruct a2 as [|x a2'].
    - unfold nx in E. simpl in E.
      assert (0 < b < length cs)%nat; [|lia].
      apply Hlt'. apply in_or_app. auto.
    - apply (Hdisj b Hb). rewrite <- E. unfold nx. simpl. auto. }
  assert (Hlc1 : length cells1 = length cs)
    by (unfold cells1; apply update_length).
  assert (Hlc2 : length cells2 = length cs)
    by (unfold cells2; rewrite update_length; exact Hlc1).
  exists (a1 ++ a2). simpl OrderedSet.cells. simpl OrderedSet.map.
  split; [|split; [|split; [|split; [|split; [|split; [|split]]]]]].
  - apply linked_app; [lia|]. split.
    + fold nx. apply (linked_frame Value none cells1).
      { intros b Hb. unfold cells2. apply get_update_other.
        apply Hnp. exact Hb. }
      unfold cells1, p.
      apply (linked_set_end Value none nx cs a1 l1 0%nat a Hla Hnd1).
      apply Forall_forall. intros b Hb.
      assert (0 < b < length cs)%nat; [|lia].
      apply Hlt'. apply in_or_app. auto.
    + fold p. destruct a2 as [|b a2'].
      { destruct l2; [exact I | destruct Hl2]. }
      unfold cells2, nx. simpl hd.
      apply (linked_set_start Value none p cells1 b a2' l2 a 0%nat).
      * apply (linked_frame Value none cs); [|exact Hl2].
        intros x Hx. unfold cells1. apply get_update_other.
        apply Hpn. exact Hx.
      * inversion Hnd2; auto.
      * rewrite Hlc1.
        assert (0 < b < length cs)%nat; [|lia].
        apply Hlt'. apply in_or_app. right. simpl. auto.
  - unfold cells2. rewrite next_after_set_prev. unfold cells1.
    destruct a1 as [|x a1'].
    + unfold p. simpl last. rewrite get_update_same by exact Hpos.
      reflexivity.
    + assert (Hne : p <> 0%nat).
      { assert (H : In p (x :: a1'))
          by (apply last_in_or_default; discriminate).
        assert (0 < p < length cs)%nat; [|lia].
        apply Hlt'. apply in_or_app. auto. }
      rewrite get_update_other by exact Hne. rewrite Hn. reflexivity.
  - unfold cells2. destruct a2 as [|b a2'].
    + unfold nx. simpl hd. rewrite get_update_same by (rewrite Hlc1; exact Hpos).
      simpl. rewrite app_nil_r. reflexivity.
    + assert (Hne : nx <> 0%nat).
      { assert (0 < nx < length cs)%nat; [|lia].
        apply Hlt'. apply in_or_app. right. unfold nx. simpl. auto. }
      rewrite get_update_other by exact Hne.
      unfold cells1. rewrite prev_after_set_next, Hp.
      rewrite !last_app_last. reflexivity.
  - apply NoDup_remove_1 in Hnd. exact Hnd.
  - rewrite Hlc2. apply Forall_forall. intros b Hb. apply Hlt'.
    apply in_app_or in Hb as [Hb|Hb]; apply in_or_app; simpl; auto.
  - rewrite Hlc2. exact Hpos.
  - apply NoDup_remove_1 in Hndl. exact Hndl.
  - reflexivity.
Qed.

End OrderedSetOperations.

(** ** OrderedSet objects as their methods build them *)

Section OrderedSetReachable.

Variable Value : Type.
Variable none : Value.
Variable Value_eq_dec : forall a b : Value, {a = b} + {a <> b}.

(** The objects that calls of [add], [discard] and [pop] produce from an
    empty OrderedSet. *)
Inductive reachable : OrderedSet.t Value -> Prop :=
| reachable_init : reachable (OrderedSet.init Value none)
| reachable_add s k :
    reachable s -> reachable (OrderedSet.add Value none Value_eq_dec s k)
| reachable_discard s k :
    reachable s -> reachable (OrderedSet.discard Value none Value_eq_dec s k)
| reachable_pop s last :
    reachable s ->
    reachable (snd (OrderedSet.pop Value none Value_eq_dec s last)).

(** What [add] does to the sequence of values. *)
Definition added (l : list Value) (k : Value) : list Value :=
  if in_dec Value_eq_dec k l then l else l ++ [k].

Lemma reachable_rep (s : OrderedSet.t Value) :
  reachable s -> exists l, rep Value none s l.
Proof.
  induction 1 as [|s k Hs [l Hl]|s k Hs [l Hl]|s last Hs [l Hl]].
  - exists []. apply rep_init.
  - eexists. apply (rep_add Value none Value_eq_dec s l k Hl).
  - eexists. apply (rep_discard Value none Value_eq_dec s l k Hl).
  - unfold OrderedSet.pop.
    destruct (Nat.eqb (OrderedSet.len Value s) 0); simpl.
    + exists l. exact Hl.
    + eexists. apply (rep_discard Value none Value_eq_dec s l _ Hl).
Qed.

Lemma reachable_iter (s : OrderedSet.t Value) (l : list Value) :
  reachable s -> OrderedSet.iter Value none s = Some l -> rep Value none s l.
Proof.
  intros Hs Hi. destruct (reachable_rep s Hs) as [l' Hl'].
  destruct (rep_observe Value none Value_eq_dec s l' Hl') as [Hi' _].
  assert (l' = l) by congruence. subst. exact Hl'.
Qed.

Lemma rep_init_from : forall (items : list Value) (s : OrderedSet.t Value)
    (l : list Value),
  rep Value none s l ->
  rep Value none
    (fold_left (OrderedSet.add Value none Value_eq_dec) items s)
    (fold_left added items l).
Proof.
  induction items as [|x items IH]; intros s l H; simpl; auto.
  apply IH. apply (rep_add Value none Value_eq_dec s l x H).
Qed.

Lemma reachable_fold_add : forall (items : list Value)
    (s : OrderedSet.t Value),
  reachable s ->
  reachable (fold_left (OrderedSet.add Value none Value_eq_dec) items s).
Proof.
  induction items as [|x items IH]; intros s H; simpl; auto.
  apply IH. apply reachable_add. exact H.
Qed.

(** Adding the values of a list one by one keeps the first occurrence of
    each. *)
Lemma added_first_occurrences : forall (items acc : list Value),
  NoDup acc ->
  fold_left added items acc
  = rev (nodup Value_eq_dec (rev (acc ++ items))).
Proof.
  induction items as [|x items IH] using rev_ind; intros acc Hacc.
  - simpl. rewrite app_nil_r.
    rewrite nodup_fixed_point by (apply NoDup_rev; exact Hacc).
    rewrite rev_involutive. reflexivity.
  - rewrite fold_left_app. cbn [fold_left]. rewrite (IH acc Hacc).
    rewrite (app_assoc acc items [x]), (rev_app_distr (acc ++ items) [x]).
    cbn [rev app].
    set (L := rev (acc ++ items)).
    unfold added. cbn [nodup].
    assert (Hiff : In x (rev (nodup Value_eq_dec L)) <-> In x L).
    { rewrite <- in_rev. apply nodup_In. }
    destruct (in_dec Value_eq_dec x L) as [Hin|Hnin];
      destruct (in_dec Value_eq_dec x (rev (nodup Value_eq_dec L)))
        as [Hin'|Hnin'].
    + reflexivity.
    + exfalso. apply Hnin', Hiff, Hin.
    + exfalso. apply Hnin, Hiff, Hin'.
    + reflexivity.
Qed.

Lemma linked_last_key (cs : list (OrderedSet.cell Value)) :
  forall addrs keys p e,
    linked Value none cs p addrs keys e -> addrs <> [] ->
    OrderedSet.key (OrderedSet.get Value none cs (last addrs 0%nat))
    = last keys none.
Proof.
  intros addrs keys p e H Hne.
  destruct (exists_last Hne) as (addrs' & a & ->).
  pose proof (linked_length _ _ _ _ _ _ _ H) as Hl.
  rewrite length_app in Hl. simpl in Hl.
  destruct (exists_last (l:=keys)) as (keys' & k & ->).
  { intros ->. simpl in Hl. lia. }
  rewrite length_app in Hl. simpl in Hl.
  apply linked_app in H; [|lia]. destruct H as [_ H].
  simpl in H. rewrite !last_last. tauto.
Qed.

Lemma remove_last_NoDup (l : list Value) :
  NoDup l -> l <> [] ->
  remove Value_eq_dec (last l none) l = removelast l.
Proof.
  intros Hnd Hne. destruct (exists_last Hne) as (l' & x & ->).
  rewrite last_last, removelast_last, remove_app.
  apply NoDup_remove_2 in Hnd. rewrite app_nil_r in Hnd.
  rewrite (notin_remove Value_eq_dec l' x Hnd). simpl.
  destruct (Value_eq_dec x x); [|congruence]. apply app_nil_r.
Qed.

Lemma remove_head_NoDup (l : list Value) :
  NoDup l -> l <> [] -> remove Value_eq_dec (hd none l) l = tl l.
Proof.
  intros Hnd Hne. destruct l as [|x l]; [congruence|]. simpl.
  destruct (Value_eq_dec x x); [|congruence].
  inversion Hnd; subst. apply notin_remove. assumption.
Qed.

Lemma same_set_spec (a b : list Value) :
  OrderedSet.same_set Value Value_eq_dec a b = true <->
  forall k, In k a <-> In k b.
Proof.
  unfold OrderedSet.same_set. rewrite andb_true_iff, !forallb_forall. split.
  - intros [H1 H2] k. split; intros Hk.
    + specialize (H1 k Hk). destruct (in_dec Value_eq_dec k b); auto.
      discriminate.
    + specialize (H2 k Hk). destruct (in_dec Value_eq_dec k a); auto.
      discriminate.
  - intros H. split; intros k Hk.
    + destruct (in_dec Value_eq_dec k b); auto. exfalso. apply n, H, Hk.
    + destruct (in_dec Value_eq_dec k a); auto. exfalso. apply n, H, Hk.
Qed.

End OrderedSetReachable.

(** X25.  For an OrderedSet built by [add], [discard] and [pop] from an
    empty one: the loop of [__iter__] ends within as many passes as there
    are cells and yields each value once; [__reversed__] yields the same
    values in the opposite order; [__len__] is their number, and
    [__contains__] holds exactly for them. *)
Theorem ordered_set_iterates_each_value_once :
  forall (Value : Type) (none : Value)
         (Value_eq_dec : forall a b : Value, {a = b} + {a <> b})
         (s : OrderedSet.t Value),
    reachable Value none Value_eq_dec s ->
    exists l : list Value,
      OrderedSet.iter Value none s = Some l /\
      NoDup l /\
      OrderedSet.reversed Value none s = Some (rev l) /\
      OrderedSet.len Value s = length l /\
      forall k, OrderedSet.contains Value Value_eq_dec s k = true <-> In k l.
Proof.
  intros Value none dec s Hs.
  destruct (reachable_rep Value none dec s Hs) as [l Hl].
  destruct (rep_observe Value none dec s l Hl) as (H1 & H2 & H3 & H4 & H5).
  exists l. auto.
Qed.

(** The set built by adding 3, 1, 3 and 2 and discarding 1. *)
Lemma ordered_set_iterates_each_value_once_witness :
  exists l : list Z,
    OrderedSet.iter Z (-1)
      (OrderedSet.discard Z (-1) Z.eq_dec
         (OrderedSet.init_from Z (-1) Z.eq_dec [3; 1; 3; 2]) 1) = Some l /\
    NoDup l /\
    OrderedSet.reversed Z (-1)
      (OrderedSet.discard Z (-1) Z.eq_dec
         (OrderedSet.init_from Z (-1) Z.eq_dec [3; 1; 3; 2]) 1)
      = Some (rev l) /\
    OrderedSet.len Z
      (OrderedSet.discard Z (-1) Z.eq_dec
         (OrderedSet.init_from Z (-1) Z.eq_dec [3; 1; 3; 2]) 1) = length l /\
    forall k,
      OrderedSet.contains Z Z.eq_dec
        (OrderedSet.discard Z (-1) Z.eq_dec
           (OrderedSet.init_from Z (-1) Z.eq_dec [3; 1; 3; 2]) 1) k = true
      <-> In k l.
Proof.
  apply (ordered_set_iterates_each_value_once Z (-1) Z.eq_dec).
  apply reachable_discard.
  apply (reachable_fold_add Z (-1) Z.eq_dec [3; 1; 3; 2]).
  apply reachable_init.
Defined.

(** X26.  On an OrderedSet built by its methods that holds the values [l]:
    [add] of a value that is present changes nothing that iteration shows,
    [add] of a new value puts it last, and [discard] takes the value out
    and keeps the order of the others (an absent value is ignored). *)
Theorem ordered_set_add_appends_and_discard_removes :
  forall (Value : Type) (none : Value)
         (Value_eq_dec : forall a b : Value, {a = b} + {a <> b})
         (s : OrderedSet.t Value) (l : list Value) (k : Value),
    reachable Value none Value_eq_dec s ->
    OrderedSet.iter Value none s = Some l ->
    OrderedSet.iter Value none (OrderedSet.add Value none Value_eq_dec s k)
      = Some (if in_dec Value_eq_dec k l then l else l ++ [k]) /\
    OrderedSet.iter Value none
      (OrderedSet.discard Value none Value_eq_dec s k)
      = Some (remove Value_eq_dec k l) /\
    (~ In k l ->
     OrderedSet.iter Value none
       (OrderedSet.discard Value none Value_eq_dec
          (OrderedSet.add Value none Value_eq_dec s k) k) = Some l).
Proof.
  intros Value none dec s l k Hs Hi.
  pose proof (reachable_iter Value none dec s l Hs Hi) as Hrep.
  pose proof (rep_add Value none dec s l k Hrep) as Hadd.
  pose proof (rep_discard Value none dec s l k Hrep) as Hdis.
  split; [apply (rep_observe Value none dec _ _ Hadd)|].
  split; [apply (rep_observe Value none dec _ _ Hdis)|].
  intros Hnin.
  pose proof (rep_discard Value none dec _ _ k Hadd) as Hboth.
  destruct (in_dec dec k l) as [Hin|_]; [contradiction|].
  rewrite remove_app, (notin_remove dec l k Hnin) in Hboth. simpl in Hboth.
  destruct (dec k k); [|congruence]. rewrite app_nil_r in Hboth.
  apply (rep_observe Value none dec _ _ Hboth).
Qed.

(** The set 3, 1, 2 and the value 1. *)
Lemma ordered_set_add_appends_and_discard_removes_witness :
  OrderedSet.iter Z (-1)
    (OrderedSet.add Z (-1) Z.eq_dec
       (OrderedSet.init_from Z (-1) Z.eq_dec [3; 1; 2]) 1)
    = Some (if in_dec Z.eq_dec 1 [3; 1; 2] then [3; 1; 2]
            else [3; 1; 2] ++ [1]) /\
  OrderedSet.iter Z (-1)
    (OrderedSet.discard Z (-1) Z.eq_dec
       (OrderedSet.init_from Z (-1) Z.eq_dec [3; 1; 2]) 1)
    = Some (remove Z.eq_dec 1 [3; 1; 2]) /\
  (~ In 1 [3; 1; 2] ->
   OrderedSet.iter Z (-1)
     (OrderedSet.discard Z (-1) Z.eq_dec
        (OrderedSet.add Z (-1) Z.eq_dec
           (OrderedSet.init_from Z (-1) Z.eq_dec [3; 1; 2]) 1) 1)
   = Some [3; 1; 2]).
Proof.
  apply (ordered_set_add_appends_and_discard_removes Z (-1) Z.eq_dec).
  - apply (reachable_fold_add Z (-1) Z.eq_dec [3; 1; 2]).
    apply reachable_init.
  - reflexivity.
Defined.

(** X27.  On an OrderedSet built by its methods that holds the values [l]:
    [pop] raises KeyError and changes nothing when [l] is empty; otherwise
    [pop()] returns the last value and [pop(last=False)] the first one, and
    the value returned is gone afterwards, the others keeping their
    order. *)
Theorem ordered_set_pop_takes_an_end :
  forall (Value : Type) (none : Value)
         (Value_eq_dec : forall a b : Value, {a = b} + {a <> b})
         (s : OrderedSet.t Value) (l : list Value),
    reachable Value none Value_eq_dec s ->
    OrderedSet.iter Value none s = Some l ->
    (l = [] ->
     forall last, OrderedSet.pop Value none Value_eq_dec s last
                  = (Raise KeyError, s)) /\
    (l <> [] ->
     (exists s',
         OrderedSet.pop Value none Value_eq_dec s true
           = (Ok (last l none), s') /\
         OrderedSet.iter Value none s' = Some (removelast l)) /\
     (exists s',
         OrderedSet.pop Value none Value_eq_dec s false
           = (Ok (hd none l), s') /\
         OrderedSet.iter Value none s' = Some (tl l))).
Proof.
  intros Value none dec s l Hs Hi.
  pose proof (reachable_iter Value none dec s l Hs Hi) as Hrep.
  destruct (rep_observe Value none dec s l Hrep) as (_ & _ & Hlen & Hnd & _).
  unfold OrderedSet.pop. rewrite Hlen. split.
  - intros -> last. reflexivity.
  - intros Hne.
    destruct l as [|x l']; [congruence|]. simpl length. simpl Nat.eqb.
    destruct Hrep as (addrs & Hl & Hn & Hp & Hnda & Hlt & Hpos & _ & Hmap).
    assert (Hrep : rep Value none s (x :: l')).
    { exists addrs. repeat split; auto. }
    assert (Hane : addrs <> []).
    { intros ->. destruct Hl. }
    assert (Hklast :
              OrderedSet.key
                (OrderedSet.get Value none (OrderedSet.cells s)
                   (OrderedSet.prev
                      (OrderedSet.get Value none (OrderedSet.cells s) 0)))
              = last (x :: l') none).
    { rewrite Hp. apply (linked_last_key Value none _ _ _ _ _ Hl Hane). }
    assert (Hkfirst :
              OrderedSet.key
                (OrderedSet.get Value none (OrderedSet.cells s)
                   (OrderedSet.next
                      (OrderedSet.get Value none (OrderedSet.cells s) 0)))
              = x).
    { rewrite Hn. destruct addrs as [|a addrs']; [congruence|].
      simpl in Hl. simpl hd. tauto. }
    unfold OrderedSet.end_. rewrite Hklast, Hkfirst. split.
    + eexists. split; [reflexivity|].
      pose proof (rep_discard Value none dec s (x :: l')
                    (last (x :: l') none) Hrep) as Hd.
      rewrite (remove_last_NoDup Value none dec (x :: l') Hnd Hne) in Hd.
      apply (rep_observe Value none dec _ _ Hd).
    + eexists. split; [reflexivity|].
      pose proof (rep_discard Value none dec s (x :: l') x Hrep) as Hd.
      pose proof (remove_head_NoDup Value none dec (x :: l') Hnd Hne) as Er.
      simpl hd in Er. rewrite Er in Hd.
      apply (rep_observe Value none dec _ _ Hd).
Qed.

(** The set 3, 1, 2. *)
Lemma ordered_set_pop_takes_an_end_witness :
  (exists s',
      OrderedSet.pop Z (-1) Z.eq_dec
        (OrderedSet.init_from Z (-1) Z.eq_dec [3; 1; 2]) true
        = (Ok (last [3; 1; 2] (-1)), s') /\
      OrderedSet.iter Z (-1) s' = Some (removelast [3; 1; 2])) /\
  (exists s',
      OrderedSet.pop Z (-1) Z.eq_dec
        (OrderedSet.init_from Z (-1) Z.eq_dec [3; 1; 2]) false
        = (Ok (hd (-1) [3; 1; 2]), s') /\
      OrderedSet.iter Z (-1) s' = Some (tl [3; 1; 2])).
Proof.
  apply (ordered_set_pop_takes_an_end Z (-1) Z.eq_dec
           (OrderedSet.init_from Z (-1) Z.eq_dec [3; 1; 2]) [3; 1; 2]).
  - apply (reachable_fold_add Z (-1) Z.eq_dec [3; 1; 2]).
    apply reachable_init.
  - reflexivity.
  - discriminate.
Defined.

(** X28.  An OrderedSet constructed from an iterable holds the values of
    the iterable in the order of their first occurrence, each once. *)
Theorem ordered_set_keeps_first_occurrences :
  forall (Value : Type) (none : Value)
         (Value_eq_dec : forall a b : Value, {a = b} + {a <> b})
         (iterable : list Value),
    OrderedSet.iter Value none
      (OrderedSet.init_from Value none Value_eq_dec iterable)
      = Some (rev (nodup Value_eq_dec (rev iterable))) /\
    OrderedSet.len Value
      (OrderedSet.init_from Value none Value_eq_dec iterable)
      = length (nodup Value_eq_dec (rev iterable)).
Proof.
  intros Value none dec items.
  pose proof (rep_init_from Value none dec items _ []
                (rep_init Value none)) as H.
  rewrite (added_first_occurrences Value dec items [] (NoDup_nil _)) in H.
  simpl app in H.
  destruct (rep_observe Value none dec _ _ H) as (H1 & _ & H3 & _).
  split; [exact H1|]. rewrite length_rev in H3. exact H3.
Qed.

(** X29.  For two OrderedSets built by their methods, [==] is True exactly
    when both hold the same values in the same order; against another
    iterable, [==] is True exactly when both have the same values, in
    whatever order and number. *)
Theorem ordered_set_equality_is_order_sensitive :
  forall (Value : Type) (none : Value)
         (Value_eq_dec : forall a b : Value, {a = b} + {a <> b})
         (s1 s2 : OrderedSet.t Value) (l1 l2 items : list Value),
    reachable Value none Value_eq_dec s1 ->
    reachable Value none Value_eq_dec s2 ->
    OrderedSet.iter Value none s1 = Some l1 ->
    OrderedSet.iter Value none s2 = Some l2 ->
    (exists b, OrderedSet.eq Value none Value_eq_dec s1 (inl s2) = Some b /\
               (b = true <-> l1 = l2)) /\
    (exists b, OrderedSet.eq Value none Value_eq_dec s1 (inr items) = Some b /\
               (b = true <-> forall k, In k l1 <-> In k items)).
Proof.
  intros Value none dec s1 s2 l1 l2 items Hs1 Hs2 Hi1 Hi2.
  pose proof (reachable_iter Value none dec s1 l1 Hs1 Hi1) as Hr1.
  pose proof (reachable_iter Value none dec s2 l2 Hs2 Hi2) as Hr2.
  destruct (rep_observe Value none dec s1 l1 Hr1) as (_ & _ & Hn1 & _).
  destruct (rep_observe Value none dec s2 l2 Hr2) as (_ & _ & Hn2 & _).
  unfold OrderedSet.eq. rewrite Hi1, Hi2, Hn1, Hn2. split.
  - destruct (Nat.eqb_spec (length l1) (length l2)) as [E|E].
    + eexists. split; [reflexivity|]. unfold OrderedSet.list_eqb.
      destruct (list_eq_dec dec l1 l2); split; congruence.
    + exists false. split; [reflexivity|]. split; [discriminate|].
      intros ->. congruence.
  - eexists. split; [reflexivity|]. apply same_set_spec.
Qed.

(** The sets 1, 2 and 2, 1, and the list 2, 1, 1. *)
Lemma ordered_set_equality_is_order_sensitive_witness :
  (exists b,
      OrderedSet.eq Z (-1) Z.eq_dec
        (OrderedSet.init_from Z (-1) Z.eq_dec [1; 2])
        (inl (OrderedSet.init_from Z (-1) Z.eq_dec [2; 1])) = Some b /\
      (b = true <-> [1; 2] = [2; 1])) /\
  (exists b,
      OrderedSet.eq Z (-1) Z.eq_dec
        (OrderedSet.init_from Z (-1) Z.eq_dec [1; 2]) (inr [2; 1; 1])
        = Some b /\
      (b = true <-> forall k, In k [1; 2] <-> In k [2; 1; 1])).
Proof.
  apply (ordered_set_equality_is_order_sensitive Z (-1) Z.eq_dec
           (OrderedSet.init_from Z (-1) Z.eq_dec [1; 2])
           (OrderedSet.init_from Z (-1) Z.eq_dec [2; 1])).
  - apply (reachable_fold_add Z (-1) Z.eq_dec [1; 2]). apply reachable_init.
  - apply (reachable_fold_add Z (-1) Z.eq_dec [2; 1]). apply reachable_init.
  - reflexivity.
  - reflexivity.
Defined.

(** * sumpy/expansion/__init__.py: from full to stored coefficients *)

Module TransposedTransform.

Section TransposedTransform.

Variable K : Type.
Variables (rzero : K) (radd rmul : K -> K -> K).

(** The number of columns of a 2-d array with at least one row. *)
Definition ncols (coeff_matrix : list (list K)) : nat :=
  match coeff_matrix with
  | [] => 0
  | row :: _ => length row
  end.

(** [LinearRecurrenceBasedVolumeTaylorExpansion.full_to_stored]:
    [self.coeff_matrix.T.dot(full_coeffs)] for a 1-d [full_coeffs]; numpy
    raises ValueError unless its length is the number of rows. *)
Definition full_to_stored (coeff_matrix : list (list K))
    (full_coeffs : list K) : result (list K) :=
  if Nat.eqb (length full_coeffs) (length coeff_matrix)
  then Ok (Expansion.dot_columns rzero radd rmul (ncols coeff_matrix)
             coeff_matrix full_coeffs)
  else Raise ValueError.

End TransposedTransform.

End TransposedTransform.

Lemma total_map_scale {A} (c : Z) (f : A -> Z) (l : list A) :
  total (map (fun i => c * f i) l) = c * total (map f l).
Proof. induction l as [|a l IH]; simpl; lia. Qed.

Lemma nth_map_seq (F : nat -> Z) (w i : nat) :
  (i < w)%nat -> nth i (map F (seq 0 w)) 0 = F i.
Proof.
  intros H.
  rewrite (nth_error_nth (map F (seq 0 w)) i 0 (x:=F i)); [reflexivity|].
  rewrite nth_error_map.
  rewrite (nth_error_nth' (seq 0 w) 0%nat) by (rewrite length_seq; exact H).
  rewrite seq_nth by exact H. reflexivity.
Qed.

Lemma dot1_total (a b : list Z) :
  Expansion.dot1 0 Z.add Z.mul a b = total (Np.zip_with Z.mul a b).
Proof. unfold Expansion.dot1. rewrite fold_left_add_total. lia. Qed.

Lemma dot1_columns_sum (x : list Z) (F : nat -> Z) :
  Expansion.dot1 0 Z.add Z.mul x (map F (seq 0 (length x)))
  = total (map (fun i => nth i x 0 * F i) (seq 0 (length x))).
Proof.
  rewrite dot1_total.
  rewrite total_zip_with_seq by (rewrite length_map, length_seq; reflexivity).
  apply total_map_ext. intros i Hi. apply in_seq in Hi.
  rewrite nth_map_seq by lia. reflexivity.
Qed.

(** The transposed matrix is the adjoint for the sum of products. *)
Lemma dot_columns_adjoint (x : list Z) : forall (M : list (list Z))
    (f : list Z),
  Forall (fun row => length row = length x) M ->
  length f = length M ->
  Expansion.dot1 0 Z.add Z.mul
    (map (fun row => Expansion.dot1 0 Z.add Z.mul row x) M) f
  = Expansion.dot1 0 Z.add Z.mul x
      (Expansion.dot_columns 0 Z.add Z.mul (length x) M f).
Proof.
  induction M as [|row M IH]; intros f Hrows Hf.
  - destruct f; [|discriminate]. unfold Expansion.dot_columns.
    rewrite dot1_columns_sum. simpl.
    rewrite (total_map_ext _ (fun _ => 0)); [rewrite total_map_zero; auto|].
    intros. rewrite dot1_total. simpl. lia.
  - destruct f as [|fp f]; [discriminate|]. simpl in Hf.
    inversion Hrows as [|r M' Hrow Hrows']; subst.
    specialize (IH f Hrows' ltac:(lia)).
    unfold Expansion.dot_columns in *.
    rewrite dot1_columns_sum in *.
    rewrite dot1_total. cbn [map Np.zip_with total fold_right].
    rewrite <- dot1_total, IH.
    rewrite (total_map_ext
      (fun i => nth i x 0
                * Expansion.dot1 0 Z.add Z.mul
                    (map (fun row0 => nth i row0 0) (row :: M)) (fp :: f))
      (fun i => fp * (nth i row 0 * nth i x 0)
                + nth i x 0
                  * Expansion.dot1 0 Z.add Z.mul
                      (map (fun row0 => nth i row0 0) M) f)).
    2:{ intros i _. rewrite !dot1_total. simpl. lia. }
    rewrite total_map_add, total_map_scale.
    rewrite dot1_total, total_zip_with_seq by congruence.
    rewrite Hrow. lia.
Qed.

(** X30.  For a coefficient matrix with at least one row whose rows all
    have as many entries as there are stored coefficients: [full_to_stored]
    of one coefficient per row returns one coefficient per stored
    identifier, and it is the transpose of [stored_to_full]: the sum of
    products of [stored_to_full(x)] with [f] equals that of [x] with
    [full_to_stored(f)].  A list of another length makes [full_to_stored]
    raise ValueError. *)
Theorem full_to_stored_is_the_transpose_of_stored_to_full :
  forall (M : list (list Z)) (x f : list Z),
    M <> [] ->
    Forall (fun row => length row = length x) M ->
    (length f = length M ->
     exists y g : list Z,
       Transforms.stored_to_full Z 0 Z.add Z.mul M x = Ok y /\
       TransposedTransform.full_to_stored Z 0 Z.add Z.mul M f = Ok g /\
       length y = length M /\ length g = length x /\
       Expansion.dot1 0 Z.add Z.mul y f = Expansion.dot1 0 Z.add Z.mul x g) /\
    (length f <> length M ->
     TransposedTransform.full_to_stored Z 0 Z.add Z.mul M f
       = Raise ValueError).
Proof.
  intros M x f Hne Hrows. split.
  - intros Hf.
    exists (map (fun row => Expansion.dot1 0 Z.add Z.mul row x) M),
           (Expansion.dot_columns 0 Z.add Z.mul (length x) M f).
    split; [|split; [|split; [|split]]].
    + unfold Transforms.stored_to_full.
      assert (E : forallb (fun row => Nat.eqb (length row) (length x)) M
                  = true).
      { apply forallb_forall. intros row Hr. rewrite Forall_forall in Hrows.
        apply Nat.eqb_eq. auto. }
      rewrite E. reflexivity.
    + unfold TransposedTransform.full_to_stored.
      rewrite Hf, Nat.eqb_refl.
      destruct M as [|row M']; [congruence|].
      inversion Hrows; subst. simpl TransposedTransform.ncols.
      congruence.
    + apply length_map.
    + unfold Expansion.dot_columns. rewrite length_map, length_seq.
      reflexivity.
    + apply dot_columns_adjoint; auto.
  - intros Hf. unfold TransposedTransform.full_to_stored.
    destruct (Nat.eqb_spec (length f) (length M)); [contradiction|].
    reflexivity.
Qed.

(** The Laplace matrix of order 2 in dimension 2. *)
Lemma full_to_stored_is_the_transpose_of_stored_to_full_witness :
  exists y g : list Z,
    Transforms.stored_to_full Z 0 Z.add Z.mul
      [[1; 0; 0; 0; 0]; [0; 1; 0; 0; 0]; [0; 0; 1; 0; 0];
       [0; 0; 0; 1; 0]; [0; 0; 0; 0; 1]; [0; 0; 0; -1; 0]]
      [10; 20; 30; 40; 50] = Ok y /\
    TransposedTransform.full_to_stored Z 0 Z.add Z.mul
      [[1; 0; 0; 0; 0]; [0; 1; 0; 0; 0]; [0; 0; 1; 0; 0];
       [0; 0; 0; 1; 0]; [0; 0; 0; 0; 1]; [0; 0; 0; -1; 0]]
      [1; 2; 3; 4; 5; 6] = Ok g /\
    length y = 6%nat /\ length g = 5%nat /\
    Expansion.dot1 0 Z.add Z.mul y [1; 2; 3; 4; 5; 6]
    = Expansion.dot1 0 Z.add Z.mul [10; 20; 30; 40; 50] g.
Proof.
  apply (full_to_stored_is_the_transpose_of_stored_to_full
           [[1; 0; 0; 0; 0]; [0; 1; 0; 0; 0]; [0; 0; 1; 0; 0];
            [0; 0; 0; 1; 0]; [0; 0; 0; 0; 1]; [0; 0; 0; -1; 0]]
           [10; 20; 30; 40; 50] [1; 2; 3; 4; 5; 6]).
  - discriminate.
  - repeat constructor.
  - reflexivity.
Defined.
